(** * GPT model of qdl.js: partition table parsing, rebuilding and A/B slots

    A shallow embedding of [src/gpt.js] (the class [GPT] and [parseABFlags])
    together with the parts of its collaborators it calls: the struct engine
    ([tiny-struct]: [from], [$toBuffer], [$clone]), the GUID and UTF-16 field
    codecs of [gpt-structs], the [crc-32] checksum and the logger.

    JavaScript objects live in a store ([heap]) and are named by locations, so
    that mutation through one reference is seen through every alias; methods
    are computations in a state-and-exception monad over that store. *)

From Stdlib Require Import ZArith Lia List Bool.
From Stdlib.Strings Require Import String Ascii Byte.
From stdpp Require Import base option list gmap.

Local Open Scope Z_scope.

(** ** Bytes and byte buffers ([Uint8Array]) *)

Definition byte_to_Z (b : byte) : Z := Z.of_N (Byte.to_N b).

Definition byte_of_Z (z : Z) : byte :=
  match Byte.of_N (Z.to_N (z mod 256)) with
  | Some b => b
  | None => x00
  end.

(** [data.slice(start, end)] on a typed array, for [0 <= start]: the elements
    at positions [start .. end-1] that exist. *)
Definition slice (data : list byte) (start stop : nat) : list byte :=
  take (stop - start)%nat (drop start data).

(** [DataView] accessors, little-endian. A write keeps the low bytes of the
    value (two's complement for a negative one). *)
Fixpoint le_bytes (width : nat) (z : Z) : list byte :=
  match width with
  | O => []
  | S w => byte_of_Z z :: le_bytes w (z / 256)
  end.

Fixpoint le_value (bs : list byte) : Z :=
  match bs with
  | [] => 0
  | b :: r => byte_to_Z b + 256 * le_value r
  end.

(** [ToInt32]: the signed reading of the low 32 bits. *)
Definition toInt32 (z : Z) : Z :=
  let m := z mod 2 ^ 32 in
  if m <? 2 ^ 31 then m else m - 2 ^ 32.

Definition getUint16 (data : list byte) (off : nat) : Z := le_value (slice data off (off + 2)).
Definition getUint32 (data : list byte) (off : nat) : Z := le_value (slice data off (off + 4)).
Definition getInt32 (data : list byte) (off : nat) : Z := toInt32 (getUint32 data off).
Definition getBigUint64 (data : list byte) (off : nat) : Z := le_value (slice data off (off + 8)).

(** What an unsigned 64-bit field holds once [value] is assigned to it: the
    low 64 bits, as [setBigUint64] writes them. *)
Definition asUint64 (value : Z) : Z := value mod 2 ^ 64.

(** ** JavaScript strings: sequences of UTF-16 code units *)

Definition jsstring := list Z.

Definition js (s : string) : jsstring :=
  map (fun a : ascii => Z.of_N (N_of_ascii a)) (list_ascii_of_string s).

Definition js_eqb (s t : jsstring) : bool := bool_decide (s = t).

(** [s.startsWith(p)] *)
Fixpoint startsWith (s p : jsstring) : bool :=
  match p, s with
  | [], _ => true
  | c :: p', d :: s' => (c =? d) && startsWith s' p'
  | _ :: _, [] => false
  end.

(** [s.slice(-n)]: the last [n] code units, or all of [s] when it is shorter. *)
Definition slice_last (n : nat) (s : jsstring) : jsstring :=
  drop (length s - n)%nat s.

(** [s.endsWith(p)] *)
Definition endsWith (s p : jsstring) : bool :=
  (length p <=? length s)%nat && js_eqb (drop (length s - length p)%nat s) p.

(** ** CRC-32 (package [crc-32], function [buf])

    The reflected IEEE 802.3 polynomial, bit by bit; [buf] returns the
    checksum as a signed 32-bit integer. *)

Definition crc32_poly : Z := 0xEDB88320.

Definition crc32_shift (c : Z) : Z :=
  if Z.testbit c 0 then Z.lxor (Z.shiftr c 1) crc32_poly else Z.shiftr c 1.

Definition crc32_update (c : Z) (b : byte) : Z :=
  Nat.iter 8 crc32_shift (Z.lxor c (byte_to_Z b)).

Definition crc32_unsigned (data : list byte) : Z :=
  Z.lxor (fold_left crc32_update data 0xFFFFFFFF) 0xFFFFFFFF.

Definition crc32 (data : list byte) : Z := toInt32 (crc32_unsigned data).

(** ** Struct engine ([tiny-struct]) and field codecs ([gpt-structs])

    Modelled from the spec: [struct-core], [field-types] and [gpt-structs] are
    not among the source files. The spec (sections 3, 4.1 and 4.2) gives the
    layout: fields at cumulative offsets in declaration order, little-endian
    integers, decoding copies the values out of the buffer (the view keeps no
    reference to it), decoding a buffer shorter than the schema's width fails;
    encoding writes every field at the same offset into a buffer of the
    schema's width, and gives back, bit for bit, the bytes a view was
    decoded from. A view is therefore a record of field values. Assigning
    to an unsigned 64-bit field keeps the low 64 bits of the value (the
    silent truncation of the spec's section 9). *)

(** [string(n)]: [n] single-byte characters, one code unit per byte. *)
Definition string_decode (bs : list byte) : jsstring := map byte_to_Z bs.

Definition string_encode (n : nat) (s : jsstring) : list byte :=
  take n (map byte_of_Z s ++ replicate n x00).

(** [bytes(n)]: the raw bytes. *)
Definition bytes_encode (n : nat) (bs : list byte) : list byte :=
  take n (bs ++ replicate n x00).

(** Lowercase hexadecimal digits as code units. *)
Definition hex_digit (v : Z) : Z := if v <? 10 then 48 + v else 87 + v.

Definition hex_value (c : Z) : Z :=
  if (48 <=? c) && (c <=? 57) then c - 48
  else if (97 <=? c) && (c <=? 102) then c - 87
  else if (65 <=? c) && (c <=? 70) then c - 55
  else 0.

Definition hex_byte (b : byte) : jsstring :=
  [hex_digit (byte_to_Z b / 16); hex_digit (byte_to_Z b mod 16)].

Definition hex_bytes (bs : list byte) : jsstring := concat (map hex_byte bs).

Fixpoint unhex (s : jsstring) : list byte :=
  match s with
  | hi :: lo :: r => byte_of_Z (16 * hex_value hi + hex_value lo) :: unhex r
  | _ => []
  end.

Definition dash : Z := 45.

(** [guid()]: 16 bytes rendered as the canonical dash-separated lowercase
    string; the first three groups (4, 2 and 2 bytes) are stored
    little-endian, the last eight bytes in the order they are written. *)
Definition guid_decode (bs : list byte) : jsstring :=
  hex_bytes (rev (slice bs 0 4)) ++ [dash] ++
  hex_bytes (rev (slice bs 4 6)) ++ [dash] ++
  hex_bytes (rev (slice bs 6 8)) ++ [dash] ++
  hex_bytes (slice bs 8 10) ++ [dash] ++
  hex_bytes (slice bs 10 16).

Definition guid_encode (s : jsstring) : list byte :=
  let digits := unhex (filter (fun c => c <> dash) s) in
  bytes_encode 16
    (rev (slice digits 0 4) ++ rev (slice digits 4 6) ++ rev (slice digits 6 8) ++
     slice digits 8 16).

(** [utf16cstring(n)]: [n] little-endian UTF-16 code units, zero-padded. The
    string read from the field ends before the first zero code unit; the
    code units from that zero to the end of the field are opaque data that
    decoding keeps and encoding writes back (spec, sections 4.1 and 9), so
    that a decoded field encodes to the bytes it came from. *)
Fixpoint utf16_units (n : nat) (bs : list byte) : list Z :=
  match n with
  | O => []
  | S k => le_value (take 2 bs) :: utf16_units k (drop 2 bs)
  end.

Fixpoint until_nul (cs : list Z) : list Z :=
  match cs with
  | [] => []
  | c :: r => if c =? 0 then [] else c :: until_nul r
  end.

Definition utf16cstring_decode (n : nat) (bs : list byte) : jsstring :=
  until_nul (utf16_units n bs).

(** The code units of the field that follow the string: none when the
    string fills the field. *)
Definition utf16cstring_rest (n : nat) (bs : list byte) : list Z :=
  drop (length (utf16cstring_decode n bs)) (utf16_units n bs).

(** The field for the code units [s]: the string followed by the units kept
    with it. *)
Definition utf16cstring_encode (n : nat) (s : list Z) : list byte :=
  take (2 * n) (concat (map (le_bytes 2) s) ++ replicate (2 * n) x00).

(** *** The header schema *)

Module GPTHeader.

Record t := mk {
  signature : jsstring;           (* string(8)  @0  *)
  revision : Z;                   (* uint32     @8  *)
  headerSize : Z;                 (* uint32     @12 *)
  headerCrc32 : Z;                (* int32      @16 *)
  reserved : Z;                   (* uint32     @20 *)
  currentLba : Z;                 (* uint64     @24 *)
  alternateLba : Z;               (* uint64     @32 *)
  firstUsableLba : Z;             (* uint64     @40 *)
  lastUsableLba : Z;              (* uint64     @48 *)
  diskGuid : list byte;           (* bytes(16)  @56 *)
  partEntriesStartLba : Z;        (* uint64     @72 *)
  numPartEntries : Z;             (* uint32     @80 *)
  partEntrySize : Z;              (* uint32     @84 *)
  partEntriesCrc32 : Z;           (* int32      @88 *)
}.

Definition size : nat := 92.

Definition decode (data : list byte) : t := {|
  signature := string_decode (slice data 0 8);
  revision := getUint32 data 8;
  headerSize := getUint32 data 12;
  headerCrc32 := getInt32 data 16;
  reserved := getUint32 data 20;
  currentLba := getBigUint64 data 24;
  alternateLba := getBigUint64 data 32;
  firstUsableLba := getBigUint64 data 40;
  lastUsableLba := getBigUint64 data 48;
  diskGuid := slice data 56 72;
  partEntriesStartLba := getBigUint64 data 72;
  numPartEntries := getUint32 data 80;
  partEntrySize := getUint32 data 84;
  partEntriesCrc32 := getInt32 data 88;
|}.

(** [$toBuffer()] *)
Definition toBuffer (h : t) : list byte :=
  string_encode 8 (signature h) ++
  le_bytes 4 (revision h) ++
  le_bytes 4 (headerSize h) ++
  le_bytes 4 (headerCrc32 h) ++
  le_bytes 4 (reserved h) ++
  le_bytes 8 (currentLba h) ++
  le_bytes 8 (alternateLba h) ++
  le_bytes 8 (firstUsableLba h) ++
  le_bytes 8 (lastUsableLba h) ++
  bytes_encode 16 (diskGuid h) ++
  le_bytes 8 (partEntriesStartLba h) ++
  le_bytes 4 (numPartEntries h) ++
  le_bytes 4 (partEntrySize h) ++
  le_bytes 4 (partEntriesCrc32 h).

(** Field assignments [view.field = value]. The two checksum fields are
    only ever assigned [0] or a [crc32], which a signed 32-bit field holds
    as it is; an unsigned 64-bit field keeps the low 64 bits of the value. *)
Definition set_headerCrc32 (v : Z) (h : t) : t :=
  mk (signature h) (revision h) (headerSize h) v (reserved h) (currentLba h)
     (alternateLba h) (firstUsableLba h) (lastUsableLba h) (diskGuid h)
     (partEntriesStartLba h) (numPartEntries h) (partEntrySize h) (partEntriesCrc32 h).

Definition set_partEntriesCrc32 (v : Z) (h : t) : t :=
  mk (signature h) (revision h) (headerSize h) (headerCrc32 h) (reserved h) (currentLba h)
     (alternateLba h) (firstUsableLba h) (lastUsableLba h) (diskGuid h)
     (partEntriesStartLba h) (numPartEntries h) (partEntrySize h) v.

Definition set_currentLba (v : Z) (h : t) : t :=
  mk (signature h) (revision h) (headerSize h) (headerCrc32 h) (reserved h) (asUint64 v)
     (alternateLba h) (firstUsableLba h) (lastUsableLba h) (diskGuid h)
     (partEntriesStartLba h) (numPartEntries h) (partEntrySize h) (partEntriesCrc32 h).

Definition set_alternateLba (v : Z) (h : t) : t :=
  mk (signature h) (revision h) (headerSize h) (headerCrc32 h) (reserved h) (currentLba h)
     (asUint64 v) (firstUsableLba h) (lastUsableLba h) (diskGuid h)
     (partEntriesStartLba h) (numPartEntries h) (partEntrySize h) (partEntriesCrc32 h).

Definition set_partEntriesStartLba (v : Z) (h : t) : t :=
  mk (signature h) (revision h) (headerSize h) (headerCrc32 h) (reserved h) (currentLba h)
     (alternateLba h) (firstUsableLba h) (lastUsableLba h) (diskGuid h)
     (asUint64 v) (numPartEntries h) (partEntrySize h) (partEntriesCrc32 h).

End GPTHeader.

(** *** The partition entry schema *)

Module GPTPartitionEntry.

Record t := mk {
  type : jsstring;                (* guid()            @0  *)
  unique : jsstring;              (* guid()            @16 *)
  startingLba : Z;                (* uint64            @32 *)
  endingLba : Z;                  (* uint64            @40 *)
  attributes : Z;                 (* uint64            @48 *)
  name : jsstring;                (* utf16cstring(36)  @56 *)
  name_rest : list Z;             (* the field's code units after the name *)
}.

Definition size : nat := 128.

Definition decode (data : list byte) : t := {|
  type := guid_decode (slice data 0 16);
  unique := guid_decode (slice data 16 32);
  startingLba := getBigUint64 data 32;
  endingLba := getBigUint64 data 40;
  attributes := getBigUint64 data 48;
  name := utf16cstring_decode 36 (slice data 56 128);
  name_rest := utf16cstring_rest 36 (slice data 56 128);
|}.

Definition toBuffer (e : t) : list byte :=
  guid_encode (type e) ++
  guid_encode (unique e) ++
  le_bytes 8 (startingLba e) ++
  le_bytes 8 (endingLba e) ++
  le_bytes 8 (attributes e) ++
  utf16cstring_encode 36 (name e ++ name_rest e).

(** [partEntry.attributes = v]. The field keeps the low 64 bits of [v];
    [v] is stored as it is because the word [setActiveSlot] assigns, the
    only one assigned, is below [2^64] whenever the entry's word is, as
    every decoded word is. *)
Definition set_attributes (v : Z) (e : t) : t :=
  mk (type e) (unique e) (startingLba e) (endingLba e) v (name e) (name_rest e).

End GPTPartitionEntry.

(** ** Constants of [gpt.js] *)

Definition SIGNATURE : jsstring := js "EFI PART".
Definition TYPE_EFI_UNUSED : jsstring := js "00000000-0000-0000-0000-000000000000".

Definition PART_ATT_PRIORITY_BIT : Z := 48.
Definition PART_ATT_ACTIVE_BIT : Z := 50.
Definition PART_ATT_RETRY_CNT_BIT : Z := 51.
Definition PART_ATT_SUCCESS_BIT : Z := 54.
Definition PART_ATT_UNBOOTABLE_BIT : Z := 55.

Definition PART_ATT_PRIORITY_MASK : Z := Z.shiftl 0x3 PART_ATT_PRIORITY_BIT.
Definition PART_ATT_ACTIVE_VAL : Z := Z.shiftl 1 PART_ATT_ACTIVE_BIT.
Definition PART_ATT_RETRY_MASK : Z := Z.shiftl 0x7 PART_ATT_RETRY_CNT_BIT.
Definition PART_ATT_SUCCESS_VAL : Z := Z.shiftl 1 PART_ATT_SUCCESS_BIT.
Definition PART_ATT_UNBOOTABLE_VAL : Z := Z.shiftl 1 PART_ATT_UNBOOTABLE_BIT.

Definition MAX_PRIORITY : Z := 3.
Definition MAX_RETRY_COUNT : Z := 7.

(** [parseABFlags(attributes)] *)
Record ABFlags := {
  priority : Z;
  active : bool;
  triesRemaining : Z;
  successful : bool;
  unbootable : bool;
}.

Definition parseABFlags (attributes : Z) : ABFlags := {|
  priority := Z.shiftr (Z.land attributes PART_ATT_PRIORITY_MASK) PART_ATT_PRIORITY_BIT;
  active := negb (Z.land attributes PART_ATT_ACTIVE_VAL =? 0);
  triesRemaining := Z.shiftr (Z.land attributes PART_ATT_RETRY_MASK) PART_ATT_RETRY_CNT_BIT;
  successful := negb (Z.land attributes PART_ATT_SUCCESS_VAL =? 0);
  unbootable := negb (Z.land attributes PART_ATT_UNBOOTABLE_VAL =? 0);
|}.

(** ** The object store

    Every JavaScript object the class touches is a cell of the store: [GPT]
    instances, the decoded header and entry views, and the [#partEntries]
    arrays. A reference is a location; a field that holds an object holds
    its location. *)

Definition loc := positive.

(** The fields of a [GPT] instance; [#header] is [undefined] until
    [parseHeader] runs. [sectorSize] is a number of bytes, an integer. *)
Record GPT_object := {
  sectorSize : Z;
  header : option loc;
  partEntries : loc;
}.

Inductive obj :=
| ObjGPT (g : GPT_object)
| ObjHeader (h : GPTHeader.t)
| ObjEntry (e : GPTPartitionEntry.t)
| ObjArray (a : list loc).

(** What the logger is asked to print. *)
Inductive log_entry :=
| Error_InvalidSignature (found : jsstring)
| Error_UnknownRevision (found : Z)
| Error_InvalidHeaderSize (found : Z)
| Warn_CurrentLbaMismatch (found actual : Z)
| Warn_HeaderCrc32Mismatch (expected actual : Z)
| Warn_PartEntriesCrc32Mismatch (expected actual : Z)
| Debug_partEntriesCrc32 (value : Z)
| Debug_headerCrc32 (value : Z).

Record state := {
  heap : gmap loc obj;
  logged : list log_entry;
}.

(** Exceptions. The first three are the [Error]s thrown by [gpt.js] itself,
    named after their messages; [TruncatedBuffer] is the struct engine's
    (decoding a short buffer); [RangeError] and [TypeError] are the
    language's. *)
Inductive exn :=
| Error_InvalidSlot
| Error_partEntriesCrc32IsZero
| Error_headerCrc32IsZero
| TruncatedBuffer
| RangeError
| TypeError.

Inductive result (A : Type) :=
| Ok (a : A)
| Throw (e : exn).
Arguments Ok {A} a.
Arguments Throw {A} e.

Definition M (A : Type) : Type := state -> result A * state.

Definition ret {A} (a : A) : M A := fun σ => (Ok a, σ).

Definition bind {A B} (m : M A) (k : A -> M B) : M B :=
  fun σ => match m σ with
           | (Ok a, σ') => k a σ'
           | (Throw e, σ') => (Throw e, σ')
           end.

Definition throw {A} (e : exn) : M A := fun σ => (Throw e, σ).

Notation "'let*' x ':=' m 'in' k" := (bind m (fun x => k))
  (at level 10, x pattern, m at level 100, k at level 200).
Notation "m ';;' k" := (bind m (fun _ => k))
  (at level 100, k at level 200, right associativity).

Definition fresh_loc (h : gmap loc obj) : loc :=
  Pos.succ (map_fold (fun k _ acc => Pos.max k acc) 1%positive h).

Definition set_heap (h : gmap loc obj) (σ : state) : state :=
  {| heap := h; logged := logged σ |}.

Definition alloc (o : obj) : M loc :=
  fun σ => let l := fresh_loc (heap σ) in (Ok l, set_heap (<[l := o]> (heap σ)) σ).

Definition write (l : loc) (o : obj) : M unit :=
  fun σ => (Ok tt, set_heap (<[l := o]> (heap σ)) σ).

Definition log (e : log_entry) : M unit :=
  fun σ => (Ok tt, {| heap := heap σ; logged := logged σ ++ [e] |}).

(** Reading through a reference. Using [undefined] as an object, or an
    object as something it is not, is a [TypeError]. *)
Definition read_gpt (l : loc) : M GPT_object :=
  fun σ => match heap σ !! l with
           | Some (ObjGPT g) => (Ok g, σ)
           | _ => (Throw TypeError, σ)
           end.

Definition read_header (l : loc) : M GPTHeader.t :=
  fun σ => match heap σ !! l with
           | Some (ObjHeader h) => (Ok h, σ)
           | _ => (Throw TypeError, σ)
           end.

Definition read_entry (l : loc) : M GPTPartitionEntry.t :=
  fun σ => match heap σ !! l with
           | Some (ObjEntry e) => (Ok e, σ)
           | _ => (Throw TypeError, σ)
           end.

Definition read_array (l : loc) : M (list loc) :=
  fun σ => match heap σ !! l with
           | Some (ObjArray a) => (Ok a, σ)
           | _ => (Throw TypeError, σ)
           end.

(** [for (const x of xs) body] and a loop that carries local variables. *)
Fixpoint for_each {A} (xs : list A) (body : A -> M unit) : M unit :=
  match xs with
  | [] => ret tt
  | x :: r => body x ;; for_each r body
  end.

Fixpoint fold_each {A S} (xs : list A) (body : S -> A -> M S) (s : S) : M S :=
  match xs with
  | [] => ret s
  | x :: r => let* s' := body s x in fold_each r body s'
  end.

(** [xs.map(f)] *)
Fixpoint map_each {A B} (xs : list A) (f : A -> M B) : M (list B) :=
  match xs with
  | [] => ret []
  | x :: r => let* y := f x in let* ys := map_each r f in ret (y :: ys)
  end.

(** The indices [0, 1, ..., n-1] of a counting loop. *)
Definition upto (n : Z) : list Z := map Z.of_nat (seq 0 (Z.to_nat n)).

(** *** Struct views in the store *)

(** [GPTHeader.from(buffer)] *)
Definition GPTHeader_from (data : list byte) : M loc :=
  if (length data <? GPTHeader.size)%nat then throw TruncatedBuffer
  else alloc (ObjHeader (GPTHeader.decode data)).

(** [GPTPartitionEntry.from(buffer)] *)
Definition GPTPartitionEntry_from (data : list byte) : M loc :=
  if (length data <? GPTPartitionEntry.size)%nat then throw TruncatedBuffer
  else alloc (ObjEntry (GPTPartitionEntry.decode data)).

(** [view.$clone()]: a new view with the same field values. *)
Definition header_clone (l : loc) : M loc :=
  let* h := read_header l in alloc (ObjHeader h).

Definition entry_clone (l : loc) : M loc :=
  let* e := read_entry l in alloc (ObjEntry e).

(** [view.field = value] *)
Definition modify_header (l : loc) (f : GPTHeader.t -> GPTHeader.t) : M unit :=
  let* h := read_header l in write l (ObjHeader (f h)).

Definition modify_entry (l : loc) (f : GPTPartitionEntry.t -> GPTPartitionEntry.t) : M unit :=
  let* e := read_entry l in write l (ObjEntry (f e)).

(** [array.push(x)] *)
Definition array_push (l : loc) (x : loc) : M unit :=
  let* a := read_array l in write l (ObjArray (a ++ [x])).

(** *** Typed arrays local to a method *)

Definition MAX_SAFE_INTEGER : Z := 2 ^ 53 - 1.

(** A computation that touches no object: its outcome. *)
Definition lift {A} (r : result A) : M A := fun σ => (r, σ).

(** [new Uint8Array(length)]: a [RangeError] for a length that is no array
    length, zeros otherwise. The allocation is taken to succeed for every
    length the language allows; an engine refuses a length it has no memory
    for with the same [RangeError], so what is proved of a call that
    allocates is stated for the case that the allocation succeeds. *)
Definition new_Uint8Array (len : Z) : result (list byte) :=
  if (len <? 0) || (MAX_SAFE_INTEGER <? len) then Throw RangeError
  else Ok (replicate (Z.to_nat len) x00).

(** [target.set(source, offset)] *)
Definition Uint8Array_set (target source : list byte) (offset : Z) : result (list byte) :=
  if (offset <? 0) || (Z.of_nat (length target) <? offset + Z.of_nat (length source))
  then Throw RangeError
  else Ok (take (Z.to_nat offset) target ++ source ++
           drop (Z.to_nat offset + length source) target).

(** ** Numbers

    [numPartEntries], [partEntrySize] and [sectorSize] are JavaScript numbers
    holding integers. [Math.ceil(Number(x / d))] is taken exactly. This is
    what double precision gives for integers [0 <= x < 2^53] and [1 <= d]:
    [x] is then held exactly, and when [x / d] lies strictly between the
    integers [k] and [k + 1] it is at least [1 / d] above [k], while
    [k * d <= x < 2^53] makes half the spacing of the doubles above [k]
    less than [1 / d]; so the rounded quotient is above [k], and it is at
    most [k + 1], which is a double. The numerator of a parsed table is in
    this range, being the length of a typed array. The result is not a
    finite number when [d] is zero. *)
Definition ceil_quotient (x d : Z) : option Z :=
  if d =? 0 then None else Some (- ((- x) / d)).

(** [BigInt(number)] *)
Definition BigInt (n : option Z) : M Z :=
  match n with
  | Some z => ret z
  | None => throw RangeError
  end.

(** [n.toString(16)] for a BigInt *)
Fixpoint hex_digits (fuel : nat) (z : Z) (acc : jsstring) : jsstring :=
  match fuel with
  | O => acc
  | S f =>
      let acc' := hex_digit (z mod 16) :: acc in
      if z / 16 =? 0 then acc' else hex_digits f (z / 16) acc'
  end.

Definition toString16 (z : Z) : jsstring :=
  if z <? 0 then dash :: hex_digits (S (Z.to_nat (Z.log2 (- z)))) (- z) []
  else hex_digits (S (Z.to_nat (Z.log2 z))) z [].

(** [s.padStart(n, "0")] *)
Definition padStart0 (n : nat) (s : jsstring) : jsstring :=
  replicate (n - length s)%nat 48 ++ s.

(** ** The class [GPT] *)

(** The object [parseHeader] returns (or [null]). *)
Record ParseHeaderResult := {
  result_headerCrc32 : Z;
  header_mismatchCrc32 : bool;
}.

(** The object [parsePartEntries] returns. *)
Record ParsePartEntriesResult := {
  result_partEntriesCrc32 : Z;
  entries_mismatchCrc32 : bool;
}.

(** The objects [getPartitions] returns. *)
Record Partition := {
  part_type : jsstring;
  part_uuid : jsstring;
  part_start : Z;
  part_end : Z;
  part_sectors : Z;
  part_attributes : jsstring;
  part_name : jsstring;
}.

Definition set_header (hl : option loc) (g : GPT_object) : GPT_object :=
  {| sectorSize := sectorSize g; header := hl; partEntries := partEntries g |}.

Definition set_partEntries (a : loc) (g : GPT_object) : GPT_object :=
  {| sectorSize := sectorSize g; header := header g; partEntries := a |}.

Definition set_sectorSize (sectorSize : Z) (g : GPT_object) : GPT_object :=
  {| sectorSize := sectorSize; header := header g; partEntries := partEntries g |}.

(** [set.add(x)], for a [Set] kept as the list of its elements in insertion
    order. *)
Definition Set_add (x : jsstring) (s : list jsstring) : list jsstring :=
  if bool_decide (x ∈ s) then s else s ++ [x].

Module GPT.

(** [new GPT(sectorSize)]: the field initialisers leave [#header] undefined
    and make [#partEntries] a new empty array. *)
Definition new (sectorSize : Z) : M loc :=
  let* a := alloc (ObjArray []) in
  alloc (ObjGPT {| sectorSize := sectorSize; header := None; partEntries := a |}).

(** [gpt.sectorSize = sectorSize]: the property is public and writable. *)
Definition assign_sectorSize (this : loc) (sectorSize : Z) : M unit :=
  let* g := read_gpt this in
  write this (ObjGPT (set_sectorSize sectorSize g)).

(** [this.#header] as a reference to use: a [TypeError] while it is undefined. *)
Definition header_ref (this : loc) : M loc :=
  let* g := read_gpt this in
  match header g with
  | Some hl => ret hl
  | None => throw TypeError
  end.

(** [this.#header.field] *)
Definition header_field {A} (this : loc) (field : GPTHeader.t -> A) : M A :=
  let* hl := header_ref this in
  let* h := read_header hl in
  ret (field h).

(** [this.#header.field = value] *)
Definition set_header_field (this : loc) (f : GPTHeader.t -> GPTHeader.t) : M unit :=
  let* hl := header_ref this in
  modify_header hl f.

(** [this.#header.$toBuffer()] *)
Definition header_toBuffer (this : loc) : M (list byte) :=
  header_field this GPTHeader.toBuffer.

Definition headerCrc32 (this : loc) : M Z := header_field this GPTHeader.headerCrc32.
Definition partEntriesCrc32 (this : loc) : M Z := header_field this GPTHeader.partEntriesCrc32.
Definition currentLba (this : loc) : M Z := header_field this GPTHeader.currentLba.
Definition alternateLba (this : loc) : M Z := header_field this GPTHeader.alternateLba.
Definition firstUsableLba (this : loc) : M Z := header_field this GPTHeader.firstUsableLba.
Definition lastUsableLba (this : loc) : M Z := header_field this GPTHeader.lastUsableLba.
Definition partEntriesStartLba (this : loc) : M Z :=
  header_field this GPTHeader.partEntriesStartLba.
Definition numPartEntries (this : loc) : M Z := header_field this GPTHeader.numPartEntries.
Definition partEntrySize (this : loc) : M Z := header_field this GPTHeader.partEntrySize.

Definition partEntriesSectors (this : loc) : M (option Z) :=
  let* n := numPartEntries this in
  let* s := partEntrySize this in
  let* g := read_gpt this in
  ret (ceil_quotient (n * s) (sectorSize g)).

Definition parseHeader (this : loc) (data : list byte) (actualLba : Z)
  : M (option ParseHeaderResult) :=
  let* hl := GPTHeader_from data in
  let* g := read_gpt this in
  write this (ObjGPT (set_header (Some hl) g)) ;;
  let* signature := header_field this GPTHeader.signature in
  if negb (js_eqb signature SIGNATURE) then
    log (Error_InvalidSignature signature) ;; ret None
  else
  let* revision := header_field this GPTHeader.revision in
  if negb (revision =? 0x10000) then
    log (Error_UnknownRevision revision) ;; ret None
  else
  let* headerSize := header_field this GPTHeader.headerSize in
  let* g := read_gpt this in
  if (headerSize <? 92) || (sectorSize g <? headerSize) then
    log (Error_InvalidHeaderSize headerSize) ;; ret None
  else
  let* current := header_field this GPTHeader.currentLba in
  (if negb (current =? actualLba)
   then log (Warn_CurrentLbaMismatch current actualLba) else ret tt) ;;
  let* expectedHeaderCrc32 := header_field this GPTHeader.headerCrc32 in
  set_header_field this (GPTHeader.set_headerCrc32 0) ;;
  let* buffer := header_toBuffer this in
  let actualHeaderCrc32 := crc32 buffer in
  set_header_field this (GPTHeader.set_headerCrc32 expectedHeaderCrc32) ;;
  let* stored := header_field this GPTHeader.headerCrc32 in
  let mismatchCrc32 := negb (stored =? actualHeaderCrc32) in
  (if mismatchCrc32
   then log (Warn_HeaderCrc32Mismatch stored actualHeaderCrc32) else ret tt) ;;
  let* stored := header_field this GPTHeader.headerCrc32 in
  ret (Some {| result_headerCrc32 := stored; header_mismatchCrc32 := mismatchCrc32 |}).

(** [this.#partEntries[i]] *)
Definition partEntry_at (this : loc) (i : Z) : M loc :=
  let* g := read_gpt this in
  let* a := read_array (partEntries g) in
  match a !! Z.to_nat i with
  | Some l => ret l
  | None => throw TypeError
  end.

Definition buildPartEntries (this : loc) : M (list byte) :=
  let* n := numPartEntries this in
  let* s := partEntrySize this in
  let* array := lift (new_Uint8Array (n * s)) in
  let* n := numPartEntries this in
  fold_each (upto n)
    (fun array i =>
       let* l := partEntry_at this i in
       let* e := read_entry l in
       let* s := partEntrySize this in
       lift (Uint8Array_set array (GPTPartitionEntry.toBuffer e) (i * s)))
    array.

Definition parsePartEntries (this : loc) (data : list byte)
  : M ParsePartEntriesResult :=
  let* entrySize := header_field this GPTHeader.partEntrySize in
  let* n := header_field this GPTHeader.numPartEntries in
  for_each (upto n)
    (fun i =>
       let entryOffset := i * entrySize in
       let* partEntry :=
         GPTPartitionEntry_from
           (slice data (Z.to_nat entryOffset) (Z.to_nat (entryOffset + entrySize))) in
       let* g := read_gpt this in
       array_push (partEntries g) partEntry) ;;
  let* built := buildPartEntries this in
  let actualPartEntriesCrc32 := crc32 built in
  let* stored := header_field this GPTHeader.partEntriesCrc32 in
  let mismatchCrc32 := negb (stored =? actualPartEntriesCrc32) in
  (if mismatchCrc32
   then log (Warn_PartEntriesCrc32Mismatch stored actualPartEntriesCrc32) else ret tt) ;;
  let* stored := header_field this GPTHeader.partEntriesCrc32 in
  ret {| result_partEntriesCrc32 := stored; entries_mismatchCrc32 := mismatchCrc32 |}.

Definition asAlternate (this : loc) : M loc :=
  let* hl := header_ref this in
  let* alternate := header_clone hl in
  let* alt := header_field this GPTHeader.alternateLba in
  modify_header alternate (GPTHeader.set_currentLba alt) ;;
  let* cur := header_field this GPTHeader.currentLba in
  modify_header alternate (GPTHeader.set_alternateLba cur) ;;
  let* alt := header_field this GPTHeader.alternateLba in
  let* sectors := partEntriesSectors this in
  let* sectors := BigInt sectors in
  modify_header alternate (GPTHeader.set_partEntriesStartLba (alt - sectors)) ;;
  let* g := read_gpt this in
  let* gpt := new (sectorSize g) in
  let* g' := read_gpt gpt in
  write gpt (ObjGPT (set_header (Some alternate) g')) ;;
  let* g := read_gpt this in
  let* a := read_array (partEntries g) in
  let* clones := map_each a entry_clone in
  let* a' := alloc (ObjArray clones) in
  let* g' := read_gpt gpt in
  write gpt (ObjGPT (set_partEntries a' g')) ;;
  ret gpt.

Definition buildHeader (this : loc) (partEntries : option (list byte)) : M (list byte) :=
  let* bytes := match partEntries with
                | Some bytes => ret bytes
                | None => buildPartEntries this
                end in
  set_header_field this (GPTHeader.set_partEntriesCrc32 (crc32 bytes)) ;;
  let* c := header_field this GPTHeader.partEntriesCrc32 in
  if c =? 0 then throw Error_partEntriesCrc32IsZero else
  log (Debug_partEntriesCrc32 c) ;;
  set_header_field this (GPTHeader.set_headerCrc32 0) ;;
  let* buffer := header_toBuffer this in
  set_header_field this (GPTHeader.set_headerCrc32 (crc32 buffer)) ;;
  let* c := header_field this GPTHeader.headerCrc32 in
  log (Debug_headerCrc32 c) ;;
  let* c := header_field this GPTHeader.headerCrc32 in
  if c =? 0 then throw Error_headerCrc32IsZero else
  header_toBuffer this.

Definition partition_of (entry : GPTPartitionEntry.t) : Partition := {|
  part_type := GPTPartitionEntry.type entry;
  part_uuid := GPTPartitionEntry.unique entry;
  part_start := GPTPartitionEntry.startingLba entry;
  part_end := GPTPartitionEntry.endingLba entry;
  part_sectors := GPTPartitionEntry.endingLba entry - GPTPartitionEntry.startingLba entry + 1;
  part_attributes :=
    js "0x" ++ padStart0 16 (toString16 (GPTPartitionEntry.attributes entry));
  part_name := GPTPartitionEntry.name entry;
|}.

(** The entry views behind [this.#partEntries], in stored order. *)
Definition entries (this : loc) : M (list GPTPartitionEntry.t) :=
  let* g := read_gpt this in
  let* a := read_array (partEntries g) in
  map_each a read_entry.

Definition getPartitions (this : loc) : M (list Partition) :=
  let* es := entries this in
  ret (map partition_of
         (filter (fun e => negb (js_eqb (GPTPartitionEntry.type e) TYPE_EFI_UNUSED) = true) es)).

Definition locatePartition (this : loc) (name : jsstring) : M (option Partition) :=
  let* ps := getPartitions this in
  ret (find (fun p => js_eqb (part_name p) name) ps).

(** [getPartitionsInfo]: the body of its loop for the entry behind [l], on
    the two sets [partitions] and [slots]. *)
Definition getPartitionsInfo_entry (sets : list jsstring * list jsstring) (l : loc)
  : M (list jsstring * list jsstring) :=
  let '(partitions, slots) := sets in
  let* partEntry := read_entry l in
  if js_eqb (GPTPartitionEntry.type partEntry) TYPE_EFI_UNUSED
  then ret (partitions, slots) else
  let name := GPTPartitionEntry.name partEntry in
  let slots := if endsWith name (js "_a") then Set_add (js "a") slots else slots in
  let slots := if endsWith name (js "_b") then Set_add (js "b") slots else slots in
  ret (Set_add name partitions, slots).

Definition getPartitionsInfo (this : loc) : M (list jsstring * list jsstring) :=
  let* g := read_gpt this in
  let* a := read_array (partEntries g) in
  fold_each a getPartitionsInfo_entry ([], []).

(** [getActiveSlot]: the loop's local variables are [bestSlot] and
    [bestPriority]; this is its body for the entry behind [l]. *)
Definition getActiveSlot_entry (best : option jsstring * Z) (l : loc)
  : M (option jsstring * Z) :=
  let '(bestSlot, bestPriority) := best in
  let* partEntry := read_entry l in
  if js_eqb (GPTPartitionEntry.type partEntry) TYPE_EFI_UNUSED
  then ret (bestSlot, bestPriority) else
  if negb (startsWith (GPTPartitionEntry.name partEntry) (js "boot_"))
  then ret (bestSlot, bestPriority) else
  let slot := slice_last 2 (GPTPartitionEntry.name partEntry) in
  if negb (js_eqb slot (js "_a")) && negb (js_eqb slot (js "_b"))
  then ret (bestSlot, bestPriority) else
  let flags := parseABFlags (GPTPartitionEntry.attributes partEntry) in
  if active flags && (bestPriority <? priority flags)
  then ret (Some (if js_eqb slot (js "_a") then js "a" else js "b"), priority flags)
  else ret (bestSlot, bestPriority).

Definition getActiveSlot (this : loc) : M (option jsstring) :=
  let* g := read_gpt this in
  let* a := read_array (partEntries g) in
  let* best := fold_each a getActiveSlot_entry (None, -1) in
  ret (fst best).

(** The new attribute word [setActiveSlot] assigns, by the two tests
    [isBoot] and [isActive]. *)
Definition boot_active_attributes (attributes : Z) : Z :=
  Z.lor
    (Z.lor
       (Z.lor
          (Z.land attributes
             (Z.lnot (Z.lor (Z.lor (Z.lor (Z.lor PART_ATT_PRIORITY_MASK PART_ATT_ACTIVE_VAL)
                                      PART_ATT_RETRY_MASK) PART_ATT_SUCCESS_VAL)
                        PART_ATT_UNBOOTABLE_VAL)))
          (Z.shiftl MAX_PRIORITY PART_ATT_PRIORITY_BIT))
       PART_ATT_ACTIVE_VAL)
    (Z.shiftl MAX_RETRY_COUNT PART_ATT_RETRY_CNT_BIT).

Definition boot_inactive_attributes (attributes : Z) : Z :=
  Z.lor
    (Z.land attributes (Z.lnot (Z.lor PART_ATT_PRIORITY_MASK PART_ATT_ACTIVE_VAL)))
    (Z.shiftl (MAX_PRIORITY - 1) PART_ATT_PRIORITY_BIT).

Definition other_active_attributes (attributes : Z) : Z :=
  Z.lor attributes PART_ATT_ACTIVE_VAL.

Definition other_inactive_attributes (attributes : Z) : Z :=
  Z.land attributes (Z.lnot PART_ATT_ACTIVE_VAL).

(** The body of the loop of [setActiveSlot], for the entry behind [l]. *)
Definition setActiveSlot_entry (slot : jsstring) (l : loc) : M unit :=
  let* partEntry := read_entry l in
  if js_eqb (GPTPartitionEntry.type partEntry) TYPE_EFI_UNUSED then ret tt else
  let partSlot := slice_last 2 (GPTPartitionEntry.name partEntry) in
  if negb (js_eqb partSlot (js "_a")) && negb (js_eqb partSlot (js "_b"))
  then ret tt else
  let isActive := js_eqb partSlot (js "_" ++ slot) in
  let isBoot := startsWith (GPTPartitionEntry.name partEntry) (js "boot") in
  if isBoot then
    if isActive then
      modify_entry l (fun e =>
        GPTPartitionEntry.set_attributes
          (boot_active_attributes (GPTPartitionEntry.attributes e)) e)
    else
      modify_entry l (fun e =>
        GPTPartitionEntry.set_attributes
          (boot_inactive_attributes (GPTPartitionEntry.attributes e)) e)
  else
    if isActive then
      modify_entry l (fun e =>
        GPTPartitionEntry.set_attributes
          (other_active_attributes (GPTPartitionEntry.attributes e)) e)
    else
      modify_entry l (fun e =>
        GPTPartitionEntry.set_attributes
          (other_inactive_attributes (GPTPartitionEntry.attributes e)) e).

Definition setActiveSlot (this : loc) (slot : jsstring) : M unit :=
  if negb (js_eqb slot (js "a")) && negb (js_eqb slot (js "b"))
  then throw Error_InvalidSlot else
  let* g := read_gpt this in
  let* a := read_array (partEntries g) in
  for_each a (setActiveSlot_entry slot).

End GPT.

(** ** The value of a [GPT] instance

    What a [GPT] instance denotes in a store: its sector size, the header
    view behind [#header] (if any) and the entry views behind
    [#partEntries], in order. *)

Record GPT_value := {
  value_sectorSize : Z;
  value_header : option GPTHeader.t;
  value_entries : list GPTPartitionEntry.t;
}.

Definition gpt_at (h : gmap loc obj) (l : loc) : option GPT_object :=
  match h !! l with Some (ObjGPT g) => Some g | _ => None end.

Definition header_at (h : gmap loc obj) (l : loc) : option GPTHeader.t :=
  match h !! l with Some (ObjHeader x) => Some x | _ => None end.

Definition entry_at (h : gmap loc obj) (l : loc) : option GPTPartitionEntry.t :=
  match h !! l with Some (ObjEntry e) => Some e | _ => None end.

Definition array_at (h : gmap loc obj) (l : loc) : option (list loc) :=
  match h !! l with Some (ObjArray a) => Some a | _ => None end.

Fixpoint entries_at (h : gmap loc obj) (ls : list loc) : option (list GPTPartitionEntry.t) :=
  match ls with
  | [] => Some []
  | l :: r =>
      match entry_at h l, entries_at h r with
      | Some e, Some es => Some (e :: es)
      | _, _ => None
      end
  end.

Definition snapshot (σ : state) (this : loc) : option GPT_value :=
  match gpt_at (heap σ) this with
  | Some g =>
      match array_at (heap σ) (partEntries g) with
      | Some a =>
          match entries_at (heap σ) a,
                match header g with
                | Some hl => option_map Some (header_at (heap σ) hl)
                | None => Some None
                end with
          | Some es, Some hd =>
              Some {| value_sectorSize := sectorSize g;
                      value_header := hd; value_entries := es |}
          | _, _ => None
          end
      | None => None
      end
  | None => None
  end.

(** The locations a [GPT] instance owns: itself, its header view, its
    array and the entry views in it. *)
Definition footprint (σ : state) (this : loc) : gset loc :=
  match gpt_at (heap σ) this with
  | Some g =>
      {[this]} ∪ {[partEntries g]} ∪
      match header g with Some hl => {[hl]} | None => ∅ end ∪
      match array_at (heap σ) (partEntries g) with
      | Some a => list_to_set a
      | None => ∅
      end
  | None => ∅
  end.

Definition with_entries (es : list GPTPartitionEntry.t) (v : GPT_value) : GPT_value :=
  {| value_sectorSize := value_sectorSize v; value_header := value_header v;
     value_entries := es |}.

Definition with_header (h : option GPTHeader.t) (v : GPT_value) : GPT_value :=
  {| value_sectorSize := value_sectorSize v; value_header := h;
     value_entries := value_entries v |}.

(** What [setActiveSlot(slot)] leaves in the attribute word of an entry. *)
Definition slot_attributes (slot : jsstring) (e : GPTPartitionEntry.t) : Z :=
  let attributes := GPTPartitionEntry.attributes e in
  if js_eqb (GPTPartitionEntry.type e) TYPE_EFI_UNUSED then attributes else
  let partSlot := slice_last 2 (GPTPartitionEntry.name e) in
  if negb (js_eqb partSlot (js "_a")) && negb (js_eqb partSlot (js "_b"))
  then attributes else
  let isActive := js_eqb partSlot (js "_" ++ slot) in
  let isBoot := startsWith (GPTPartitionEntry.name e) (js "boot") in
  if isBoot then
    if isActive then GPT.boot_active_attributes attributes
    else GPT.boot_inactive_attributes attributes
  else
    if isActive then GPT.other_active_attributes attributes
    else GPT.other_inactive_attributes attributes.

Definition slot_update (slot : jsstring) (e : GPTPartitionEntry.t) : GPTPartitionEntry.t :=
  GPTPartitionEntry.set_attributes (slot_attributes slot e) e.

(** ** The test fixtures of [gpt.test.js] *)

Definition SECTOR_SIZE : Z := 4096.

(** One [{ name, attributes }] of a partition list; a missing [attributes]
    is [0n]. *)
Definition test_partition : Type := jsstring * Z.

Definition test_entry_bytes (i : nat) (p : test_partition) : list byte :=
  le_bytes 4 0xDEADBEEF ++ replicate 12 x00 ++
  le_bytes 4 (Z.of_nat i + 1) ++ replicate 12 x00 ++
  le_bytes 8 (100 + Z.of_nat i * 100) ++
  le_bytes 8 (199 + Z.of_nat i * 100) ++
  le_bytes 8 (snd p) ++
  take 72 (concat (map (le_bytes 2) (fst p)) ++ replicate 72 x00).

(** [buildGPTData(partitions)]: the entry array and a sector holding the
    92-byte header, both checksums in place. *)
Definition buildGPTData (partitions : list test_partition) : list byte * list byte :=
  let entries := concat (imap test_entry_bytes partitions) in
  let fields (checksum : Z) :=
    map byte_of_Z (js "EFI PART") ++
    le_bytes 4 0x00010000 ++
    le_bytes 4 92 ++
    le_bytes 4 checksum ++
    le_bytes 4 0 ++
    le_bytes 8 1 ++
    le_bytes 8 0xFFFF ++
    le_bytes 8 6 ++
    le_bytes 8 0xFFFE ++
    replicate 16 x00 ++
    le_bytes 8 2 ++
    le_bytes 4 (Z.of_nat (length partitions)) ++
    le_bytes 4 128 ++
    le_bytes 4 (crc32 entries) in
  let padding := replicate (Z.to_nat SECTOR_SIZE - 92) x00 in
  (fields (crc32 (fields 0)) ++ padding, entries).

(** [createTestGPT(partitions)] *)
Definition createTestGPT (partitions : list test_partition) : M loc :=
  let '(header, entries) := buildGPTData partitions in
  let* gpt := GPT.new SECTOR_SIZE in
  GPT.parseHeader gpt header 1 ;;
  GPT.parsePartEntries gpt entries ;;
  ret gpt.

(** [attrOf(gpt, name)] *)
Definition attrOf (gpt : loc) (name : jsstring) : M (option jsstring) :=
  let* ps := GPT.getPartitions gpt in
  ret (part_attributes <$> find (fun p => js_eqb (part_name p) name) ps).

Definition LUN4_PARTITIONS : list test_partition :=
  [(js "boot_a", 0); (js "boot_b", 0); (js "aop_a", 0); (js "aop_b", 0);
   (js "tz_a", 0); (js "tz_b", 0)].

(** The store before any object exists. *)
Definition empty_state : state := {| heap := ∅; logged := [] |}.

(** ** Definitions used to state the theorems *)

(** A cell after the loop is the cell before it, or the entry before it
    with its slot attributes assigned. *)
Definition slot_updated (slot : jsstring) (ls : list loc) (σ σ' : state) (l : loc) : Prop :=
  heap σ' !! l = heap σ !! l \/
  (l ∈ ls /\ exists e, heap σ !! l = Some (ObjEntry e) /\
                       heap σ' !! l = Some (ObjEntry (slot_update slot e))).

Definition FOUR_PARTITIONS : list test_partition :=
  [(js "boot_a", 0); (js "boot_b", 0); (js "aop_a", 0); (js "aop_b", 0)].

(** The object and the store [createTestGPT(partitions)] ends with. *)
Definition test_state (partitions : list test_partition) : state :=
  snd (createTestGPT partitions empty_state).

Definition test_gpt (partitions : list test_partition) : loc :=
  match fst (createTestGPT partitions empty_state) with
  | Ok l => l
  | Throw _ => 1%positive
  end.

(** ** [getActiveSlot] *)

(** The entries [getActiveSlot] looks at, in the words of the bit layout:
    non-empty, named ["boot_..."] with a slot suffix, bit 50 set. *)
Definition boot_slot_entry (e : GPTPartitionEntry.t) : bool :=
  negb (js_eqb (GPTPartitionEntry.type e) TYPE_EFI_UNUSED) &&
  startsWith (GPTPartitionEntry.name e) (js "boot_") &&
  (endsWith (GPTPartitionEntry.name e) (js "_a") ||
   endsWith (GPTPartitionEntry.name e) (js "_b")).

Definition active_boot_entry (e : GPTPartitionEntry.t) : bool :=
  boot_slot_entry e && Z.testbit (GPTPartitionEntry.attributes e) 50.

Definition priority_of (e : GPTPartitionEntry.t) : Z :=
  (GPTPartitionEntry.attributes e / 2 ^ 48) mod 4.

Definition slot_letter (e : GPTPartitionEntry.t) : jsstring :=
  if endsWith (GPTPartitionEntry.name e) (js "_a") then js "a" else js "b".

(** One iteration of the loop of [getActiveSlot] on an entry value. *)
Definition consider (best : option jsstring * Z) (e : GPTPartitionEntry.t)
  : option jsstring * Z :=
  let flags := parseABFlags (GPTPartitionEntry.attributes e) in
  if active_boot_entry e && (snd best <? priority flags)
  then (Some (slot_letter e), priority flags)
  else best.

(** [best] is the first boot entry of [pre] that is active with the greatest
    priority, or nothing when [pre] has no active boot entry. *)
Definition best_of (pre : list GPTPartitionEntry.t) (best : option jsstring * Z) : Prop :=
  (best = (None, -1) /\ forall e, e ∈ pre -> active_boot_entry e = false) \/
  (exists (i : nat) e,
     pre !! i = Some e /\ active_boot_entry e = true /\
     best = (Some (slot_letter e), priority_of e) /\
     forall (j : nat) e', pre !! j = Some e' -> active_boot_entry e' = true ->
       priority_of e' <= priority_of e /\ ((j < i)%nat -> priority_of e' < priority_of e)).

(** [consider] reads the type, the name and bits 48 to 50 of an entry. *)
Definition same_but_unbootable (e e2 : GPTPartitionEntry.t) : Prop :=
  e2 = GPTPartitionEntry.set_attributes (GPTPartitionEntry.attributes e2) e /\
  forall i, i <> 55 ->
    Z.testbit (GPTPartitionEntry.attributes e2) i =
    Z.testbit (GPTPartitionEntry.attributes e) i.

Definition BRICKED_PARTITIONS : list test_partition :=
  [(js "boot_a", 0x1187000000000000); (js "boot_b", 0x103a000000000000);
   (js "aop_a", 0x213f000000000000); (js "aop_b", 0x2039000000000000)].

(** The receiver [this] has the fields [g], and its header view [hl] holds
    [h]. *)
Definition headed (σ : state) (this : loc) (g : GPT_object) (hl : loc) (h : GPTHeader.t)
  : Prop :=
  heap σ !! this = Some (ObjGPT g) /\ header g = Some hl /\
  heap σ !! hl = Some (ObjHeader h).

(** ** [parseHeader] *)

(** The store [parseHeader] leaves: a new header view holding the decoded
    fields, behind [#header]. *)
Definition header_installed (σ : state) (this : loc) (g : GPT_object) (h : GPTHeader.t)
  : gmap loc obj :=
  <[fresh_loc (heap σ) := ObjHeader h]>
    (<[this := ObjGPT (set_header (Some (fresh_loc (heap σ))) g)]> (heap σ)).

(** What [parseHeader] returns and logs, by the decoded header. *)
Definition header_verdict (sectorSize : Z) (h : GPTHeader.t) (actualLba : Z)
  : option ParseHeaderResult * list log_entry :=
  if negb (js_eqb (GPTHeader.signature h) SIGNATURE)
  then (None, [Error_InvalidSignature (GPTHeader.signature h)])
  else if negb (GPTHeader.revision h =? 0x10000)
  then (None, [Error_UnknownRevision (GPTHeader.revision h)])
  else if (GPTHeader.headerSize h <? 92) || (sectorSize <? GPTHeader.headerSize h)
  then (None, [Error_InvalidHeaderSize (GPTHeader.headerSize h)])
  else
    let actual := crc32 (GPTHeader.toBuffer (GPTHeader.set_headerCrc32 0 h)) in
    let mismatch := negb (GPTHeader.headerCrc32 h =? actual) in
    (Some {| result_headerCrc32 := GPTHeader.headerCrc32 h;
             header_mismatchCrc32 := mismatch |},
     (if negb (GPTHeader.currentLba h =? actualLba)
      then [Warn_CurrentLbaMismatch (GPTHeader.currentLba h) actualLba] else []) ++
     (if mismatch
      then [Warn_HeaderCrc32Mismatch (GPTHeader.headerCrc32 h) actual] else [])).

(** The claim as it is stated, for every buffer: [parseHeader] produces a
    result unless the signature is not ["EFI PART"], the revision is not
    [0x00010000] or the header size is outside [[92, sectorSize]]. *)
Definition fails_exactly_on_invalid_header : Prop :=
  forall σ this g data actualLba,
    heap σ !! this = Some (ObjGPT g) ->
    let h := GPTHeader.decode data in
    (exists r σ', GPT.parseHeader this data actualLba σ = (Ok (Some r), σ')) <->
    ~ (GPTHeader.signature h <> SIGNATURE \/ GPTHeader.revision h <> 0x10000 \/
       GPTHeader.headerSize h < 92 \/ sectorSize g < GPTHeader.headerSize h).

(** ** [buildPartEntries] *)

(** The bytes [buildPartEntries] produces from a header and the entry
    values, without the store: an array of [numPartEntries * partEntrySize]
    zero bytes, then the encoding of entry [i] written at
    [i * partEntrySize] for [i < numPartEntries]. *)
Definition canonical_step (h : GPTHeader.t) (es : list GPTPartitionEntry.t)
    (acc : result (list byte)) (i : Z) : result (list byte) :=
  match acc with
  | Throw e => Throw e
  | Ok array =>
      match es !! Z.to_nat i with
      | None => Throw TypeError
      | Some e =>
          Uint8Array_set array (GPTPartitionEntry.toBuffer e) (i * GPTHeader.partEntrySize h)
      end
  end.

Definition canonical_entries (h : GPTHeader.t) (es : list GPTPartitionEntry.t)
  : result (list byte) :=
  match new_Uint8Array (GPTHeader.numPartEntries h * GPTHeader.partEntrySize h) with
  | Throw e => Throw e
  | Ok array => fold_left (canonical_step h es) (upto (GPTHeader.numPartEntries h)) (Ok array)
  end.

(** ** Bytes of an encoded header *)

(** A header buffer with bytes 16 to 19, the header checksum, zeroed. *)
Definition zero_headerCrc32 (bytes : list byte) : list byte :=
  take 16 bytes ++ replicate 4 x00 ++ drop 20 bytes.

(** The first sixteen bytes, the checksum field and the rest. *)
Definition header_prefix (h : GPTHeader.t) : list byte :=
  string_encode 8 (GPTHeader.signature h) ++
  le_bytes 4 (GPTHeader.revision h) ++ le_bytes 4 (GPTHeader.headerSize h).

Definition header_suffix (h : GPTHeader.t) : list byte :=
  le_bytes 4 (GPTHeader.reserved h) ++
  le_bytes 8 (GPTHeader.currentLba h) ++
  le_bytes 8 (GPTHeader.alternateLba h) ++
  le_bytes 8 (GPTHeader.firstUsableLba h) ++
  le_bytes 8 (GPTHeader.lastUsableLba h) ++
  bytes_encode 16 (GPTHeader.diskGuid h) ++
  le_bytes 8 (GPTHeader.partEntriesStartLba h) ++
  le_bytes 4 (GPTHeader.numPartEntries h) ++
  le_bytes 4 (GPTHeader.partEntrySize h) ++
  le_bytes 4 (GPTHeader.partEntriesCrc32 h).

(** ** [buildHeader] *)

(** The header fields after [buildHeader] computed both checksums from the
    entry bytes [bytes]. *)
Definition with_entries_checksum (bytes : list byte) (h : GPTHeader.t) : GPTHeader.t :=
  GPTHeader.set_partEntriesCrc32 (crc32 bytes) h.

Definition header_checksum (bytes : list byte) (h : GPTHeader.t) : Z :=
  crc32 (GPTHeader.toBuffer (GPTHeader.set_headerCrc32 0 (with_entries_checksum bytes h))).

Definition with_checksums (bytes : list byte) (h : GPTHeader.t) : GPTHeader.t :=
  GPTHeader.set_headerCrc32 (header_checksum bytes h) (with_entries_checksum bytes h).

(** ** [parsePartEntries] *)

(** The bytes [parsePartEntries] hands to the decoder for entry [i]. *)
Definition entry_slice (h : GPTHeader.t) (data : list byte) (i : Z) : list byte :=
  slice data (Z.to_nat (i * GPTHeader.partEntrySize h))
    (Z.to_nat (i * GPTHeader.partEntrySize h + GPTHeader.partEntrySize h)).

(** The entries decoded for the indices [ixs], or nothing when a slice is
    too short to decode. *)
Fixpoint decode_slices (h : GPTHeader.t) (data : list byte) (ixs : list Z)
  : option (list GPTPartitionEntry.t) :=
  match ixs with
  | [] => Some []
  | i :: r =>
      if (length (entry_slice h data i) <? GPTPartitionEntry.size)%nat then None
      else
        match decode_slices h data r with
        | Some es => Some (GPTPartitionEntry.decode (entry_slice h data i) :: es)
        | None => None
        end
  end.

Definition decode_entries (h : GPTHeader.t) (data : list byte)
  : option (list GPTPartitionEntry.t) :=
  decode_slices h data (upto (GPTHeader.numPartEntries h)).

(** What [parsePartEntries] returns and logs once the entries are decoded,
    by the header and the entries then stored. *)
Definition entries_verdict (h : GPTHeader.t) (es : list GPTPartitionEntry.t)
  : result ParsePartEntriesResult * list log_entry :=
  match canonical_entries h es with
  | Ok bytes =>
      let mismatch := negb (GPTHeader.partEntriesCrc32 h =? crc32 bytes) in
      (Ok {| result_partEntriesCrc32 := GPTHeader.partEntriesCrc32 h;
             entries_mismatchCrc32 := mismatch |},
       if mismatch
       then [Warn_PartEntriesCrc32Mismatch (GPTHeader.partEntriesCrc32 h) (crc32 bytes)]
       else [])
  | Throw e => (Throw e, [])
  end.

(** The partitions [getPartitions] reports for a list of entry values. *)
Definition partitions_of (es : list GPTPartitionEntry.t) : list Partition :=
  map GPT.partition_of
    (filter (fun e => negb (js_eqb (GPTPartitionEntry.type e) TYPE_EFI_UNUSED) = true) es).

(** [createTestGPT(partitions)] up to and including [parseHeader]. *)
Definition createHeaderOnlyGPT (partitions : list test_partition) : M loc :=
  let '(header, _) := buildGPTData partitions in
  let* gpt := GPT.new SECTOR_SIZE in
  GPT.parseHeader gpt header 1 ;;
  ret gpt.

Definition header_only_state (partitions : list test_partition) : state :=
  snd (createHeaderOnlyGPT partitions empty_state).

Definition header_only_gpt (partitions : list test_partition) : loc :=
  match fst (createHeaderOnlyGPT partitions empty_state) with
  | Ok l => l
  | Throw _ => 1%positive
  end.

(** The reading of "the checksum is validated over the freshly decoded
    entries" for every GPT with a header, whatever it already stores. *)
Definition checksum_is_over_decoded_entries : Prop :=
  forall σ this v h data r σ',
    snapshot σ this = Some v ->
    value_header v = Some h ->
    GPT.parsePartEntries this data σ = (Ok r, σ') ->
    exists decoded bytes,
      decode_entries h data = Some decoded /\
      canonical_entries h decoded = Ok bytes /\
      entries_mismatchCrc32 r = negb (GPTHeader.partEntriesCrc32 h =? crc32 bytes).

(** The table of [STALE_FIRST] parsed into a GPT whose header is that of
    [STALE_SECOND]: what a caller gets who parses one entry array and then
    the one the header belongs to. *)
Definition STALE_FIRST : list test_partition := [(js "boot_a", 0)].
Definition STALE_SECOND : list test_partition := [(js "boot_b", 0)].

Definition stale_state : state :=
  snd ((let* gpt := createHeaderOnlyGPT STALE_SECOND in
        GPT.parsePartEntries gpt (snd (buildGPTData STALE_FIRST))) empty_state).

(** ** Stores that only grow *)

(** [σ'] has every object of [σ], unchanged, and the same log. *)
Definition extends (σ σ' : state) : Prop :=
  logged σ' = logged σ /\
  forall l o, heap σ !! l = Some o -> heap σ' !! l = Some o.

(** ** [asAlternate] *)

(** The header of the alternate table. *)
Definition alternate_header (sectorSize : Z) (h : GPTHeader.t) : GPTHeader.t :=
  GPTHeader.set_partEntriesStartLba
    (GPTHeader.alternateLba h -
     - ((- (GPTHeader.numPartEntries h * GPTHeader.partEntrySize h)) / sectorSize))
    (GPTHeader.set_alternateLba (GPTHeader.currentLba h)
       (GPTHeader.set_currentLba (GPTHeader.alternateLba h) h)).

(** ** Ownership: the objects a method call may touch

    [P] is a set of protected locations. A computation is run from a store
    in which no object outside [P] refers into [P]; it is shown to leave
    every protected object as it was. *)

Inductive kind := KGPT | KHeader | KEntry | KArray.

Definition kind_of (o : obj) : kind :=
  match o with
  | ObjGPT _ => KGPT
  | ObjHeader _ => KHeader
  | ObjEntry _ => KEntry
  | ObjArray _ => KArray
  end.

Definition has_kind (σ : state) (l : loc) (k : kind) : Prop :=
  exists o, heap σ !! l = Some o /\ kind_of o = k.

(** [l] is outside [P] and holds an object of kind [k]. *)
Definition owned (P : gset loc) (σ : state) (k : kind) (l : loc) : Prop :=
  (l ∉ P) /\ has_kind σ l k.

(** The references inside [o] lead to owned objects of the right kinds. *)
Definition wf_obj (P : gset loc) (σ : state) (o : obj) : Prop :=
  match o with
  | ObjGPT g =>
      (forall hl, header g = Some hl -> owned P σ KHeader hl) /\
      owned P σ KArray (partEntries g)
  | ObjArray ls => Forall (owned P σ KEntry) ls
  | _ => True
  end.

Definition good (P : gset loc) (σ : state) : Prop :=
  (forall l, l ∈ P -> is_Some (heap σ !! l)) /\
  (forall l o, l ∉ P -> heap σ !! l = Some o -> wf_obj P σ o).

(** From [σ] to [σ']: protected objects are as they were and no object
    has changed its kind. *)
Definition grows (P : gset loc) (σ σ' : state) : Prop :=
  (forall l, l ∈ P -> heap σ' !! l = heap σ !! l) /\
  (forall l k, has_kind σ l k -> has_kind σ' l k).

(** Running [m] from [σ] respects [P], whether it returns or throws, and a
    returned value satisfies [Q] in the final store. *)
Definition run {A} (P : gset loc) (m : M A) (σ : state) (Q : A -> state -> Prop) : Prop :=
  good P (snd (m σ)) /\ grows P σ (snd (m σ)) /\
  match fst (m σ) with Ok x => Q x (snd (m σ)) | Throw _ => True end.

(** ** Two instances that share nothing *)

(** What a caller can do with a [GPT]: assign its public property, read a
    header field through a getter, or call a method, with its arguments. *)
Inductive call :=
| AssignSectorSize (sectorSize : Z)
| ReadField (field : GPTHeader.t -> Z)
| PartEntriesSectors
| ParseHeader (data : list byte) (actualLba : Z)
| ParsePartEntries (data : list byte)
| BuildPartEntries
| BuildHeader (partEntries : option (list byte))
| AsAlternate
| GetPartitions
| LocatePartition (name : jsstring)
| GetPartitionsInfo
| GetActiveSlot
| SetActiveSlot (slot : jsstring).

(** The store a call on [this] leaves, whether it returns or throws. *)
Definition after (c : call) (this : loc) (σ : state) : state :=
  match c with
  | AssignSectorSize sectorSize => snd (GPT.assign_sectorSize this sectorSize σ)
  | ReadField field => snd (GPT.header_field this field σ)
  | PartEntriesSectors => snd (GPT.partEntriesSectors this σ)
  | ParseHeader data actualLba => snd (GPT.parseHeader this data actualLba σ)
  | ParsePartEntries data => snd (GPT.parsePartEntries this data σ)
  | BuildPartEntries => snd (GPT.buildPartEntries this σ)
  | BuildHeader partEntries => snd (GPT.buildHeader this partEntries σ)
  | AsAlternate => snd (GPT.asAlternate this σ)
  | GetPartitions => snd (GPT.getPartitions this σ)
  | LocatePartition name => snd (GPT.locatePartition this name σ)
  | GetPartitionsInfo => snd (GPT.getPartitionsInfo this σ)
  | GetActiveSlot => snd (GPT.getActiveSlot this σ)
  | SetActiveSlot slot => snd (GPT.setActiveSlot this slot σ)
  end.

(** A caller that holds two instances [a] and [b] and makes calls on them
    in any order: [(true, c)] is the call [c] on [a], [(false, c)] on [b]. *)
Fixpoint after_all (cs : list (bool * call)) (a b : loc) (σ : state) : state :=
  match cs with
  | [] => σ
  | (first, c) :: r => after_all r a b (after c (if first then a else b) σ)
  end.

(** Both instances are whole and no object belongs to both. *)
Definition separated (σ : state) (a b : loc) : Prop :=
  is_Some (snapshot σ a) /\ is_Some (snapshot σ b) /\
  footprint σ a ## footprint σ b.

(** ** Parsed instances *)

(** What the two parsing steps establish, and no other method undoes:
    [parseHeader] accepted the header [h], so its size fits in a sector,
    and [parsePartEntries] built the entry array, so its length
    [numPartEntries * partEntrySize] is one a typed array can have. *)
Definition parsed (v : GPT_value) (h : GPTHeader.t) : Prop :=
  value_header v = Some h /\
  92 <= GPTHeader.headerSize h <= value_sectorSize v /\
  0 <= GPTHeader.numPartEntries h * GPTHeader.partEntrySize h <= MAX_SAFE_INTEGER.

(** ** [asAlternate]: an independent copy *)

(** The claim as it is stated, in its part on the start LBA: the alternate
    of every parsed GPT has the original's alternate LBA minus [k] as its
    partition-entries start LBA, [k] being the number of sectors of the
    entry array. *)
Definition alternate_starts_at_difference : Prop :=
  forall σ this v h alt σ' v' h',
    snapshot σ this = Some v ->
    parsed v h ->
    GPT.asAlternate this σ = (Ok alt, σ') ->
    snapshot σ' alt = Some v' ->
    value_header v' = Some h' ->
    exists k,
      (k - 1) * value_sectorSize v
        < GPTHeader.numPartEntries h * GPTHeader.partEntrySize h
        <= k * value_sectorSize v /\
      GPTHeader.partEntriesStartLba h' = GPTHeader.alternateLba h - k.

(** A table whose header names LBA 0 as the place of its alternate: the
    header sector of [LUN4_PARTITIONS] with the alternate LBA (bytes 32 to
    39) zero and the header checksum (bytes 16 to 19) computed again. *)
Definition alternate_at_zero_sector : list byte :=
  let sector := fst (buildGPTData LUN4_PARTITIONS) in
  let fields := take 32 sector ++ le_bytes 8 0 ++ drop 40 sector in
  let zeroed := take 16 fields ++ le_bytes 4 0 ++ drop 20 fields in
  take 16 fields ++ le_bytes 4 (crc32 (take 92 zeroed)) ++ drop 20 fields.

(** The GPT that parses this table. *)
Definition alternate_at_zero : M loc :=
  let* gpt := GPT.new SECTOR_SIZE in
  GPT.parseHeader gpt alternate_at_zero_sector 1 ;;
  GPT.parsePartEntries gpt (snd (buildGPTData LUN4_PARTITIONS)) ;;
  ret gpt.

(** ** [setActiveSlot] followed by [getActiveSlot] *)

(** A non-empty entry named [boot_..._a] or [boot_..._b] whose suffix is the
    one of [slot]: what [getActiveSlot] looks at and [setActiveSlot(slot)]
    activates. *)
Definition slot_boot_entry (slot : jsstring) (e : GPTPartitionEntry.t) : bool :=
  boot_slot_entry e && endsWith (GPTPartitionEntry.name e) (js "_" ++ slot).

(** ** The header schema: a round trip *)

(** The values a decoded header holds: eight one-byte characters, unsigned
    and signed 32-bit and unsigned 64-bit integers, sixteen raw bytes. *)
Definition header_in_range (h : GPTHeader.t) : Prop :=
  length (GPTHeader.signature h) = 8%nat /\
  Forall (fun c => 0 <= c < 256) (GPTHeader.signature h) /\
  0 <= GPTHeader.revision h < 2 ^ 32 /\
  0 <= GPTHeader.headerSize h < 2 ^ 32 /\
  - 2 ^ 31 <= GPTHeader.headerCrc32 h < 2 ^ 31 /\
  0 <= GPTHeader.reserved h < 2 ^ 32 /\
  0 <= GPTHeader.currentLba h < 2 ^ 64 /\
  0 <= GPTHeader.alternateLba h < 2 ^ 64 /\
  0 <= GPTHeader.firstUsableLba h < 2 ^ 64 /\
  0 <= GPTHeader.lastUsableLba h < 2 ^ 64 /\
  length (GPTHeader.diskGuid h) = 16%nat /\
  0 <= GPTHeader.partEntriesStartLba h < 2 ^ 64 /\
  0 <= GPTHeader.numPartEntries h < 2 ^ 32 /\
  0 <= GPTHeader.partEntrySize h < 2 ^ 32 /\
  - 2 ^ 31 <= GPTHeader.partEntriesCrc32 h < 2 ^ 31.

(** ** Methods that only read *)

(** A computation that leaves the store as it found it, whether it
    returns or throws: the GPT instances, the header and entry views, the
    entry arrays and the log. *)
Definition reads_only {A} (m : M A) : Prop := forall σ, snd (m σ) = σ.

(** ** [locatePartition] and [getPartitionsInfo] *)

(** An entry that is in use: its type is not the all-zero GUID. *)
Definition used (e : GPTPartitionEntry.t) : bool :=
  negb (js_eqb (GPTPartitionEntry.type e) TYPE_EFI_UNUSED).

(** The loop body of [getPartitionsInfo] on an entry value. *)
Definition info_step (sets : list jsstring * list jsstring) (e : GPTPartitionEntry.t)
  : list jsstring * list jsstring :=
  if used e then
    let name := GPTPartitionEntry.name e in
    let slots := if endsWith name (js "_a") then Set_add (js "a") (snd sets) else snd sets in
    let slots := if endsWith name (js "_b") then Set_add (js "b") slots else slots in
    (Set_add name (fst sets), slots)
  else sets.

(** ** [buildPartEntries]: the layout of the entry array *)

(** An encoded entry followed by zeros up to the entry size of the header. *)
Definition padded_entry (entrySize : Z) (e : GPTPartitionEntry.t) : list byte :=
  GPTPartitionEntry.toBuffer e ++
  replicate (Z.to_nat entrySize - GPTPartitionEntry.size) x00.

(** ** [asAlternate] applied twice *)

(** The table of [LUN4_PARTITIONS] parsed by a GPT of 128-byte sectors: its
    entry array takes six sectors. *)
Definition small_sector_gpt : M loc :=
  let* gpt := GPT.new 128 in
  GPT.parseHeader gpt (fst (buildGPTData LUN4_PARTITIONS)) 1 ;;
  GPT.parsePartEntries gpt (snd (buildGPTData LUN4_PARTITIONS)) ;;
  ret gpt.

(** ** [getPartitions] *)

(** The [width] lowest hexadecimal digits of [z], most significant first,
    in lowercase. *)
Fixpoint hex_fixed (width : nat) (z : Z) : jsstring :=
  match width with
  | O => []
  | S w => hex_fixed w (z / 16) ++ [hex_digit (z mod 16)]
  end.

(** The number a string of hexadecimal digits denotes. *)
Definition hex_number (s : jsstring) : Z :=
  fold_left (fun acc c => 16 * acc + hex_value c) s 0.

(** ** Switching slots *)

(** An entry that [setActiveSlot(slot)] treats as a boot entry of the slot
    it activates. *)
Definition activated_boot_entry (slot : jsstring) (e : GPTPartitionEntry.t) : bool :=
  used e &&
  startsWith (GPTPartitionEntry.name e) (js "boot") &&
  js_eqb (slice_last 2 (GPTPartitionEntry.name e)) (js "_" ++ slot).

(** ** Entries written and read back *)

(** An entry as it is read from the 128 bytes it is written to. *)
Definition written_back (e : GPTPartitionEntry.t) : GPTPartitionEntry.t :=
  GPTPartitionEntry.decode (GPTPartitionEntry.toBuffer e).

(** * Theorems *)

(** ** Checks of the codecs *)

Example crc32_check : crc32_unsigned (list_byte_of_string "123456789") = 0xCBF43926.
Proof. vm_compute. reflexivity. Qed.

Example crc32_check_signed : crc32 (list_byte_of_string "123456789") = -873187034.
Proof. vm_compute. reflexivity. Qed.

Example guid_unused : guid_decode (replicate 16 x00) = TYPE_EFI_UNUSED.
Proof. vm_compute. reflexivity. Qed.

(** ** Bit fields of the attribute word *)

Lemma testbit_field (k n i : Z) :
  0 <= k -> 0 <= n ->
  Z.testbit (Z.shiftl (Z.ones k) n) i = (n <=? i) && (i <? n + k).
Proof.
  intros Hk Hn.
  destruct (Z.ltb_spec i 0) as [Hi | Hi].
  - rewrite Z.testbit_neg_r by lia.
    symmetry; apply andb_false_iff; left; apply Z.leb_gt; lia.
  - rewrite Z.shiftl_spec by lia.
    rewrite Z.testbit_ones by lia.
    destruct (Z.leb_spec n i), (Z.leb_spec 0 (i - n)),
      (Z.ltb_spec (i - n) k), (Z.ltb_spec i (n + k)); simpl; try reflexivity; lia.
Qed.

Lemma PRIORITY_MASK_bits i :
  Z.testbit PART_ATT_PRIORITY_MASK i = (48 <=? i) && (i <? 50).
Proof. exact (testbit_field 2 48 i ltac:(lia) ltac:(lia)). Qed.

Lemma ACTIVE_VAL_bits i :
  Z.testbit PART_ATT_ACTIVE_VAL i = (50 <=? i) && (i <? 51).
Proof. exact (testbit_field 1 50 i ltac:(lia) ltac:(lia)). Qed.

Lemma RETRY_MASK_bits i :
  Z.testbit PART_ATT_RETRY_MASK i = (51 <=? i) && (i <? 54).
Proof. exact (testbit_field 3 51 i ltac:(lia) ltac:(lia)). Qed.

Lemma SUCCESS_VAL_bits i :
  Z.testbit PART_ATT_SUCCESS_VAL i = (54 <=? i) && (i <? 55).
Proof. exact (testbit_field 1 54 i ltac:(lia) ltac:(lia)). Qed.

Lemma UNBOOTABLE_VAL_bits i :
  Z.testbit PART_ATT_UNBOOTABLE_VAL i = (55 <=? i) && (i <? 56).
Proof. exact (testbit_field 1 55 i ltac:(lia) ltac:(lia)). Qed.

Lemma MAX_PRIORITY_bits i :
  Z.testbit (Z.shiftl MAX_PRIORITY PART_ATT_PRIORITY_BIT) i = (48 <=? i) && (i <? 50).
Proof. exact (testbit_field 2 48 i ltac:(lia) ltac:(lia)). Qed.

Lemma SECOND_PRIORITY_bits i :
  Z.testbit (Z.shiftl (MAX_PRIORITY - 1) PART_ATT_PRIORITY_BIT) i = (49 <=? i) && (i <? 50).
Proof. exact (testbit_field 1 49 i ltac:(lia) ltac:(lia)). Qed.

Lemma MAX_RETRY_COUNT_bits i :
  Z.testbit (Z.shiftl MAX_RETRY_COUNT PART_ATT_RETRY_CNT_BIT) i = (51 <=? i) && (i <? 54).
Proof. exact (testbit_field 3 51 i ltac:(lia) ltac:(lia)). Qed.

Create Rewrite HintDb attr_bits.
#[global] Hint Rewrite PRIORITY_MASK_bits ACTIVE_VAL_bits RETRY_MASK_bits SUCCESS_VAL_bits
  UNBOOTABLE_VAL_bits MAX_PRIORITY_bits SECOND_PRIORITY_bits MAX_RETRY_COUNT_bits : attr_bits.

(** Decide a goal about one bit of a word built from the masks. *)
Ltac split_ranges :=
  repeat match goal with
    | |- context [(?x <=? ?y)] => destruct (Z.leb_spec x y)
    | |- context [(?x <? ?y)] => destruct (Z.ltb_spec x y)
    end.

Ltac bit_of_word :=
  repeat first
    [ rewrite Z.lor_spec | rewrite Z.land_spec | rewrite Z.lnot_spec by lia
    | rewrite Z.shiftr_spec by lia | progress autorewrite with attr_bits ];
  split_ranges; simpl;
  rewrite ?andb_true_r, ?andb_false_r, ?orb_true_r, ?orb_false_r;
  try reflexivity; try lia.

Lemma boot_active_bits a i :
  0 <= i ->
  Z.testbit (GPT.boot_active_attributes a) i =
    if (48 <=? i) && (i <? 56) then i <? 54 else Z.testbit a i.
Proof. intros Hi. unfold GPT.boot_active_attributes. bit_of_word. Qed.

Lemma boot_inactive_bits a i :
  0 <= i ->
  Z.testbit (GPT.boot_inactive_attributes a) i =
    if (48 <=? i) && (i <? 51) then i =? 49 else Z.testbit a i.
Proof.
  intros Hi. unfold GPT.boot_inactive_attributes. 
  destruct (Z.eqb_spec i 49); bit_of_word.
Qed.

Lemma other_active_bits a i :
  Z.testbit (GPT.other_active_attributes a) i = (i =? 50) || Z.testbit a i.
Proof.
  unfold GPT.other_active_attributes.
  destruct (Z.eqb_spec i 50); bit_of_word; destruct (Z.testbit a i); reflexivity.
Qed.

Lemma other_inactive_bits a i :
  0 <= i ->
  Z.testbit (GPT.other_inactive_attributes a) i = negb (i =? 50) && Z.testbit a i.
Proof.
  intros Hi. unfold GPT.other_inactive_attributes.
  destruct (Z.eqb_spec i 50); bit_of_word; destruct (Z.testbit a i); reflexivity.
Qed.

(** ** Running computations *)

Lemma bind_ok {A B} (m : M A) (k : A -> M B) σ a σ' :
  m σ = (Ok a, σ') -> bind m k σ = k a σ'.
Proof. intros H. unfold bind. rewrite H. reflexivity. Qed.

Lemma bind_throw {A B} (m : M A) (k : A -> M B) σ e σ' :
  m σ = (Throw e, σ') -> bind m k σ = (Throw e, σ').
Proof. intros H. unfold bind. rewrite H. reflexivity. Qed.

Lemma set_heap_id σ : set_heap (heap σ) σ = σ.
Proof. destruct σ; reflexivity. Qed.

Lemma read_gpt_run σ l :
  read_gpt l σ =
    (match gpt_at (heap σ) l with Some g => Ok g | None => Throw TypeError end, σ).
Proof. unfold read_gpt, gpt_at. destruct (heap σ !! l) as [[]|]; reflexivity. Qed.

Lemma read_header_run σ l :
  read_header l σ =
    (match header_at (heap σ) l with Some h => Ok h | None => Throw TypeError end, σ).
Proof. unfold read_header, header_at. destruct (heap σ !! l) as [[]|]; reflexivity. Qed.

Lemma read_entry_run σ l :
  read_entry l σ =
    (match entry_at (heap σ) l with Some e => Ok e | None => Throw TypeError end, σ).
Proof. unfold read_entry, entry_at. destruct (heap σ !! l) as [[]|]; reflexivity. Qed.

Lemma read_array_run σ l :
  read_array l σ =
    (match array_at (heap σ) l with Some a => Ok a | None => Throw TypeError end, σ).
Proof. unfold read_array, array_at. destruct (heap σ !! l) as [[]|]; reflexivity. Qed.

Lemma entry_at_Some h l e : entry_at h l = Some e <-> h !! l = Some (ObjEntry e).
Proof.
  unfold entry_at. destruct (h !! l) as [[]|]; split; intros H; inversion H; reflexivity.
Qed.

Lemma gpt_at_Some h l g : gpt_at h l = Some g <-> h !! l = Some (ObjGPT g).
Proof.
  unfold gpt_at. destruct (h !! l) as [[]|]; split; intros H; inversion H; reflexivity.
Qed.

Lemma header_at_Some h l x : header_at h l = Some x <-> h !! l = Some (ObjHeader x).
Proof.
  unfold header_at. destruct (h !! l) as [[]|]; split; intros H; inversion H; reflexivity.
Qed.

Lemma array_at_Some h l a : array_at h l = Some a <-> h !! l = Some (ObjArray a).
Proof.
  unfold array_at. destruct (h !! l) as [[]|]; split; intros H; inversion H; reflexivity.
Qed.

Lemma modify_entry_run σ l f :
  modify_entry l f σ =
    match entry_at (heap σ) l with
    | Some e => (Ok tt, set_heap (<[l := ObjEntry (f e)]> (heap σ)) σ)
    | None => (Throw TypeError, σ)
    end.
Proof.
  unfold modify_entry, bind. rewrite read_entry_run.
  destruct (entry_at (heap σ) l); reflexivity.
Qed.

Lemma modify_header_run σ l f :
  modify_header l f σ =
    match header_at (heap σ) l with
    | Some h => (Ok tt, set_heap (<[l := ObjHeader (f h)]> (heap σ)) σ)
    | None => (Throw TypeError, σ)
    end.
Proof.
  unfold modify_header, bind. rewrite read_header_run.
  destruct (header_at (heap σ) l); reflexivity.
Qed.

(** ** [setActiveSlot]: one entry *)

Lemma set_attributes_same e :
  GPTPartitionEntry.set_attributes (GPTPartitionEntry.attributes e) e = e.
Proof. destruct e; reflexivity. Qed.

Lemma setActiveSlot_entry_run slot l σ :
  GPT.setActiveSlot_entry slot l σ =
    match entry_at (heap σ) l with
    | Some e => (Ok tt, set_heap (<[l := ObjEntry (slot_update slot e)]> (heap σ)) σ)
    | None => (Throw TypeError, σ)
    end.
Proof.
  unfold GPT.setActiveSlot_entry, bind. rewrite read_entry_run.
  destruct (entry_at (heap σ) l) as [e|] eqn:He; [|reflexivity].
  assert (Hskip : slot_attributes slot e = GPTPartitionEntry.attributes e ->
                  (Ok tt, σ) =
                  (Ok tt, set_heap (<[l := ObjEntry (slot_update slot e)]> (heap σ)) σ)).
  { intros Hs. unfold slot_update. rewrite Hs, set_attributes_same.
    rewrite insert_id by (apply entry_at_Some; exact He).
    rewrite set_heap_id. reflexivity. }
  unfold slot_update, slot_attributes in *.
  destruct (js_eqb (GPTPartitionEntry.type e) TYPE_EFI_UNUSED); [apply Hskip; reflexivity|].
  destruct (negb (js_eqb (slice_last 2 (GPTPartitionEntry.name e)) (js "_a")) &&
            negb (js_eqb (slice_last 2 (GPTPartitionEntry.name e)) (js "_b")));
    [apply Hskip; reflexivity|].
  destruct (startsWith (GPTPartitionEntry.name e) (js "boot"));
    destruct (js_eqb (slice_last 2 (GPTPartitionEntry.name e)) (js "_" ++ slot));
    rewrite modify_entry_run, He; reflexivity.
Qed.

Lemma set_attributes_type v e :
  GPTPartitionEntry.type (GPTPartitionEntry.set_attributes v e) = GPTPartitionEntry.type e.
Proof. reflexivity. Qed.

Lemma set_attributes_name v e :
  GPTPartitionEntry.name (GPTPartitionEntry.set_attributes v e) = GPTPartitionEntry.name e.
Proof. reflexivity. Qed.

Lemma set_attributes_attributes v e :
  GPTPartitionEntry.attributes (GPTPartitionEntry.set_attributes v e) = v.
Proof. reflexivity. Qed.

Lemma set_attributes_twice v w e :
  GPTPartitionEntry.set_attributes v (GPTPartitionEntry.set_attributes w e) =
  GPTPartitionEntry.set_attributes v e.
Proof. reflexivity. Qed.

Lemma boot_active_idempotent a :
  GPT.boot_active_attributes (GPT.boot_active_attributes a) = GPT.boot_active_attributes a.
Proof.
  apply Z.bits_inj'; intros i Hi. rewrite !boot_active_bits by lia.
  destruct ((48 <=? i) && (i <? 56)); reflexivity.
Qed.

Lemma boot_inactive_idempotent a :
  GPT.boot_inactive_attributes (GPT.boot_inactive_attributes a) =
  GPT.boot_inactive_attributes a.
Proof.
  apply Z.bits_inj'; intros i Hi. rewrite !boot_inactive_bits by lia.
  destruct ((48 <=? i) && (i <? 51)); reflexivity.
Qed.

Lemma other_active_idempotent a :
  GPT.other_active_attributes (GPT.other_active_attributes a) =
  GPT.other_active_attributes a.
Proof.
  apply Z.bits_inj'; intros i Hi. rewrite !other_active_bits.
  destruct (i =? 50); reflexivity.
Qed.

Lemma other_inactive_idempotent a :
  GPT.other_inactive_attributes (GPT.other_inactive_attributes a) =
  GPT.other_inactive_attributes a.
Proof.
  apply Z.bits_inj'; intros i Hi. rewrite !other_inactive_bits by lia.
  destruct (i =? 50); reflexivity.
Qed.

Lemma slot_update_idempotent slot e :
  slot_update slot (slot_update slot e) = slot_update slot e.
Proof.
  unfold slot_update. rewrite set_attributes_twice. f_equal.
  unfold slot_attributes at 1.
  rewrite set_attributes_type, set_attributes_name, set_attributes_attributes.
  unfold slot_attributes.
  destruct (js_eqb (GPTPartitionEntry.type e) TYPE_EFI_UNUSED); [reflexivity|].
  destruct (negb (js_eqb (slice_last 2 (GPTPartitionEntry.name e)) (js "_a")) &&
            negb (js_eqb (slice_last 2 (GPTPartitionEntry.name e)) (js "_b")));
    [reflexivity|].
  destruct (startsWith (GPTPartitionEntry.name e) (js "boot"));
    destruct (js_eqb (slice_last 2 (GPTPartitionEntry.name e)) (js "_" ++ slot)).
  - apply boot_active_idempotent.
  - apply boot_inactive_idempotent.
  - apply other_active_idempotent.
  - apply other_inactive_idempotent.
Qed.

(** ** Reading the flags off the bits *)

Lemma flag_bit a n : 0 <= n -> negb (Z.land a (Z.shiftl 1 n) =? 0) = Z.testbit a n.
Proof.
  intros Hn.
  assert (H : Z.land a (Z.shiftl 1 n) = if Z.testbit a n then 2 ^ n else 0).
  { apply Z.bits_inj'; intros i Hi.
    rewrite Z.land_spec, Z.shiftl_1_l, Z.pow2_bits_eqb by lia.
    destruct (Z.eqb_spec n i) as [->|Hne].
    - destruct (Z.testbit a i); [rewrite Z.pow2_bits_true by lia; reflexivity|].
      rewrite Z.bits_0; reflexivity.
    - rewrite andb_false_r. destruct (Z.testbit a n); [|rewrite Z.bits_0; reflexivity].
      rewrite Z.pow2_bits_false by lia; reflexivity. }
  rewrite H. destruct (Z.testbit a n); [|reflexivity].
  assert (0 < 2 ^ n) by (apply Z.pow_pos_nonneg; lia).
  destruct (Z.eqb_spec (2 ^ n) 0); [lia|reflexivity].
Qed.

Lemma field_bits a k n i :
  0 <= k -> 0 <= n -> 0 <= i ->
  Z.testbit (Z.shiftr (Z.land a (Z.shiftl (Z.ones k) n)) n) i =
    Z.testbit a (i + n) && (i <? k).
Proof.
  intros Hk Hn Hi. rewrite Z.shiftr_spec, Z.land_spec, testbit_field by lia.
  f_equal. destruct (Z.leb_spec n (i + n)), (Z.ltb_spec (i + n) (n + k)), (Z.ltb_spec i k);
    simpl; try reflexivity; lia.
Qed.

Lemma priority_bits a i :
  0 <= i -> Z.testbit (priority (parseABFlags a)) i = Z.testbit a (i + 48) && (i <? 2).
Proof. intros Hi. exact (field_bits a 2 48 i ltac:(lia) ltac:(lia) Hi). Qed.

Lemma triesRemaining_bits a i :
  0 <= i -> Z.testbit (triesRemaining (parseABFlags a)) i = Z.testbit a (i + 51) && (i <? 3).
Proof. intros Hi. exact (field_bits a 3 51 i ltac:(lia) ltac:(lia) Hi). Qed.

Lemma active_bit a : active (parseABFlags a) = Z.testbit a 50.
Proof. exact (flag_bit a 50 ltac:(lia)). Qed.

Lemma successful_bit a : successful (parseABFlags a) = Z.testbit a 54.
Proof. exact (flag_bit a 54 ltac:(lia)). Qed.

Lemma unbootable_bit a : unbootable (parseABFlags a) = Z.testbit a 55.
Proof. exact (flag_bit a 55 ltac:(lia)). Qed.

(** The priority as a number: bits 48 and 49. *)
Lemma priority_value a : priority (parseABFlags a) = (a / 2 ^ 48) mod 2 ^ 2.
Proof.
  apply Z.bits_inj'; intros i Hi. rewrite priority_bits by lia.
  destruct (Z.ltb_spec i 2).
  - rewrite Z.mod_pow2_bits_low, Z.div_pow2_bits, andb_true_r by lia. reflexivity.
  - rewrite Z.mod_pow2_bits_high, andb_false_r by lia. reflexivity.
Qed.

Lemma priority_range a : 0 <= priority (parseABFlags a) <= 3.
Proof. rewrite priority_value. pose proof (Z.mod_pos_bound (a / 2 ^ 48) (2 ^ 2)). lia. Qed.

Lemma boot_active_flags a :
  parseABFlags (GPT.boot_active_attributes a) =
    {| priority := 3; active := true; triesRemaining := 7;
       successful := false; unbootable := false |}.
Proof.
  assert (Hp : priority (parseABFlags (GPT.boot_active_attributes a)) = Z.ones 2).
  { apply Z.bits_inj'; intros i Hi.
    rewrite priority_bits, boot_active_bits, Z.testbit_ones_nonneg by lia.
    split_ranges; simpl; try reflexivity; lia. }
  assert (Ht : triesRemaining (parseABFlags (GPT.boot_active_attributes a)) = Z.ones 3).
  { apply Z.bits_inj'; intros i Hi.
    rewrite triesRemaining_bits, boot_active_bits, Z.testbit_ones_nonneg by lia.
    split_ranges; simpl; try reflexivity; lia. }
  pose proof (active_bit (GPT.boot_active_attributes a)) as Ha.
  pose proof (successful_bit (GPT.boot_active_attributes a)) as Hs.
  pose proof (unbootable_bit (GPT.boot_active_attributes a)) as Hu.
  rewrite boot_active_bits in Ha, Hs, Hu by lia.
  unfold parseABFlags. f_equal; [exact Hp | exact Ha | exact Ht | exact Hs | exact Hu].
Qed.

Lemma boot_inactive_flags a :
  let f := parseABFlags a in
  parseABFlags (GPT.boot_inactive_attributes a) =
    {| priority := 2; active := false; triesRemaining := triesRemaining f;
       successful := successful f; unbootable := unbootable f |}.
Proof.
  intros f.
  assert (Hp : priority (parseABFlags (GPT.boot_inactive_attributes a)) = 2 ^ 1).
  { apply Z.bits_inj'; intros i Hi.
    rewrite priority_bits, boot_inactive_bits, Z.pow2_bits_eqb by lia.
    destruct (Z.eqb_spec (i + 48) 49), (Z.eqb_spec 1 i); split_ranges; simpl;
      try reflexivity; lia. }
  assert (Ht : triesRemaining (parseABFlags (GPT.boot_inactive_attributes a)) =
               triesRemaining f).
  { apply Z.bits_inj'; intros i Hi. subst f.
    rewrite !triesRemaining_bits, boot_inactive_bits by lia.
    split_ranges; simpl; rewrite ?andb_false_r; try reflexivity; lia. }
  pose proof (active_bit (GPT.boot_inactive_attributes a)) as Ha.
  pose proof (successful_bit (GPT.boot_inactive_attributes a)) as Hs.
  pose proof (unbootable_bit (GPT.boot_inactive_attributes a)) as Hu.
  rewrite boot_inactive_bits in Ha, Hs, Hu by lia.
  change (if (48 <=? 54) && (54 <? 51) then 54 =? 49 else Z.testbit a 54)
    with (Z.testbit a 54) in Hs.
  change (if (48 <=? 55) && (55 <? 51) then 55 =? 49 else Z.testbit a 55)
    with (Z.testbit a 55) in Hu.
  rewrite <- successful_bit in Hs. rewrite <- unbootable_bit in Hu.
  unfold parseABFlags at 1. f_equal; [exact Hp | exact Ha | exact Ht | exact Hs | exact Hu].
Qed.

Lemma other_active_setbit a : GPT.other_active_attributes a = Z.setbit a 50.
Proof. reflexivity. Qed.

Lemma other_inactive_clearbit a : GPT.other_inactive_attributes a = Z.clearbit a 50.
Proof.
  apply Z.bits_inj'; intros i Hi.
  rewrite other_inactive_bits, Z.clearbit_eqb by lia.
  rewrite (Z.eqb_sym 50 i). apply andb_comm.
Qed.

(** Outside bits 48 to 55 the four assignments change nothing. *)
Lemma slot_attributes_opaque slot e i :
  ~ (48 <= i <= 55) ->
  Z.testbit (slot_attributes slot e) i = Z.testbit (GPTPartitionEntry.attributes e) i.
Proof.
  intros Hi. destruct (Z.ltb_spec i 0) as [Hneg|Hpos].
  { rewrite !Z.testbit_neg_r by lia. reflexivity. }
  unfold slot_attributes.
  destruct (js_eqb (GPTPartitionEntry.type e) TYPE_EFI_UNUSED); [reflexivity|].
  destruct (negb _ && negb _); [reflexivity|].
  destruct (startsWith _ _); destruct (js_eqb _ (js "_" ++ slot));
    rewrite ?boot_active_bits, ?boot_inactive_bits, ?other_active_bits,
      ?other_inactive_bits by lia;
    try destruct (Z.eqb_spec i 50); split_ranges; simpl; try reflexivity; lia.
Qed.

(** [name.slice(-2) === suffix] says that [name] ends with the two-unit
    [suffix]. *)
Lemma slice_last_endsWith s p :
  length p = 2%nat -> js_eqb (slice_last 2 s) p = endsWith s p.
Proof.
  intros Hp. unfold endsWith, slice_last. rewrite Hp.
  destruct (Nat.leb_spec 2 (length s)) as [Hle|Hlt]; [reflexivity|].
  simpl. unfold js_eqb. apply bool_decide_eq_false. intros Heq.
  assert (Hlen : length (drop (length s - 2) s) = length p) by (rewrite Heq; reflexivity).
  rewrite length_drop in Hlen. lia.
Qed.

(** ** [setActiveSlot]: the loop over the array *)

Lemma heap_set_heap h σ : heap (set_heap h σ) = h.
Proof. reflexivity. Qed.

Lemma logged_set_heap h σ : logged (set_heap h σ) = logged σ.
Proof. reflexivity. Qed.

Lemma slot_updated_step slot l0 rest σ e0 σ' l :
  heap σ !! l0 = Some (ObjEntry e0) ->
  slot_updated slot rest
    (set_heap (<[l0 := ObjEntry (slot_update slot e0)]> (heap σ)) σ) σ' l ->
  slot_updated slot (l0 :: rest) σ σ' l.
Proof.
  intros He0 H. unfold slot_updated in *. rewrite heap_set_heap in H.
  destruct (decide (l = l0)) as [->|Hne].
  - right. split; [left|]. exists e0. split; [exact He0|].
    rewrite lookup_insert_eq in H.
    destruct H as [Hsame | (_ & e1 & H1 & H2)]; [exact Hsame|].
    inversion H1; subst e1. rewrite H2, slot_update_idempotent. reflexivity.
  - rewrite lookup_insert_ne in H by congruence.
    destruct H as [Hsame | (Hin & e1 & H1 & H2)]; [left; exact Hsame|].
    right. split; [right; exact Hin|]. exists e1. split; assumption.
Qed.

Lemma setActiveSlot_loop slot ls :
  forall σ r σ',
    for_each ls (GPT.setActiveSlot_entry slot) σ = (r, σ') ->
    logged σ' = logged σ /\
    (forall l, slot_updated slot ls σ σ' l) /\
    (r = Ok tt ->
     forall l, l ∈ ls ->
       exists e, heap σ !! l = Some (ObjEntry e) /\
                 heap σ' !! l = Some (ObjEntry (slot_update slot e))) /\
    ((forall l, l ∈ ls -> is_Some (entry_at (heap σ) l)) -> r = Ok tt).
Proof.
  induction ls as [|l0 rest IH]; intros σ r σ' Hrun; simpl in Hrun.
  - inversion Hrun; subst. repeat split; auto.
    + intros l. left. reflexivity.
    + intros _ l Hl. inversion Hl.
  - unfold bind in Hrun. rewrite setActiveSlot_entry_run in Hrun.
    destruct (entry_at (heap σ) l0) as [e0|] eqn:He0.
    + apply IH in Hrun as (Hlog & Hcells & Hall & Hok).
      rewrite logged_set_heap in Hlog.
      apply entry_at_Some in He0.
      assert (Hcell : forall l, slot_updated slot (l0 :: rest) σ σ' l).
      { intros l. eapply slot_updated_step; eauto. }
      split; [exact Hlog|]. split; [exact Hcell|]. split.
      * intros Hr l Hl.
        destruct (Hcell l) as [Hsame | (_ & e & H1 & H2)]; [|exists e; auto].
        apply elem_of_cons in Hl as [->|Hl].
        -- destruct (Hcells l0) as [Hs | (_ & e1 & H1 & H2)];
             rewrite heap_set_heap, lookup_insert_eq in *.
           ++ exists e0. split; [exact He0|exact Hs].
           ++ inversion H1; subst e1. exists e0. split; [exact He0|].
              rewrite H2, slot_update_idempotent. reflexivity.
        -- destruct (Hall Hr l Hl) as (e1 & H1 & H2). rewrite heap_set_heap in H1.
           destruct (decide (l = l0)) as [->|Hne].
           ++ rewrite lookup_insert_eq in H1. inversion H1; subst e1.
              exists e0. split; [exact He0|]. rewrite H2, slot_update_idempotent.
              reflexivity.
           ++ rewrite lookup_insert_ne in H1 by congruence. exists e1. auto.
      * intros Hentries. apply Hok. intros l Hl. rewrite heap_set_heap.
        unfold entry_at. destruct (decide (l = l0)) as [->|Hne].
        -- rewrite lookup_insert_eq. eexists; reflexivity.
        -- rewrite lookup_insert_ne by congruence. apply Hentries. right. exact Hl.
    + inversion Hrun; subst. repeat split; auto.
      * intros l. left. reflexivity.
      * intros Hr. discriminate.
      * intros Hentries. destruct (Hentries l0) as [e He]; [left|]. congruence.
Qed.

(** Re-running the loop from the state it produced changes nothing. *)
Lemma setActiveSlot_loop_again slot ls :
  forall σ r σ',
    for_each ls (GPT.setActiveSlot_entry slot) σ = (r, σ') ->
    for_each ls (GPT.setActiveSlot_entry slot) σ' = (r, σ').
Proof.
  induction ls as [|l0 rest IH]; intros σ r σ' Hrun; simpl in *.
  - inversion Hrun; subst. reflexivity.
  - unfold bind in *. rewrite setActiveSlot_entry_run in *.
    destruct (entry_at (heap σ) l0) as [e0|] eqn:He0.
    + pose proof (setActiveSlot_loop _ _ _ _ _ Hrun) as (_ & Hcells & _).
      assert (H0 : heap σ' !! l0 = Some (ObjEntry (slot_update slot e0))).
      { destruct (Hcells l0) as [Hs | (_ & e1 & H1 & H2)];
          rewrite heap_set_heap, lookup_insert_eq in *; [exact Hs|].
        inversion H1; subst e1. rewrite H2, slot_update_idempotent. reflexivity. }
      apply entry_at_Some in H0 as H0'. rewrite H0'.
      rewrite slot_update_idempotent, insert_id, set_heap_id by exact H0.
      eapply IH; eassumption.
    + inversion Hrun; subst. rewrite He0. reflexivity.
Qed.

(** The loop turns entry views into entry views and leaves every other
    object as it is. *)
Lemma slot_updated_gpt_at slot ls σ σ' l :
  slot_updated slot ls σ σ' l -> gpt_at (heap σ') l = gpt_at (heap σ) l.
Proof.
  unfold gpt_at. intros [-> | (_ & e & -> & ->)]; reflexivity.
Qed.

Lemma slot_updated_array_at slot ls σ σ' l :
  slot_updated slot ls σ σ' l -> array_at (heap σ') l = array_at (heap σ) l.
Proof.
  unfold array_at. intros [-> | (_ & e & -> & ->)]; reflexivity.
Qed.

Lemma slot_updated_header_at slot ls σ σ' l :
  slot_updated slot ls σ σ' l -> header_at (heap σ') l = header_at (heap σ) l.
Proof.
  unfold header_at. intros [-> | (_ & e & -> & ->)]; reflexivity.
Qed.

Lemma slot_updated_entry_at slot ls σ σ' l :
  slot_updated slot ls σ σ' l ->
  entry_at (heap σ') l = entry_at (heap σ) l \/
  exists e, entry_at (heap σ) l = Some e /\ entry_at (heap σ') l = Some (slot_update slot e).
Proof.
  unfold entry_at. intros [-> | (_ & e & -> & ->)]; [left; reflexivity|].
  right. exists e. split; reflexivity.
Qed.

(** ** [setActiveSlot] *)

Lemma setActiveSlot_invalid this slot σ :
  slot <> js "a" -> slot <> js "b" ->
  GPT.setActiveSlot this slot σ = (Throw Error_InvalidSlot, σ).
Proof.
  intros Ha Hb. unfold GPT.setActiveSlot, js_eqb.
  rewrite !bool_decide_eq_false_2 by assumption. reflexivity.
Qed.

Lemma setActiveSlot_valid this slot σ :
  slot = js "a" \/ slot = js "b" ->
  GPT.setActiveSlot this slot σ =
    (let* g := read_gpt this in
     let* a := read_array (partEntries g) in
     for_each a (GPT.setActiveSlot_entry slot)) σ.
Proof.
  intros [->| ->]; reflexivity.
Qed.

(** Whatever the slot and the outcome, nothing is logged and every cell is
    as before or an entry of the array with its slot attributes assigned. *)
Lemma setActiveSlot_cells this slot σ r σ' :
  GPT.setActiveSlot this slot σ = (r, σ') ->
  logged σ' = logged σ /\
  exists ls, forall l, slot_updated slot ls σ σ' l.
Proof.
  unfold GPT.setActiveSlot. intros Hrun.
  assert (Hnone : logged σ = logged σ /\
                  exists ls : list loc, forall l, slot_updated slot ls σ σ l).
  { split; [reflexivity|]. exists []. left; reflexivity. }
  destruct (negb (js_eqb slot (js "a")) && negb (js_eqb slot (js "b"))).
  { inversion Hrun; subst. apply Hnone. }
  unfold bind in Hrun. rewrite read_gpt_run in Hrun.
  destruct (gpt_at (heap σ) this) as [g|]; [|inversion Hrun; subst; apply Hnone].
  rewrite read_array_run in Hrun.
  destruct (array_at (heap σ) (partEntries g)) as [a|];
    [|inversion Hrun; subst; apply Hnone].
  apply setActiveSlot_loop in Hrun as (Hlog & Hcells & _).
  split; [exact Hlog|]. exists a. exact Hcells.
Qed.

Lemma entries_at_Some h ls es :
  entries_at h ls = Some es <-> Forall2 (fun l e => h !! l = Some (ObjEntry e)) ls es.
Proof.
  revert es. induction ls as [|l r IH]; intros es; simpl.
  - split; [intros H; inversion H; constructor|intros H; inversion H; reflexivity].
  - destruct (entry_at h l) as [e|] eqn:He.
    + destruct (entries_at h r) as [es'|] eqn:Hes.
      * split.
        -- intros H; inversion H; subst. constructor; [apply entry_at_Some; exact He|].
           apply IH. reflexivity.
        -- intros H; inversion H; subst. apply entry_at_Some in H2.
           rewrite H2 in He; inversion He; subst.
           apply IH in H4. inversion H4; subst. reflexivity.
      * split; [discriminate|]. intros H; inversion H; subst.
        apply IH in H4. discriminate.
    + split; [discriminate|]. intros H; inversion H; subst.
      apply entry_at_Some in H2. congruence.
Qed.

Lemma entries_at_elem h ls es l :
  entries_at h ls = Some es -> l ∈ ls -> is_Some (entry_at h l).
Proof.
  intros H Hl. apply entries_at_Some in H.
  induction H as [|l0 e0 ls' es' H0 _ IH]; [inversion Hl|].
  apply elem_of_cons in Hl as [->|Hl]; [|auto].
  apply entry_at_Some in H0. rewrite H0. eexists; reflexivity.
Qed.

Lemma entries_at_updated slot ls σ σ' es :
  entries_at (heap σ) ls = Some es ->
  (forall l, l ∈ ls ->
     exists e, heap σ !! l = Some (ObjEntry e) /\
               heap σ' !! l = Some (ObjEntry (slot_update slot e))) ->
  entries_at (heap σ') ls = Some (map (slot_update slot) es).
Proof.
  intros H Hall. apply entries_at_Some. apply entries_at_Some in H.
  induction H as [|l0 e0 ls' es' H0 _ IH]; simpl; constructor.
  - destruct (Hall l0) as (e & H1 & H2); [left|]. congruence.
  - apply IH. intros l Hl. apply Hall. right. exact Hl.
Qed.

(** The parts of a snapshot. *)
Lemma snapshot_Some σ this v :
  snapshot σ this = Some v <->
  exists g a,
    gpt_at (heap σ) this = Some g /\
    array_at (heap σ) (partEntries g) = Some a /\
    entries_at (heap σ) a = Some (value_entries v) /\
    value_sectorSize v = sectorSize g /\
    match header g with
    | Some hl => exists h, header_at (heap σ) hl = Some h /\ value_header v = Some h
    | None => value_header v = None
    end.
Proof.
  unfold snapshot. split.
  - destruct (gpt_at (heap σ) this) as [g|] eqn:Hg; [|discriminate].
    destruct (array_at (heap σ) (partEntries g)) as [a|] eqn:Ha; [|discriminate].
    destruct (entries_at (heap σ) a) as [es|] eqn:Hes; [|discriminate].
    destruct (header g) as [hl|] eqn:Hh.
    + destruct (header_at (heap σ) hl) as [h|] eqn:Hhl; [|discriminate].
      simpl. intros H; inversion H; subst; simpl.
      exists g, a. rewrite Hh, Ha, Hes. do 4 (split; [reflexivity|]). exists h. auto.
    + intros H; inversion H; subst; simpl. exists g, a. rewrite Hh, Ha, Hes.
      do 4 (split; [reflexivity|]). reflexivity.
  - intros (g & a & -> & -> & -> & Hs & Hh). destruct v as [ss hd es]; simpl in *.
    destruct (header g) as [hl|].
    + destruct Hh as (h & -> & ->). simpl. subst. reflexivity.
    + subst. reflexivity.
Qed.

Lemma footprint_array σ this g a l :
  gpt_at (heap σ) this = Some g ->
  array_at (heap σ) (partEntries g) = Some a ->
  l ∈ a -> l ∈ footprint σ this.
Proof.
  intros Hg Ha Hl. unfold footprint. rewrite Hg, Ha.
  apply elem_of_union_r. apply elem_of_list_to_set. exact Hl.
Qed.

(** What [setActiveSlot] does to one entry, by the entry's name. *)
Lemma slot_update_cases slot e :
  let e' := slot_update slot e in
  let name := GPTPartitionEntry.name e in
  let unused := js_eqb (GPTPartitionEntry.type e) TYPE_EFI_UNUSED in
  let suffixed := endsWith name (js "_a") || endsWith name (js "_b") in
  let matches := endsWith name (js "_" ++ slot) in
  let boot := startsWith name (js "boot") in
  let before := parseABFlags (GPTPartitionEntry.attributes e) in
  let after := parseABFlags (GPTPartitionEntry.attributes e') in
  slot = js "a" \/ slot = js "b" ->
  e' = GPTPartitionEntry.set_attributes (GPTPartitionEntry.attributes e') e /\
  (unused = true \/ suffixed = false -> e' = e) /\
  (unused = false -> suffixed = true -> boot = true -> matches = true ->
   after = {| priority := 3; active := true; triesRemaining := 7;
              successful := false; unbootable := false |}) /\
  (unused = false -> suffixed = true -> boot = true -> matches = false ->
   after = {| priority := 2; active := false; triesRemaining := triesRemaining before;
              successful := successful before; unbootable := unbootable before |}) /\
  (unused = false -> suffixed = true -> boot = false -> matches = true ->
   GPTPartitionEntry.attributes e' = Z.setbit (GPTPartitionEntry.attributes e) 50) /\
  (unused = false -> suffixed = true -> boot = false -> matches = false ->
   GPTPartitionEntry.attributes e' = Z.clearbit (GPTPartitionEntry.attributes e) 50).
Proof.
  intros e' name unused suffixed matches boot before after Hslot.
  assert (Hm : js_eqb (slice_last 2 name) (js "_" ++ slot) = matches).
  { apply slice_last_endsWith. destruct Hslot as [->| ->]; reflexivity. }
  assert (Hs : negb (js_eqb (slice_last 2 name) (js "_a")) &&
               negb (js_eqb (slice_last 2 name) (js "_b")) = negb suffixed).
  { rewrite !slice_last_endsWith by reflexivity. subst suffixed.
    rewrite negb_orb. reflexivity. }
  assert (Hattr : GPTPartitionEntry.attributes e' = slot_attributes slot e) by reflexivity.
  split; [reflexivity|].
  subst after. rewrite Hattr. unfold slot_attributes.
  fold name unused boot. rewrite Hm, Hs.
  split.
  { intros Hskip. subst e'. unfold slot_update, slot_attributes.
    fold name unused. rewrite Hs.
    destruct unused; [apply set_attributes_same|].
    destruct Hskip as [Hu|Hsf]; [discriminate|]. rewrite Hsf. apply set_attributes_same. }
  repeat split; intros -> -> -> ->; simpl.
  - apply boot_active_flags.
  - apply boot_inactive_flags.
  - apply other_active_setbit.
  - apply other_inactive_clearbit.
Qed.

(** C1. For every GPT and every slot ["a"] or ["b"], [setActiveSlot(slot)]
    returns normally and replaces each entry of the table by its
    [slot_update], changing no cell outside the table and logging nothing.
    [slot_update] leaves unused entries and entries whose name does not end
    in ["_a"] or ["_b"] as they are and changes only the attribute word of
    the others: a ["boot"]-prefixed entry of the chosen slot gets priority 3,
    active, retry count 7, not successful, not unbootable; a
    ["boot"]-prefixed entry of the other slot gets priority 2 and inactive,
    with retry count, successful and unbootable as before; any other entry
    has bit 50 set when its suffix is the chosen slot and cleared otherwise.
    On the table [boot_a, boot_b, aop_a, aop_b] with zero attributes,
    [setActiveSlot("a")] leaves the attribute words [0x003f000000000000],
    [0x0002000000000000], [0x0004000000000000] and [0]. *)
Theorem setActiveSlot_updates_slot_entries σ this v slot :
  snapshot σ this = Some v ->
  slot = js "a" \/ slot = js "b" ->
  (exists σ',
     GPT.setActiveSlot this slot σ = (Ok tt, σ') /\
     snapshot σ' this = Some (with_entries (map (slot_update slot) (value_entries v)) v) /\
     logged σ' = logged σ /\
     forall l, l ∉ footprint σ this -> heap σ' !! l = heap σ !! l) /\
  (forall e,
     let e' := slot_update slot e in
     let name := GPTPartitionEntry.name e in
     let unused := js_eqb (GPTPartitionEntry.type e) TYPE_EFI_UNUSED in
     let suffixed := endsWith name (js "_a") || endsWith name (js "_b") in
     let matches := endsWith name (js "_" ++ slot) in
     let boot := startsWith name (js "boot") in
     let before := parseABFlags (GPTPartitionEntry.attributes e) in
     let after := parseABFlags (GPTPartitionEntry.attributes e') in
     e' = GPTPartitionEntry.set_attributes (GPTPartitionEntry.attributes e') e /\
     (unused = true \/ suffixed = false -> e' = e) /\
     (unused = false -> suffixed = true -> boot = true -> matches = true ->
      after = {| priority := 3; active := true; triesRemaining := 7;
                 successful := false; unbootable := false |}) /\
     (unused = false -> suffixed = true -> boot = true -> matches = false ->
      after = {| priority := 2; active := false;
                 triesRemaining := triesRemaining before;
                 successful := successful before; unbootable := unbootable before |}) /\
     (unused = false -> suffixed = true -> boot = false -> matches = true ->
      GPTPartitionEntry.attributes e' = Z.setbit (GPTPartitionEntry.attributes e) 50) /\
     (unused = false -> suffixed = true -> boot = false -> matches = false ->
      GPTPartitionEntry.attributes e' = Z.clearbit (GPTPartitionEntry.attributes e) 50)) /\
  fst ((let* gpt := createTestGPT FOUR_PARTITIONS in
        GPT.setActiveSlot gpt (js "a") ;;
        let* es := GPT.entries gpt in
        ret (map GPTPartitionEntry.attributes es)) empty_state) =
    Ok [0x003f000000000000; 0x0002000000000000; 0x0004000000000000; 0x0000000000000000].
Proof.
  intros Hsnap Hslot. split; [|split].
  - apply snapshot_Some in Hsnap as (g & a & Hg & Ha & Hes & Hss & Hh).
    destruct (GPT.setActiveSlot this slot σ) as [r σ'] eqn:Hrun.
    pose proof Hrun as Hrun'.
    rewrite setActiveSlot_valid in Hrun' by exact Hslot.
    unfold bind in Hrun'. rewrite read_gpt_run, Hg, read_array_run, Ha in Hrun'.
    apply setActiveSlot_loop in Hrun' as (Hlog & Hcells & Hall & Hok).
    assert (r = Ok tt) as ->.
    { apply Hok. intros l Hl. eapply entries_at_elem; eassumption. }
    exists σ'. split; [reflexivity|]. split; [|split; [exact Hlog|]].
    + apply snapshot_Some. exists g, a. simpl.
      rewrite (slot_updated_gpt_at _ _ _ _ _ (Hcells this)).
      rewrite (slot_updated_array_at _ _ _ _ _ (Hcells (partEntries g))).
      repeat split; auto.
      * eapply entries_at_updated; eauto.
      * destruct (header g) as [hl|]; [|exact Hh].
        rewrite (slot_updated_header_at _ _ _ _ _ (Hcells hl)). exact Hh.
    + intros l Hl. destruct (Hcells l) as [Hsame | (Hin & _)]; [exact Hsame|].
      exfalso. apply Hl. eapply footprint_array; eassumption.
  - intros e. apply slot_update_cases. exact Hslot.
  - vm_compute. reflexivity.
Qed.

Lemma setActiveSlot_updates_slot_entries_witness :
  snapshot (test_state FOUR_PARTITIONS) (test_gpt FOUR_PARTITIONS) <> None /\
  exists σ',
    GPT.setActiveSlot (test_gpt FOUR_PARTITIONS) (js "a") (test_state FOUR_PARTITIONS) =
      (Ok tt, σ').
Proof.
  split; [vm_compute; discriminate|].
  destruct (snapshot (test_state FOUR_PARTITIONS) (test_gpt FOUR_PARTITIONS))
    as [v|] eqn:Hv; [|vm_compute in Hv; discriminate].
  destruct (setActiveSlot_updates_slot_entries
              (test_state FOUR_PARTITIONS) (test_gpt FOUR_PARTITIONS) v (js "a") Hv
              (or_introl eq_refl)) as ((σ' & Hrun & _) & _).
  exists σ'. exact Hrun.
Defined.

(** C3. Whatever the store, the receiver and the slot argument, and whether
    the call returns or throws, every entry view in the store is still an
    entry view afterwards, equal to the old one in every field but the
    attribute word, and every bit of that word outside bits 48 to 55 (so
    bits 0 to 47 and 56 to 63) is as before. *)
Theorem setActiveSlot_preserves_opaque_bits σ this slot l e :
  heap σ !! l = Some (ObjEntry e) ->
  exists e',
    heap (snd (GPT.setActiveSlot this slot σ)) !! l = Some (ObjEntry e') /\
    e' = GPTPartitionEntry.set_attributes (GPTPartitionEntry.attributes e') e /\
    forall i, ~ (48 <= i <= 55) ->
      Z.testbit (GPTPartitionEntry.attributes e') i =
      Z.testbit (GPTPartitionEntry.attributes e) i.
Proof.
  intros He. destruct (GPT.setActiveSlot this slot σ) as [r σ'] eqn:Hrun. simpl.
  apply setActiveSlot_cells in Hrun as (_ & ls & Hcells).
  destruct (Hcells l) as [Hsame | (_ & e0 & H0 & H1)].
  - exists e. split; [congruence|]. split; [symmetry; apply set_attributes_same|].
    reflexivity.
  - rewrite He in H0. inversion H0; subst e0.
    exists (slot_update slot e). split; [exact H1|]. split; [reflexivity|].
    intros i Hi. apply slot_attributes_opaque. exact Hi.
Qed.

Lemma setActiveSlot_preserves_opaque_bits_witness :
  exists l e e',
    heap (test_state FOUR_PARTITIONS) !! l = Some (ObjEntry e) /\
    heap (snd (GPT.setActiveSlot (test_gpt FOUR_PARTITIONS) (js "a")
                 (test_state FOUR_PARTITIONS))) !! l = Some (ObjEntry e') /\
    Z.testbit (GPTPartitionEntry.attributes e') 63 =
    Z.testbit (GPTPartitionEntry.attributes e) 63.
Proof.
  exists 5%positive.
  destruct (heap (test_state FOUR_PARTITIONS) !! 5%positive) as [[g|h|e|a]|] eqn:He;
    try (vm_compute in He; discriminate).
  destruct (setActiveSlot_preserves_opaque_bits
              (test_state FOUR_PARTITIONS) (test_gpt FOUR_PARTITIONS) (js "a")
              5%positive e He) as (e' & H1 & _ & H2).
  exists e, e'. split; [exact He|]. split; [exact H1|]. apply H2. lia.
Defined.

(** C4. A second [setActiveSlot] with the same slot, run on the store the
    first one left, has the same outcome and leaves that store exactly as it
    is: every object, so every attribute word with all its bits, is what the
    first call made it. *)
Theorem setActiveSlot_idempotent σ this slot :
  GPT.setActiveSlot this slot (snd (GPT.setActiveSlot this slot σ)) =
    (fst (GPT.setActiveSlot this slot σ), snd (GPT.setActiveSlot this slot σ)).
Proof.
  destruct (GPT.setActiveSlot this slot σ) as [r σ'] eqn:Hrun. simpl.
  pose proof (setActiveSlot_cells _ _ _ _ _ Hrun) as (_ & ls & Hcells).
  unfold GPT.setActiveSlot in *.
  destruct (negb (js_eqb slot (js "a")) && negb (js_eqb slot (js "b"))).
  { inversion Hrun; subst. reflexivity. }
  unfold bind in *. rewrite read_gpt_run in *.
  rewrite (slot_updated_gpt_at _ _ _ _ _ (Hcells this)).
  destruct (gpt_at (heap σ) this) as [g|]; [|inversion Hrun; subst; reflexivity].
  rewrite read_array_run in *.
  rewrite (slot_updated_array_at _ _ _ _ _ (Hcells (partEntries g))).
  destruct (array_at (heap σ) (partEntries g)) as [a|];
    [|inversion Hrun; subst; reflexivity].
  eapply setActiveSlot_loop_again. exact Hrun.
Qed.

(** C9. For a slot argument other than ["a"] and ["b"], [setActiveSlot]
    throws the error "Invalid slot" and the store is the one it was called
    in: no entry, header or other object has changed. *)
Theorem setActiveSlot_rejects_invalid_slot σ this slot :
  slot <> js "a" -> slot <> js "b" ->
  GPT.setActiveSlot this slot σ = (Throw Error_InvalidSlot, σ).
Proof. apply setActiveSlot_invalid. Qed.

Lemma setActiveSlot_rejects_invalid_slot_witness :
  GPT.setActiveSlot (test_gpt LUN4_PARTITIONS) (js "c") (test_state LUN4_PARTITIONS) =
    (Throw Error_InvalidSlot, test_state LUN4_PARTITIONS).
Proof.
  apply (setActiveSlot_rejects_invalid_slot (test_state LUN4_PARTITIONS)
           (test_gpt LUN4_PARTITIONS) (js "c")); vm_compute; congruence.
Defined.

(** ** [getActiveSlot] *)

Lemma priority_of_flags e :
  priority (parseABFlags (GPTPartitionEntry.attributes e)) = priority_of e.
Proof. apply priority_value. Qed.

Lemma priority_of_range e : 0 <= priority_of e <= 3.
Proof. rewrite <- priority_of_flags. apply priority_range. Qed.

Lemma getActiveSlot_entry_run best l σ :
  GPT.getActiveSlot_entry best l σ =
    (match entry_at (heap σ) l with
     | Some e => Ok (consider best e)
     | None => Throw TypeError
     end, σ).
Proof.
  destruct best as [bs bp]. unfold GPT.getActiveSlot_entry, bind.
  rewrite read_entry_run. destruct (entry_at (heap σ) l) as [e|]; [|reflexivity].
  unfold consider, active_boot_entry, boot_slot_entry, slot_letter.
  rewrite <- !slice_last_endsWith by reflexivity. rewrite active_bit. cbn [snd].
  destruct (js_eqb (GPTPartitionEntry.type e) TYPE_EFI_UNUSED); [reflexivity|].
  destruct (startsWith (GPTPartitionEntry.name e) (js "boot_")); [|reflexivity].
  cbn [negb andb]. rewrite <- negb_orb.
  destruct (js_eqb (slice_last 2 (GPTPartitionEntry.name e)) (js "_a") ||
            js_eqb (slice_last 2 (GPTPartitionEntry.name e)) (js "_b")); [|reflexivity].
  cbn [negb andb].
  destruct (Z.testbit (GPTPartitionEntry.attributes e) 50 &&
            (bp <? priority (parseABFlags (GPTPartitionEntry.attributes e))));
    reflexivity.
Qed.

Lemma getActiveSlot_loop ls :
  forall es best σ,
    entries_at (heap σ) ls = Some es ->
    fold_each ls GPT.getActiveSlot_entry best σ = (Ok (fold_left consider es best), σ).
Proof.
  induction ls as [|l r IH]; intros es best σ Hes; simpl in *.
  - inversion Hes; subst. reflexivity.
  - destruct (entry_at (heap σ) l) as [e|] eqn:He; [|discriminate].
    destruct (entries_at (heap σ) r) as [es'|] eqn:Hr; [|discriminate].
    inversion Hes; subst. unfold bind. rewrite getActiveSlot_entry_run, He.
    simpl. apply IH. exact Hr.
Qed.

Lemma best_of_step pre best e :
  best_of pre best -> best_of (pre ++ [e]) (consider best e).
Proof.
  intros Hbest. unfold consider. rewrite priority_of_flags.
  pose proof (priority_of_range e) as Hrange.
  destruct (active_boot_entry e) eqn:Hc; simpl.
  - destruct Hbest as [(-> & Hnone) | (i & e0 & Hi & Hc0 & -> & Hmax)]; simpl.
    + destruct (Z.ltb_spec (-1) (priority_of e)); [|lia].
      right. exists (length pre), e. split; [apply list_lookup_middle; reflexivity|].
      split; [exact Hc|]. split; [reflexivity|].
      intros j e' Hj Hc'. apply lookup_app_Some in Hj as [Hj | (Hge & Hj)].
      * apply list_elem_of_lookup_2 in Hj. rewrite (Hnone _ Hj) in Hc'. discriminate.
      * apply list_lookup_singleton_Some in Hj as (Hj0 & <-). split; lia.
    + destruct (Z.ltb_spec (priority_of e0) (priority_of e)) as [Hlt|Hge].
      * right. exists (length pre), e. split; [apply list_lookup_middle; reflexivity|].
        split; [exact Hc|]. split; [reflexivity|].
        intros j e' Hj Hc'. apply lookup_app_Some in Hj as [Hj | (Hge & Hj)].
        -- destruct (Hmax j e' Hj Hc'). split; lia.
        -- apply list_lookup_singleton_Some in Hj as (Hj0 & <-). split; lia.
      * right. exists i, e0. split; [apply lookup_app_l_Some; exact Hi|].
        split; [exact Hc0|]. split; [reflexivity|].
        intros j e' Hj Hc'. apply lookup_app_Some in Hj as [Hj | (Hlen & Hj)].
        -- exact (Hmax j e' Hj Hc').
        -- apply list_lookup_singleton_Some in Hj as (Hj0 & <-).
           apply lookup_lt_Some in Hi. split; lia.
  - destruct Hbest as [(-> & Hnone) | (i & e0 & Hi & Hc0 & -> & Hmax)].
    + left. split; [reflexivity|]. intros e' He'.
      apply elem_of_app in He' as [He'|He']; [auto|].
      apply list_elem_of_singleton in He'. subst. exact Hc.
    + right. exists i, e0. split; [apply lookup_app_l_Some; exact Hi|].
      split; [exact Hc0|]. split; [reflexivity|].
      intros j e' Hj Hc'. apply lookup_app_Some in Hj as [Hj | (Hlen & Hj)].
      * exact (Hmax j e' Hj Hc').
      * apply list_lookup_singleton_Some in Hj as (Hj0 & <-). congruence.
Qed.

Lemma best_of_fold suf :
  forall pre best, best_of pre best -> best_of (pre ++ suf) (fold_left consider suf best).
Proof.
  induction suf as [|e suf IH]; intros pre best Hbest; simpl.
  - rewrite app_nil_r. exact Hbest.
  - replace (pre ++ e :: suf) with ((pre ++ [e]) ++ suf) by (rewrite <- app_assoc; reflexivity).
    apply IH. apply best_of_step. exact Hbest.
Qed.

Lemma best_of_all es : best_of es (fold_left consider es (None, -1)).
Proof.
  apply (best_of_fold es [] (None, -1)). left. split; [reflexivity|].
  intros e He. inversion He.
Qed.

Lemma consider_ignores_unbootable best e e2 :
  same_but_unbootable e e2 -> consider best e2 = consider best e.
Proof.
  intros [Hsame Hbits].
  assert (Hp : priority (parseABFlags (GPTPartitionEntry.attributes e2)) =
               priority (parseABFlags (GPTPartitionEntry.attributes e))).
  { apply Z.bits_inj'; intros i Hi. rewrite !priority_bits by lia.
    destruct (Z.ltb_spec i 2); [|rewrite !andb_false_r; reflexivity].
    rewrite Hbits by lia. reflexivity. }
  unfold consider, active_boot_entry, boot_slot_entry, slot_letter.
  rewrite Hp, (Hbits 50) by lia. rewrite Hsame.
  rewrite set_attributes_type, set_attributes_name. reflexivity.
Qed.

Lemma fold_consider_ignores_unbootable es es2 :
  Forall2 same_but_unbootable es es2 ->
  forall best, fold_left consider es2 best = fold_left consider es best.
Proof.
  induction 1 as [|e e2 es es2 He _ IH]; intros best; simpl; [reflexivity|].
  rewrite (consider_ignores_unbootable best e e2 He). apply IH.
Qed.

Lemma getActiveSlot_run σ this v :
  snapshot σ this = Some v ->
  GPT.getActiveSlot this σ = (Ok (fst (fold_left consider (value_entries v) (None, -1))), σ).
Proof.
  intros Hsnap. apply snapshot_Some in Hsnap as (g & a & Hg & Ha & Hes & _).
  unfold GPT.getActiveSlot, bind. rewrite read_gpt_run, Hg, read_array_run, Ha.
  rewrite (getActiveSlot_loop a _ _ _ Hes). reflexivity.
Qed.

(** C2. For every GPT, [getActiveSlot] returns normally without changing the
    store. It returns [null] exactly when no entry is an active boot entry
    (non-empty, name beginning with ["boot_"] and ending with ["_a"] or
    ["_b"], bit 50 set). Otherwise it returns the slot letter of an active
    boot entry whose priority (bits 48 and 49) is at least that of every
    active boot entry and strictly greater than that of every active boot
    entry stored before it. Bit 55 of the attribute words plays no part:
    tables that differ only there give the same answer. On the table
    [boot_a=0x1187000000000000, boot_b=0x103a000000000000,
    aop_a=0x213f000000000000, aop_b=0x2039000000000000] the answer is ["a"]. *)
Theorem getActiveSlot_selects_active_boot_slot σ this v :
  snapshot σ this = Some v ->
  exists r,
    GPT.getActiveSlot this σ = (Ok r, σ) /\
    (r = None <-> forall e, e ∈ value_entries v -> active_boot_entry e = false) /\
    (forall s, r = Some s ->
       exists (i : nat) e,
         value_entries v !! i = Some e /\ active_boot_entry e = true /\
         s = slot_letter e /\
         forall (j : nat) e',
           value_entries v !! j = Some e' -> active_boot_entry e' = true ->
           priority_of e' <= priority_of e /\
           ((j < i)%nat -> priority_of e' < priority_of e)) /\
    (forall σ2 this2 v2,
       snapshot σ2 this2 = Some v2 ->
       Forall2 same_but_unbootable (value_entries v) (value_entries v2) ->
       fst (GPT.getActiveSlot this2 σ2) = Ok r) /\
    fst ((let* gpt := createTestGPT BRICKED_PARTITIONS in GPT.getActiveSlot gpt)
           empty_state) = Ok (Some (js "a")).
Proof.
  intros Hsnap. rewrite (getActiveSlot_run _ _ _ Hsnap).
  eexists. split; [reflexivity|].
  pose proof (best_of_all (value_entries v)) as Hbest.
  destruct Hbest as [(Heq & Hnone) | (i & e & Hi & Hc & Heq & Hmax)]; rewrite Heq; simpl.
  - split; [split; [intros _; exact Hnone | reflexivity]|].
    split; [intros s Hs; discriminate|].
    split; [|vm_compute; reflexivity].
    intros σ2 this2 v2 Hsnap2 Hsame. rewrite (getActiveSlot_run _ _ _ Hsnap2). simpl.
    rewrite (fold_consider_ignores_unbootable _ _ Hsame), Heq. reflexivity.
  - split.
    { split; [discriminate|]. intros Hnone.
      apply list_elem_of_lookup_2 in Hi. rewrite (Hnone _ Hi) in Hc. discriminate. }
    split.
    { intros s Hs. inversion Hs; subst. exists i, e. auto. }
    split; [|vm_compute; reflexivity].
    intros σ2 this2 v2 Hsnap2 Hsame. rewrite (getActiveSlot_run _ _ _ Hsnap2). simpl.
    rewrite (fold_consider_ignores_unbootable _ _ Hsame), Heq. reflexivity.
Qed.

Lemma getActiveSlot_selects_active_boot_slot_witness :
  snapshot (test_state BRICKED_PARTITIONS) (test_gpt BRICKED_PARTITIONS) <> None /\
  exists r,
    GPT.getActiveSlot (test_gpt BRICKED_PARTITIONS) (test_state BRICKED_PARTITIONS) =
      (Ok r, test_state BRICKED_PARTITIONS).
Proof.
  split; [vm_compute; discriminate|].
  destruct (snapshot (test_state BRICKED_PARTITIONS) (test_gpt BRICKED_PARTITIONS))
    as [v|] eqn:Hv; [|vm_compute in Hv; discriminate].
  destruct (getActiveSlot_selects_active_boot_slot
              (test_state BRICKED_PARTITIONS) (test_gpt BRICKED_PARTITIONS) v Hv)
    as (r & Hrun & _).
  exists r. exact Hrun.
Defined.

(** ** Allocation and the header view of a receiver *)

Lemma fresh_loc_above (h : gmap loc obj) l o :
  h !! l = Some o -> (l < fresh_loc h)%positive.
Proof.
  unfold fresh_loc. revert l o.
  apply (map_fold_weak_ind
           (fun acc (m : gmap loc obj) => forall l o, m !! l = Some o -> (l < Pos.succ acc)%positive)).
  - intros l o H. rewrite lookup_empty in H. discriminate.
  - intros k x m acc Hk IH l o Hl.
    destruct (decide (k = l)) as [->|Hne].
    + lia.
    + rewrite lookup_insert_ne in Hl by exact Hne. specialize (IH l o Hl). lia.
Qed.

Lemma fresh_loc_fresh (h : gmap loc obj) : h !! fresh_loc h = None.
Proof.
  destruct (h !! fresh_loc h) as [o|] eqn:H; [|reflexivity].
  apply fresh_loc_above in H. lia.
Qed.

Lemma fresh_loc_ne (h : gmap loc obj) l o : h !! l = Some o -> fresh_loc h <> l.
Proof. intros H Heq. subst. rewrite fresh_loc_fresh in H. discriminate. Qed.

Lemma headed_ne σ this g hl h : headed σ this g hl h -> hl <> this.
Proof. intros (H1 & _ & H2) Heq. subst. congruence. Qed.

Lemma header_ref_run σ this g hl h :
  headed σ this g hl h -> GPT.header_ref this σ = (Ok hl, σ).
Proof.
  intros (H1 & H2 & _). unfold GPT.header_ref, bind.
  rewrite read_gpt_run. apply gpt_at_Some in H1. rewrite H1, H2. reflexivity.
Qed.

Lemma header_field_run {A} (f : GPTHeader.t -> A) σ this g hl h :
  headed σ this g hl h -> GPT.header_field this f σ = (Ok (f h), σ).
Proof.
  intros H. unfold GPT.header_field, bind. rewrite (header_ref_run _ _ _ _ _ H).
  destruct H as (_ & _ & H). rewrite read_header_run.
  apply header_at_Some in H. rewrite H. reflexivity.
Qed.

Lemma set_header_field_run f σ this g hl h :
  headed σ this g hl h ->
  GPT.set_header_field this f σ =
    (Ok tt, set_heap (<[hl := ObjHeader (f h)]> (heap σ)) σ).
Proof.
  intros H. unfold GPT.set_header_field, bind. rewrite (header_ref_run _ _ _ _ _ H).
  destruct H as (_ & _ & H). rewrite modify_header_run.
  apply header_at_Some in H. rewrite H. reflexivity.
Qed.

Lemma headed_set σ this g hl h h' :
  headed σ this g hl h ->
  headed (set_heap (<[hl := ObjHeader h']> (heap σ)) σ) this g hl h'.
Proof.
  intros H. pose proof (headed_ne _ _ _ _ _ H) as Hne. destruct H as (H1 & H2 & H3).
  unfold headed. rewrite heap_set_heap.
  rewrite lookup_insert_ne by exact Hne. rewrite lookup_insert_eq. auto.
Qed.

Lemma headed_log σ this g hl h e :
  headed σ this g hl h ->
  headed {| heap := heap σ; logged := logged σ ++ [e] |} this g hl h.
Proof. intros H. exact H. Qed.

Lemma header_unset_unset h v :
  GPTHeader.set_headerCrc32 (GPTHeader.headerCrc32 h) (GPTHeader.set_headerCrc32 v h) = h.
Proof. destruct h; reflexivity. Qed.

(** ** [parseHeader] *)

Lemma parseHeader_run σ this g data actualLba :
  heap σ !! this = Some (ObjGPT g) ->
  (GPTHeader.size <= length data)%nat ->
  let h := GPTHeader.decode data in
  GPT.parseHeader this data actualLba σ =
    (Ok (fst (header_verdict (sectorSize g) h actualLba)),
     {| heap := header_installed σ this g h;
        logged := logged σ ++ snd (header_verdict (sectorSize g) h actualLba) |}).
Proof.
  intros Hthis Hlen h.
  unfold GPT.parseHeader, GPTHeader_from.
  destruct (Nat.ltb_spec (length data) GPTHeader.size) as [Hlt|_]; [lia|].
  unfold bind at 1. unfold alloc. fold h.
  set (hl := fresh_loc (heap σ)).
  assert (Hne : hl <> this) by (eapply fresh_loc_ne; exact Hthis).
  unfold bind at 1. rewrite read_gpt_run. unfold gpt_at. rewrite heap_set_heap.
  rewrite lookup_insert_ne by exact Hne. rewrite Hthis.
  unfold bind at 1. unfold write at 1. cbn [heap set_heap logged].
  set (σ2 := set_heap _ _).
  assert (Hσ2 : σ2 = set_heap (header_installed σ this g h) σ).
  { subst σ2. unfold header_installed. fold hl. unfold set_heap. cbn [heap logged].
    f_equal. apply insert_insert_ne. congruence. }
  rewrite Hσ2. clear σ2 Hσ2.
  assert (Hhd : headed (set_heap (header_installed σ this g h) σ) this
                  (set_header (Some hl) g) hl h).
  { unfold headed, header_installed. rewrite heap_set_heap. fold hl.
    rewrite lookup_insert_ne by exact Hne. rewrite !lookup_insert_eq. auto. }
  unfold header_verdict.
  unfold bind at 1. rewrite (header_field_run _ _ _ _ _ _ Hhd).
  destruct (negb (js_eqb (GPTHeader.signature h) SIGNATURE)); [reflexivity|].
  unfold bind at 1. rewrite (header_field_run _ _ _ _ _ _ Hhd).
  destruct (negb (GPTHeader.revision h =? 65536)); [reflexivity|].
  unfold bind at 1. rewrite (header_field_run _ _ _ _ _ _ Hhd).
  unfold bind at 1. rewrite read_gpt_run.
  destruct Hhd as (Hg' & Hh' & Hhl'). apply gpt_at_Some in Hg' as Hg''. rewrite Hg''.
  cbn [sectorSize set_header].
  destruct ((GPTHeader.headerSize h <? 92) || (sectorSize g <? GPTHeader.headerSize h));
    [reflexivity|].
  assert (Hhd : headed (set_heap (header_installed σ this g h) σ) this
                  (set_header (Some hl) g) hl h) by (split; auto).
  unfold bind at 1. rewrite (header_field_run _ _ _ _ _ _ Hhd).
  set (lbalog := if negb (GPTHeader.currentLba h =? actualLba)
                 then [Warn_CurrentLbaMismatch (GPTHeader.currentLba h) actualLba] else []).
  set (σ3 := {| heap := header_installed σ this g h; logged := logged σ ++ lbalog |}).
  assert (Hσ3 : (if negb (GPTHeader.currentLba h =? actualLba)
                 then log (Warn_CurrentLbaMismatch (GPTHeader.currentLba h) actualLba)
                 else ret tt) (set_heap (header_installed σ this g h) σ) = (Ok tt, σ3)).
  { subst σ3 lbalog. destruct (negb (GPTHeader.currentLba h =? actualLba)).
    - reflexivity.
    - unfold ret, set_heap. rewrite app_nil_r. reflexivity. }
  unfold bind at 1. rewrite Hσ3.
  assert (Hhd3 : headed σ3 this (set_header (Some hl) g) hl h) by exact Hhd.
  unfold bind at 1. rewrite (header_field_run _ _ _ _ _ _ Hhd3).
  unfold bind at 1. rewrite (set_header_field_run _ _ _ _ _ _ Hhd3).
  pose proof (headed_set _ _ _ _ _ (GPTHeader.set_headerCrc32 0 h) Hhd3) as Hhd4.
  unfold bind at 1. unfold GPT.header_toBuffer. rewrite (header_field_run _ _ _ _ _ _ Hhd4).
  unfold bind at 1. rewrite (set_header_field_run _ _ _ _ _ _ Hhd4).
  pose proof (headed_set _ _ _ _ _
                (GPTHeader.set_headerCrc32 (GPTHeader.headerCrc32 h)
                   (GPTHeader.set_headerCrc32 0 h)) Hhd4) as Hhd5.
  rewrite header_unset_unset in Hhd5.
  rewrite header_unset_unset.
  set (σ5 := set_heap _ (set_heap _ σ3)) in *.
  assert (Hσ5 : σ5 = σ3).
  { subst σ5. unfold set_heap. cbn [heap logged]. subst σ3. cbn [heap logged]. f_equal.
    rewrite insert_insert_eq. apply insert_id.
    destruct Hhd as (_ & _ & H). exact H. }
  rewrite Hσ5 in *. clear σ5 Hσ5.
  unfold bind at 1. rewrite (header_field_run _ _ _ _ _ _ Hhd3).
  set (actual := crc32 (GPTHeader.toBuffer (GPTHeader.set_headerCrc32 0 h))).
  destruct (negb (GPTHeader.headerCrc32 h =? actual)) eqn:Hmis.
  - unfold bind at 1. unfold log at 1. cbn [heap logged].
    unfold bind. 
    rewrite (header_field_run _ _ _ _ _ _ (headed_log _ _ _ _ _ _ Hhd3)).
    unfold ret. subst σ3. cbn [heap logged fst snd]. rewrite <- app_assoc. reflexivity.
  - unfold bind at 1. unfold ret at 1.
    unfold bind. rewrite (header_field_run _ _ _ _ _ _ Hhd3).
    unfold ret. subst σ3. cbn [fst snd]. rewrite app_nil_r. reflexivity.
Qed.

(** C5, as the code has it. A buffer shorter than the 92 header bytes is
    refused by the decoder with [TruncatedBuffer] before anything is
    checked, and nothing changes. For every GPT object and every buffer
    holding at least the 92 header bytes, [parseHeader] returns; it returns
    [null] exactly when the decoded signature is not ["EFI PART"], the
    revision is not [0x00010000], or the header size is below 92 or above
    the sector size, and then logs the matching error (invalid signature,
    unknown revision, invalid header size, tested in that order). Otherwise
    it returns the stored header checksum and whether it differs from the
    CRC-32 of the header encoded with the checksum field zero; a differing
    checksum and a current LBA other than the expected one are logged as
    warnings and returned as data, never a failure. In every such case the
    header view behind [#header] afterwards is a new view holding the
    decoded fields, its checksum field being the one stored in the input
    (bytes 16 to 19). *)
Theorem parseHeader_fails_only_on_invalid_header σ this g data actualLba :
  heap σ !! this = Some (ObjGPT g) ->
  ((length data < GPTHeader.size)%nat ->
   GPT.parseHeader this data actualLba σ = (Throw TruncatedBuffer, σ)) /\
  ((GPTHeader.size <= length data)%nat ->
   let h := GPTHeader.decode data in
   let bad_signature := GPTHeader.signature h <> SIGNATURE in
   let bad_revision := GPTHeader.revision h <> 0x10000 in
   let bad_size := GPTHeader.headerSize h < 92 \/ sectorSize g < GPTHeader.headerSize h in
   let actual := crc32 (GPTHeader.toBuffer (GPTHeader.set_headerCrc32 0 h)) in
   let mismatch := negb (getInt32 data 16 =? actual) in
   exists r σ',
     GPT.parseHeader this data actualLba σ = (Ok r, σ') /\
     (r = None <-> bad_signature \/ bad_revision \/ bad_size) /\
     (bad_signature ->
      logged σ' = logged σ ++ [Error_InvalidSignature (GPTHeader.signature h)]) /\
     (~ bad_signature -> bad_revision ->
      logged σ' = logged σ ++ [Error_UnknownRevision (GPTHeader.revision h)]) /\
     (~ bad_signature -> ~ bad_revision -> bad_size ->
      logged σ' = logged σ ++ [Error_InvalidHeaderSize (GPTHeader.headerSize h)]) /\
     (~ bad_signature -> ~ bad_revision -> ~ bad_size ->
      r = Some {| result_headerCrc32 := getInt32 data 16;
                  header_mismatchCrc32 := mismatch |} /\
      logged σ' =
        logged σ ++
        (if GPTHeader.currentLba h =? actualLba then []
         else [Warn_CurrentLbaMismatch (GPTHeader.currentLba h) actualLba]) ++
        (if mismatch then [Warn_HeaderCrc32Mismatch (getInt32 data 16) actual] else [])) /\
     (exists hl,
        heap σ !! hl = None /\
        heap σ' !! this = Some (ObjGPT (set_header (Some hl) g)) /\
        heap σ' !! hl = Some (ObjHeader h)) /\
     GPT.headerCrc32 this σ' = (Ok (getInt32 data 16), σ')).
Proof.
  intros Hthis. split.
  { intros Hshort. unfold GPT.parseHeader. apply bind_throw. unfold GPTHeader_from.
    destruct (Nat.ltb_spec (length data) GPTHeader.size) as [_|?]; [reflexivity|lia]. }
  intros Hlen h bad_signature bad_revision bad_size actual mismatch.
  subst bad_signature bad_revision bad_size. cbv beta.
  rewrite (parseHeader_run σ this g data actualLba Hthis Hlen). fold h.
  eexists _, _. split; [reflexivity|].
  assert (Hinst : exists hl,
            heap σ !! hl = None /\
            header_installed σ this g h !! this = Some (ObjGPT (set_header (Some hl) g)) /\
            header_installed σ this g h !! hl = Some (ObjHeader h)).
  { exists (fresh_loc (heap σ)). split; [apply fresh_loc_fresh|].
    unfold header_installed.
    rewrite lookup_insert_ne by (eapply fresh_loc_ne; exact Hthis).
    rewrite !lookup_insert_eq. auto. }
  assert (Hget : forall lg,
            GPT.headerCrc32 this {| heap := header_installed σ this g h; logged := lg |} =
              (Ok (getInt32 data 16),
               {| heap := header_installed σ this g h; logged := lg |})).
  { intros lg. destruct Hinst as (hl & _ & H1 & H2). unfold GPT.headerCrc32.
    rewrite (header_field_run GPTHeader.headerCrc32 _ this (set_header (Some hl) g) hl h);
      [reflexivity|].
    split; [exact H1|]. split; [reflexivity|]. exact H2. }
  unfold header_verdict.
  change (GPTHeader.headerCrc32 h) with (getInt32 data 16). fold actual mismatch.
  unfold js_eqb.
  destruct (decide (GPTHeader.signature h = SIGNATURE)) as [Hs|Hs].
  2:{ rewrite bool_decide_eq_false_2 by exact Hs. cbn [negb fst snd logged].
      repeat split; auto; try contradiction; try (intros; exfalso; tauto). }
  rewrite bool_decide_eq_true_2 by exact Hs. cbn [negb].
  destruct (Z.eqb_spec (GPTHeader.revision h) 65536) as [Hr|Hr].
  2:{ cbn [negb fst snd logged].
      repeat split; auto; try contradiction; try (intros; exfalso; tauto). }
  cbn [negb].
  destruct (Z.ltb_spec (GPTHeader.headerSize h) 92) as [Hz1|Hz1].
  { cbn [orb fst snd logged].
    repeat split; auto; try contradiction; try (intros; exfalso; tauto); tauto. }
  destruct (Z.ltb_spec (sectorSize g) (GPTHeader.headerSize h)) as [Hz2|Hz2].
  { cbn [orb fst snd logged].
    repeat split; auto; try contradiction; try (intros; exfalso; tauto); tauto. }
  cbn [orb fst snd logged].
  assert (Hgood : ~ (GPTHeader.headerSize h < 92 \/ sectorSize g < GPTHeader.headerSize h))
    by lia.
  split.
  { split; [discriminate|]. intros [H|[H|H]]; contradiction. }
  do 3 (split; [intros; exfalso; tauto|]).
  split; [|split; [exact Hinst|apply Hget]].
  intros _ _ _. split; [reflexivity|].
  destruct (Z.eqb_spec (GPTHeader.currentLba h) actualLba); reflexivity.
Qed.

Lemma parseHeader_fails_only_on_invalid_header_witness :
  exists r σ',
    GPT.parseHeader (test_gpt LUN4_PARTITIONS) (fst (buildGPTData LUN4_PARTITIONS)) 1
      (test_state LUN4_PARTITIONS) = (Ok r, σ') /\ r <> None.
Proof.
  destruct (heap (test_state LUN4_PARTITIONS) !! test_gpt LUN4_PARTITIONS)
    as [[g|h|e|a]|] eqn:Hg; try (vm_compute in Hg; discriminate).
  destruct (parseHeader_fails_only_on_invalid_header
              (test_state LUN4_PARTITIONS) (test_gpt LUN4_PARTITIONS) g
              (fst (buildGPTData LUN4_PARTITIONS)) 1 Hg)
    as (_ & Hlong).
  destruct (Hlong ltac:(vm_compute; lia)) as (r & σ' & Hrun & Hnone & _).
  exists r, σ'. split; [exact Hrun|].
  intros Hr. apply Hnone in Hr.
  assert (Hss : sectorSize g = 4096).
  { vm_compute in Hg. inversion Hg. reflexivity. }
  destruct Hr as [Hr|[Hr|[Hr|Hr]]].
  - apply Hr. vm_compute. reflexivity.
  - apply Hr. vm_compute. reflexivity.
  - revert Hr. vm_compute. discriminate.
  - rewrite Hss in Hr. revert Hr. vm_compute. discriminate.
Defined.

(** Against the claim as stated: the first 91 bytes of the test table's
    header sector hold the right signature, the right revision and a header
    size of 92, within the sector size 4096; [parseHeader] still produces no
    result, the decoder refusing the buffer as truncated. *)
Lemma parseHeader_rejects_truncated_header : ~ fails_exactly_on_invalid_header.
Proof.
  intros Hclaim.
  destruct (heap (test_state LUN4_PARTITIONS) !! test_gpt LUN4_PARTITIONS)
    as [[g|h|e|a]|] eqn:Hg; try (vm_compute in Hg; discriminate).
  assert (Hss : sectorSize g = 4096).
  { vm_compute in Hg. inversion Hg. reflexivity. }
  destruct (Hclaim (test_state LUN4_PARTITIONS) (test_gpt LUN4_PARTITIONS) g
              (take 91 (fst (buildGPTData LUN4_PARTITIONS))) 1 Hg) as (_ & Hgood).
  destruct Hgood as (r & σ' & Hrun).
  - rewrite Hss. intros [Hbad|[Hbad|[Hbad|Hbad]]].
    + apply Hbad. vm_compute. reflexivity.
    + apply Hbad. vm_compute. reflexivity.
    + revert Hbad. vm_compute. discriminate.
    + revert Hbad. vm_compute. discriminate.
  - revert Hrun. vm_compute. discriminate.
Qed.

(** ** [buildPartEntries] *)

Lemma canonical_step_throw h es e0 ixs :
  fold_left (canonical_step h es) ixs (Throw e0) = Throw e0.
Proof. induction ixs as [|i r IH]; simpl; [reflexivity|exact IH]. Qed.

Lemma entries_at_lookup h ls es (k : nat) :
  entries_at h ls = Some es ->
  match ls !! k with
  | Some l => exists e, es !! k = Some e /\ entry_at h l = Some e
  | None => es !! k = None
  end.
Proof.
  intros H. apply entries_at_Some in H.
  destruct (ls !! k) as [l|] eqn:Hl.
  - destruct (Forall2_lookup_l _ _ _ _ _ H Hl) as (e & He & Hle).
    exists e. split; [exact He|]. apply entry_at_Some. exact Hle.
  - apply lookup_ge_None. apply lookup_ge_None in Hl.
    apply Forall2_length in H. lia.
Qed.

Lemma buildPartEntries_loop σ this g hl h ls es :
  headed σ this g hl h ->
  heap σ !! partEntries g = Some (ObjArray ls) ->
  entries_at (heap σ) ls = Some es ->
  forall ixs array,
    fold_each ixs
      (fun array i =>
         let* l := GPT.partEntry_at this i in
         let* e := read_entry l in
         let* s := GPT.partEntrySize this in
         lift (Uint8Array_set array (GPTPartitionEntry.toBuffer e) (i * s)))
      array σ =
    (fold_left (canonical_step h es) ixs (Ok array), σ).
Proof.
  intros Hhd Ha Hes. induction ixs as [|i r IH]; intros array; simpl; [reflexivity|].
  unfold bind at 1. unfold bind at 1. unfold GPT.partEntry_at at 1.
  unfold bind at 1. rewrite read_gpt_run.
  destruct Hhd as (Hg & Hh & Hhl). apply gpt_at_Some in Hg as Hg'. rewrite Hg'.
  unfold bind at 1. rewrite read_array_run. apply array_at_Some in Ha as Ha'. rewrite Ha'.
  pose proof (entries_at_lookup _ _ _ (Z.to_nat i) Hes) as Hk.
  destruct (ls !! Z.to_nat i) as [l|].
  - destruct Hk as (e & He & Hle). rewrite He.
    unfold ret at 1. unfold bind at 1. rewrite read_entry_run, Hle.
    unfold bind at 1. unfold GPT.partEntrySize.
    rewrite (header_field_run GPTHeader.partEntrySize σ this g hl h) by (split; auto).
    unfold lift at 1.
    destruct (Uint8Array_set array (GPTPartitionEntry.toBuffer e)
                (i * GPTHeader.partEntrySize h)) as [array'|e0].
    + apply IH.
    + rewrite canonical_step_throw. reflexivity.
  - rewrite Hk. unfold throw at 1. rewrite canonical_step_throw. reflexivity.
Qed.

Lemma buildPartEntries_run σ this g hl h ls es :
  headed σ this g hl h ->
  heap σ !! partEntries g = Some (ObjArray ls) ->
  entries_at (heap σ) ls = Some es ->
  GPT.buildPartEntries this σ = (canonical_entries h es, σ).
Proof.
  intros Hhd Ha Hes. unfold GPT.buildPartEntries, canonical_entries.
  unfold GPT.numPartEntries, GPT.partEntrySize.
  unfold bind at 1. rewrite (header_field_run _ _ _ _ _ _ Hhd).
  unfold bind at 1. rewrite (header_field_run _ _ _ _ _ _ Hhd).
  unfold bind at 1. unfold lift at 1.
  destruct (new_Uint8Array (GPTHeader.numPartEntries h * GPTHeader.partEntrySize h))
    as [array|e0]; [|reflexivity].
  unfold bind at 1. rewrite (header_field_run _ _ _ _ _ _ Hhd).
  apply (buildPartEntries_loop σ this g hl h ls es Hhd Ha Hes).
Qed.

(** The array has the length it was created with. *)
Lemma Uint8Array_set_length target source offset array :
  Uint8Array_set target source offset = Ok array -> length array = length target.
Proof.
  unfold Uint8Array_set.
  destruct (Z.ltb_spec offset 0); [discriminate|].
  destruct (Z.ltb_spec (Z.of_nat (length target)) (offset + Z.of_nat (length source)));
    [discriminate|].
  simpl. intros Heq; inversion Heq; subst.
  rewrite !length_app, length_take, length_drop. lia.
Qed.

Lemma canonical_fold_length h es ixs :
  forall array bytes,
    fold_left (canonical_step h es) ixs (Ok array) = Ok bytes ->
    length bytes = length array.
Proof.
  induction ixs as [|i r IH]; intros array bytes H; simpl in H.
  - inversion H; reflexivity.
  - destruct (es !! Z.to_nat i) as [e|]; [|rewrite canonical_step_throw in H; discriminate].
    destruct (Uint8Array_set array (GPTPartitionEntry.toBuffer e)
                (i * GPTHeader.partEntrySize h)) as [array'|e0] eqn:Hset;
      [|rewrite canonical_step_throw in H; discriminate].
    rewrite (IH _ _ H). eapply Uint8Array_set_length. exact Hset.
Qed.

Lemma canonical_entries_length h es bytes :
  canonical_entries h es = Ok bytes ->
  Z.of_nat (length bytes) = GPTHeader.numPartEntries h * GPTHeader.partEntrySize h /\
  0 <= GPTHeader.numPartEntries h * GPTHeader.partEntrySize h <= MAX_SAFE_INTEGER.
Proof.
  unfold canonical_entries, new_Uint8Array.
  destruct (Z.ltb_spec (GPTHeader.numPartEntries h * GPTHeader.partEntrySize h) 0);
    [discriminate|].
  destruct (Z.ltb_spec MAX_SAFE_INTEGER
              (GPTHeader.numPartEntries h * GPTHeader.partEntrySize h)); [discriminate|].
  simpl. intros Heq. apply canonical_fold_length in Heq.
  rewrite Heq, length_replicate. lia.
Qed.

Lemma canonical_entries_error h es e :
  canonical_entries h es = Throw e -> e = RangeError \/ e = TypeError.
Proof.
  unfold canonical_entries, new_Uint8Array.
  destruct ((_ <? 0) || (_ <? _)); [intros H; inversion H; auto|].
  generalize (replicate (Z.to_nat (GPTHeader.numPartEntries h * GPTHeader.partEntrySize h)) x00).
  induction (upto (GPTHeader.numPartEntries h)) as [|i r IH]; intros array H; simpl in H;
    [discriminate|].
  destruct (es !! Z.to_nat i) as [e1|].
  - destruct (Uint8Array_set array (GPTPartitionEntry.toBuffer e1)
                (i * GPTHeader.partEntrySize h)) as [array'|e0] eqn:Hset.
    + eapply IH. exact H.
    + rewrite canonical_step_throw in H. inversion H; subst.
      unfold Uint8Array_set in Hset.
      destruct ((_ <? 0) || (_ <? _)); inversion Hset; auto.
  - rewrite canonical_step_throw in H. inversion H; auto.
Qed.

(** Only the first [numPartEntries] entries are encoded. *)
Lemma canonical_fold_prefix h es more ixs :
  Forall (fun i => 0 <= i /\ (Z.to_nat i < length es)%nat) ixs ->
  forall acc,
    fold_left (canonical_step h (es ++ more)) ixs acc =
    fold_left (canonical_step h es) ixs acc.
Proof.
  induction 1 as [|i r [Hi Hlt] _ IH]; intros acc; simpl; [reflexivity|].
  rewrite IH. f_equal. unfold canonical_step. destruct acc; [|reflexivity].
  rewrite lookup_app_l by exact Hlt. reflexivity.
Qed.

Lemma upto_bounds n : Forall (fun i => 0 <= i < n) (upto n).
Proof.
  unfold upto. apply Forall_forall. intros i Hi.
  apply list_elem_of_In, in_map_iff in Hi as (k & <- & Hk). apply in_seq in Hk. lia.
Qed.

Lemma canonical_entries_prefix h es more :
  GPTHeader.numPartEntries h <= Z.of_nat (length es) ->
  canonical_entries h (es ++ more) = canonical_entries h es.
Proof.
  intros Hn. unfold canonical_entries.
  destruct (new_Uint8Array _); [|reflexivity].
  apply canonical_fold_prefix.
  eapply Forall_impl; [apply upto_bounds|]. simpl. intros i Hi. lia.
Qed.

(** ** Bytes of an encoded header *)

Lemma byte_to_of_Z z : byte_to_Z (byte_of_Z z) = z mod 256.
Proof.
  unfold byte_to_Z, byte_of_Z.
  pose proof (Z.mod_pos_bound z 256 ltac:(lia)) as Hr.
  destruct (Byte.of_N (Z.to_N (z mod 256))) as [b|] eqn:Hb.
  - apply Byte.to_of_N in Hb. rewrite Hb. lia.
  - apply Byte.of_N_None_iff in Hb. lia.
Qed.

Lemma length_le_bytes n z : length (le_bytes n z) = n.
Proof. revert z. induction n as [|n IH]; intros z; simpl; [reflexivity|]. rewrite IH. reflexivity. Qed.

Lemma le_value_le_bytes n z : le_value (le_bytes n z) = z mod 2 ^ (8 * Z.of_nat n).
Proof.
  revert z. induction n as [|n IH]; intros z.
  - simpl. rewrite Z.mod_1_r. reflexivity.
  - cbn [le_bytes le_value]. rewrite IH, byte_to_of_Z.
    replace (2 ^ (8 * Z.of_nat (S n))) with (256 * 2 ^ (8 * Z.of_nat n)).
    + rewrite Z.rem_mul_r; [reflexivity|lia|]. apply Z.pow_pos_nonneg; lia.
    + replace (8 * Z.of_nat (S n)) with (8 + 8 * Z.of_nat n) by lia.
      rewrite Z.pow_add_r by lia. reflexivity.
Qed.

Lemma toInt32_range z : - 2 ^ 31 <= toInt32 z < 2 ^ 31.
Proof.
  unfold toInt32. pose proof (Z.mod_pos_bound z (2 ^ 32) ltac:(lia)).
  destruct (Z.ltb_spec (z mod 2 ^ 32) (2 ^ 31)); lia.
Qed.

Lemma toInt32_mod z : toInt32 (z mod 2 ^ 32) = toInt32 z.
Proof. unfold toInt32. rewrite Z.mod_mod by lia. reflexivity. Qed.

Lemma toInt32_id z : - 2 ^ 31 <= z < 2 ^ 31 -> toInt32 z = z.
Proof.
  intros Hz. unfold toInt32.
  destruct (Z.ltb_spec z 0) as [Hneg|Hpos].
  - replace (z mod 2 ^ 32) with (z + 2 ^ 32).
    + destruct (Z.ltb_spec (z + 2 ^ 32) (2 ^ 31)); lia.
    + apply Z.mod_unique with (q := -1); lia.
  - rewrite Z.mod_small by lia. destruct (Z.ltb_spec z (2 ^ 31)); lia.
Qed.

Lemma crc32_range data : - 2 ^ 31 <= crc32 data < 2 ^ 31.
Proof. apply toInt32_range. Qed.

Lemma length_string_encode n s : length (string_encode n s) = n.
Proof.
  unfold string_encode. rewrite length_take, length_app, length_replicate. lia.
Qed.

Lemma toBuffer_parts h :
  GPTHeader.toBuffer h =
    header_prefix h ++ le_bytes 4 (GPTHeader.headerCrc32 h) ++ header_suffix h.
Proof.
  unfold GPTHeader.toBuffer, header_prefix, header_suffix.
  rewrite <- !app_assoc. reflexivity.
Qed.

Lemma length_header_prefix h : length (header_prefix h) = 16%nat.
Proof.
  unfold header_prefix. rewrite !length_app, length_string_encode, !length_le_bytes.
  reflexivity.
Qed.

Lemma toBuffer_zero_headerCrc32 h :
  zero_headerCrc32 (GPTHeader.toBuffer h) =
  GPTHeader.toBuffer (GPTHeader.set_headerCrc32 0 h).
Proof.
  rewrite !toBuffer_parts. unfold zero_headerCrc32.
  pose proof (length_header_prefix h) as Hp.
  rewrite take_app_length' by (symmetry; exact Hp).
  replace 20%nat with (length (header_prefix h) + 4)%nat by (rewrite Hp; reflexivity).
  rewrite drop_app_add. rewrite drop_app_length' by (symmetry; apply length_le_bytes).
  reflexivity.
Qed.

Lemma getInt32_toBuffer h :
  getInt32 (GPTHeader.toBuffer h) 16 = toInt32 (GPTHeader.headerCrc32 h).
Proof.
  unfold getInt32, getUint32, slice. rewrite toBuffer_parts.
  pose proof (length_header_prefix h) as Hp.
  rewrite drop_app_length' by (symmetry; exact Hp).
  replace (16 + 4 - 16)%nat with 4%nat by reflexivity.
  rewrite take_app_length' by (symmetry; apply length_le_bytes).
  rewrite le_value_le_bytes. apply toInt32_mod.
Qed.

(** ** [buildHeader] *)

Lemma set_headerCrc32_twice v w h :
  GPTHeader.set_headerCrc32 v (GPTHeader.set_headerCrc32 w h) = GPTHeader.set_headerCrc32 v h.
Proof. reflexivity. Qed.

(** [buildHeader] once the entry bytes are known. *)
Lemma buildHeader_from_bytes σ this g hl h bytes :
  headed σ this g hl h ->
  (let* _ := GPT.set_header_field this (GPTHeader.set_partEntriesCrc32 (crc32 bytes)) in
   let* c := GPT.header_field this GPTHeader.partEntriesCrc32 in
   if c =? 0 then throw Error_partEntriesCrc32IsZero else
   log (Debug_partEntriesCrc32 c) ;;
   GPT.set_header_field this (GPTHeader.set_headerCrc32 0) ;;
   let* buffer := GPT.header_toBuffer this in
   GPT.set_header_field this (GPTHeader.set_headerCrc32 (crc32 buffer)) ;;
   let* c := GPT.header_field this GPTHeader.headerCrc32 in
   log (Debug_headerCrc32 c) ;;
   let* c := GPT.header_field this GPTHeader.headerCrc32 in
   if c =? 0 then throw Error_headerCrc32IsZero else
   GPT.header_toBuffer this) σ =
  if crc32 bytes =? 0 then
    (Throw Error_partEntriesCrc32IsZero,
     set_heap (<[hl := ObjHeader (with_entries_checksum bytes h)]> (heap σ)) σ)
  else
    (if header_checksum bytes h =? 0 then Throw Error_headerCrc32IsZero
     else Ok (GPTHeader.toBuffer (with_checksums bytes h)),
     {| heap := <[hl := ObjHeader (with_checksums bytes h)]> (heap σ);
        logged := logged σ ++ [Debug_partEntriesCrc32 (crc32 bytes);
                               Debug_headerCrc32 (header_checksum bytes h)] |}).
Proof.
  intros Hhd.
  unfold bind at 1. rewrite (set_header_field_run _ _ _ _ _ _ Hhd).
  pose proof (headed_set _ _ _ _ _ (with_entries_checksum bytes h) Hhd) as Hhd1.
  fold (with_entries_checksum bytes h).
  unfold bind at 1. rewrite (header_field_run _ _ _ _ _ _ Hhd1).
  change (GPTHeader.partEntriesCrc32 (with_entries_checksum bytes h)) with (crc32 bytes).
  destruct (crc32 bytes =? 0); [reflexivity|].
  unfold bind at 1. unfold log at 1.
  set (σ2 := {| heap := _; logged := _ |}).
  assert (Hhd2 : headed σ2 this g hl (with_entries_checksum bytes h)) by exact Hhd1.
  unfold bind at 1. rewrite (set_header_field_run _ _ _ _ _ _ Hhd2).
  pose proof (headed_set _ _ _ _ _
                (GPTHeader.set_headerCrc32 0 (with_entries_checksum bytes h)) Hhd2) as Hhd3.
  unfold bind at 1. unfold GPT.header_toBuffer at 1.
  rewrite (header_field_run _ _ _ _ _ _ Hhd3).
  fold (header_checksum bytes h).
  unfold bind at 1. rewrite (set_header_field_run _ _ _ _ _ _ Hhd3).
  pose proof (headed_set _ _ _ _ _
                (GPTHeader.set_headerCrc32 (header_checksum bytes h)
                   (GPTHeader.set_headerCrc32 0 (with_entries_checksum bytes h))) Hhd3)
    as Hhd4.
  rewrite set_headerCrc32_twice in *. fold (with_checksums bytes h) in *.
  unfold bind at 1. rewrite (header_field_run _ _ _ _ _ _ Hhd4).
  unfold bind at 1. unfold log at 1.
  set (σ5 := {| heap := _; logged := _ |}).
  assert (Hhd5 : headed σ5 this g hl (with_checksums bytes h)) by exact Hhd4.
  unfold bind at 1. rewrite (header_field_run _ _ _ _ _ _ Hhd5).
  change (GPTHeader.headerCrc32 (with_checksums bytes h)) with (header_checksum bytes h).
  assert (Hσ5 : σ5 = {| heap := <[hl := ObjHeader (with_checksums bytes h)]> (heap σ);
                        logged := logged σ ++ [Debug_partEntriesCrc32 (crc32 bytes);
                                               Debug_headerCrc32 (header_checksum bytes h)] |}).
  { subst σ5 σ2. unfold set_heap. cbn [heap logged].
    rewrite !insert_insert_eq. rewrite <- app_assoc. reflexivity. }
  destruct (header_checksum bytes h =? 0).
  - unfold throw. rewrite Hσ5. reflexivity.
  - unfold GPT.header_toBuffer. rewrite (header_field_run _ _ _ _ _ _ Hhd5).
    rewrite Hσ5. reflexivity.
Qed.

Lemma buildHeader_unfold this arg σ :
  GPT.buildHeader this arg σ =
  match (match arg with
         | Some bytes => ret bytes
         | None => GPT.buildPartEntries this
         end) σ with
  | (Ok bytes, σ1) =>
      (let* _ := GPT.set_header_field this (GPTHeader.set_partEntriesCrc32 (crc32 bytes)) in
       let* c := GPT.header_field this GPTHeader.partEntriesCrc32 in
       if c =? 0 then throw Error_partEntriesCrc32IsZero else
       log (Debug_partEntriesCrc32 c) ;;
       GPT.set_header_field this (GPTHeader.set_headerCrc32 0) ;;
       let* buffer := GPT.header_toBuffer this in
       GPT.set_header_field this (GPTHeader.set_headerCrc32 (crc32 buffer)) ;;
       let* c := GPT.header_field this GPTHeader.headerCrc32 in
       log (Debug_headerCrc32 c) ;;
       let* c := GPT.header_field this GPTHeader.headerCrc32 in
       if c =? 0 then throw Error_headerCrc32IsZero else
       GPT.header_toBuffer this) σ1
  | (Throw e, σ1) => (Throw e, σ1)
  end.
Proof. reflexivity. Qed.

(** ** Cells after a write *)

Lemma gpt_at_insert (h : gmap loc obj) l o l' :
  gpt_at (<[l := o]> h) l' =
    if decide (l = l') then match o with ObjGPT g => Some g | _ => None end
    else gpt_at h l'.
Proof.
  unfold gpt_at. destruct (decide (l = l')) as [->|Hne].
  - rewrite lookup_insert_eq. reflexivity.
  - rewrite lookup_insert_ne by exact Hne. reflexivity.
Qed.

Lemma header_at_insert (h : gmap loc obj) l o l' :
  header_at (<[l := o]> h) l' =
    if decide (l = l') then match o with ObjHeader x => Some x | _ => None end
    else header_at h l'.
Proof.
  unfold header_at. destruct (decide (l = l')) as [->|Hne].
  - rewrite lookup_insert_eq. reflexivity.
  - rewrite lookup_insert_ne by exact Hne. reflexivity.
Qed.

Lemma entry_at_insert (h : gmap loc obj) l o l' :
  entry_at (<[l := o]> h) l' =
    if decide (l = l') then match o with ObjEntry e => Some e | _ => None end
    else entry_at h l'.
Proof.
  unfold entry_at. destruct (decide (l = l')) as [->|Hne].
  - rewrite lookup_insert_eq. reflexivity.
  - rewrite lookup_insert_ne by exact Hne. reflexivity.
Qed.

Lemma array_at_insert (h : gmap loc obj) l o l' :
  array_at (<[l := o]> h) l' =
    if decide (l = l') then match o with ObjArray a => Some a | _ => None end
    else array_at h l'.
Proof.
  unfold array_at. destruct (decide (l = l')) as [->|Hne].
  - rewrite lookup_insert_eq. reflexivity.
  - rewrite lookup_insert_ne by exact Hne. reflexivity.
Qed.

(** Writing something that is no entry view where no entry view was leaves
    the entry views of a list as they are. *)
Lemma entries_at_insert_other (h : gmap loc obj) l o ls :
  entry_at h l = None -> (forall e, o <> ObjEntry e) ->
  entries_at (<[l := o]> h) ls = entries_at h ls.
Proof.
  intros Hl Ho. induction ls as [|l' r IH]; simpl; [reflexivity|].
  rewrite IH, entry_at_insert. destruct (decide (l = l')) as [->|Hne]; [|reflexivity].
  rewrite Hl. destruct o; try reflexivity. exfalso. eapply Ho. reflexivity.
Qed.

Lemma snapshot_headed σ this v h :
  snapshot σ this = Some v -> value_header v = Some h ->
  exists g hl ls,
    headed σ this g hl h /\
    heap σ !! partEntries g = Some (ObjArray ls) /\
    entries_at (heap σ) ls = Some (value_entries v) /\
    value_sectorSize v = sectorSize g.
Proof.
  intros Hsnap Hh. apply snapshot_Some in Hsnap as (g & a & Hg & Ha & Hes & Hss & Hhd).
  destruct (header g) as [hl|] eqn:Hhl; [|congruence].
  destruct Hhd as (h' & Hh' & Hv). rewrite Hh in Hv. inversion Hv; subst h'.
  exists g, hl, a. repeat split; auto.
  - apply gpt_at_Some. exact Hg.
  - apply header_at_Some. exact Hh'.
  - apply array_at_Some. exact Ha.
Qed.

(** Replacing the fields of the header view replaces the header of the
    value and nothing else. *)
Lemma snapshot_set_header σ this v g hl h h' lg :
  snapshot σ this = Some v ->
  headed σ this g hl h ->
  snapshot {| heap := <[hl := ObjHeader h']> (heap σ); logged := lg |} this =
    Some (with_header (Some h') v).
Proof.
  intros Hsnap Hhd. pose proof (headed_ne _ _ _ _ _ Hhd) as Hne.
  destruct Hhd as (Hg & Hh & Hhl).
  apply snapshot_Some in Hsnap as (g' & a & Hg' & Ha & Hes & Hss & Hhd).
  apply gpt_at_Some in Hg'. rewrite Hg in Hg'. inversion Hg'; subst g'.
  rewrite Hh in Hhd.
  apply snapshot_Some. exists g, a. cbn [heap with_header value_entries value_sectorSize
                                          value_header].
  rewrite gpt_at_insert, array_at_insert.
  destruct (decide (hl = this)) as [Heq|_]; [contradiction|].
  destruct (decide (hl = partEntries g)) as [Heq|_].
  { exfalso. subst hl. apply array_at_Some in Ha. congruence. }
  split; [apply gpt_at_Some; exact Hg|]. split; [exact Ha|]. split.
  { rewrite entries_at_insert_other; [exact Hes| |congruence].
    unfold entry_at. rewrite Hhl. reflexivity. }
  split; [exact Hss|]. rewrite Hh. exists h'. split; [|reflexivity].
  rewrite header_at_insert. destruct (decide (hl = hl)); [reflexivity|contradiction].
Qed.

(** C6. For every GPT with a header, [buildHeader] takes the entry bytes
    given to it, or those [buildPartEntries] builds; if building them
    throws, so does [buildHeader], with that error and an unchanged store.
    Otherwise it stores their CRC-32 in the entries-checksum field and
    throws "partEntriesCrc32 is zero" when that value is zero; else it
    stores in the header-checksum field the CRC-32 of the header encoded
    with that field zero and throws "headerCrc32 is zero" when that value
    is zero; else it returns the encoded header. So it fails with a zero
    checksum error exactly when one of the two computed checksums is zero.
    After a successful call, the CRC-32 of the returned bytes with bytes 16
    to 19 zeroed equals the checksum stored in those bytes and in the
    header view. *)
Theorem buildHeader_stores_checksums σ this v h arg :
  snapshot σ this = Some v ->
  value_header v = Some h ->
  let entry_bytes :=
    fst ((match arg with
          | Some bytes => ret bytes
          | None => GPT.buildPartEntries this
          end) σ) in
  exists r σ',
    GPT.buildHeader this arg σ = (r, σ') /\
    (forall e, entry_bytes = Throw e ->
       r = Throw e /\ σ' = σ /\
       e <> Error_partEntriesCrc32IsZero /\ e <> Error_headerCrc32IsZero) /\
    (forall bytes, entry_bytes = Ok bytes ->
       let c1 := crc32 bytes in
       let h1 := GPTHeader.set_partEntriesCrc32 c1 h in
       let c2 := crc32 (GPTHeader.toBuffer (GPTHeader.set_headerCrc32 0 h1)) in
       let h2 := GPTHeader.set_headerCrc32 c2 h1 in
       (c1 = 0 ->
        r = Throw Error_partEntriesCrc32IsZero /\
        snapshot σ' this = Some (with_header (Some h1) v)) /\
       (c1 <> 0 -> c2 = 0 ->
        r = Throw Error_headerCrc32IsZero /\
        snapshot σ' this = Some (with_header (Some h2) v)) /\
       (c1 <> 0 -> c2 <> 0 ->
        r = Ok (GPTHeader.toBuffer h2) /\
        snapshot σ' this = Some (with_header (Some h2) v) /\
        GPTHeader.partEntriesCrc32 h2 = c1 /\
        GPTHeader.headerCrc32 h2 = c2 /\
        getInt32 (GPTHeader.toBuffer h2) 16 = c2 /\
        crc32 (zero_headerCrc32 (GPTHeader.toBuffer h2)) = c2)) /\
    ((exists e, r = Throw e /\
                (e = Error_partEntriesCrc32IsZero \/ e = Error_headerCrc32IsZero)) <->
     (exists bytes, entry_bytes = Ok bytes /\
                    (crc32 bytes = 0 \/
                     crc32 (GPTHeader.toBuffer
                              (GPTHeader.set_headerCrc32 0
                                 (GPTHeader.set_partEntriesCrc32 (crc32 bytes) h))) = 0))).
Proof.
  intros Hsnap Hh entry_bytes.
  destruct (snapshot_headed _ _ _ _ Hsnap Hh) as (g & hl & ls & Hhd & Ha & Hes & Hss).
  assert (Hbytes : (match arg with
                    | Some bytes => ret bytes
                    | None => GPT.buildPartEntries this
                    end) σ = (entry_bytes, σ) /\
                   forall e, entry_bytes = Throw e -> e = RangeError \/ e = TypeError).
  { subst entry_bytes. destruct arg as [bytes|].
    - split; [reflexivity|]. intros e He. discriminate.
    - rewrite (buildPartEntries_run _ _ _ _ _ _ _ Hhd Ha Hes). split; [reflexivity|].
      intros e He. eapply canonical_entries_error. exact He. }
  destruct Hbytes as (Hrun & Herr).
  rewrite buildHeader_unfold, Hrun.
  destruct entry_bytes as [bytes|e0].
  - rewrite (buildHeader_from_bytes _ _ _ _ _ bytes Hhd).
    unfold header_checksum, with_checksums, header_checksum, with_entries_checksum.
    set (c1 := crc32 bytes).
    set (h1 := GPTHeader.set_partEntriesCrc32 c1 h).
    set (c2 := crc32 (GPTHeader.toBuffer (GPTHeader.set_headerCrc32 0 h1))).
    set (h2 := GPTHeader.set_headerCrc32 c2 h1).
    destruct (Z.eqb_spec c1 0) as [Hc1|Hc1].
    + eexists _, _. split; [reflexivity|]. split; [intros e He; discriminate|]. split.
      * intros bytes' Hb. inversion Hb; subst bytes'. cbv zeta. fold c1 h1 c2 h2.
        split; [|split; intros; contradiction].
        intros _. split; [reflexivity|].
        apply (snapshot_set_header σ this v g hl h h1 (logged σ) Hsnap Hhd).
      * split; [intros _; exists bytes; auto|].
        intros _. eexists. split; [reflexivity|]. left; reflexivity.
    + destruct (Z.eqb_spec c2 0) as [Hc2|Hc2].
      * eexists _, _. split; [reflexivity|]. split; [intros e He; discriminate|]. split.
        -- intros bytes' Hb. inversion Hb; subst bytes'. cbv zeta. fold c1 h1 c2 h2.
           split; [intros; contradiction|]. split; [|intros; contradiction].
           intros _ _. split; [reflexivity|].
           apply (snapshot_set_header σ this v g hl h h2 _ Hsnap Hhd).
        -- split; [intros _; exists bytes; auto|].
           intros _. eexists. split; [reflexivity|]. right; reflexivity.
      * eexists _, _. split; [reflexivity|]. split; [intros e He; discriminate|]. split.
        -- intros bytes' Hb. inversion Hb; subst bytes'. cbv zeta. fold c1 h1 c2 h2.
           split; [intros; contradiction|]. split; [intros; contradiction|].
           intros _ _. split; [reflexivity|].
           split; [apply (snapshot_set_header σ this v g hl h h2 _ Hsnap Hhd)|].
           split; [reflexivity|]. split; [reflexivity|].
           assert (Hget : getInt32 (GPTHeader.toBuffer h2) 16 = c2).
           { rewrite getInt32_toBuffer. apply toInt32_id. apply crc32_range. }
           split; [exact Hget|].
           rewrite toBuffer_zero_headerCrc32. reflexivity.
        -- split.
           ++ intros (e & He & _). discriminate.
           ++ intros (bytes' & Hb & Hz). inversion Hb; subst bytes'.
              fold c1 h1 c2 in Hz. destruct Hz; contradiction.
  - eexists _, _. split; [reflexivity|]. split.
    + intros e He. inversion He; subst e0.
      destruct (Herr e eq_refl) as [-> | ->]; repeat split; discriminate.
    + split; [intros bytes Hb; discriminate|]. split.
      * intros (e & He & Hz). inversion He; subst e0.
        destruct (Herr e eq_refl) as [-> | ->]; destruct Hz; discriminate.
      * intros (bytes & Hb & _). discriminate.
Qed.

Lemma buildHeader_stores_checksums_witness :
  exists r σ',
    GPT.buildHeader (test_gpt LUN4_PARTITIONS) None (test_state LUN4_PARTITIONS) = (r, σ') /\
    r <> Throw Error_partEntriesCrc32IsZero.
Proof.
  destruct (snapshot (test_state LUN4_PARTITIONS) (test_gpt LUN4_PARTITIONS))
    as [v|] eqn:Hv; [|vm_compute in Hv; discriminate].
  destruct (value_header v) as [h|] eqn:Hh;
    [|vm_compute in Hv; inversion Hv; subst v; discriminate].
  destruct (buildHeader_stores_checksums
              (test_state LUN4_PARTITIONS) (test_gpt LUN4_PARTITIONS) v h None Hv Hh)
    as (r & σ' & Hrun & _).
  exists r, σ'. split; [exact Hrun|].
  intros ->. revert Hrun. vm_compute. discriminate.
Defined.

(** ** [parsePartEntries] *)

Lemma entries_at_frame (h h' : gmap loc obj) ls :
  (forall l, l ∈ ls -> h' !! l = h !! l) -> entries_at h' ls = entries_at h ls.
Proof.
  induction ls as [|l r IH]; intros H; simpl; [reflexivity|].
  rewrite IH by (intros l' Hl'; apply H; right; exact Hl').
  unfold entry_at. rewrite H by left. reflexivity.
Qed.

Lemma entries_at_app (h : gmap loc obj) l1 l2 e1 e2 :
  entries_at h l1 = Some e1 -> entries_at h l2 = Some e2 ->
  entries_at h (l1 ++ l2) = Some (e1 ++ e2).
Proof.
  intros H1 H2. apply entries_at_Some. apply Forall2_app; apply entries_at_Some; assumption.
Qed.

Lemma parsePartEntries_loop this g h data :
  forall ixs σ ls,
    heap σ !! this = Some (ObjGPT g) ->
    heap σ !! partEntries g = Some (ObjArray ls) ->
    exists r σ' news des,
      for_each ixs
        (fun i =>
           let entryOffset := i * GPTHeader.partEntrySize h in
           let* partEntry :=
             GPTPartitionEntry_from
               (slice data (Z.to_nat entryOffset)
                  (Z.to_nat (entryOffset + GPTHeader.partEntrySize h))) in
           let* g := read_gpt this in
           array_push (partEntries g) partEntry) σ = (r, σ') /\
      logged σ' = logged σ /\
      Forall (fun l => heap σ !! l = None) news /\
      heap σ' !! partEntries g = Some (ObjArray (ls ++ news)) /\
      entries_at (heap σ') news = Some des /\
      (forall l, l <> partEntries g -> l ∉ news -> heap σ' !! l = heap σ !! l) /\
      match decode_slices h data ixs with
      | Some all => r = Ok tt /\ des = all
      | None => r = Throw TruncatedBuffer
      end.
Proof.
  induction ixs as [|i rest IH]; intros σ ls Hthis Harr.
  - exists (Ok tt), σ, [], []. simpl. rewrite app_nil_r. repeat split; auto.
  - cbn [for_each decode_slices]. unfold bind at 1. unfold bind at 1.
    unfold GPTPartitionEntry_from. fold (entry_slice h data i).
    destruct (length (entry_slice h data i) <? GPTPartitionEntry.size)%nat.
    { exists (Throw TruncatedBuffer), σ, [], []. rewrite app_nil_r.
      repeat split; auto. }
    unfold alloc at 1. set (l := fresh_loc (heap σ)).
    set (e := GPTPartitionEntry.decode (entry_slice h data i)).
    assert (Hl : heap σ !! l = None) by apply fresh_loc_fresh.
    assert (Hlt : l <> this) by (intros ->; congruence).
    assert (Hla : l <> partEntries g) by (intros Heq; rewrite Heq in Hl; congruence).
    unfold bind at 1. rewrite read_gpt_run, heap_set_heap, gpt_at_insert.
    destruct (decide (l = this)) as [?|_]; [contradiction|].
    apply gpt_at_Some in Hthis as Hthis'. rewrite Hthis'.
    unfold array_push, bind at 1. rewrite read_array_run, heap_set_heap, array_at_insert.
    destruct (decide (l = partEntries g)) as [?|_]; [contradiction|].
    apply array_at_Some in Harr as Harr'. rewrite Harr'.
    unfold write at 1. cbn [heap set_heap logged].
    set (σ2 := set_heap _ _).
    assert (Hσ2 : heap σ2 = <[partEntries g := ObjArray (ls ++ [l])]>
                               (<[l := ObjEntry e]> (heap σ))) by reflexivity.
    destruct (IH σ2 (ls ++ [l])) as (r & σ' & news & des & Hrun & Hlog & Hfresh & Ha' &
                                      Hdes & Hframe & Hres).
    { rewrite Hσ2. rewrite lookup_insert_ne, lookup_insert_ne by congruence. exact Hthis. }
    { rewrite Hσ2. apply lookup_insert_eq. }
    assert (Hl2 : heap σ2 !! l = Some (ObjEntry e)).
    { rewrite Hσ2. rewrite lookup_insert_ne by congruence. apply lookup_insert_eq. }
    assert (Hnotin : l ∉ news).
    { intros Hin. rewrite Forall_forall in Hfresh. specialize (Hfresh l Hin). congruence. }
    exists r, σ', (l :: news), (e :: des). split; [exact Hrun|].
    split; [exact Hlog|]. split.
    { constructor; [exact Hl|]. eapply Forall_impl; [exact Hfresh|].
      intros l' Hl'. cbv beta in Hl'. rewrite Hσ2 in Hl'.
      destruct (decide (l' = partEntries g)) as [->|Hne1];
        [rewrite lookup_insert_eq in Hl'; discriminate|].
      rewrite lookup_insert_ne in Hl' by congruence.
      destruct (decide (l' = l)) as [->|Hne2];
        [rewrite lookup_insert_eq in Hl'; discriminate|].
      rewrite lookup_insert_ne in Hl' by congruence. exact Hl'. }
    split.
    { rewrite Ha'. rewrite <- app_assoc. reflexivity. }
    split.
    { cbn [entries_at]. rewrite Hdes. unfold entry_at.
      rewrite (Hframe l Hla Hnotin), Hl2. reflexivity. }
    split.
    { intros l' Hne Hnin. rewrite not_elem_of_cons in Hnin. destruct Hnin as (Hne2 & Hnin).
      rewrite (Hframe l' Hne Hnin), Hσ2.
      rewrite lookup_insert_ne, lookup_insert_ne by congruence. reflexivity. }
    destruct (decode_slices h data rest) as [all|].
    + destruct Hres as (-> & ->). split; reflexivity.
    + exact Hres.
Qed.

(** A location that is fresh is none of the existing ones. *)
Lemma fresh_not_in (h : gmap loc obj) news l o :
  Forall (fun l => h !! l = None) news -> h !! l = Some o -> l ∉ news.
Proof.
  intros Hfresh Hl Hin. rewrite Forall_forall in Hfresh.
  specialize (Hfresh l Hin). congruence.
Qed.

Lemma entries_at_ne_array (h : gmap loc obj) ls es a x l :
  entries_at h ls = Some es -> h !! a = Some (ObjArray x) -> l ∈ ls -> l <> a.
Proof.
  intros Hes Ha Hl ->. destruct (entries_at_elem _ _ _ _ Hes Hl) as [e He].
  apply entry_at_Some in He. congruence.
Qed.

Lemma entries_at_exists (h : gmap loc obj) ls es l :
  entries_at h ls = Some es -> l ∈ ls -> exists e, h !! l = Some (ObjEntry e).
Proof.
  intros Hes Hl. destruct (entries_at_elem _ _ _ _ Hes Hl) as [e He].
  exists e. apply entry_at_Some. exact He.
Qed.

Lemma parsePartEntries_run σ this g hl h ls es data :
  headed σ this g hl h ->
  heap σ !! partEntries g = Some (ObjArray ls) ->
  entries_at (heap σ) ls = Some es ->
  exists r σ' news des,
    GPT.parsePartEntries this data σ = (r, σ') /\
    Forall (fun l => heap σ !! l = None) news /\
    heap σ' !! partEntries g = Some (ObjArray (ls ++ news)) /\
    entries_at (heap σ') news = Some des /\
    (forall l, l <> partEntries g -> l ∉ news -> heap σ' !! l = heap σ !! l) /\
    match decode_entries h data with
    | Some all =>
        des = all /\ r = fst (entries_verdict h (es ++ all)) /\
        logged σ' = logged σ ++ snd (entries_verdict h (es ++ all))
    | None => r = Throw TruncatedBuffer /\ logged σ' = logged σ
    end.
Proof.
  intros Hhd Harr Hes.
  pose proof Hhd as (Hthis & Hh & Hhl).
  destruct (parsePartEntries_loop this g h data (upto (GPTHeader.numPartEntries h)) σ ls
              Hthis Harr)
    as (r0 & σ1 & news & des & Hrun & Hlog & Hfresh & Ha1 & Hdes & Hframe & Hres).
  cbv zeta in Hrun.
  assert (Hstart :
    GPT.parsePartEntries this data σ =
    match r0 with
    | Ok _ =>
        (let* built := GPT.buildPartEntries this in
         let* stored := GPT.header_field this GPTHeader.partEntriesCrc32 in
         (if negb (stored =? crc32 built)
          then log (Warn_PartEntriesCrc32Mismatch stored (crc32 built))
          else ret tt) ;;
         let* stored0 := GPT.header_field this GPTHeader.partEntriesCrc32 in
         ret {| result_partEntriesCrc32 := stored0;
                entries_mismatchCrc32 := negb (stored =? crc32 built) |}) σ1
    | Throw e => (Throw e, σ1)
    end).
  { unfold GPT.parsePartEntries.
    unfold bind at 1. rewrite (header_field_run _ _ _ _ _ _ Hhd).
    unfold bind at 1. rewrite (header_field_run _ _ _ _ _ _ Hhd).
    unfold bind at 1. rewrite Hrun. reflexivity. }
  rewrite Hstart. clear Hstart. unfold decode_entries.
  destruct (decode_slices h data (upto (GPTHeader.numPartEntries h))) as [all|].
  2:{ subst r0. exists (Throw TruncatedBuffer), σ1, news, des. repeat split; auto. }
  destruct Hres as (-> & ->).
  assert (Hne : forall l o, heap σ !! l = Some o -> l <> partEntries g ->
                            heap σ1 !! l = heap σ !! l).
  { intros l o Hl Hla. apply Hframe; [exact Hla|]. eapply fresh_not_in; eassumption. }
  assert (Hhd1 : headed σ1 this g hl h).
  { split; [|split; [exact Hh|]].
    - rewrite (Hne this _ Hthis); [exact Hthis|]. intros Heq. rewrite Heq in Hthis. congruence.
    - rewrite (Hne hl _ Hhl); [exact Hhl|]. intros Heq. rewrite Heq in Hhl. congruence. }
  assert (Hes1 : entries_at (heap σ1) (ls ++ news) = Some (es ++ all)).
  { apply entries_at_app; [|exact Hdes].
    rewrite (entries_at_frame (heap σ) (heap σ1)); [exact Hes|].
    intros l Hl. destruct (entries_at_exists _ _ _ _ Hes Hl) as (e & He).
    apply (Hne l _ He). exact (entries_at_ne_array _ _ _ _ _ _ Hes Harr Hl). }
  unfold bind at 1. rewrite (buildPartEntries_run σ1 this g hl h _ _ Hhd1 Ha1 Hes1).
  unfold entries_verdict.
  destruct (canonical_entries h (es ++ all)) as [bytes|e0].
  2:{ exists (Throw e0), σ1, news, all. cbn [fst snd]. rewrite app_nil_r.
      repeat split; auto. }
  unfold bind at 1. rewrite (header_field_run _ _ _ _ _ _ Hhd1).
  destruct (negb (GPTHeader.partEntriesCrc32 h =? crc32 bytes)).
  - unfold bind at 1. unfold log at 1.
    set (σ2 := {| heap := heap σ1; logged := _ |}).
    assert (Hhd2 : headed σ2 this g hl h) by exact Hhd1.
    unfold bind at 1. rewrite (header_field_run _ _ _ _ _ _ Hhd2).
    eexists _, σ2, news, all. split; [reflexivity|]. subst σ2. cbn [heap logged fst snd].
    rewrite Hlog. repeat split; auto.
  - unfold bind at 1. unfold ret at 1.
    unfold bind at 1. rewrite (header_field_run _ _ _ _ _ _ Hhd1).
    eexists _, σ1, news, all. split; [reflexivity|]. cbn [fst snd].
    rewrite Hlog, app_nil_r. repeat split; auto.
Qed.

Lemma partitions_of_app es1 es2 :
  partitions_of (es1 ++ es2) = partitions_of es1 ++ partitions_of es2.
Proof. unfold partitions_of. rewrite filter_app, map_app. reflexivity. Qed.

Lemma map_each_read_entry σ ls es :
  entries_at (heap σ) ls = Some es -> map_each ls read_entry σ = (Ok es, σ).
Proof.
  revert es. induction ls as [|l r IH]; intros es Hes; simpl in *.
  - inversion Hes; reflexivity.
  - destruct (entry_at (heap σ) l) as [e|] eqn:He; [|discriminate].
    destruct (entries_at (heap σ) r) as [es'|] eqn:Hr; [|discriminate].
    inversion Hes; subst. unfold bind at 1. rewrite read_entry_run, He.
    unfold bind at 1. rewrite (IH es' eq_refl). reflexivity.
Qed.

Lemma entries_run σ this v :
  snapshot σ this = Some v -> GPT.entries this σ = (Ok (value_entries v), σ).
Proof.
  intros Hsnap. apply snapshot_Some in Hsnap as (g & a & Hg & Ha & Hes & _).
  unfold GPT.entries, bind. rewrite read_gpt_run, Hg, read_array_run, Ha.
  apply map_each_read_entry. exact Hes.
Qed.

Lemma getPartitions_run σ this v :
  snapshot σ this = Some v ->
  GPT.getPartitions this σ = (Ok (partitions_of (value_entries v)), σ).
Proof.
  intros Hsnap. unfold GPT.getPartitions, bind. rewrite (entries_run _ _ _ Hsnap).
  reflexivity.
Qed.

(** The value of the receiver once new entry views were pushed. *)
Lemma snapshot_pushed σ σ' this v g ls news des :
  snapshot σ this = Some v ->
  heap σ !! this = Some (ObjGPT g) ->
  heap σ !! partEntries g = Some (ObjArray ls) ->
  Forall (fun l => heap σ !! l = None) news ->
  heap σ' !! partEntries g = Some (ObjArray (ls ++ news)) ->
  entries_at (heap σ') news = Some des ->
  (forall l, l <> partEntries g -> l ∉ news -> heap σ' !! l = heap σ !! l) ->
  snapshot σ' this = Some (with_entries (value_entries v ++ des) v).
Proof.
  intros Hsnap Hthis Harr Hfresh Ha' Hdes Hframe.
  apply snapshot_Some in Hsnap as (g' & a & Hg' & Ha & Hes & Hss & Hhd).
  apply gpt_at_Some in Hg'. rewrite Hthis in Hg'. inversion Hg'; subst g'.
  apply array_at_Some in Ha. rewrite Harr in Ha. inversion Ha; subst a.
  assert (Hne : forall l o, heap σ !! l = Some o -> l <> partEntries g ->
                            heap σ' !! l = heap σ !! l).
  { intros l o Hl Hla. apply Hframe; [exact Hla|]. eapply fresh_not_in; eassumption. }
  apply snapshot_Some. exists g, (ls ++ news).
  cbn [with_entries value_entries value_sectorSize value_header].
  split.
  { apply gpt_at_Some. rewrite (Hne this _ Hthis); [exact Hthis|].
    intros Heq. rewrite Heq in Hthis. congruence. }
  split; [apply array_at_Some; exact Ha'|]. split.
  { apply entries_at_app; [|exact Hdes].
    rewrite (entries_at_frame (heap σ) (heap σ')); [exact Hes|].
    intros l Hl. destruct (entries_at_exists _ _ _ _ Hes Hl) as (e & He).
    apply (Hne l _ He). exact (entries_at_ne_array _ _ _ _ _ _ Hes Harr Hl). }
  split; [exact Hss|].
  destruct (header g) as [hl|]; [|exact Hhd].
  destruct Hhd as (h & Hh & Hv). exists h. split; [|exact Hv].
  apply header_at_Some in Hh. apply header_at_Some.
  rewrite (Hne hl _ Hh); [exact Hh|]. intros Heq. rewrite Heq in Hh. congruence.
Qed.

Lemma length_upto n : length (upto n) = Z.to_nat n.
Proof. unfold upto. rewrite length_map, length_seq. reflexivity. Qed.

Lemma decode_slices_length h data ixs es :
  decode_slices h data ixs = Some es -> length es = length ixs.
Proof.
  revert es. induction ixs as [|i r IH]; intros es H; simpl in H.
  - inversion H; reflexivity.
  - destruct (length (entry_slice h data i) <? GPTPartitionEntry.size)%nat; [discriminate|].
    destruct (decode_slices h data r) as [es'|]; [|discriminate].
    inversion H; subst. simpl. rewrite (IH es' eq_refl). reflexivity.
Qed.

Lemma decode_entries_length h data es :
  decode_entries h data = Some es -> length es = Z.to_nat (GPTHeader.numPartEntries h).
Proof.
  intros H. apply decode_slices_length in H. rewrite H. apply length_upto.
Qed.

Lemma decode_slices_lookup h data ixs es (k : nat) i :
  decode_slices h data ixs = Some es -> ixs !! k = Some i ->
  es !! k = Some (GPTPartitionEntry.decode (entry_slice h data i)) /\
  (GPTPartitionEntry.size <= length (entry_slice h data i))%nat.
Proof.
  revert es k. induction ixs as [|j r IH]; intros es k H Hk; simpl in H; [discriminate|].
  destruct (Nat.ltb_spec (length (entry_slice h data j)) GPTPartitionEntry.size);
    [discriminate|].
  destruct (decode_slices h data r) as [es'|]; [|discriminate].
  inversion H; subst. destruct k as [|k]; simpl in *.
  - inversion Hk; subst. auto.
  - apply IH; auto.
Qed.

Lemma upto_lookup n i : 0 <= i < n -> upto n !! Z.to_nat i = Some i.
Proof.
  intros Hi. unfold upto. rewrite list_lookup_fmap.
  rewrite lookup_seq_lt by lia. simpl. f_equal. lia.
Qed.

Lemma decode_entries_lookup h data es i :
  decode_entries h data = Some es -> 0 <= i < GPTHeader.numPartEntries h ->
  es !! Z.to_nat i = Some (GPTPartitionEntry.decode (entry_slice h data i)).
Proof.
  intros H Hi. eapply decode_slices_lookup; [exact H|]. apply upto_lookup. exact Hi.
Qed.

(** Bytes past [numPartEntries * partEntrySize] are never read. *)
Lemma slice_take data (a b N : nat) :
  (a + (b - a) <= N)%nat -> slice (take N data) a b = slice data a b.
Proof.
  intros H. unfold slice. rewrite !take_drop_commute, take_take.
  replace (min (a + (b - a)) N) with (a + (b - a))%nat by lia. reflexivity.
Qed.

Lemma entry_slice_take h data i :
  0 <= i < GPTHeader.numPartEntries h ->
  entry_slice h
    (take (Z.to_nat (GPTHeader.numPartEntries h * GPTHeader.partEntrySize h)) data) i =
  entry_slice h data i.
Proof.
  intros Hi. unfold entry_slice. apply slice_take.
  set (n := GPTHeader.numPartEntries h) in *. set (s := GPTHeader.partEntrySize h).
  destruct (Z.le_gt_cases 0 s) as [Hs|Hs].
  - assert (i * s + s <= n * s) by nia. assert (0 <= i * s) by nia. lia.
  - assert (i * s <= 0) by nia. lia.
Qed.

Lemma decode_slices_ext h data1 data2 ixs :
  Forall (fun i => entry_slice h data1 i = entry_slice h data2 i) ixs ->
  decode_slices h data1 ixs = decode_slices h data2 ixs.
Proof.
  induction 1 as [|i r Hi _ IH]; simpl; [reflexivity|]. rewrite Hi, IH. reflexivity.
Qed.

Lemma decode_entries_take h data :
  decode_entries h
    (take (Z.to_nat (GPTHeader.numPartEntries h * GPTHeader.partEntrySize h)) data) =
  decode_entries h data.
Proof.
  unfold decode_entries. apply decode_slices_ext.
  eapply Forall_impl; [apply upto_bounds|]. intros i Hi. apply entry_slice_take. exact Hi.
Qed.

(** ** [parsePartEntries] on a GPT value *)

Lemma parsePartEntries_value σ this v h data :
  snapshot σ this = Some v ->
  value_header v = Some h ->
  exists r σ' des,
    GPT.parsePartEntries this data σ = (r, σ') /\
    snapshot σ' this = Some (with_entries (value_entries v ++ des) v) /\
    match decode_entries h data with
    | Some all =>
        des = all /\ r = fst (entries_verdict h (value_entries v ++ all)) /\
        logged σ' = logged σ ++ snd (entries_verdict h (value_entries v ++ all))
    | None => r = Throw TruncatedBuffer /\ logged σ' = logged σ
    end.
Proof.
  intros Hsnap Hh.
  destruct (snapshot_headed _ _ _ _ Hsnap Hh) as (g & hl & ls & Hhd & Ha & Hes & Hss).
  destruct (parsePartEntries_run σ this g hl h ls _ data Hhd Ha Hes)
    as (r & σ' & news & des & Hrun & Hfresh & Ha' & Hdes & Hframe & Hres).
  exists r, σ', des. split; [exact Hrun|]. split; [|exact Hres].
  destruct Hhd as (Hthis & _).
  eapply snapshot_pushed; eassumption.
Qed.

Lemma entries_verdict_Ok h es r :
  fst (entries_verdict h es) = Ok r ->
  exists bytes,
    canonical_entries h es = Ok bytes /\
    r = {| result_partEntriesCrc32 := GPTHeader.partEntriesCrc32 h;
           entries_mismatchCrc32 := negb (GPTHeader.partEntriesCrc32 h =? crc32 bytes) |}.
Proof.
  unfold entries_verdict. destruct (canonical_entries h es) as [bytes|e]; [|discriminate].
  simpl. intros H; inversion H. exists bytes. auto.
Qed.

Lemma entries_verdict_prefix h es more :
  GPTHeader.numPartEntries h <= Z.of_nat (length es) ->
  entries_verdict h (es ++ more) = entries_verdict h es.
Proof.
  intros Hn. unfold entries_verdict. rewrite canonical_entries_prefix by exact Hn.
  reflexivity.
Qed.

(** C10. [parsePartEntries] never clears the entries already stored. When a
    call returns, the entries of the GPT are those it had before followed by
    the [numPartEntries] entries decoded from the buffer, and
    [getPartitions] reports the partitions of both. A further call on a
    buffer that decodes appends again: it returns (with the verdict of the
    call before, the encoded array being built from the first
    [numPartEntries] stored entries), and the entries are then those of
    before, those of the first call and those of the second, in that
    order. *)
Theorem parsePartEntries_appends σ this v h data r σ' :
  snapshot σ this = Some v ->
  value_header v = Some h ->
  GPT.parsePartEntries this data σ = (Ok r, σ') ->
  exists decoded,
    decode_entries h data = Some decoded /\
    length decoded = Z.to_nat (GPTHeader.numPartEntries h) /\
    snapshot σ' this = Some (with_entries (value_entries v ++ decoded) v) /\
    fst (GPT.getPartitions this σ') =
      Ok (partitions_of (value_entries v) ++ partitions_of decoded) /\
    forall data2 decoded2,
      decode_entries h data2 = Some decoded2 ->
      exists σ2,
        GPT.parsePartEntries this data2 σ' = (Ok r, σ2) /\
        snapshot σ2 this =
          Some (with_entries (value_entries v ++ decoded ++ decoded2) v) /\
        fst (GPT.getPartitions this σ2) =
          Ok (partitions_of (value_entries v) ++ partitions_of decoded ++
              partitions_of decoded2).
Proof.
  intros Hsnap Hh Hrun.
  destruct (parsePartEntries_value σ this v h data Hsnap Hh)
    as (r1 & σ1 & des & Hrun1 & Hsnap1 & Hres).
  rewrite Hrun in Hrun1. inversion Hrun1; subst r1 σ1. clear Hrun1.
  destruct (decode_entries h data) as [decoded|] eqn:Hdec; [|destruct Hres; discriminate].
  destruct Hres as (-> & Hr & _).
  pose proof (decode_entries_length _ _ _ Hdec) as Hlen.
  exists decoded. split; [reflexivity|]. split; [exact Hlen|]. split; [exact Hsnap1|].
  split.
  { rewrite (getPartitions_run _ _ _ Hsnap1). cbn [fst with_entries value_entries].
    rewrite partitions_of_app. reflexivity. }
  intros data2 decoded2 Hdec2.
  destruct (parsePartEntries_value σ' this _ h data2 Hsnap1 Hh)
    as (r2 & σ2 & des2 & Hrun2 & Hsnap2 & Hres2).
  rewrite Hdec2 in Hres2. destruct Hres2 as (-> & Hr2 & _).
  cbn [with_entries value_entries value_header value_sectorSize] in *.
  rewrite entries_verdict_prefix in Hr2
    by (rewrite length_app, Hlen; lia).
  exists σ2. split; [rewrite Hrun2, Hr2, <- Hr; reflexivity|].
  rewrite <- app_assoc in Hsnap2. split; [exact Hsnap2|].
  rewrite (getPartitions_run _ _ _ Hsnap2). cbn [fst with_entries value_entries].
  rewrite !partitions_of_app. reflexivity.
Qed.

Lemma parsePartEntries_appends_witness :
  exists r σ' v',
    GPT.parsePartEntries (test_gpt FOUR_PARTITIONS) (snd (buildGPTData FOUR_PARTITIONS))
      (test_state FOUR_PARTITIONS) = (Ok r, σ') /\
    snapshot σ' (test_gpt FOUR_PARTITIONS) = Some v' /\
    length (value_entries v') = 8%nat.
Proof.
  destruct (snapshot (test_state FOUR_PARTITIONS) (test_gpt FOUR_PARTITIONS))
    as [v|] eqn:Hv; [|vm_compute in Hv; discriminate].
  destruct (value_header v) as [h|] eqn:Hh;
    [|vm_compute in Hv; inversion Hv; subst v; discriminate].
  destruct (GPT.parsePartEntries (test_gpt FOUR_PARTITIONS)
              (snd (buildGPTData FOUR_PARTITIONS)) (test_state FOUR_PARTITIONS))
    as [[r|e] σ'] eqn:Hrun; [|vm_compute in Hrun; discriminate].
  destruct (parsePartEntries_appends
              (test_state FOUR_PARTITIONS) (test_gpt FOUR_PARTITIONS) v h
              (snd (buildGPTData FOUR_PARTITIONS)) r σ' Hv Hh Hrun)
    as (decoded & _ & Hlen & Hsnap & _).
  exists r, σ', (with_entries (value_entries v ++ decoded) v).
  split; [reflexivity|]. split; [exact Hsnap|].
  cbn [with_entries value_entries]. rewrite length_app, Hlen.
  vm_compute in Hv. inversion Hv; subst v. vm_compute in Hh. inversion Hh; subst h.
  reflexivity.
Defined.

(** ** When [parsePartEntries] returns *)

Lemma length_bytes_encode n bs : length (bytes_encode n bs) = n.
Proof. unfold bytes_encode. rewrite length_take, length_app, length_replicate. lia. Qed.

Lemma length_utf16cstring_encode n s : length (utf16cstring_encode n s) = (2 * n)%nat.
Proof.
  unfold utf16cstring_encode. rewrite length_take, length_app, length_replicate. lia.
Qed.

Lemma length_entry_toBuffer e :
  length (GPTPartitionEntry.toBuffer e) = GPTPartitionEntry.size.
Proof.
  unfold GPTPartitionEntry.toBuffer, guid_encode.
  rewrite !length_app, !length_bytes_encode, !length_le_bytes, length_utf16cstring_encode.
  reflexivity.
Qed.

Lemma canonical_fold_ok h es ixs :
  128 <= GPTHeader.partEntrySize h ->
  Forall (fun i => 0 <= i < GPTHeader.numPartEntries h) ixs ->
  GPTHeader.numPartEntries h <= Z.of_nat (length es) ->
  forall array,
    Z.of_nat (length array) = GPTHeader.numPartEntries h * GPTHeader.partEntrySize h ->
    exists bytes, fold_left (canonical_step h es) ixs (Ok array) = Ok bytes.
Proof.
  intros Hs Hixs Hn. induction Hixs as [|i r Hi _ IH]; intros array Hlen; simpl.
  - exists array. reflexivity.
  - destruct (lookup_lt_is_Some_2 es (Z.to_nat i)) as [e He]; [lia|]. rewrite He.
    destruct (Uint8Array_set array (GPTPartitionEntry.toBuffer e)
                (i * GPTHeader.partEntrySize h)) as [array'|e0] eqn:Hset.
    + apply IH. rewrite (Uint8Array_set_length _ _ _ _ Hset). exact Hlen.
    + exfalso. unfold Uint8Array_set in Hset. rewrite length_entry_toBuffer in Hset.
      change (Z.of_nat GPTPartitionEntry.size) with 128 in Hset.
      destruct (Z.ltb_spec (i * GPTHeader.partEntrySize h) 0); [nia|].
      destruct (Z.ltb_spec (Z.of_nat (length array))
                  (i * GPTHeader.partEntrySize h + 128)); [nia|].
      discriminate.
Qed.

Lemma canonical_entries_ok h es :
  0 <= GPTHeader.numPartEntries h ->
  128 <= GPTHeader.partEntrySize h ->
  GPTHeader.numPartEntries h * GPTHeader.partEntrySize h <= MAX_SAFE_INTEGER ->
  GPTHeader.numPartEntries h <= Z.of_nat (length es) ->
  exists bytes, canonical_entries h es = Ok bytes.
Proof.
  intros Hn Hs Hmax Hlen. unfold canonical_entries, new_Uint8Array.
  destruct (Z.ltb_spec (GPTHeader.numPartEntries h * GPTHeader.partEntrySize h) 0); [nia|].
  destruct (Z.ltb_spec MAX_SAFE_INTEGER
              (GPTHeader.numPartEntries h * GPTHeader.partEntrySize h)); [lia|].
  simpl. apply canonical_fold_ok; auto.
  - apply upto_bounds.
  - rewrite length_replicate. lia.
Qed.

Lemma length_slice data (a b : nat) : length (slice data a b) = min (b - a) (length data - a).
Proof. unfold slice. rewrite length_take, length_drop. reflexivity. Qed.

Lemma decode_slices_ok h data ixs :
  Forall (fun i => (GPTPartitionEntry.size <= length (entry_slice h data i))%nat) ixs ->
  exists es, decode_slices h data ixs = Some es.
Proof.
  induction 1 as [|i r Hi _ (es & IH)]; simpl; [exists []; reflexivity|].
  destruct (Nat.ltb_spec (length (entry_slice h data i)) GPTPartitionEntry.size); [lia|].
  rewrite IH. eexists; reflexivity.
Qed.

Lemma decode_entries_ok h data :
  128 <= GPTHeader.partEntrySize h ->
  GPTHeader.numPartEntries h * GPTHeader.partEntrySize h <= Z.of_nat (length data) ->
  exists es, decode_entries h data = Some es.
Proof.
  intros Hs Hlen. apply decode_slices_ok.
  eapply Forall_impl; [apply upto_bounds|]. intros i Hi. cbv beta in *.
  unfold entry_slice. rewrite length_slice. change GPTPartitionEntry.size with 128%nat.
  set (n := GPTHeader.numPartEntries h) in *. set (s := GPTHeader.partEntrySize h) in *.
  assert (0 <= (n - i - 1) * s) by (apply Z.mul_nonneg_nonneg; lia).
  assert (0 <= i * s) by (apply Z.mul_nonneg_nonneg; lia).
  lia.
Qed.

(** The outcome depends on the buffer through the decoded entries only. *)
Lemma parsePartEntries_reads_decoded_entries σ this v h data data2 :
  snapshot σ this = Some v ->
  value_header v = Some h ->
  decode_entries h data2 = decode_entries h data ->
  fst (GPT.parsePartEntries this data2 σ) = fst (GPT.parsePartEntries this data σ).
Proof.
  intros Hsnap Hh Hdec.
  destruct (parsePartEntries_value σ this v h data Hsnap Hh)
    as (r1 & σ1 & des1 & Hrun1 & _ & Hres1).
  destruct (parsePartEntries_value σ this v h data2 Hsnap Hh)
    as (r2 & σ2 & des2 & Hrun2 & _ & Hres2).
  rewrite Hrun1, Hrun2. cbn [fst]. rewrite Hdec in Hres2.
  destruct (decode_entries h data) as [all|].
  - destruct Hres1 as (_ & -> & _). destruct Hres2 as (_ & -> & _). reflexivity.
  - destruct Hres1 as (-> & _). destruct Hres2 as (-> & _). reflexivity.
Qed.

(** ** Stores that only grow *)

Lemma extends_refl σ : extends σ σ.
Proof. split; auto. Qed.

Lemma extends_trans σ1 σ2 σ3 : extends σ1 σ2 -> extends σ2 σ3 -> extends σ1 σ3.
Proof. intros (L1 & H1) (L2 & H2). split; [congruence|]. auto. Qed.

Lemma extends_insert_new σ0 σ l o :
  extends σ0 σ -> heap σ0 !! l = None ->
  extends σ0 (set_heap (<[l := o]> (heap σ)) σ).
Proof.
  intros (Hlog & Hext) Hl. split; [exact Hlog|].
  intros l' o' Hl'. rewrite heap_set_heap.
  rewrite lookup_insert_ne by congruence. auto.
Qed.

Lemma extends_fresh σ0 σ l : extends σ0 σ -> heap σ !! l = None -> heap σ0 !! l = None.
Proof.
  intros (_ & Hext) Hl. destruct (heap σ0 !! l) as [o|] eqn:H0; [|reflexivity].
  apply Hext in H0. congruence.
Qed.

Lemma extends_alloc σ0 σ o :
  extends σ0 σ ->
  extends σ0 (set_heap (<[fresh_loc (heap σ) := o]> (heap σ)) σ).
Proof.
  intros Hext. apply extends_insert_new; [exact Hext|].
  eapply extends_fresh; [exact Hext|]. apply fresh_loc_fresh.
Qed.

Lemma headed_extends σ0 σ this g hl h :
  headed σ0 this g hl h -> extends σ0 σ -> headed σ this g hl h.
Proof. intros (H1 & H2 & H3) (_ & Hext). split; [|split]; auto. Qed.

Lemma entries_at_extends σ0 σ ls es :
  entries_at (heap σ0) ls = Some es -> extends σ0 σ -> entries_at (heap σ) ls = Some es.
Proof.
  intros Hes (_ & Hext). apply entries_at_Some. apply entries_at_Some in Hes.
  eapply Forall2_impl; [exact Hes|]. intros l e Hl. apply Hext. exact Hl.
Qed.

(** Cloning the entry views of a list: new views with the same fields. *)
Lemma clone_entries ls :
  forall es σ,
    entries_at (heap σ) ls = Some es ->
    exists clones σ',
      map_each ls entry_clone σ = (Ok clones, σ') /\
      extends σ σ' /\
      entries_at (heap σ') clones = Some es /\
      Forall (fun l => heap σ !! l = None) clones /\
      (forall l, l ∉ clones -> heap σ' !! l = heap σ !! l).
Proof.
  induction ls as [|l r IH]; intros es σ Hes; simpl in Hes.
  - inversion Hes; subst. exists [], σ. simpl. repeat split; auto.
  - destruct (entry_at (heap σ) l) as [e|] eqn:He; [|discriminate].
    destruct (entries_at (heap σ) r) as [es'|] eqn:Hr; [|discriminate].
    inversion Hes; subst es. clear Hes.
    set (c := fresh_loc (heap σ)).
    set (σ1 := set_heap (<[c := ObjEntry e]> (heap σ)) σ).
    assert (Hc : heap σ !! c = None) by apply fresh_loc_fresh.
    assert (Hext1 : extends σ σ1) by (apply extends_alloc, extends_refl).
    destruct (IH es' σ1 (entries_at_extends _ _ _ _ Hr Hext1))
      as (clones & σ' & Hrun & Hext & Hes' & Hfresh & Hframe).
    assert (Hc1 : heap σ1 !! c = Some (ObjEntry e)) by apply lookup_insert_eq.
    exists (c :: clones), σ'. split.
    { cbn [map_each]. unfold bind at 1. unfold entry_clone at 1. unfold bind at 1.
      rewrite read_entry_run, He. unfold alloc at 1. fold c. fold σ1.
      unfold bind at 1. rewrite Hrun. reflexivity. }
    split; [eapply extends_trans; eassumption|]. split.
    { cbn [entries_at]. rewrite Hes'. unfold entry_at.
      destruct Hext as (_ & Hext). rewrite (Hext c _ Hc1). reflexivity. }
    split.
    { constructor; [exact Hc|]. eapply Forall_impl; [exact Hfresh|].
      intros l' Hl'. eapply extends_fresh; eassumption. }
    intros l' Hl'. rewrite not_elem_of_cons in Hl'. destruct Hl' as (Hne & Hnin).
    rewrite (Hframe l' Hnin). subst σ1. rewrite heap_set_heap.
    apply lookup_insert_ne. congruence.
Qed.

(** ** [asAlternate] *)

Lemma partEntriesSectors_run σ this g hl h :
  headed σ this g hl h ->
  GPT.partEntriesSectors this σ =
    (Ok (ceil_quotient (GPTHeader.numPartEntries h * GPTHeader.partEntrySize h)
           (sectorSize g)), σ).
Proof.
  intros Hhd. unfold GPT.partEntriesSectors, GPT.numPartEntries, GPT.partEntrySize.
  unfold bind at 1. rewrite (header_field_run _ _ _ _ _ _ Hhd).
  unfold bind at 1. rewrite (header_field_run _ _ _ _ _ _ Hhd).
  unfold bind at 1. rewrite read_gpt_run.
  destruct Hhd as (Hg & _). apply gpt_at_Some in Hg. rewrite Hg. reflexivity.
Qed.

Lemma asAlternate_run σ this g hl h ls es :
  headed σ this g hl h ->
  heap σ !! partEntries g = Some (ObjArray ls) ->
  entries_at (heap σ) ls = Some es ->
  sectorSize g <> 0 ->
  exists alt σ' hl' arr' clones,
    GPT.asAlternate this σ = (Ok alt, σ') /\
    extends σ σ' /\
    heap σ !! alt = None /\ heap σ !! hl' = None /\ heap σ !! arr' = None /\
    Forall (fun l => heap σ !! l = None) clones /\
    heap σ' !! alt =
      Some (ObjGPT {| sectorSize := sectorSize g; header := Some hl';
                      partEntries := arr' |}) /\
    heap σ' !! hl' = Some (ObjHeader (alternate_header (sectorSize g) h)) /\
    heap σ' !! arr' = Some (ObjArray clones) /\
    entries_at (heap σ') clones = Some es.
Proof.
  intros Hhd Harr Hes Hss. unfold GPT.asAlternate.
  unfold bind at 1. rewrite (header_ref_run _ _ _ _ _ Hhd).
  (* the cloned header *)
  unfold bind at 1. unfold header_clone at 1. unfold bind at 1.
  rewrite read_header_run. pose proof Hhd as (Hthis & Hh & Hhl).
  apply header_at_Some in Hhl as Hhl'. rewrite Hhl'.
  unfold alloc at 1. set (l1 := fresh_loc (heap σ)).
  assert (Hl1 : heap σ !! l1 = None) by apply fresh_loc_fresh.
  set (σ1 := set_heap (<[l1 := ObjHeader h]> (heap σ)) σ).
  assert (Hext1 : extends σ σ1) by (apply extends_alloc, extends_refl).
  assert (Hhd1 : headed σ1 this g hl h) by exact (headed_extends _ _ _ _ _ _ Hhd Hext1).
  unfold bind at 1. rewrite (header_field_run _ _ _ _ _ _ Hhd1).
  unfold bind at 1. rewrite modify_header_run. unfold header_at at 1.
  replace (heap σ1 !! l1) with (Some (ObjHeader h)) by (symmetry; apply lookup_insert_eq).
  cbv iota beta.
  set (σ2 := set_heap _ σ1).
  assert (Hext2 : extends σ σ2) by (apply extends_insert_new; assumption).
  assert (Hhd2 : headed σ2 this g hl h) by exact (headed_extends _ _ _ _ _ _ Hhd Hext2).
  unfold bind at 1. rewrite (header_field_run _ _ _ _ _ _ Hhd2).
  unfold bind at 1. rewrite modify_header_run. unfold header_at at 1.
  replace (heap σ2 !! l1) with
    (Some (ObjHeader (GPTHeader.set_currentLba (GPTHeader.alternateLba h) h)))
    by (symmetry; apply lookup_insert_eq).
  cbv iota beta.
  set (σ3 := set_heap _ σ2).
  assert (Hext3 : extends σ σ3) by (apply extends_insert_new; assumption).
  assert (Hhd3 : headed σ3 this g hl h) by exact (headed_extends _ _ _ _ _ _ Hhd Hext3).
  unfold bind at 1. rewrite (header_field_run _ _ _ _ _ _ Hhd3).
  unfold bind at 1. rewrite (partEntriesSectors_run _ _ _ _ _ Hhd3).
  unfold ceil_quotient. destruct (Z.eqb_spec (sectorSize g) 0) as [?|_]; [contradiction|].
  unfold bind at 1. unfold BigInt, ret at 1.
  unfold bind at 1. rewrite modify_header_run. unfold header_at at 1.
  replace (heap σ3 !! l1) with
    (Some (ObjHeader (GPTHeader.set_alternateLba (GPTHeader.currentLba h)
                        (GPTHeader.set_currentLba (GPTHeader.alternateLba h) h))))
    by (symmetry; apply lookup_insert_eq).
  cbv iota beta.
  fold (alternate_header (sectorSize g) h).
  set (σ4 := set_heap _ σ3).
  assert (Hext4 : extends σ σ4) by (apply extends_insert_new; assumption).
  assert (Hhd4 : headed σ4 this g hl h) by exact (headed_extends _ _ _ _ _ _ Hhd Hext4).
  assert (H41 : heap σ4 !! l1 = Some (ObjHeader (alternate_header (sectorSize g) h)))
    by apply lookup_insert_eq.
  (* the new GPT object *)
  unfold bind at 1. rewrite read_gpt_run.
  destruct Hhd4 as (Hthis4 & _). apply gpt_at_Some in Hthis4 as Hthis4'. rewrite Hthis4'.
  unfold bind at 1. unfold GPT.new at 1. unfold bind at 1. unfold alloc at 1.
  set (l2 := fresh_loc (heap σ4)).
  set (σ5 := set_heap (<[l2 := ObjArray []]> (heap σ4)) σ4).
  assert (Hext45 : extends σ4 σ5) by (apply extends_alloc, extends_refl).
  unfold alloc at 1. set (l3 := fresh_loc (heap σ5)).
  set (σ6 := set_heap (<[l3 := _]> (heap σ5)) σ5).
  assert (Hext56 : extends σ5 σ6) by (apply extends_alloc, extends_refl).
  assert (Hl3 : heap σ5 !! l3 = None) by apply fresh_loc_fresh.
  assert (Hl3' : heap σ !! l3 = None).
  { eapply extends_fresh; [|exact Hl3]. eapply extends_trans; eassumption. }
  unfold bind at 1. rewrite read_gpt_run. unfold gpt_at at 1.
  replace (heap σ6 !! l3) with
    (Some (ObjGPT {| sectorSize := sectorSize g; header := None; partEntries := l2 |}))
    by (symmetry; apply lookup_insert_eq).
  cbv iota beta.
  unfold bind at 1. unfold write at 1. cbn [set_header sectorSize partEntries].
  set (σ7 := set_heap _ σ6).
  assert (Hext7 : extends σ σ7).
  { apply extends_insert_new; [|exact Hl3'].
    eapply extends_trans; [exact Hext4|]. eapply extends_trans; eassumption. }
  assert (H71 : heap σ7 !! l1 = Some (ObjHeader (alternate_header (sectorSize g) h))).
  { subst σ7. rewrite heap_set_heap. rewrite lookup_insert_ne.
    - destruct Hext56 as (_ & H56). apply H56. destruct Hext45 as (_ & H45). apply H45.
      exact H41.
    - intros Heq. destruct Hext45 as (_ & H45). apply H45 in H41. congruence. }
  (* the cloned entries *)
  assert (Hhd7 : headed σ7 this g hl h) by exact (headed_extends _ _ _ _ _ _ Hhd Hext7).
  unfold bind at 1. rewrite read_gpt_run.
  destruct Hhd7 as (Hthis7 & _). apply gpt_at_Some in Hthis7 as Hthis7'. rewrite Hthis7'.
  unfold bind at 1. rewrite read_array_run.
  assert (Harr7 : heap σ7 !! partEntries g = Some (ObjArray ls)).
  { destruct Hext7 as (_ & H). apply H. exact Harr. }
  apply array_at_Some in Harr7 as Harr7'. rewrite Harr7'.
  destruct (clone_entries ls es σ7 (entries_at_extends _ _ _ _ Hes Hext7))
    as (clones & σ8 & Hclone & Hext78 & Hes8 & Hfresh8 & Hframe8).
  unfold bind at 1. rewrite Hclone.
  unfold bind at 1. unfold alloc at 1. set (l4 := fresh_loc (heap σ8)).
  set (σ9 := set_heap (<[l4 := ObjArray clones]> (heap σ8)) σ8).
  assert (Hext89 : extends σ8 σ9) by (apply extends_alloc, extends_refl).
  assert (H73 : heap σ7 !! l3 = Some (ObjGPT {| sectorSize := sectorSize g;
                                                 header := Some l1; partEntries := l2 |}))
    by apply lookup_insert_eq.
  assert (H93 : heap σ9 !! l3 = Some (ObjGPT {| sectorSize := sectorSize g;
                                                 header := Some l1; partEntries := l2 |})).
  { destruct Hext89 as (_ & H89). apply H89. destruct Hext78 as (_ & H78). apply H78.
    exact H73. }
  unfold bind at 1. rewrite read_gpt_run. apply gpt_at_Some in H93 as H93'. rewrite H93'.
  unfold bind at 1. unfold write at 1. cbn [set_partEntries sectorSize header].
  unfold ret.
  set (σ10 := set_heap _ σ9).
  assert (Hl4 : heap σ8 !! l4 = None) by apply fresh_loc_fresh.
  assert (Hext79 : extends σ7 σ9) by (eapply extends_trans; eassumption).
  assert (Hne43 : l4 <> l3).
  { intros Heq. destruct Hext78 as (_ & H78). apply H78 in H73. congruence. }
  exists l3, σ10, l1, l4, clones. split; [reflexivity|].
  split.
  { apply extends_insert_new; [|exact Hl3']. eapply extends_trans; eassumption. }
  split; [exact Hl3'|]. split; [exact Hl1|]. split.
  { eapply extends_fresh; [|exact Hl4]. eapply extends_trans; eassumption. }
  split.
  { eapply Forall_impl; [exact Hfresh8|]. intros l Hl. eapply extends_fresh; eassumption. }
  split; [apply lookup_insert_eq|]. split.
  { subst σ10. rewrite heap_set_heap. rewrite lookup_insert_ne.
    - destruct Hext79 as (_ & H79). apply H79. exact H71.
    - intros Heq. rewrite <- Heq in H71. congruence. }
  split.
  { subst σ10. rewrite heap_set_heap. rewrite lookup_insert_ne by congruence.
    apply lookup_insert_eq. }
  subst σ10. rewrite heap_set_heap.
  rewrite (entries_at_frame (heap σ9)).
  - eapply entries_at_extends; eassumption.
  - intros l Hl. apply lookup_insert_ne. intros Heq. subst l.
    destruct (entries_at_exists _ _ _ _ Hes8 Hl) as (e & He).
    destruct Hext89 as (_ & H89). apply H89 in He. congruence.
Qed.

(** ** Ownership: the objects a method call may touch *)

Lemma grows_refl P σ : grows P σ σ.
Proof. split; auto. Qed.

Lemma grows_trans P σ1 σ2 σ3 : grows P σ1 σ2 -> grows P σ2 σ3 -> grows P σ1 σ3.
Proof.
  intros (K1 & M1) (K2 & M2). split.
  - intros l Hl. rewrite (K2 l Hl). apply K1, Hl.
  - auto.
Qed.

Lemma owned_grows P σ σ' k l : grows P σ σ' -> owned P σ k l -> owned P σ' k l.
Proof. intros (_ & Hm) (Hl & Hk). split; auto. Qed.

Lemma Forall_owned_grows P σ σ' k ls :
  grows P σ σ' -> Forall (owned P σ k) ls -> Forall (owned P σ' k) ls.
Proof.
  intros Hg Hls. eapply Forall_impl; [exact Hls|]. intros l. apply owned_grows, Hg.
Qed.

Lemma wf_obj_grows P σ σ' o : grows P σ σ' -> wf_obj P σ o -> wf_obj P σ' o.
Proof.
  intros Hg. destruct o as [g|h|e|ls]; cbn; auto.
  - intros (Hh & Ha). split; [|eapply owned_grows; eassumption].
    intros hl Hhl. eapply owned_grows; eauto.
  - apply Forall_owned_grows, Hg.
Qed.

Lemma has_kind_unique σ l k k' : has_kind σ l k -> has_kind σ l k' -> k = k'.
Proof. intros (o & Ho & Hk) (o' & Ho' & Hk'). congruence. Qed.

(** *** The rules *)

Lemma run_weaken {A} P (m : M A) σ (Q Q' : A -> state -> Prop) :
  run P m σ Q -> (forall x σ', Q x σ' -> Q' x σ') -> run P m σ Q'.
Proof.
  intros (Hg & Hgr & HQ) Himp. split; [exact Hg|]. split; [exact Hgr|].
  destruct (fst (m σ)); auto.
Qed.

Lemma run_ret {A} P (x : A) σ (Q : A -> state -> Prop) :
  good P σ -> Q x σ -> run P (ret x) σ Q.
Proof. intros Hg HQ. split; [exact Hg|]. split; [apply grows_refl|exact HQ]. Qed.

Lemma run_throw {A} P e σ (Q : A -> state -> Prop) :
  good P σ -> run P (throw e) σ Q.
Proof. intros Hg. split; [exact Hg|]. split; [apply grows_refl|exact I]. Qed.

Lemma run_lift {A} P (r : result A) σ (Q : A -> state -> Prop) :
  good P σ -> (forall x, r = Ok x -> Q x σ) -> run P (lift r) σ Q.
Proof.
  intros Hg HQ. split; [exact Hg|]. split; [apply grows_refl|].
  cbn. destruct r; auto.
Qed.

Lemma run_bind {A B} P (m : M A) (k : A -> M B) σ
    (Q : A -> state -> Prop) (R : B -> state -> Prop) :
  run P m σ Q ->
  (forall x σ', good P σ' -> grows P σ σ' -> Q x σ' -> run P (k x) σ' R) ->
  run P (bind m k) σ R.
Proof.
  intros (Hg & Hgr & HQ) Hk. unfold run, bind.
  destruct (m σ) as [[x|e] σ'] eqn:Hm; cbn in *.
  - destruct (Hk x σ' Hg Hgr HQ) as (Hg' & Hgr' & HR).
    split; [exact Hg'|]. split; [|exact HR]. eapply grows_trans; eassumption.
  - auto.
Qed.

Lemma run_log P e σ (Q : unit -> state -> Prop) :
  good P σ ->
  (forall σ', good P σ' -> grows P σ σ' -> Q tt σ') ->
  run P (log e) σ Q.
Proof.
  intros Hg HQ.
  assert (Hg' : good P {| heap := heap σ; logged := logged σ ++ [e] |}) by exact Hg.
  assert (Hgr : grows P σ {| heap := heap σ; logged := logged σ ++ [e] |})
    by (split; auto).
  split; [exact Hg'|]. split; [exact Hgr|]. apply HQ; assumption.
Qed.

Lemma run_read_gpt P l σ (Q : GPT_object -> state -> Prop) :
  good P σ -> l ∉ P ->
  (forall g, heap σ !! l = Some (ObjGPT g) ->
             (forall hl, header g = Some hl -> owned P σ KHeader hl) ->
             owned P σ KArray (partEntries g) -> Q g σ) ->
  run P (read_gpt l) σ Q.
Proof.
  intros Hg Hl HQ. unfold run, read_gpt.
  destruct (heap σ !! l) as [[g|h|e|ls]|] eqn:Hc; cbn;
    (split; [exact Hg|]; split; [apply grows_refl|]); auto.
  destruct Hg as (_ & Hwf). destruct (Hwf l _ Hl Hc) as (Hh & Ha). auto.
Qed.

Lemma run_read_array P l σ (Q : list loc -> state -> Prop) :
  good P σ -> l ∉ P ->
  (forall ls, heap σ !! l = Some (ObjArray ls) -> Forall (owned P σ KEntry) ls -> Q ls σ) ->
  run P (read_array l) σ Q.
Proof.
  intros Hg Hl HQ. unfold run, read_array.
  destruct (heap σ !! l) as [[g|h|e|ls]|] eqn:Hc; cbn;
    (split; [exact Hg|]; split; [apply grows_refl|]); auto.
  destruct Hg as (_ & Hwf). apply HQ; [reflexivity|]. exact (Hwf l _ Hl Hc).
Qed.

Lemma run_read_header P l σ (Q : GPTHeader.t -> state -> Prop) :
  good P σ -> (forall h, heap σ !! l = Some (ObjHeader h) -> Q h σ) ->
  run P (read_header l) σ Q.
Proof.
  intros Hg HQ. unfold run, read_header.
  destruct (heap σ !! l) as [[g|h|e|ls]|] eqn:Hc; cbn;
    (split; [exact Hg|]; split; [apply grows_refl|]); auto.
Qed.

Lemma run_read_entry P l σ (Q : GPTPartitionEntry.t -> state -> Prop) :
  good P σ -> (forall e, heap σ !! l = Some (ObjEntry e) -> Q e σ) ->
  run P (read_entry l) σ Q.
Proof.
  intros Hg HQ. unfold run, read_entry.
  destruct (heap σ !! l) as [[g|h|e|ls]|] eqn:Hc; cbn;
    (split; [exact Hg|]; split; [apply grows_refl|]); auto.
Qed.

(** Storing [o] at [l], where [l] is new or holds an object of the kind of
    [o]. *)
Lemma good_insert P σ l o :
  good P σ -> l ∉ P -> wf_obj P σ o ->
  (forall o', heap σ !! l = Some o' -> kind_of o' = kind_of o) ->
  good P (set_heap (<[l := o]> (heap σ)) σ) /\
  grows P σ (set_heap (<[l := o]> (heap σ)) σ) /\
  owned P (set_heap (<[l := o]> (heap σ)) σ) (kind_of o) l.
Proof.
  intros (Hdom & Hwf) Hl Ho Hkind.
  assert (Hgr : grows P σ (set_heap (<[l := o]> (heap σ)) σ)).
  { split.
    - intros l' Hl'. rewrite heap_set_heap. apply lookup_insert_ne. congruence.
    - intros l' k (o' & Ho' & Hk). rewrite <- Hk. unfold has_kind.
      rewrite heap_set_heap. destruct (decide (l = l')) as [->|Hne].
      + exists o. rewrite lookup_insert_eq. split; [reflexivity|].
        symmetry. apply Hkind, Ho'.
      + exists o'. rewrite lookup_insert_ne by exact Hne. auto. }
  split; [|split; [exact Hgr|]].
  - split.
    + intros l' Hl'. rewrite heap_set_heap, lookup_insert_ne by congruence. auto.
    + intros l' o' Hl'. rewrite heap_set_heap. destruct (decide (l = l')) as [->|Hne].
      * rewrite lookup_insert_eq. intros [= <-]. eapply wf_obj_grows; eassumption.
      * rewrite lookup_insert_ne by exact Hne. intros Hc.
        eapply wf_obj_grows; [exact Hgr|]. eapply Hwf; eassumption.
  - split; [exact Hl|]. exists o. rewrite heap_set_heap, lookup_insert_eq. auto.
Qed.

Lemma fresh_loc_protected P σ : good P σ -> fresh_loc (heap σ) ∉ P.
Proof.
  intros (Hdom & _) Hin. apply Hdom in Hin. rewrite fresh_loc_fresh in Hin.
  destruct Hin as (? & [=]).
Qed.

Lemma run_alloc P o σ (Q : loc -> state -> Prop) :
  good P σ -> wf_obj P σ o ->
  (forall σ' l, good P σ' -> grows P σ σ' -> owned P σ' (kind_of o) l -> Q l σ') ->
  run P (alloc o) σ Q.
Proof.
  intros Hg Ho HQ.
  destruct (good_insert P σ (fresh_loc (heap σ)) o Hg (fresh_loc_protected P σ Hg) Ho)
    as (Hg' & Hgr & Hown).
  { intros o'. rewrite fresh_loc_fresh. discriminate. }
  split; [exact Hg'|]. split; [exact Hgr|]. cbn. apply HQ; assumption.
Qed.

Lemma run_write P l o σ (Q : unit -> state -> Prop) :
  good P σ -> owned P σ (kind_of o) l -> wf_obj P σ o ->
  (forall σ', good P σ' -> grows P σ σ' -> Q tt σ') ->
  run P (write l o) σ Q.
Proof.
  intros Hg (Hl & o0 & Hc & Hk) Ho HQ.
  destruct (good_insert P σ l o Hg Hl Ho) as (Hg' & Hgr & _).
  { intros o'. rewrite Hc. intros [= <-]. exact Hk. }
  split; [exact Hg'|]. split; [exact Hgr|]. cbn. apply HQ; assumption.
Qed.

Lemma run_modify_header P l f σ (Q : unit -> state -> Prop) :
  good P σ -> l ∉ P ->
  (forall σ', good P σ' -> grows P σ σ' -> Q tt σ') ->
  run P (modify_header l f) σ Q.
Proof.
  intros Hg Hl HQ. unfold modify_header.
  eapply run_bind with (Q := fun h σ' => σ' = σ /\ heap σ !! l = Some (ObjHeader h)).
  - apply run_read_header; auto.
  - intros h σ' _ _ (-> & Hc). apply run_write; auto.
    + split; [exact Hl|]. exists (ObjHeader h). auto.
    + exact I.
Qed.

Lemma run_modify_entry P l f σ (Q : unit -> state -> Prop) :
  good P σ -> l ∉ P ->
  (forall σ', good P σ' -> grows P σ σ' -> Q tt σ') ->
  run P (modify_entry l f) σ Q.
Proof.
  intros Hg Hl HQ. unfold modify_entry.
  eapply run_bind with (Q := fun e σ' => σ' = σ /\ heap σ !! l = Some (ObjEntry e)).
  - apply run_read_entry; auto.
  - intros e σ' _ _ (-> & Hc). apply run_write; auto.
    + split; [exact Hl|]. exists (ObjEntry e). auto.
    + exact I.
Qed.

Lemma run_array_push P l x σ (Q : unit -> state -> Prop) :
  good P σ -> l ∉ P -> owned P σ KEntry x ->
  (forall σ', good P σ' -> grows P σ σ' -> Q tt σ') ->
  run P (array_push l x) σ Q.
Proof.
  intros Hg Hl Hx HQ. unfold array_push.
  eapply run_bind with
    (Q := fun a σ' => σ' = σ /\ heap σ !! l = Some (ObjArray a) /\
                      Forall (owned P σ KEntry) a).
  - apply run_read_array; auto.
  - intros a σ' _ _ (-> & Hc & Ha). apply run_write; auto.
    + split; [exact Hl|]. exists (ObjArray a). auto.
    + cbn. apply Forall_app. split; [exact Ha|]. constructor; [exact Hx|constructor].
Qed.

Lemma run_for_each {A} P (xs : list A) (body : A -> M unit) σ :
  good P σ ->
  (forall x σ', x ∈ xs -> good P σ' -> grows P σ σ' ->
                run P (body x) σ' (fun _ _ => True)) ->
  run P (for_each xs body) σ (fun _ _ => True).
Proof.
  revert σ. induction xs as [|x r IH]; intros σ Hg Hbody; cbn [for_each].
  - apply run_ret; auto.
  - eapply run_bind.
    + apply Hbody; [left|exact Hg|apply grows_refl].
    + intros _ σ' Hg' Hgr _. apply IH; [exact Hg'|].
      intros y σ'' Hy Hg'' Hgr'. apply Hbody; [right; exact Hy|exact Hg''|].
      eapply grows_trans; eassumption.
Qed.

Lemma run_fold_each {A S} P (xs : list A) (body : S -> A -> M S) (s : S) σ :
  good P σ ->
  (forall s x σ', x ∈ xs -> good P σ' -> grows P σ σ' ->
                  run P (body s x) σ' (fun _ _ => True)) ->
  run P (fold_each xs body s) σ (fun _ _ => True).
Proof.
  revert s σ. induction xs as [|x r IH]; intros s σ Hg Hbody; cbn [fold_each].
  - apply run_ret; auto.
  - eapply run_bind.
    + apply Hbody; [left|exact Hg|apply grows_refl].
    + intros s' σ' Hg' Hgr _. apply IH; [exact Hg'|].
      intros s'' y σ'' Hy Hg'' Hgr'. apply Hbody; [right; exact Hy|exact Hg''|].
      eapply grows_trans; eassumption.
Qed.

Lemma run_map_each {A} P (xs : list A) (f : A -> M loc) k σ :
  good P σ ->
  (forall x σ', x ∈ xs -> good P σ' -> grows P σ σ' ->
                run P (f x) σ' (fun y σ'' => owned P σ'' k y)) ->
  run P (map_each xs f) σ (fun ys σ' => Forall (owned P σ' k) ys).
Proof.
  revert σ. induction xs as [|x r IH]; intros σ Hg Hf; cbn [map_each].
  - apply run_ret; auto.
  - eapply run_bind.
    + apply Hf; [left|exact Hg|apply grows_refl].
    + intros y σ' Hg' Hgr Hy. eapply run_bind.
      * apply IH; [exact Hg'|].
        intros z σ'' Hz Hg'' Hgr'. apply Hf; [right; exact Hz|exact Hg''|].
        eapply grows_trans; eassumption.
      * intros ys σ'' Hg'' Hgr' Hys. apply run_ret; [exact Hg''|].
        constructor; [|exact Hys]. eapply owned_grows; eassumption.
Qed.

Lemma run_map_each_read {A B} P (xs : list A) (f : A -> M B) σ :
  good P σ ->
  (forall x σ', x ∈ xs -> good P σ' -> grows P σ σ' ->
                run P (f x) σ' (fun _ _ => True)) ->
  run P (map_each xs f) σ (fun _ _ => True).
Proof.
  revert σ. induction xs as [|x r IH]; intros σ Hg Hf; cbn [map_each].
  - apply run_ret; auto.
  - eapply run_bind.
    + apply Hf; [left|exact Hg|apply grows_refl].
    + intros y σ' Hg' Hgr _. eapply run_bind.
      * apply IH; [exact Hg'|].
        intros z σ'' Hz Hg'' Hgr'. apply Hf; [right; exact Hz|exact Hg''|].
        eapply grows_trans; eassumption.
      * intros ys σ'' Hg'' _ _. apply run_ret; auto.
Qed.

(** *** The rules, with the strongest postcondition *)

Lemma read_gpt_local P l σ :
  good P σ -> l ∉ P ->
  run P (read_gpt l) σ
    (fun g σ' => heap σ' !! l = Some (ObjGPT g) /\
                 (forall hl, header g = Some hl -> owned P σ' KHeader hl) /\
                 owned P σ' KArray (partEntries g)).
Proof. intros Hg Hl. apply run_read_gpt; auto. Qed.

Lemma read_array_local P l σ :
  good P σ -> l ∉ P ->
  run P (read_array l) σ (fun ls σ' => Forall (owned P σ' KEntry) ls).
Proof. intros Hg Hl. apply run_read_array; auto. Qed.

Lemma read_header_local P l σ :
  good P σ -> run P (read_header l) σ (fun _ _ => True).
Proof. intros Hg. apply run_read_header; auto. Qed.

Lemma read_entry_local P l σ :
  good P σ -> run P (read_entry l) σ (fun _ _ => True).
Proof. intros Hg. apply run_read_entry; auto. Qed.

Lemma alloc_local P o σ :
  good P σ -> wf_obj P σ o ->
  run P (alloc o) σ (fun l σ' => owned P σ' (kind_of o) l).
Proof. intros Hg Ho. apply run_alloc; auto. Qed.

Lemma write_local P l o σ :
  good P σ -> owned P σ (kind_of o) l -> wf_obj P σ o ->
  run P (write l o) σ (fun _ _ => True).
Proof. intros Hg Hl Ho. apply run_write; auto. Qed.

Lemma log_local P e σ : good P σ -> run P (log e) σ (fun _ _ => True).
Proof. intros Hg. apply run_log; auto. Qed.

Lemma lift_local {A} P (r : result A) σ : good P σ -> run P (lift r) σ (fun _ _ => True).
Proof. intros Hg. apply run_lift; auto. Qed.

Lemma modify_header_local P l f σ :
  good P σ -> l ∉ P -> run P (modify_header l f) σ (fun _ _ => True).
Proof. intros Hg Hl. apply run_modify_header; auto. Qed.

Lemma modify_entry_local P l f σ :
  good P σ -> l ∉ P -> run P (modify_entry l f) σ (fun _ _ => True).
Proof. intros Hg Hl. apply run_modify_entry; auto. Qed.

Lemma array_push_local P l x σ :
  good P σ -> l ∉ P -> owned P σ KEntry x ->
  run P (array_push l x) σ (fun _ _ => True).
Proof. intros Hg Hl Hx. apply run_array_push; auto. Qed.

(** One statement of a method body: the rule for it, then the rest of the
    body from the store it leaves, to which what is known of the owned
    objects is carried over. *)
Ltac forget_post :=
  eapply run_weaken; [|intros; exact I].

Ltac transport :=
  repeat match goal with
  | Hgr : grows ?P ?σ ?σ', H : owned ?P ?σ _ _ |- _ =>
      apply (owned_grows P σ σ' _ _ Hgr) in H
  | Hgr : grows ?P ?σ ?σ', H : Forall (owned ?P ?σ _) _ |- _ =>
      apply (Forall_owned_grows P σ σ' _ _ Hgr) in H
  end.

Tactic Notation "next" tactic3(rule) "as" simple_intropattern(x) simple_intropattern(H) :=
  eapply run_bind; [rule|cbv beta; intros x ?σ ?Hg ?Hgr H; transport].

Tactic Notation "next" tactic3(rule) :=
  eapply run_bind; [rule|cbv beta; intros ? ?σ ?Hg ?Hgr _; transport].

(** *** The struct views *)

Lemma GPTHeader_from_local P data σ :
  good P σ -> run P (GPTHeader_from data) σ (fun l σ' => owned P σ' KHeader l).
Proof.
  intros Hg. unfold GPTHeader_from. destruct (_ <? _)%nat.
  - apply run_throw, Hg.
  - apply (alloc_local P (ObjHeader _)); [exact Hg|exact I].
Qed.

Lemma GPTPartitionEntry_from_local P data σ :
  good P σ -> run P (GPTPartitionEntry_from data) σ (fun l σ' => owned P σ' KEntry l).
Proof.
  intros Hg. unfold GPTPartitionEntry_from. destruct (_ <? _)%nat.
  - apply run_throw, Hg.
  - apply (alloc_local P (ObjEntry _)); [exact Hg|exact I].
Qed.

Lemma header_clone_local P l σ :
  good P σ -> run P (header_clone l) σ (fun l' σ' => owned P σ' KHeader l').
Proof.
  intros Hg. unfold header_clone. next (apply read_header_local, Hg).
  apply (alloc_local P (ObjHeader _)); [assumption|exact I].
Qed.

Lemma entry_clone_local P l σ :
  good P σ -> run P (entry_clone l) σ (fun l' σ' => owned P σ' KEntry l').
Proof.
  intros Hg. unfold entry_clone. next (apply read_entry_local, Hg).
  apply (alloc_local P (ObjEntry _)); [assumption|exact I].
Qed.

(** *** The methods of [GPT] *)

Ltac read_this := apply read_gpt_local; assumption.

Lemma new_local P sectorSize σ :
  good P σ -> run P (GPT.new sectorSize) σ (fun l σ' => owned P σ' KGPT l).
Proof.
  intros Hg. unfold GPT.new.
  next (apply (alloc_local P (ObjArray [])); [exact Hg|constructor]) as a Ha.
  apply (alloc_local P (ObjGPT _)); [assumption|].
  split; [discriminate|assumption].
Qed.

Lemma header_ref_local P this σ :
  good P σ -> this ∉ P ->
  run P (GPT.header_ref this) σ (fun hl σ' => owned P σ' KHeader hl).
Proof.
  intros Hg Hthis. unfold GPT.header_ref.
  next read_this as g (_ & Hh & _).
  destruct (header g) as [hl|].
  - apply run_ret; auto.
  - apply run_throw; assumption.
Qed.

Lemma header_field_local {A} P this (field : GPTHeader.t -> A) σ :
  good P σ -> this ∉ P -> run P (GPT.header_field this field) σ (fun _ _ => True).
Proof.
  intros Hg Hthis. unfold GPT.header_field.
  next (apply header_ref_local; assumption).
  next (apply read_header_local; assumption).
  apply run_ret; auto.
Qed.

Lemma set_header_field_local P this f σ :
  good P σ -> this ∉ P -> run P (GPT.set_header_field this f) σ (fun _ _ => True).
Proof.
  intros Hg Hthis. unfold GPT.set_header_field.
  next (apply header_ref_local; assumption) as hl (Hl & _).
  apply modify_header_local; assumption.
Qed.

Lemma header_toBuffer_local P this σ :
  good P σ -> this ∉ P -> run P (GPT.header_toBuffer this) σ (fun _ _ => True).
Proof. intros. apply header_field_local; assumption. Qed.

Ltac easy_step := first
  [ apply header_field_local; assumption
  | apply set_header_field_local; assumption
  | apply header_toBuffer_local; assumption
  | apply log_local; assumption
  | apply lift_local; assumption ].

Ltac finish := first
  [ apply run_ret; [assumption|exact I]
  | apply run_throw; assumption
  | forget_post; easy_step
  | easy_step ].

Ltac branch := instantiate (1 := fun _ _ => True); destruct (negb _); finish.

Lemma partEntriesSectors_local P this σ :
  good P σ -> this ∉ P -> run P (GPT.partEntriesSectors this) σ (fun _ _ => True).
Proof.
  intros Hg Hthis.
  unfold GPT.partEntriesSectors, GPT.numPartEntries, GPT.partEntrySize.
  next easy_step. next easy_step. next read_this. finish.
Qed.

Lemma parseHeader_local P this data actualLba σ :
  good P σ -> this ∉ P ->
  run P (GPT.parseHeader this data actualLba) σ (fun _ _ => True).
Proof.
  intros Hg Hthis. unfold GPT.parseHeader.
  next (apply GPTHeader_from_local; assumption) as hl Hhl.
  next read_this as g (Hc & Hh & Ha).
  next (apply write_local; [assumption| |]).
  { split; [exact Hthis|]. exists (ObjGPT g). auto. }
  { split; [|exact Ha]. intros ? [= <-]. exact Hhl. }
  next easy_step. destruct (negb _); [next easy_step; finish|].
  next easy_step. destruct (negb _); [next easy_step; finish|].
  next easy_step. next read_this.
  destruct (_ || _); [next easy_step; finish|].
  next easy_step. next branch.
  next easy_step. next easy_step. next easy_step. next easy_step. next easy_step. next branch.
  next easy_step. finish.
Qed.

Lemma partEntry_at_local P this i σ :
  good P σ -> this ∉ P ->
  run P (GPT.partEntry_at this i) σ (fun l σ' => l ∉ P).
Proof.
  intros Hg Hthis. unfold GPT.partEntry_at.
  next read_this as g (_ & _ & Ha & _).
  next (apply read_array_local; assumption) as a Hall.
  destruct (a !! Z.to_nat i) as [l|] eqn:Hl.
  - apply run_ret; [assumption|].
    rewrite Forall_forall in Hall. apply (Hall l). eapply list_elem_of_lookup_2, Hl.
  - apply run_throw; assumption.
Qed.

Lemma buildPartEntries_local P this σ :
  good P σ -> this ∉ P -> run P (GPT.buildPartEntries this) σ (fun _ _ => True).
Proof.
  intros Hg Hthis. unfold GPT.buildPartEntries, GPT.numPartEntries, GPT.partEntrySize.
  next easy_step. next easy_step. next easy_step. next easy_step.
  apply run_fold_each; [assumption|]. intros s i σ' _ Hg' _.
  next (apply partEntry_at_local; assumption).
  next (apply read_entry_local; assumption).
  next easy_step. finish.
Qed.

Lemma parsePartEntries_local P this data σ :
  good P σ -> this ∉ P -> run P (GPT.parsePartEntries this data) σ (fun _ _ => True).
Proof.
  intros Hg Hthis. unfold GPT.parsePartEntries.
  next easy_step. next easy_step.
  next (apply run_for_each; [assumption|]).
  { intros i σ' _ Hg' _. cbv zeta.
    next (apply GPTPartitionEntry_from_local; assumption) as l Hl.
    next read_this as g (_ & _ & Ha & _).
    apply array_push_local; assumption. }
  next (apply buildPartEntries_local; assumption).
  next easy_step. next branch. next easy_step. finish.
Qed.

Lemma buildHeader_local P this partEntries σ :
  good P σ -> this ∉ P -> run P (GPT.buildHeader this partEntries) σ (fun _ _ => True).
Proof.
  intros Hg Hthis. unfold GPT.buildHeader.
  next (instantiate (1 := fun _ _ => True); destruct partEntries;
        [finish|apply buildPartEntries_local; assumption]).
  next easy_step. next easy_step. destruct (_ =? _); [finish|].
  next easy_step. next easy_step. next easy_step. next easy_step.
  next easy_step. next easy_step. next easy_step.
  destruct (_ =? _); finish.
Qed.

Lemma entries_local P this σ :
  good P σ -> this ∉ P -> run P (GPT.entries this) σ (fun _ _ => True).
Proof.
  intros Hg Hthis. unfold GPT.entries.
  next read_this as g (_ & _ & Ha & _).
  next (apply read_array_local; assumption).
  apply run_map_each_read; [assumption|].
  intros l σ' _ Hg' _. apply read_entry_local; assumption.
Qed.

Lemma getPartitions_local P this σ :
  good P σ -> this ∉ P -> run P (GPT.getPartitions this) σ (fun _ _ => True).
Proof.
  intros Hg Hthis. unfold GPT.getPartitions.
  next (apply entries_local; assumption). finish.
Qed.

Lemma locatePartition_local P this name σ :
  good P σ -> this ∉ P -> run P (GPT.locatePartition this name) σ (fun _ _ => True).
Proof.
  intros Hg Hthis. unfold GPT.locatePartition.
  next (apply getPartitions_local; assumption). finish.
Qed.

Lemma getPartitionsInfo_local P this σ :
  good P σ -> this ∉ P -> run P (GPT.getPartitionsInfo this) σ (fun _ _ => True).
Proof.
  intros Hg Hthis. unfold GPT.getPartitionsInfo.
  next read_this as g (_ & _ & Ha & _).
  next (apply read_array_local; assumption).
  apply run_fold_each; [assumption|].
  intros [partitions slots] l σ' _ Hg' _. unfold GPT.getPartitionsInfo_entry.
  next (apply read_entry_local; assumption).
  destruct (js_eqb _ _); finish.
Qed.

Lemma assign_sectorSize_local P this sectorSize σ :
  good P σ -> this ∉ P ->
  run P (GPT.assign_sectorSize this sectorSize) σ (fun _ _ => True).
Proof.
  intros Hg Hthis. unfold GPT.assign_sectorSize.
  next read_this as g (Hc & Hh & Ha).
  apply write_local; [assumption| |].
  - split; [exact Hthis|]. exists (ObjGPT g). auto.
  - split; [exact Hh|exact Ha].
Qed.

Lemma getActiveSlot_local P this σ :
  good P σ -> this ∉ P -> run P (GPT.getActiveSlot this) σ (fun _ _ => True).
Proof.
  intros Hg Hthis. unfold GPT.getActiveSlot.
  next read_this as g (_ & _ & Ha & _).
  next (apply read_array_local; assumption).
  next (apply run_fold_each; [assumption|]).
  { intros [bestSlot bestPriority] l σ' _ Hg' _. unfold GPT.getActiveSlot_entry.
    next (apply read_entry_local; assumption).
    repeat first [finish | match goal with |- context [if ?b then _ else _] => destruct b end]. }
  finish.
Qed.

Lemma setActiveSlot_local P this slot σ :
  good P σ -> this ∉ P -> run P (GPT.setActiveSlot this slot) σ (fun _ _ => True).
Proof.
  intros Hg Hthis. unfold GPT.setActiveSlot.
  destruct (_ && _); [finish|].
  next read_this as g (_ & _ & Ha & _).
  next (apply read_array_local; assumption) as a Hall.
  apply run_for_each; [assumption|].
  intros l σ' Hl Hg' _. rewrite Forall_forall in Hall. destruct (Hall l Hl) as (Hl' & _).
  unfold GPT.setActiveSlot_entry.
  next (apply read_entry_local; assumption). cbv zeta.
  repeat first
    [ finish
    | apply modify_entry_local; assumption
    | match goal with |- run _ (if ?b then _ else _) _ _ => destruct b end ].
Qed.

Lemma asAlternate_local P this σ :
  good P σ -> this ∉ P -> run P (GPT.asAlternate this) σ (fun _ _ => True).
Proof.
  intros Hg Hthis. unfold GPT.asAlternate.
  next (apply header_ref_local; assumption).
  next (apply header_clone_local; assumption) as alternate Halt.
  pose proof Halt as (Halt' & _).
  next easy_step. next (apply modify_header_local; assumption).
  next easy_step. next (apply modify_header_local; assumption).
  next easy_step. next (apply partEntriesSectors_local; assumption) as sectors _.
  next (instantiate (1 := fun _ _ => True); unfold BigInt; destruct sectors; finish).
  next (apply modify_header_local; assumption).
  next read_this.
  next (apply new_local; assumption) as gpt (Hgpt & _).
  next (apply read_gpt_local; assumption) as g' (Hc & Hh & Ha).
  next (apply write_local; [assumption| |]).
  { split; [exact Hgpt|]. exists (ObjGPT g'). auto. }
  { split; [|exact Ha]. intros ? [= <-]. exact Halt. }
  next read_this as g (_ & _ & Harr & _).
  next (apply read_array_local; assumption).
  next (apply (run_map_each P _ entry_clone KEntry); [assumption|]) as clones Hclones.
  { intros l σ' _ Hg' _. apply entry_clone_local; assumption. }
  next (apply (alloc_local P (ObjArray clones)); assumption) as a' Ha'.
  next (apply read_gpt_local; assumption) as g'' (Hc' & Hh' & _).
  next (apply write_local; [assumption| |]).
  { split; [exact Hgpt|]. exists (ObjGPT g''). auto. }
  { split; [exact Hh'|exact Ha']. }
  finish.
Qed.

(** ** Two instances that share nothing *)

Lemma after_local P c this σ :
  good P σ -> this ∉ P -> good P (after c this σ) /\ grows P σ (after c this σ).
Proof.
  intros Hg Hthis.
  assert (Hrun : forall A (m : M A), run P m σ (fun _ _ => True) ->
                   good P (snd (m σ)) /\ grows P σ (snd (m σ))).
  { intros A m (H1 & H2 & _). auto. }
  destruct c; cbn [after]; apply Hrun.
  - apply assign_sectorSize_local; assumption.
  - apply header_field_local; assumption.
  - apply partEntriesSectors_local; assumption.
  - apply parseHeader_local; assumption.
  - apply parsePartEntries_local; assumption.
  - apply buildPartEntries_local; assumption.
  - apply buildHeader_local; assumption.
  - apply asAlternate_local; assumption.
  - apply getPartitions_local; assumption.
  - apply locatePartition_local; assumption.
  - apply getPartitionsInfo_local; assumption.
  - apply getActiveSlot_local; assumption.
  - apply setActiveSlot_local; assumption.
Qed.

Lemma footprint_unfold σ this g a :
  gpt_at (heap σ) this = Some g ->
  array_at (heap σ) (partEntries g) = Some a ->
  footprint σ this =
    {[this]} ∪ {[partEntries g]} ∪
    match header g with Some hl => {[hl]} | None => ∅ end ∪ list_to_set a.
Proof. intros Hg Ha. unfold footprint. rewrite Hg, Ha. reflexivity. Qed.

(** The objects of an instance, one by one. *)
Lemma footprint_cases σ this v l :
  snapshot σ this = Some v -> l ∈ footprint σ this ->
  exists g a,
    heap σ !! this = Some (ObjGPT g) /\
    heap σ !! partEntries g = Some (ObjArray a) /\
    (l = this \/ l = partEntries g \/
     (header g = Some l /\ exists h, heap σ !! l = Some (ObjHeader h)) \/
     (l ∈ a /\ exists e, heap σ !! l = Some (ObjEntry e))).
Proof.
  intros Hsnap Hl. apply snapshot_Some in Hsnap.
  destruct Hsnap as (g & a & Hg & Ha & Hes & _ & Hh).
  rewrite (footprint_unfold _ _ _ _ Hg Ha) in Hl.
  exists g, a. apply gpt_at_Some in Hg. apply array_at_Some in Ha.
  split; [exact Hg|]. split; [exact Ha|].
  rewrite !elem_of_union, !elem_of_singleton in Hl.
  destruct Hl as [[[Hl|Hl]|Hl]|Hl]; auto.
  - destruct (header g) as [hl|]; [|set_solver].
    apply elem_of_singleton in Hl. subst l.
    destruct Hh as (h & Hhl & _). apply header_at_Some in Hhl. eauto 10.
  - apply elem_of_list_to_set in Hl.
    destruct (entries_at_exists _ _ _ _ Hes Hl) as (e & He). eauto 10.
Qed.

Lemma footprint_dom σ this v :
  snapshot σ this = Some v -> footprint σ this ⊆ dom (heap σ).
Proof.
  intros Hsnap l Hl. apply elem_of_dom.
  destruct (footprint_cases _ _ _ _ Hsnap Hl)
    as (g & a & Hg & Ha & [->|[->|[(_ & h & Hh)|(_ & e & He)]]]); eauto.
Qed.

Lemma footprint_self σ this v : snapshot σ this = Some v -> this ∈ footprint σ this.
Proof.
  intros Hsnap. apply snapshot_Some in Hsnap.
  destruct Hsnap as (g & a & Hg & Ha & _).
  rewrite (footprint_unfold _ _ _ _ Hg Ha). set_solver.
Qed.

(** An instance is good company for itself: everything else is protected. *)
Lemma good_footprint σ this v :
  snapshot σ this = Some v -> good (dom (heap σ) ∖ footprint σ this) σ.
Proof.
  intros Hsnap. pose proof Hsnap as Hsnap'. apply snapshot_Some in Hsnap'.
  destruct Hsnap' as (g & a & Hg & Ha & Hes & _ & Hh).
  pose proof (footprint_unfold _ _ _ _ Hg Ha) as HF.
  apply gpt_at_Some in Hg. apply array_at_Some in Ha.
  assert (Hin : forall l, l ∈ footprint σ this -> l ∉ dom (heap σ) ∖ footprint σ this)
    by set_solver.
  split.
  - intros l Hl. apply elem_of_dom. set_solver.
  - intros l o Hl Hc.
    assert (HlF : l ∈ footprint σ this).
    { apply not_elem_of_difference in Hl. destruct Hl as [Hl|Hl]; [|exact Hl].
      exfalso. apply Hl, elem_of_dom. eauto. }
    destruct (footprint_cases _ _ _ _ Hsnap HlF)
      as (g' & a' & Hg' & Ha' & Hcases).
    assert (g' = g) by congruence. subst g'.
    assert (a' = a) by congruence. subst a'.
    destruct Hcases as [->|[->|[(_ & h & Hc')|(_ & e & Hc')]]].
    + assert (o = ObjGPT g) by congruence. subst o. split.
      * intros hl Hhl. rewrite Hhl in Hh. destruct Hh as (h & Hhl' & _).
        apply header_at_Some in Hhl'. split.
        -- apply Hin. rewrite HF, Hhl. set_solver.
        -- exists (ObjHeader h). auto.
      * split; [apply Hin; rewrite HF; set_solver|]. exists (ObjArray a). auto.
    + assert (o = ObjArray a) by congruence. subst o. cbn.
      apply Forall_forall. intros x Hx. split.
      * apply Hin. rewrite HF. set_solver.
      * destruct (entries_at_exists _ _ _ _ Hes Hx) as (e & He).
        exists (ObjEntry e). auto.
    + assert (o = ObjHeader h) by congruence. subst o. exact I.
    + assert (o = ObjEntry e) by congruence. subst o. exact I.
Qed.

Lemma entries_at_owned P σ ls :
  Forall (owned P σ KEntry) ls -> is_Some (entries_at (heap σ) ls).
Proof.
  induction 1 as [|l r (_ & o & Hc & Hk) _ IH]; cbn [entries_at]; [eauto|].
  destruct o; try discriminate. unfold entry_at. rewrite Hc.
  destruct IH as (es & ->). eauto.
Qed.

(** An owned [GPT] object is whole, and owns nothing protected. *)
Lemma snapshot_owned P σ this :
  good P σ -> owned P σ KGPT this ->
  is_Some (snapshot σ this) /\ footprint σ this ## P.
Proof.
  intros (_ & Hwf) (Hthis & o & Hc & Hk). destruct o as [g| | |]; try discriminate.
  destruct (Hwf _ _ Hthis Hc) as (Hh & Harr & oa & Ha & Hka).
  destruct oa as [| | |a]; try discriminate.
  pose proof (Hwf _ _ Harr Ha) as Hall. cbn in Hall.
  destruct (entries_at_owned _ _ _ Hall) as (es & Hes).
  assert (Hg' : gpt_at (heap σ) this = Some g) by (apply gpt_at_Some; exact Hc).
  assert (Ha' : array_at (heap σ) (partEntries g) = Some a)
    by (apply array_at_Some; exact Ha).
  split.
  - unfold snapshot. rewrite Hg', Ha', Hes.
    destruct (header g) as [hl|] eqn:Hhl; [|eauto].
    destruct (Hh hl eq_refl) as (_ & oh & Hoh & Hkh).
    destruct oh; try discriminate. unfold header_at. rewrite Hoh. cbn. eauto.
  - rewrite (footprint_unfold _ _ _ _ Hg' Ha').
    assert (Hls : list_to_set a ## P).
    { intros l Hl HP. apply elem_of_list_to_set in Hl.
      rewrite Forall_forall in Hall. destruct (Hall l Hl) as (Hn & _). auto. }
    destruct (header g) as [hl|] eqn:Hhl.
    + destruct (Hh hl eq_refl) as (Hn & _). set_solver.
    + set_solver.
Qed.

(** The value of an instance is read from its own objects only. *)
Lemma snapshot_frame σ σ' this v :
  snapshot σ this = Some v ->
  (forall l, l ∈ footprint σ this -> heap σ' !! l = heap σ !! l) ->
  snapshot σ' this = Some v /\ footprint σ' this = footprint σ this.
Proof.
  intros Hsnap Hsame. pose proof Hsnap as Hsnap'. apply snapshot_Some in Hsnap'.
  destruct Hsnap' as (g & a & Hg & Ha & Hes & Hss & Hh).
  pose proof (footprint_unfold _ _ _ _ Hg Ha) as HF.
  assert (Hg' : gpt_at (heap σ') this = Some g).
  { unfold gpt_at. rewrite Hsame by (rewrite HF; set_solver). exact Hg. }
  assert (Ha' : array_at (heap σ') (partEntries g) = Some a).
  { unfold array_at. rewrite Hsame by (rewrite HF; set_solver). exact Ha. }
  split.
  - apply snapshot_Some. exists g, a. split; [exact Hg'|]. split; [exact Ha'|].
    split; [|split; [exact Hss|]].
    + rewrite <- Hes. apply entries_at_frame. intros l Hl. apply Hsame.
      rewrite HF. set_solver.
    + destruct (header g) as [hl|] eqn:Hhl; [|exact Hh].
      destruct Hh as (h & Hhl' & Hv). exists h. split; [|exact Hv].
      unfold header_at. rewrite Hsame by (rewrite HF; set_solver). exact Hhl'.
  - rewrite (footprint_unfold _ _ _ _ Hg' Ha'). symmetry. exact HF.
Qed.

Lemma snapshot_extends σ σ' this v :
  snapshot σ this = Some v -> extends σ σ' ->
  snapshot σ' this = Some v /\ footprint σ' this = footprint σ this.
Proof.
  intros Hsnap (_ & Hext). apply snapshot_frame; [exact Hsnap|].
  intros l Hl. apply (footprint_dom _ _ _ Hsnap), elem_of_dom in Hl.
  destruct Hl as (o & Ho). rewrite Ho. apply Hext, Ho.
Qed.

(** A call on one of two separated instances leaves the other as it was,
    and the two separated. *)
Lemma separated_step σ a b c :
  separated σ a b ->
  separated (after c a σ) a b /\ snapshot (after c a σ) b = snapshot σ b.
Proof.
  intros ((va & Ha) & (vb & Hb) & Hdisj).
  set (P := dom (heap σ) ∖ footprint σ a).
  pose proof (good_footprint _ _ _ Ha) as Hgood. fold P in Hgood.
  pose proof (footprint_self _ _ _ Ha) as Hself.
  assert (HaP : a ∉ P) by (subst P; set_solver).
  destruct (after_local P c a σ Hgood HaP) as (Hgood' & Hgrows).
  set (σ' := after c a σ) in *.
  assert (Hkind : has_kind σ' a KGPT).
  { destruct Hgrows as (_ & Hk). apply Hk.
    apply snapshot_Some in Ha. destruct Ha as (g & ? & Hg & _).
    apply gpt_at_Some in Hg. exists (ObjGPT g). auto. }
  destruct (snapshot_owned P σ' a Hgood' (conj HaP Hkind)) as (Ha' & Hdisj').
  assert (HbP : footprint σ b ⊆ P).
  { pose proof (footprint_dom _ _ _ Hb). subst P. set_solver. }
  destruct (snapshot_frame σ σ' b vb Hb) as (Hb' & HFb).
  { intros l Hl. destruct Hgrows as (Hkeep & _). apply Hkeep, HbP, Hl. }
  split; [|congruence].
  split; [exact Ha'|]. split; [eauto|]. rewrite HFb. set_solver.
Qed.

Lemma separated_sym σ a b : separated σ a b -> separated σ b a.
Proof. intros (Ha & Hb & Hd). split; [exact Hb|]. split; [exact Ha|]. set_solver. Qed.

Lemma separated_after_all cs σ a b :
  separated σ a b -> separated (after_all cs a b σ) a b.
Proof.
  revert σ. induction cs as [|[[|] c] r IH]; intros σ Hsep; cbn [after_all].
  - exact Hsep.
  - apply IH. apply (separated_step σ a b c Hsep).
  - apply IH. apply separated_sym. apply (separated_step σ b a c).
    apply separated_sym, Hsep.
Qed.

(** ** Parsed instances *)

Lemma header_verdict_accepts sectorSize h actualLba r :
  fst (header_verdict sectorSize h actualLba) = Some r ->
  92 <= GPTHeader.headerSize h <= sectorSize.
Proof.
  unfold header_verdict.
  destruct (negb (js_eqb _ _)); [discriminate|].
  destruct (negb (_ =? _)); [discriminate|].
  destruct (Z.ltb_spec (GPTHeader.headerSize h) 92);
    destruct (Z.ltb_spec sectorSize (GPTHeader.headerSize h)); cbn; try discriminate.
  intros _. lia.
Qed.

Lemma canonical_entries_length_bound h es bytes :
  canonical_entries h es = Ok bytes ->
  0 <= GPTHeader.numPartEntries h * GPTHeader.partEntrySize h <= MAX_SAFE_INTEGER.
Proof.
  unfold canonical_entries, new_Uint8Array.
  destruct (Z.ltb_spec (GPTHeader.numPartEntries h * GPTHeader.partEntrySize h) 0);
    destruct (Z.ltb_spec MAX_SAFE_INTEGER
                (GPTHeader.numPartEntries h * GPTHeader.partEntrySize h));
    cbn; try discriminate.
  intros _. lia.
Qed.

Lemma snapshot_header_installed σ this v g h :
  snapshot σ this = Some v ->
  heap σ !! this = Some (ObjGPT g) ->
  snapshot (set_heap (header_installed σ this g h) σ) this = Some (with_header (Some h) v).
Proof.
  intros Hsnap Hthis. pose proof Hsnap as Hsnap'. apply snapshot_Some in Hsnap'.
  destruct Hsnap' as (g' & a & Hg & Ha & Hes & Hss & _).
  apply gpt_at_Some in Hg. assert (g' = g) by congruence. subst g'.
  set (hl := fresh_loc (heap σ)).
  assert (Hfresh : heap σ !! hl = None) by apply fresh_loc_fresh.
  assert (Hne : hl <> this) by congruence.
  apply array_at_Some in Ha.
  assert (Hna : hl <> partEntries g) by congruence.
  assert (Hnt : this <> partEntries g) by congruence.
  apply snapshot_Some. exists (set_header (Some hl) g), a.
  unfold header_installed. fold hl. rewrite heap_set_heap.
  split.
  { apply gpt_at_Some. rewrite lookup_insert_ne by exact Hne. apply lookup_insert_eq. }
  split.
  { apply array_at_Some. cbn [set_header partEntries].
    rewrite !lookup_insert_ne by assumption. exact Ha. }
  split.
  { cbn [with_header value_entries]. rewrite <- Hes. apply entries_at_frame.
    intros l Hl. destruct (entries_at_exists _ _ _ _ Hes Hl) as (e & He).
    rewrite !lookup_insert_ne by congruence. reflexivity. }
  split; [exact Hss|].
  cbn [set_header header]. exists h. split; [|reflexivity].
  apply header_at_Some. apply lookup_insert_eq.
Qed.

(** Parsing a header, then entries, both with success, leaves a parsed
    instance. *)
Lemma parsing_leaves_parsed σ this v0 header_data actualLba r0 σ1 data r σ2 :
  snapshot σ this = Some v0 ->
  GPT.parseHeader this header_data actualLba σ = (Ok (Some r0), σ1) ->
  GPT.parsePartEntries this data σ1 = (Ok r, σ2) ->
  exists v h, snapshot σ2 this = Some v /\ parsed v h.
Proof.
  intros Hsnap Hhdr Hent.
  pose proof Hsnap as Hsnap'. apply snapshot_Some in Hsnap'.
  destruct Hsnap' as (g & a & Hg & _ & _ & Hss & _). apply gpt_at_Some in Hg.
  destruct (Nat.ltb_spec (length header_data) GPTHeader.size) as [Hshort|Hlen].
  { exfalso. revert Hhdr. unfold GPT.parseHeader, GPTHeader_from, bind.
    destruct (Nat.ltb_spec (length header_data) GPTHeader.size) as [_|?]; [|lia].
    discriminate. }
  rewrite (parseHeader_run σ this g header_data actualLba Hg Hlen) in Hhdr.
  cbv zeta in Hhdr. set (h := GPTHeader.decode header_data) in *.
  injection Hhdr as Hverdict Hσ1.
  apply header_verdict_accepts in Hverdict.
  assert (Hsnap1 : snapshot σ1 this = Some (with_header (Some h) v0)).
  { rewrite <- Hσ1. rewrite <- (snapshot_header_installed σ this v0 g h Hsnap Hg).
    reflexivity. }
  destruct (parsePartEntries_value σ1 this _ h data Hsnap1 eq_refl)
    as (r' & σ' & des & Hrun & Hsnap2 & Hres).
  rewrite Hent in Hrun. injection Hrun as <- <-.
  eexists _, h. split; [exact Hsnap2|].
  split; [reflexivity|]. split.
  { cbn [with_entries with_header value_sectorSize]. rewrite Hss. exact Hverdict. }
  destruct (decode_entries h data) as [all|]; [|destruct Hres; discriminate].
  destruct Hres as (_ & Hr & _). unfold entries_verdict in Hr.
  destruct (canonical_entries h _) as [bytes|e] eqn:Hcanon; [|discriminate].
  eapply canonical_entries_length_bound, Hcanon.
Qed.

Lemma ceil_quotient_spec x d :
  0 < d ->
  (- ((- x) / d) - 1) * d < x <= - ((- x) / d) * d.
Proof.
  intros Hd. pose proof (Z.div_mod (- x) d ltac:(lia)) as Hdm.
  pose proof (Z.mod_pos_bound (- x) d Hd) as Hb. nia.
Qed.

(** ** [asAlternate]: an independent copy *)

(** C8, as the code has it. For every parsed GPT, [asAlternate()] returns a
    new GPT whose current LBA is the original's alternate LBA, whose
    alternate LBA is the original's current LBA, and whose partition-entries
    start LBA is the low 64 bits of the original alternate LBA minus [k],
    the least integer with [numPartEntries * partEntrySize <= k * sectorSize]:
    for LBAs within 64 bits, as every decoded one is, that is the
    difference itself when the alternate LBA is at least [k], and the
    difference plus [2^64] when it is less. Every other header
    field, the two checksums among them, is copied as it is. The entries of
    the new GPT have the field values of the original's, in the same order,
    and every object of the new GPT is new. Every object that existed keeps
    its content, so the original has the value it had. From then on,
    whatever calls are made on the two, in whatever order, a call on one
    leaves the value of the other as it is. *)
Theorem asAlternate_independent_copy σ this v h :
  snapshot σ this = Some v ->
  parsed v h ->
  exists alt σ' h' k,
    GPT.asAlternate this σ = (Ok alt, σ') /\
    heap σ !! alt = None /\
    snapshot σ' alt =
      Some {| value_sectorSize := value_sectorSize v;
              value_header := Some h';
              value_entries := value_entries v |} /\
    GPTHeader.currentLba h' = asUint64 (GPTHeader.alternateLba h) /\
    GPTHeader.alternateLba h' = asUint64 (GPTHeader.currentLba h) /\
    GPTHeader.partEntriesStartLba h' = asUint64 (GPTHeader.alternateLba h - k) /\
    (k - 1) * value_sectorSize v
      < GPTHeader.numPartEntries h * GPTHeader.partEntrySize h
      <= k * value_sectorSize v /\
    (0 <= GPTHeader.currentLba h < 2 ^ 64 ->
     0 <= GPTHeader.alternateLba h < 2 ^ 64 ->
     GPTHeader.currentLba h' = GPTHeader.alternateLba h /\
     GPTHeader.alternateLba h' = GPTHeader.currentLba h /\
     GPTHeader.partEntriesStartLba h' =
       if k <=? GPTHeader.alternateLba h
       then GPTHeader.alternateLba h - k
       else GPTHeader.alternateLba h - k + 2 ^ 64) /\
    GPTHeader.headerCrc32 h' = GPTHeader.headerCrc32 h /\
    GPTHeader.partEntriesCrc32 h' = GPTHeader.partEntriesCrc32 h /\
    (GPTHeader.signature h', GPTHeader.revision h', GPTHeader.headerSize h',
     GPTHeader.reserved h', GPTHeader.firstUsableLba h', GPTHeader.lastUsableLba h',
     GPTHeader.diskGuid h', GPTHeader.numPartEntries h', GPTHeader.partEntrySize h') =
    (GPTHeader.signature h, GPTHeader.revision h, GPTHeader.headerSize h,
     GPTHeader.reserved h, GPTHeader.firstUsableLba h, GPTHeader.lastUsableLba h,
     GPTHeader.diskGuid h, GPTHeader.numPartEntries h, GPTHeader.partEntrySize h) /\
    (forall l, l ∈ footprint σ' alt -> heap σ !! l = None) /\
    (forall l o, heap σ !! l = Some o -> heap σ' !! l = Some o) /\
    snapshot σ' this = Some v /\
    forall cs c,
      let σ1 := after_all cs this alt σ' in
      snapshot (after c alt σ1) this = snapshot σ1 this /\
      snapshot (after c this σ1) alt = snapshot σ1 alt.
Proof.
  intros Hsnap (Hh & Hsize & Hlen).
  destruct (snapshot_headed _ _ _ _ Hsnap Hh) as (g & hl & ls & Hhd & Harr & Hes & Hss).
  rewrite Hss in *.
  destruct (asAlternate_run σ this g hl h ls _ Hhd Harr Hes ltac:(lia))
    as (alt & σ' & hl' & arr' & clones & Hrun & Hext & Halt & Hhl' & Harr' & Hclones
        & Hcalt & Hchl & Hcarr & Hces).
  set (h' := alternate_header (sectorSize g) h) in *.
  set (valt := {| value_sectorSize := sectorSize g; value_header := Some h';
                  value_entries := value_entries v |}).
  assert (Hgalt : gpt_at (heap σ') alt =
                  Some {| sectorSize := sectorSize g; header := Some hl';
                          partEntries := arr' |})
    by (apply gpt_at_Some; exact Hcalt).
  assert (Haalt : array_at (heap σ') arr' = Some clones)
    by (apply array_at_Some; exact Hcarr).
  assert (Hsalt : snapshot σ' alt = Some valt).
  { apply snapshot_Some. eexists _, clones. split; [exact Hgalt|].
    split; [exact Haalt|]. split; [exact Hces|]. split; [reflexivity|].
    cbn [header]. exists h'. split; [apply header_at_Some; exact Hchl|reflexivity]. }
  assert (Hnew : forall l, l ∈ footprint σ' alt -> heap σ !! l = None).
  { intros l. rewrite (footprint_unfold _ _ _ _ Hgalt Haalt). cbn [partEntries header].
    rewrite !elem_of_union, !elem_of_singleton, elem_of_list_to_set.
    intros [[[->| ->]| ->]|Hl]; try assumption.
    rewrite Forall_forall in Hclones. apply Hclones, Hl. }
  destruct (snapshot_extends _ _ _ _ Hsnap Hext) as (Hsthis & HF).
  assert (Hsep : separated σ' this alt).
  { split; [eauto|]. split; [eauto|]. rewrite HF.
    intros l Hl Hl'. apply Hnew in Hl'.
    apply (footprint_dom _ _ _ Hsnap), elem_of_dom in Hl.
    destruct Hl as (o & Ho). congruence. }
  exists alt, σ', h',
    (- ((- (GPTHeader.numPartEntries h * GPTHeader.partEntrySize h)) / sectorSize g)).
  split; [exact Hrun|]. split; [exact Halt|]. split; [exact Hsalt|].
  do 3 (split; [reflexivity|]).
  pose proof (ceil_quotient_spec
                (GPTHeader.numPartEntries h * GPTHeader.partEntrySize h) (sectorSize g)
                ltac:(lia)) as Hk.
  split; [exact Hk|].
  split.
  { intros Hcur Halt'. subst h'. unfold alternate_header.
    cbn [GPTHeader.set_partEntriesStartLba GPTHeader.set_alternateLba
         GPTHeader.set_currentLba GPTHeader.currentLba GPTHeader.alternateLba
         GPTHeader.partEntriesStartLba].
    unfold asUint64. rewrite !(Z.mod_small _ _ Hcur), !(Z.mod_small _ _ Halt').
    split; [reflexivity|]. split; [reflexivity|].
    set (k := - (- (GPTHeader.numPartEntries h * GPTHeader.partEntrySize h) / sectorSize g))
      in *.
    assert (Hkn : 0 <= k <= GPTHeader.numPartEntries h * GPTHeader.partEntrySize h) by nia.
    unfold MAX_SAFE_INTEGER in Hlen.
    destruct (Z.leb_spec k (GPTHeader.alternateLba h)).
    - apply Z.mod_small. lia.
    - rewrite <- (Z.mod_add _ 1) by lia. apply Z.mod_small. lia. }
  do 3 (split; [reflexivity|]).
  split; [exact Hnew|]. split; [apply Hext|]. split; [exact Hsthis|].
  intros cs c σ1.
  pose proof (separated_after_all cs σ' this alt Hsep) as Hsep1. fold σ1 in Hsep1.
  split.
  - apply (separated_step σ1 alt this c), separated_sym, Hsep1.
  - apply (separated_step σ1 this alt c), Hsep1.
Qed.

Lemma asAlternate_independent_copy_witness :
  exists alt σ',
    GPT.asAlternate (test_gpt LUN4_PARTITIONS) (test_state LUN4_PARTITIONS) = (Ok alt, σ') /\
    snapshot (after (SetActiveSlot (js "b")) alt σ') (test_gpt LUN4_PARTITIONS) =
      snapshot σ' (test_gpt LUN4_PARTITIONS).
Proof.
  destruct (snapshot (test_state LUN4_PARTITIONS) (test_gpt LUN4_PARTITIONS))
    as [v|] eqn:Hv; [|vm_compute in Hv; discriminate].
  destruct (value_header v) as [h|] eqn:Hh;
    [|vm_compute in Hv; inversion Hv; subst v; discriminate].
  assert (Hparsed : parsed v h).
  { split; [exact Hh|].
    vm_compute in Hv. inversion Hv as [Hv']. subst v.
    cbn [value_header] in Hh. inversion Hh as [Hh']. subst h.
    vm_compute. repeat split; discriminate. }
  destruct (asAlternate_independent_copy
              (test_state LUN4_PARTITIONS) (test_gpt LUN4_PARTITIONS) v h Hv Hparsed)
    as (alt & σ' & h' & k & Hrun & _ & _ & _ & _ & _ & _ & _ & _ & _ & _ & _ & _ & _
        & Hind).
  exists alt, σ'. split; [exact Hrun|].
  exact (proj1 (Hind [] (SetActiveSlot (js "b")))).
Defined.

(** Against the claim as stated. The table of [alternate_at_zero_sector]
    parses without a warning, both checksums matching, so the GPT is a
    parsed one; its alternate LBA is 0 and its entry array takes one sector.
    The start LBA of its alternate is not [0 - 1]: the unsigned field holds
    [2^64 - 1]. *)
Lemma asAlternate_wraps_start_lba :
  (exists gpt σ, alternate_at_zero empty_state = (Ok gpt, σ) /\ logged σ = []) /\
  ~ alternate_starts_at_difference.
Proof.
  split.
  { destruct (alternate_at_zero empty_state) as [[gpt|e] σ] eqn:Hrun;
      [|vm_compute in Hrun; discriminate].
    exists gpt, σ. split; [reflexivity|].
    vm_compute in Hrun. injection Hrun as _ Hs. rewrite <- Hs. reflexivity. }
  intros Hclaim.
  set (σ := snd (alternate_at_zero empty_state)).
  set (this := match fst (alternate_at_zero empty_state) with
               | Ok l => l
               | Throw _ => 1%positive
               end).
  destruct (snapshot σ this) as [v|] eqn:Hv; [|vm_compute in Hv; discriminate].
  destruct (value_header v) as [h|] eqn:Hh;
    [|vm_compute in Hv; inversion Hv; subst v; discriminate].
  destruct (GPT.asAlternate this σ) as [[alt|e] σ'] eqn:Hrun;
    [|vm_compute in Hrun; discriminate].
  destruct (snapshot σ' alt) as [v'|] eqn:Hv'.
  2:{ pose proof Hrun as Hvalue. vm_compute in Hvalue. injection Hvalue as Ha Hs.
      rewrite <- Ha, <- Hs in Hv'. vm_compute in Hv'. discriminate. }
  destruct (value_header v') as [h'|] eqn:Hh'.
  2:{ pose proof Hrun as Hvalue. vm_compute in Hvalue. injection Hvalue as Ha Hs.
      rewrite <- Ha, <- Hs in Hv'. vm_compute in Hv'. injection Hv' as Hv'.
      rewrite <- Hv' in Hh'. discriminate. }
  assert (Hparsed : parsed v h).
  { split; [exact Hh|].
    vm_compute in Hv. inversion Hv as [Hv0]. subst v.
    cbn [value_header] in Hh. inversion Hh as [Hh0]. subst h.
    vm_compute. repeat split; discriminate. }
  destruct (Hclaim σ this v h alt σ' v' h' Hv Hparsed Hrun Hv' Hh') as (k & Hk & Hstart).
  pose proof Hrun as Hvalue. vm_compute in Hvalue. injection Hvalue as Ha Hs.
  rewrite <- Ha, <- Hs in Hv'. vm_compute in Hv'. injection Hv' as Hv'.
  rewrite <- Hv' in Hh'. cbn [value_header] in Hh'. injection Hh' as Hh'.
  vm_compute in Hv. injection Hv as Hv. rewrite <- Hv in Hh, Hk.
  cbn [value_header] in Hh. injection Hh as Hh.
  rewrite <- Hh in Hk, Hstart. rewrite <- Hh' in Hstart.
  cbn [value_sectorSize GPTHeader.numPartEntries GPTHeader.partEntrySize
       GPTHeader.partEntriesStartLba GPTHeader.alternateLba] in Hk, Hstart.
  lia.
Qed.

(** ** [setActiveSlot] followed by [getActiveSlot] *)

Lemma setActiveSlot_snapshot σ this v slot :
  snapshot σ this = Some v ->
  slot = js "a" \/ slot = js "b" ->
  exists σ',
    GPT.setActiveSlot this slot σ = (Ok tt, σ') /\
    snapshot σ' this = Some (with_entries (map (slot_update slot) (value_entries v)) v).
Proof.
  intros Hsnap Hslot.
  apply snapshot_Some in Hsnap as (g & a & Hg & Ha & Hes & Hss & Hh).
  destruct (GPT.setActiveSlot this slot σ) as [r σ'] eqn:Hrun.
  pose proof Hrun as Hrun'.
  rewrite setActiveSlot_valid in Hrun' by exact Hslot.
  unfold bind in Hrun'. rewrite read_gpt_run, Hg, read_array_run, Ha in Hrun'.
  apply setActiveSlot_loop in Hrun' as (Hlog & Hcells & Hall & Hok).
  assert (r = Ok tt) as ->.
  { apply Hok. intros l Hl. eapply entries_at_elem; eassumption. }
  exists σ'. split; [reflexivity|].
  apply snapshot_Some. exists g, a. simpl.
  rewrite (slot_updated_gpt_at _ _ _ _ _ (Hcells this)).
  rewrite (slot_updated_array_at _ _ _ _ _ (Hcells (partEntries g))).
  repeat split; auto.
  - eapply entries_at_updated; eauto.
  - destruct (header g) as [hl|]; [|exact Hh].
    rewrite (slot_updated_header_at _ _ _ _ _ (Hcells hl)). exact Hh.
Qed.

Lemma startsWith_app s p q : startsWith s (p ++ q) = true -> startsWith s p = true.
Proof.
  revert s. induction p as [|c p IH]; intros s H; [destruct s; reflexivity|].
  destruct s as [|d s]; [discriminate|]. cbn in *.
  apply andb_true_iff in H as (Hc & Hr). rewrite Hc. cbn. apply IH, Hr.
Qed.

Lemma endsWith_a_not_b s : endsWith s (js "_a") = true -> endsWith s (js "_b") = false.
Proof.
  unfold endsWith. change (length (js "_a")) with 2%nat.
  change (length (js "_b")) with 2%nat.
  intros H. apply andb_true_iff in H as (Hlen & Ha).
  rewrite Hlen. cbn [andb]. unfold js_eqb in *.
  apply bool_decide_eq_true in Ha. apply bool_decide_eq_false.
  rewrite Ha. discriminate.
Qed.

(** One step of the loop of [getActiveSlot] on an entry that
    [setActiveSlot(slot)] has just rewritten. *)
Lemma consider_slot_update slot e best :
  slot = js "a" \/ slot = js "b" ->
  best = (None, -1) \/ best = (Some slot, 3) ->
  consider best (slot_update slot e) =
    if slot_boot_entry slot e then (Some slot, 3) else best.
Proof.
  intros Hslot Hbest.
  destruct (slot_update_cases slot e Hslot) as (Hsame & _ & Hactive & Hinactive & _).
  cbv zeta in Hsame, Hactive, Hinactive.
  set (e' := slot_update slot e) in *.
  assert (Hname : GPTPartitionEntry.name e' = GPTPartitionEntry.name e)
    by (rewrite Hsame; reflexivity).
  assert (Htype : GPTPartitionEntry.type e' = GPTPartitionEntry.type e)
    by (rewrite Hsame; reflexivity).
  unfold consider, active_boot_entry, slot_boot_entry.
  assert (Hboot : boot_slot_entry e' = boot_slot_entry e).
  { unfold boot_slot_entry. rewrite Hname, Htype. reflexivity. }
  rewrite Hboot. destruct (boot_slot_entry e) eqn:Hb; [|reflexivity].
  cbn [andb]. unfold boot_slot_entry in Hb.
  apply andb_true_iff in Hb as (Hb & Hsuffix).
  apply andb_true_iff in Hb as (Hunused & Hprefix).
  apply negb_true_iff in Hunused.
  apply (startsWith_app _ (js "boot") (js "_")) in Hprefix.
  rewrite <- active_bit.
  destruct (endsWith (GPTPartitionEntry.name e) (js "_" ++ slot)) eqn:Hm.
  - rewrite (Hactive Hunused Hsuffix Hprefix eq_refl). cbn [active priority andb].
    assert (Hletter : slot_letter e' = slot).
    { unfold slot_letter. rewrite Hname. destruct Hslot as [-> | ->].
      - change (js "_" ++ js "a") with (js "_a") in Hm. rewrite Hm. reflexivity.
      - change (js "_" ++ js "b") with (js "_b") in Hm.
        destruct (endsWith (GPTPartitionEntry.name e) (js "_a")) eqn:Ha; [|reflexivity].
        apply endsWith_a_not_b in Ha. congruence. }
    rewrite Hletter. destruct Hbest as [-> | ->]; reflexivity.
  - rewrite (Hinactive Hunused Hsuffix Hprefix eq_refl). reflexivity.
Qed.

Lemma fold_consider_slot_update slot es best :
  slot = js "a" \/ slot = js "b" ->
  best = (None, -1) \/ best = (Some slot, 3) ->
  fold_left consider (map (slot_update slot) es) best =
    if existsb (slot_boot_entry slot) es then (Some slot, 3) else best.
Proof.
  intros Hslot. revert best. induction es as [|e es IH]; intros best Hbest; [reflexivity|].
  cbn [map fold_left existsb]. rewrite (consider_slot_update slot e best Hslot Hbest).
  destruct (slot_boot_entry slot e); cbn [orb].
  - rewrite IH by (right; reflexivity). destruct (existsb _ es); reflexivity.
  - apply IH, Hbest.
Qed.

(** [setActiveSlot(slot)] then [getActiveSlot()]: the answer is [slot] when
    the table has a non-empty entry named [boot_..._<slot>], and [null] when
    it has none; it is never the other slot, whatever the attribute words
    were before. *)
Theorem getActiveSlot_after_setActiveSlot σ this v slot :
  snapshot σ this = Some v ->
  slot = js "a" \/ slot = js "b" ->
  exists σ',
    GPT.setActiveSlot this slot σ = (Ok tt, σ') /\
    GPT.getActiveSlot this σ' =
      (Ok (if existsb (slot_boot_entry slot) (value_entries v) then Some slot else None),
       σ').
Proof.
  intros Hsnap Hslot.
  destruct (setActiveSlot_snapshot σ this v slot Hsnap Hslot) as (σ' & Hrun & Hsnap').
  exists σ'. split; [exact Hrun|].
  rewrite (getActiveSlot_run σ' this _ Hsnap'). cbn [with_entries value_entries].
  rewrite (fold_consider_slot_update slot _ _ Hslot (or_introl eq_refl)).
  destruct (existsb _ _); reflexivity.
Qed.

Lemma getActiveSlot_after_setActiveSlot_witness :
  exists σ',
    GPT.setActiveSlot (test_gpt LUN4_PARTITIONS) (js "b") (test_state LUN4_PARTITIONS) =
      (Ok tt, σ') /\
    fst (GPT.getActiveSlot (test_gpt LUN4_PARTITIONS) σ') = Ok (Some (js "b")).
Proof.
  destruct (snapshot (test_state LUN4_PARTITIONS) (test_gpt LUN4_PARTITIONS))
    as [v|] eqn:Hv; [|vm_compute in Hv; discriminate].
  destruct (getActiveSlot_after_setActiveSlot
              (test_state LUN4_PARTITIONS) (test_gpt LUN4_PARTITIONS) v (js "b") Hv
              (or_intror eq_refl)) as (σ' & Hrun & Hget).
  exists σ'. split; [exact Hrun|]. rewrite Hget. cbn [fst].
  vm_compute in Hv. inversion Hv; subst v. vm_compute. reflexivity.
Defined.

(** ** Header bytes: decoding and encoding back *)

Lemma byte_of_to_Z b : byte_of_Z (byte_to_Z b) = b.
Proof.
  unfold byte_of_Z, byte_to_Z.
  pose proof (Byte.to_N_bounded b) as Hb.
  rewrite Z.mod_small by lia. rewrite N2Z.id, Byte.of_to_N. reflexivity.
Qed.

Lemma byte_to_Z_range b : 0 <= byte_to_Z b < 256.
Proof. unfold byte_to_Z. pose proof (Byte.to_N_bounded b). lia. Qed.

Lemma byte_of_Z_mod z : byte_of_Z (z mod 256) = byte_of_Z z.
Proof. unfold byte_of_Z. rewrite Z.mod_mod by lia. reflexivity. Qed.

Lemma le_bytes_le_value bs : le_bytes (length bs) (le_value bs) = bs.
Proof.
  induction bs as [|b r IH]; [reflexivity|].
  cbn [length le_value le_bytes]. pose proof (byte_to_Z_range b) as Hb. f_equal.
  - rewrite <- byte_of_Z_mod.
    replace ((byte_to_Z b + 256 * le_value r) mod 256) with (byte_to_Z b).
    + apply byte_of_to_Z.
    + symmetry. rewrite (Z.mul_comm 256), Z.mod_add by lia.
      apply Z.mod_small, Hb.
  - replace ((byte_to_Z b + 256 * le_value r) / 256) with (le_value r); [exact IH|].
    rewrite (Z.mul_comm 256), Z.div_add by lia.
    rewrite (Z.div_small (byte_to_Z b)) by exact Hb. lia.
Qed.

Lemma le_bytes_mod n z : le_bytes n (z mod 2 ^ (8 * Z.of_nat n)) = le_bytes n z.
Proof.
  rewrite <- (le_value_le_bytes n z).
  pose proof (le_bytes_le_value (le_bytes n z)) as H.
  rewrite length_le_bytes in H. exact H.
Qed.

Lemma le_bytes_toInt32 z : le_bytes 4 (toInt32 z) = le_bytes 4 z.
Proof.
  rewrite <- (le_bytes_mod 4 (toInt32 z)), <- (le_bytes_mod 4 z). f_equal.
  change (2 ^ (8 * Z.of_nat 4)) with (2 ^ 32). unfold toInt32.
  destruct (z mod 2 ^ 32 <? 2 ^ 31).
  - apply Z.mod_mod. lia.
  - replace (z mod 2 ^ 32 - 2 ^ 32) with (z mod 2 ^ 32 + (-1) * 2 ^ 32) by lia.
    rewrite Z.mod_add by lia. apply Z.mod_mod. lia.
Qed.

Lemma slice_full_length data (a b : nat) :
  (a <= b)%nat -> (b <= length data)%nat -> length (slice data a b) = (b - a)%nat.
Proof. intros Hab Hb. rewrite length_slice. lia. Qed.

Lemma slice_app_slice data (a b c : nat) :
  (a <= b)%nat -> (b <= c)%nat -> slice data a b ++ slice data b c = slice data a c.
Proof.
  intros Hab Hbc. unfold slice.
  replace (drop b data) with (drop (b - a) (drop a data))
    by (rewrite drop_drop; f_equal; lia).
  rewrite take_take_drop. f_equal. lia.
Qed.

Lemma le_bytes_slice n data (a b : nat) :
  (a <= b)%nat -> (b <= length data)%nat -> n = (b - a)%nat ->
  le_bytes n (le_value (slice data a b)) = slice data a b.
Proof.
  intros Hab Hb ->. rewrite <- (slice_full_length data a b Hab Hb).
  apply le_bytes_le_value.
Qed.

Lemma string_encode_decode n bs : length bs = n -> string_encode n (string_decode bs) = bs.
Proof.
  intros Hn. unfold string_encode, string_decode. rewrite map_map.
  rewrite (map_ext _ id) by (intros b; apply byte_of_to_Z). rewrite map_id.
  apply take_app_length'. symmetry. exact Hn.
Qed.

Lemma bytes_encode_full n bs : length bs = n -> bytes_encode n bs = bs.
Proof. intros Hn. unfold bytes_encode. apply take_app_length'. symmetry. exact Hn. Qed.

(** Encoding a decoded header gives back the 92 bytes it was decoded from. *)
Lemma toBuffer_decode data :
  (GPTHeader.size <= length data)%nat ->
  GPTHeader.toBuffer (GPTHeader.decode data) = take GPTHeader.size data.
Proof.
  unfold GPTHeader.size. intros Hlen.
  unfold GPTHeader.toBuffer, GPTHeader.decode. cbn [GPTHeader.signature
    GPTHeader.revision GPTHeader.headerSize GPTHeader.headerCrc32 GPTHeader.reserved
    GPTHeader.currentLba GPTHeader.alternateLba GPTHeader.firstUsableLba
    GPTHeader.lastUsableLba GPTHeader.diskGuid GPTHeader.partEntriesStartLba
    GPTHeader.numPartEntries GPTHeader.partEntrySize GPTHeader.partEntriesCrc32].
  unfold getInt32. rewrite !le_bytes_toInt32.
  unfold getUint32, getBigUint64.
  rewrite string_encode_decode by (apply slice_full_length; lia).
  rewrite bytes_encode_full by (apply slice_full_length; lia).
  rewrite !le_bytes_slice by lia.
  cbn [Nat.add].
  rewrite !slice_app_slice by lia.
  unfold slice. rewrite drop_0. reflexivity.
Qed.

Lemma decode_take data :
  GPTHeader.decode (take GPTHeader.size data) = GPTHeader.decode data.
Proof.
  unfold GPTHeader.decode, GPTHeader.size, getInt32, getUint32, getBigUint64.
  rewrite !slice_take by lia. reflexivity.
Qed.

(** ** [parseHeader] and [buildHeader] on the bytes of a header *)

Lemma length_header_toBuffer h : length (GPTHeader.toBuffer h) = GPTHeader.size.
Proof.
  unfold GPTHeader.toBuffer. rewrite !length_app, length_string_encode, !length_le_bytes.
  unfold bytes_encode. rewrite length_take, length_app, length_replicate.
  unfold GPTHeader.size. lia.
Qed.

(** What a returning [buildHeader] has done. *)
Lemma buildHeader_returns σ this v h arg bytes σ' :
  snapshot σ this = Some v ->
  value_header v = Some h ->
  GPT.buildHeader this arg σ = (Ok bytes, σ') ->
  exists entry_bytes g hl,
    headed σ this g hl h /\
    match arg with
    | Some given => entry_bytes = given
    | None => GPT.buildPartEntries this σ = (Ok entry_bytes, σ)
    end /\
    bytes = GPTHeader.toBuffer (with_checksums entry_bytes h) /\
    crc32 entry_bytes <> 0 /\
    header_checksum entry_bytes h <> 0 /\
    heap σ' = <[hl := ObjHeader (with_checksums entry_bytes h)]> (heap σ) /\
    snapshot σ' this = Some (with_header (Some (with_checksums entry_bytes h)) v).
Proof.
  intros Hsnap Hh Hrun.
  destruct (snapshot_headed _ _ _ _ Hsnap Hh) as (g & hl & ls & Hhd & Ha & Hes & Hss).
  rewrite buildHeader_unfold in Hrun.
  assert (Hentries : exists r,
            (match arg with
             | Some given => ret given
             | None => GPT.buildPartEntries this
             end) σ = (r, σ) /\
            forall eb, r = Ok eb ->
              match arg with
              | Some given => eb = given
              | None => GPT.buildPartEntries this σ = (Ok eb, σ)
              end).
  { destruct arg as [given|].
    - exists (Ok given). split; [reflexivity|]. intros eb [= <-]. reflexivity.
    - rewrite (buildPartEntries_run _ _ _ _ _ _ _ Hhd Ha Hes).
      eexists. split; [reflexivity|]. intros eb ->. reflexivity. }
  destruct Hentries as (r & Hr & Harg). rewrite Hr in Hrun.
  destruct r as [eb|e]; [|discriminate].
  rewrite (buildHeader_from_bytes _ _ _ _ _ eb Hhd) in Hrun.
  destruct (Z.eqb_spec (crc32 eb) 0) as [Hc1|Hc1]; [discriminate|].
  destruct (Z.eqb_spec (header_checksum eb h) 0) as [Hc2|Hc2]; [discriminate|].
  injection Hrun as <- <-.
  exists eb, g, hl. split; [exact Hhd|]. split; [apply Harg; reflexivity|].
  split; [reflexivity|]. split; [exact Hc1|]. split; [exact Hc2|].
  split; [reflexivity|].
  apply (snapshot_set_header σ this v g hl h _ _ Hsnap Hhd).
Qed.

(** The header checksum [parseHeader] verifies is that of the first 92
    bytes of the buffer with bytes 16 to 19 zeroed, whatever size the header
    declares; nothing past byte 91 has any effect on the call. *)
Theorem parseHeader_checks_first_92_bytes σ this g data actualLba :
  heap σ !! this = Some (ObjGPT g) ->
  (GPTHeader.size <= length data)%nat ->
  (forall res,
     fst (GPT.parseHeader this data actualLba σ) = Ok (Some res) ->
     result_headerCrc32 res = getInt32 data 16 /\
     header_mismatchCrc32 res =
       negb (getInt32 data 16 =? crc32 (zero_headerCrc32 (take GPTHeader.size data)))) /\
  (forall data2,
     take GPTHeader.size data2 = take GPTHeader.size data ->
     GPT.parseHeader this data2 actualLba σ = GPT.parseHeader this data actualLba σ).
Proof.
  intros Hthis Hlen. split.
  - intros res. rewrite (parseHeader_run σ this g data actualLba Hthis Hlen).
    cbv zeta. cbn [fst]. unfold header_verdict.
    destruct (negb (js_eqb _ _)); [discriminate|].
    destruct (negb (_ =? 0x10000)); [discriminate|].
    destruct (_ || _); [discriminate|].
    cbn [fst]. intros [= <-]. cbn [result_headerCrc32 header_mismatchCrc32].
    split; [reflexivity|].
    rewrite <- toBuffer_zero_headerCrc32, (toBuffer_decode data Hlen). reflexivity.
  - intros data2 Htake.
    assert (Hlen2 : (GPTHeader.size <= length data2)%nat).
    { apply (f_equal length) in Htake. rewrite !length_take in Htake. lia. }
    rewrite (parseHeader_run σ this g data actualLba Hthis Hlen).
    rewrite (parseHeader_run σ this g data2 actualLba Hthis Hlen2).
    cbv zeta. rewrite <- (decode_take data2), Htake, decode_take. reflexivity.
Qed.

Lemma parseHeader_checks_first_92_bytes_witness :
  GPT.parseHeader (test_gpt LUN4_PARTITIONS)
    (take GPTHeader.size (fst (buildGPTData LUN4_PARTITIONS))) 1 (test_state LUN4_PARTITIONS) =
  GPT.parseHeader (test_gpt LUN4_PARTITIONS)
    (fst (buildGPTData LUN4_PARTITIONS)) 1 (test_state LUN4_PARTITIONS).
Proof.
  destruct (heap (test_state LUN4_PARTITIONS) !! test_gpt LUN4_PARTITIONS)
    as [[g|h|e|a]|] eqn:Hg; try (vm_compute in Hg; discriminate).
  apply (parseHeader_checks_first_92_bytes
           (test_state LUN4_PARTITIONS) (test_gpt LUN4_PARTITIONS) g
           (fst (buildGPTData LUN4_PARTITIONS)) 1 Hg ltac:(vm_compute; lia)).
  rewrite take_take. reflexivity.
Defined.

(** The bytes [buildHeader] returns are the 92 bytes of a header that
    [parseHeader] never reports as mismatched: on whatever [GPT] they are
    parsed, an accepted result carries the checksum [buildHeader] stored and
    [mismatchCrc32] false. *)
Theorem buildHeader_output_parses_clean σ this v h arg bytes σ' that g2 actualLba :
  snapshot σ this = Some v ->
  value_header v = Some h ->
  GPT.buildHeader this arg σ = (Ok bytes, σ') ->
  heap σ' !! that = Some (ObjGPT g2) ->
  exists h2,
    snapshot σ' this = Some (with_header (Some h2) v) /\
    length bytes = GPTHeader.size /\
    forall res,
      fst (GPT.parseHeader that bytes actualLba σ') = Ok (Some res) ->
      result_headerCrc32 res = GPTHeader.headerCrc32 h2 /\
      header_mismatchCrc32 res = false.
Proof.
  intros Hsnap Hh Hrun Hthat.
  destruct (buildHeader_returns _ _ _ _ _ _ _ Hsnap Hh Hrun)
    as (eb & g & hl & Hhd & _ & -> & _ & _ & _ & Hsnap').
  exists (with_checksums eb h). split; [exact Hsnap'|].
  split; [apply length_header_toBuffer|].
  intros res.
  rewrite (parseHeader_run σ' that g2 _ actualLba Hthat)
    by (rewrite length_header_toBuffer; lia).
  cbv zeta. cbn [fst]. unfold header_verdict.
  destruct (negb (js_eqb _ _)); [discriminate|].
  destruct (negb (_ =? 0x10000)); [discriminate|].
  destruct (_ || _); [discriminate|].
  cbn [fst]. intros [= <-]. cbn [result_headerCrc32 header_mismatchCrc32].
  assert (Hstored : getInt32 (GPTHeader.toBuffer (with_checksums eb h)) 16 =
                    header_checksum eb h).
  { rewrite getInt32_toBuffer. apply toInt32_id, crc32_range. }
  rewrite Hstored. split; [reflexivity|].
  rewrite <- toBuffer_zero_headerCrc32.
  rewrite toBuffer_decode by (rewrite length_header_toBuffer; lia).
  rewrite take_ge by (rewrite length_header_toBuffer; lia).
  rewrite toBuffer_zero_headerCrc32. unfold with_checksums at 1.
  rewrite set_headerCrc32_twice. fold (header_checksum eb h).
  rewrite Z.eqb_refl. reflexivity.
Qed.

Lemma buildHeader_output_parses_clean_witness :
  exists bytes σ' res σ'',
    GPT.buildHeader (test_gpt LUN4_PARTITIONS) None (test_state LUN4_PARTITIONS) =
      (Ok bytes, σ') /\
    GPT.parseHeader (test_gpt LUN4_PARTITIONS) bytes 1 σ' = (Ok (Some res), σ'') /\
    header_mismatchCrc32 res = false.
Proof.
  destruct (snapshot (test_state LUN4_PARTITIONS) (test_gpt LUN4_PARTITIONS))
    as [v|] eqn:Hv; [|vm_compute in Hv; discriminate].
  destruct (value_header v) as [h|] eqn:Hh;
    [|vm_compute in Hv; inversion Hv; subst v; discriminate].
  destruct (GPT.buildHeader (test_gpt LUN4_PARTITIONS) None (test_state LUN4_PARTITIONS))
    as [[bytes|e] σ'] eqn:Hrun; [|vm_compute in Hrun; discriminate].
  pose proof Hrun as Hvalue. vm_compute in Hvalue. injection Hvalue as Hb Hs.
  assert (Hσ : exists g2, heap σ' !! test_gpt LUN4_PARTITIONS = Some (ObjGPT g2)).
  { rewrite <- Hs. vm_compute. eexists. reflexivity. }
  destruct Hσ as (g2 & Hg).
  destruct (buildHeader_output_parses_clean
              (test_state LUN4_PARTITIONS) (test_gpt LUN4_PARTITIONS) v h None bytes σ'
              (test_gpt LUN4_PARTITIONS) g2 1 Hv Hh Hrun Hg) as (h2 & _ & _ & Hres).
  assert (Hparse : exists res σ'',
            GPT.parseHeader (test_gpt LUN4_PARTITIONS) bytes 1 σ' = (Ok (Some res), σ'')).
  { rewrite <- Hb, <- Hs. vm_compute. eexists _, _. reflexivity. }
  destruct Hparse as (res & σ'' & Hparse).
  exists bytes, σ', res, σ''. split; [reflexivity|]. split; [exact Hparse|].
  apply (Hres res). rewrite Hparse. reflexivity.
Defined.

(** ** The header schema: a round trip *)

Lemma le_value_range bs : 0 <= le_value bs < 2 ^ (8 * Z.of_nat (length bs)).
Proof.
  induction bs as [|b r IH]; [cbn; lia|].
  cbn [le_value length]. pose proof (byte_to_Z_range b) as Hb.
  replace (2 ^ (8 * Z.of_nat (S (length r)))) with (256 * 2 ^ (8 * Z.of_nat (length r))).
  - lia.
  - replace (8 * Z.of_nat (S (length r))) with (8 + 8 * Z.of_nat (length r)) by lia.
    rewrite Z.pow_add_r by lia. reflexivity.
Qed.

Lemma getUint32_range data (off : nat) :
  (off + 4 <= length data)%nat -> 0 <= getUint32 data off < 2 ^ 32.
Proof.
  intros H. unfold getUint32. pose proof (le_value_range (slice data off (off + 4))) as Hr.
  rewrite slice_full_length in Hr by lia.
  replace (off + 4 - off)%nat with 4%nat in Hr by lia. exact Hr.
Qed.

Lemma getBigUint64_range data (off : nat) :
  (off + 8 <= length data)%nat -> 0 <= getBigUint64 data off < 2 ^ 64.
Proof.
  intros H. unfold getBigUint64.
  pose proof (le_value_range (slice data off (off + 8))) as Hr.
  rewrite slice_full_length in Hr by lia.
  replace (off + 8 - off)%nat with 8%nat in Hr by lia. exact Hr.
Qed.

Lemma decode_in_range data :
  (GPTHeader.size <= length data)%nat -> header_in_range (GPTHeader.decode data).
Proof.
  unfold GPTHeader.size. intros Hlen. unfold header_in_range, GPTHeader.decode.
  cbn [GPTHeader.signature GPTHeader.revision GPTHeader.headerSize GPTHeader.headerCrc32
       GPTHeader.reserved GPTHeader.currentLba GPTHeader.alternateLba
       GPTHeader.firstUsableLba GPTHeader.lastUsableLba GPTHeader.diskGuid
       GPTHeader.partEntriesStartLba GPTHeader.numPartEntries GPTHeader.partEntrySize
       GPTHeader.partEntriesCrc32].
  split; [unfold string_decode; rewrite length_map; apply slice_full_length; lia|].
  split; [unfold string_decode; apply Forall_map, Forall_forall;
          intros b _; apply byte_to_Z_range|].
  repeat first
    [ split; [first [ apply getUint32_range; lia | apply getBigUint64_range; lia
                    | apply toInt32_range | apply slice_full_length; lia ]|]
    | apply toInt32_range ].
Qed.

Lemma string_decode_encode n s :
  length s = n -> Forall (fun c => 0 <= c < 256) s ->
  string_decode (string_encode n s) = s.
Proof.
  intros Hn Hs. unfold string_decode, string_encode.
  rewrite take_app_length' by (rewrite length_map; symmetry; exact Hn).
  clear Hn. induction Hs as [|c r Hc _ IH]; [reflexivity|].
  cbn [map]. rewrite IH, byte_to_of_Z, Z.mod_small by exact Hc. reflexivity.
Qed.

Lemma le_bytes_unsigned_inj n x y :
  0 <= x < 2 ^ (8 * Z.of_nat n) -> 0 <= y < 2 ^ (8 * Z.of_nat n) ->
  le_bytes n x = le_bytes n y -> x = y.
Proof.
  intros Hx Hy H. apply (f_equal le_value) in H.
  rewrite !le_value_le_bytes, !Z.mod_small in H by assumption. exact H.
Qed.

Lemma le_bytes_int32_inj x y :
  - 2 ^ 31 <= x < 2 ^ 31 -> - 2 ^ 31 <= y < 2 ^ 31 ->
  le_bytes 4 x = le_bytes 4 y -> x = y.
Proof.
  intros Hx Hy H. apply (f_equal le_value) in H. rewrite !le_value_le_bytes in H.
  change (2 ^ (8 * Z.of_nat 4)) with (2 ^ 32) in H.
  apply (f_equal toInt32) in H. rewrite !toInt32_mod, !toInt32_id in H by assumption.
  exact H.
Qed.

(** Different in-range headers have different encodings. *)
Lemma toBuffer_inj h h' :
  header_in_range h -> header_in_range h' ->
  GPTHeader.toBuffer h = GPTHeader.toBuffer h' -> h = h'.
Proof.
  destruct h as [sg rv hs hc rs cl al fl ll dg ps np es pc].
  destruct h' as [sg' rv' hs' hc' rs' cl' al' fl' ll' dg' ps' np' es' pc'].
  unfold header_in_range, GPTHeader.toBuffer.
  cbn [GPTHeader.signature GPTHeader.revision GPTHeader.headerSize GPTHeader.headerCrc32
       GPTHeader.reserved GPTHeader.currentLba GPTHeader.alternateLba
       GPTHeader.firstUsableLba GPTHeader.lastUsableLba GPTHeader.diskGuid
       GPTHeader.partEntriesStartLba GPTHeader.numPartEntries GPTHeader.partEntrySize
       GPTHeader.partEntriesCrc32].
  intros (Hsg & Hsgr & Hrv & Hhs & Hhc & Hrs & Hcl & Hal & Hfl & Hll & Hdg & Hps & Hnp
          & Hes & Hpc).
  intros (Hsg' & Hsgr' & Hrv' & Hhs' & Hhc' & Hrs' & Hcl' & Hal' & Hfl' & Hll' & Hdg'
          & Hps' & Hnp' & Hes' & Hpc').
  intros H.
  apply app_inj_1 in H as (H1 & H); [|rewrite !length_string_encode; reflexivity].
  apply app_inj_1 in H as (H2 & H); [|rewrite !length_le_bytes; reflexivity].
  apply app_inj_1 in H as (H3 & H); [|rewrite !length_le_bytes; reflexivity].
  apply app_inj_1 in H as (H4 & H); [|rewrite !length_le_bytes; reflexivity].
  apply app_inj_1 in H as (H5 & H); [|rewrite !length_le_bytes; reflexivity].
  apply app_inj_1 in H as (H6 & H); [|rewrite !length_le_bytes; reflexivity].
  apply app_inj_1 in H as (H7 & H); [|rewrite !length_le_bytes; reflexivity].
  apply app_inj_1 in H as (H8 & H); [|rewrite !length_le_bytes; reflexivity].
  apply app_inj_1 in H as (H9 & H); [|rewrite !length_le_bytes; reflexivity].
  apply app_inj_1 in H as (H10 & H); [|rewrite !length_bytes_encode; reflexivity].
  apply app_inj_1 in H as (H11 & H); [|rewrite !length_le_bytes; reflexivity].
  apply app_inj_1 in H as (H12 & H); [|rewrite !length_le_bytes; reflexivity].
  apply app_inj_1 in H as (H13 & H14); [|rewrite !length_le_bytes; reflexivity].
  apply (f_equal string_decode) in H1.
  rewrite !string_decode_encode in H1 by assumption.
  rewrite !bytes_encode_full in H10 by assumption.
  apply (le_bytes_unsigned_inj 4) in H2; [|assumption..].
  apply (le_bytes_unsigned_inj 4) in H3; [|assumption..].
  apply le_bytes_int32_inj in H4; [|assumption..].
  apply (le_bytes_unsigned_inj 4) in H5; [|assumption..].
  apply (le_bytes_unsigned_inj 8) in H6; [|assumption..].
  apply (le_bytes_unsigned_inj 8) in H7; [|assumption..].
  apply (le_bytes_unsigned_inj 8) in H8; [|assumption..].
  apply (le_bytes_unsigned_inj 8) in H9; [|assumption..].
  apply (le_bytes_unsigned_inj 8) in H11; [|assumption..].
  apply (le_bytes_unsigned_inj 4) in H12; [|assumption..].
  apply (le_bytes_unsigned_inj 4) in H13; [|assumption..].
  apply le_bytes_int32_inj in H14; [|assumption..].
  subst. reflexivity.
Qed.

(** The header schema round-trips. Bytes to header to bytes: encoding the
    header decoded from a buffer gives its first 92 bytes back, and the
    decoded header is in range. Header to bytes to header: decoding the 92
    bytes that encode an in-range header gives that header back. *)
Theorem header_schema_round_trip :
  (forall data,
     (GPTHeader.size <= length data)%nat ->
     GPTHeader.toBuffer (GPTHeader.decode data) = take GPTHeader.size data /\
     header_in_range (GPTHeader.decode data)) /\
  (forall h,
     header_in_range h ->
     length (GPTHeader.toBuffer h) = GPTHeader.size /\
     GPTHeader.decode (GPTHeader.toBuffer h) = h).
Proof.
  split.
  - intros data Hlen. split; [apply toBuffer_decode, Hlen|apply decode_in_range, Hlen].
  - intros h Hh. pose proof (length_header_toBuffer h) as Hlen.
    split; [exact Hlen|].
    apply toBuffer_inj; [apply decode_in_range; lia|exact Hh|].
    rewrite toBuffer_decode by lia. apply take_ge. lia.
Qed.

(** ** Methods that only read *)

Lemma reads_only_ret {A} (x : A) : reads_only (ret x).
Proof. intros σ. reflexivity. Qed.

Lemma reads_only_throw {A} e : reads_only (@throw A e).
Proof. intros σ. reflexivity. Qed.

Lemma reads_only_lift {A} (r : result A) : reads_only (lift r).
Proof. intros σ. reflexivity. Qed.

Lemma reads_only_bind {A B} (m : M A) (k : A -> M B) :
  reads_only m -> (forall x, reads_only (k x)) -> reads_only (bind m k).
Proof.
  intros Hm Hk σ. unfold bind. specialize (Hm σ).
  destruct (m σ) as [[x|e] σ1]; cbn in Hm; subst σ1; [apply Hk|reflexivity].
Qed.

Lemma reads_only_read_gpt l : reads_only (read_gpt l).
Proof. intros σ. rewrite read_gpt_run. reflexivity. Qed.

Lemma reads_only_read_header l : reads_only (read_header l).
Proof. intros σ. rewrite read_header_run. reflexivity. Qed.

Lemma reads_only_read_entry l : reads_only (read_entry l).
Proof. intros σ. rewrite read_entry_run. reflexivity. Qed.

Lemma reads_only_read_array l : reads_only (read_array l).
Proof. intros σ. rewrite read_array_run. reflexivity. Qed.

Lemma reads_only_fold_each {A S} (xs : list A) (body : S -> A -> M S) s :
  (forall s x, reads_only (body s x)) -> reads_only (fold_each xs body s).
Proof.
  intros Hbody. revert s. induction xs as [|x r IH]; intros s; cbn [fold_each].
  - apply reads_only_ret.
  - apply reads_only_bind; [apply Hbody|exact IH].
Qed.

Lemma reads_only_map_each {A B} (xs : list A) (f : A -> M B) :
  (forall x, reads_only (f x)) -> reads_only (map_each xs f).
Proof.
  intros Hf. induction xs as [|x r IH]; cbn [map_each].
  - apply reads_only_ret.
  - apply reads_only_bind; [apply Hf|]. intros y.
    apply reads_only_bind; [exact IH|]. intros ys. apply reads_only_ret.
Qed.

Lemma reads_only_header_ref this : reads_only (GPT.header_ref this).
Proof.
  unfold GPT.header_ref. apply reads_only_bind; [apply reads_only_read_gpt|].
  intros g. destruct (header g); [apply reads_only_ret|apply reads_only_throw].
Qed.

Lemma reads_only_header_field {A} this (field : GPTHeader.t -> A) :
  reads_only (GPT.header_field this field).
Proof.
  unfold GPT.header_field. apply reads_only_bind; [apply reads_only_header_ref|].
  intros hl. apply reads_only_bind; [apply reads_only_read_header|].
  intros h. apply reads_only_ret.
Qed.

Lemma reads_only_partEntry_at this i : reads_only (GPT.partEntry_at this i).
Proof.
  unfold GPT.partEntry_at. apply reads_only_bind; [apply reads_only_read_gpt|].
  intros g. apply reads_only_bind; [apply reads_only_read_array|].
  intros a. destruct (a !! Z.to_nat i); [apply reads_only_ret|apply reads_only_throw].
Qed.

Lemma reads_only_buildPartEntries this : reads_only (GPT.buildPartEntries this).
Proof.
  unfold GPT.buildPartEntries, GPT.numPartEntries, GPT.partEntrySize.
  apply reads_only_bind; [apply reads_only_header_field|]. intros n.
  apply reads_only_bind; [apply reads_only_header_field|]. intros s.
  apply reads_only_bind; [apply reads_only_lift|]. intros array.
  apply reads_only_bind; [apply reads_only_header_field|]. intros n'.
  apply reads_only_fold_each. intros acc i.
  apply reads_only_bind; [apply reads_only_partEntry_at|]. intros l.
  apply reads_only_bind; [apply reads_only_read_entry|]. intros e.
  apply reads_only_bind; [apply reads_only_header_field|]. intros s'.
  apply reads_only_lift.
Qed.

Lemma reads_only_getPartitions this : reads_only (GPT.getPartitions this).
Proof.
  unfold GPT.getPartitions, GPT.entries.
  apply reads_only_bind; [|intros es; apply reads_only_ret].
  apply reads_only_bind; [apply reads_only_read_gpt|]. intros g.
  apply reads_only_bind; [apply reads_only_read_array|]. intros a.
  apply reads_only_map_each. intros l. apply reads_only_read_entry.
Qed.

(** The getters, [partEntriesSectors], [buildPartEntries], [getPartitions],
    [locatePartition], [getPartitionsInfo] and [getActiveSlot] change
    nothing that exists: every GPT instance, header view, entry view and
    entry array is afterwards as it was, and nothing is logged, whatever
    the receiver is and whether the call returns or throws. The byte array,
    the lists, the sets and the partition objects these methods build are
    what they return: values of the model, not objects of its store, so of
    them this says nothing. *)
Theorem observers_leave_the_store_alone this :
  (forall field : GPTHeader.t -> Z, reads_only (GPT.header_field this field)) /\
  reads_only (GPT.partEntriesSectors this) /\
  reads_only (GPT.buildPartEntries this) /\
  reads_only (GPT.getPartitions this) /\
  (forall name, reads_only (GPT.locatePartition this name)) /\
  reads_only (GPT.getPartitionsInfo this) /\
  reads_only (GPT.getActiveSlot this).
Proof.
  split; [intros field; apply reads_only_header_field|].
  split.
  { unfold GPT.partEntriesSectors, GPT.numPartEntries, GPT.partEntrySize.
    apply reads_only_bind; [apply reads_only_header_field|]. intros n.
    apply reads_only_bind; [apply reads_only_header_field|]. intros s.
    apply reads_only_bind; [apply reads_only_read_gpt|]. intros g.
    apply reads_only_ret. }
  split; [apply reads_only_buildPartEntries|].
  split; [apply reads_only_getPartitions|].
  split.
  { intros name. unfold GPT.locatePartition.
    apply reads_only_bind; [apply reads_only_getPartitions|].
    intros ps. apply reads_only_ret. }
  split.
  { unfold GPT.getPartitionsInfo.
    apply reads_only_bind; [apply reads_only_read_gpt|]. intros g.
    apply reads_only_bind; [apply reads_only_read_array|]. intros a.
    apply reads_only_fold_each. intros [partitions slots] l.
    unfold GPT.getPartitionsInfo_entry.
    apply reads_only_bind; [apply reads_only_read_entry|]. intros e.
    destruct (js_eqb _ _); apply reads_only_ret. }
  unfold GPT.getActiveSlot.
  apply reads_only_bind; [apply reads_only_read_gpt|]. intros g.
  apply reads_only_bind; [apply reads_only_read_array|]. intros a.
  apply reads_only_bind; [|intros best; apply reads_only_ret].
  apply reads_only_fold_each. intros [bestSlot bestPriority] l.
  unfold GPT.getActiveSlot_entry.
  apply reads_only_bind; [apply reads_only_read_entry|]. intros e.
  repeat match goal with
         | |- reads_only (if ?b then _ else _) => destruct b
         | |- reads_only (let _ := _ in _) => cbv zeta
         end; apply reads_only_ret.
Qed.

(** ** Before [parseHeader] *)

Lemma header_ref_unset σ this g :
  heap σ !! this = Some (ObjGPT g) -> header g = None ->
  GPT.header_ref this σ = (Throw TypeError, σ).
Proof.
  intros Hg Hh. unfold GPT.header_ref, bind. rewrite read_gpt_run.
  apply gpt_at_Some in Hg. rewrite Hg, Hh. reflexivity.
Qed.

Lemma header_field_unset {A} σ this g (field : GPTHeader.t -> A) :
  heap σ !! this = Some (ObjGPT g) -> header g = None ->
  GPT.header_field this field σ = (Throw TypeError, σ).
Proof.
  intros Hg Hh. unfold GPT.header_field.
  apply bind_throw. apply (header_ref_unset σ this g Hg Hh).
Qed.

Lemma snapshot_no_header σ this v :
  snapshot σ this = Some v -> value_header v = None ->
  exists g, heap σ !! this = Some (ObjGPT g) /\ header g = None.
Proof.
  intros Hsnap Hnone. apply snapshot_Some in Hsnap.
  destruct Hsnap as (g & a & Hg & _ & _ & _ & Hh).
  exists g. split; [apply gpt_at_Some, Hg|].
  destruct (header g) as [hl|]; [|reflexivity].
  destruct Hh as (h & _ & Hv). congruence.
Qed.

(** While [#header] is undefined, that is until [parseHeader] has been
    called, every method that reads the header throws a [TypeError] and
    changes nothing: the getters, [partEntriesSectors], [buildPartEntries],
    [buildHeader] with or without entry bytes, [parsePartEntries] and
    [asAlternate]. *)
Theorem header_methods_need_parseHeader σ this v :
  snapshot σ this = Some v ->
  value_header v = None ->
  (forall field : GPTHeader.t -> Z,
     GPT.header_field this field σ = (Throw TypeError, σ)) /\
  GPT.partEntriesSectors this σ = (Throw TypeError, σ) /\
  GPT.buildPartEntries this σ = (Throw TypeError, σ) /\
  (forall arg, GPT.buildHeader this arg σ = (Throw TypeError, σ)) /\
  (forall data, GPT.parsePartEntries this data σ = (Throw TypeError, σ)) /\
  GPT.asAlternate this σ = (Throw TypeError, σ).
Proof.
  intros Hsnap Hnone.
  destruct (snapshot_no_header σ this v Hsnap Hnone) as (g & Hg & Hh).
  assert (Hfield : forall A (field : GPTHeader.t -> A),
            GPT.header_field this field σ = (Throw TypeError, σ))
    by (intros A field; apply (header_field_unset σ this g field Hg Hh)).
  assert (Hbuild : GPT.buildPartEntries this σ = (Throw TypeError, σ)).
  { unfold GPT.buildPartEntries, GPT.numPartEntries. apply bind_throw, Hfield. }
  split; [intros field; apply Hfield|].
  split.
  { unfold GPT.partEntriesSectors, GPT.numPartEntries. apply bind_throw, Hfield. }
  split; [exact Hbuild|].
  split.
  { intros arg. rewrite buildHeader_unfold. destruct arg as [bytes|].
    - unfold ret. apply bind_throw. unfold GPT.set_header_field.
      apply bind_throw. apply (header_ref_unset σ this g Hg Hh).
    - rewrite Hbuild. reflexivity. }
  split.
  { intros data. unfold GPT.parsePartEntries. apply bind_throw, Hfield. }
  unfold GPT.asAlternate. apply bind_throw. apply (header_ref_unset σ this g Hg Hh).
Qed.

Lemma header_methods_need_parseHeader_witness :
  exists gpt σ,
    GPT.new SECTOR_SIZE empty_state = (Ok gpt, σ) /\
    GPT.asAlternate gpt σ = (Throw TypeError, σ).
Proof.
  destruct (GPT.new SECTOR_SIZE empty_state) as [[gpt|e] σ] eqn:Hnew;
    [|vm_compute in Hnew; discriminate].
  pose proof Hnew as Hvalue. vm_compute in Hvalue. injection Hvalue as Hgpt Hσ.
  exists gpt, σ. split; [reflexivity|].
  assert (Hsnap : snapshot σ gpt =
                  Some {| value_sectorSize := SECTOR_SIZE; value_header := None;
                          value_entries := [] |}).
  { rewrite <- Hgpt, <- Hσ. vm_compute. reflexivity. }
  apply (header_methods_need_parseHeader σ gpt _ Hsnap eq_refl).
Defined.

(** ** [locatePartition] and [getPartitionsInfo] *)

Lemma partitions_of_cons e es :
  partitions_of (e :: es) =
    if used e then GPT.partition_of e :: partitions_of es else partitions_of es.
Proof.
  unfold partitions_of, used. cbn [filter]. rewrite filter_cons.
  destruct (negb (js_eqb (GPTPartitionEntry.type e) TYPE_EFI_UNUSED)) eqn:Hu.
  - rewrite decide_True by reflexivity. reflexivity.
  - rewrite decide_False by discriminate. reflexivity.
Qed.

Lemma find_partition es name :
  match find (fun p => js_eqb (part_name p) name) (partitions_of es) with
  | None =>
      forall e, e ∈ es -> used e = true -> GPTPartitionEntry.name e <> name
  | Some p =>
      exists (i : nat) e,
        es !! i = Some e /\ used e = true /\ GPTPartitionEntry.name e = name /\
        p = GPT.partition_of e /\
        forall (j : nat) e',
          (j < i)%nat -> es !! j = Some e' -> used e' = true ->
          GPTPartitionEntry.name e' <> name
  end.
Proof.
  induction es as [|e es IH].
  - cbn. intros e He. inversion He.
  - rewrite partitions_of_cons. destruct (used e) eqn:Hu.
    + cbn [find]. change (part_name (GPT.partition_of e)) with (GPTPartitionEntry.name e).
      unfold js_eqb at 1. destruct (decide (GPTPartitionEntry.name e = name)) as [Hn|Hn].
      * rewrite bool_decide_eq_true_2 by exact Hn.
        exists 0%nat, e. repeat split; auto. intros j e' Hj. lia.
      * rewrite bool_decide_eq_false_2 by exact Hn.
        destruct (find _ (partitions_of es)) as [p|].
        -- destruct IH as (i & e1 & Hi & Hu1 & Hn1 & Hp & Hfirst).
           exists (S i), e1. repeat split; auto.
           intros [|j] e' Hj Hj' Hu'; cbn in Hj'.
           ++ inversion Hj'; subst e'. exact Hn.
           ++ apply (Hfirst j e'); [lia|exact Hj'|exact Hu'].
        -- intros e' He'. apply elem_of_cons in He' as [-> | He']; [intros _; exact Hn|].
           apply IH, He'.
    + destruct (find _ (partitions_of es)) as [p|].
      * destruct IH as (i & e1 & Hi & Hu1 & Hn1 & Hp & Hfirst).
        exists (S i), e1. repeat split; auto.
        intros [|j] e' Hj Hj' Hu'; cbn in Hj'.
        -- inversion Hj'; subst e'. congruence.
        -- apply (Hfirst j e'); [lia|exact Hj'|exact Hu'].
      * intros e' He'. apply elem_of_cons in He' as [-> | He']; [congruence|].
        apply IH, He'.
Qed.

(** [locatePartition(name)] returns the partition of the first entry in use
    that has this name, in stored order, and [undefined] exactly when no
    entry in use has it; an unused entry is never found, whatever its
    name. *)
Theorem locatePartition_finds_first_used_entry σ this v name :
  snapshot σ this = Some v ->
  exists r,
    GPT.locatePartition this name σ = (Ok r, σ) /\
    (r = None <->
     forall e, e ∈ value_entries v -> used e = true -> GPTPartitionEntry.name e <> name) /\
    (forall p, r = Some p ->
       exists (i : nat) e,
         value_entries v !! i = Some e /\ used e = true /\
         GPTPartitionEntry.name e = name /\ p = GPT.partition_of e /\
         forall (j : nat) e',
           (j < i)%nat -> value_entries v !! j = Some e' -> used e' = true ->
           GPTPartitionEntry.name e' <> name).
Proof.
  intros Hsnap. unfold GPT.locatePartition, bind.
  rewrite (getPartitions_run σ this v Hsnap). unfold ret.
  eexists. split; [reflexivity|].
  pose proof (find_partition (value_entries v) name) as Hfind.
  destruct (find _ (partitions_of (value_entries v))) as [p|].
  - split.
    + split; [discriminate|]. intros Hnone.
      destruct Hfind as (i & e & Hi & Hu & Hn & _).
      exfalso. apply (Hnone e); [eapply list_elem_of_lookup_2; exact Hi|exact Hu|exact Hn].
    + intros p' [= <-]. exact Hfind.
  - split; [split; auto|]. intros p' Hp'. discriminate.
Qed.

Lemma locatePartition_finds_first_used_entry_witness :
  exists p σ,
    GPT.locatePartition (test_gpt LUN4_PARTITIONS) (js "aop_b") (test_state LUN4_PARTITIONS) =
      (Ok (Some p), σ) /\
    part_name p = js "aop_b".
Proof.
  destruct (snapshot (test_state LUN4_PARTITIONS) (test_gpt LUN4_PARTITIONS))
    as [v|] eqn:Hv; [|vm_compute in Hv; discriminate].
  destruct (locatePartition_finds_first_used_entry
              (test_state LUN4_PARTITIONS) (test_gpt LUN4_PARTITIONS) v (js "aop_b") Hv)
    as (r & Hrun & _ & Hsome).
  destruct r as [p|].
  - exists p, (test_state LUN4_PARTITIONS). split; [exact Hrun|].
    destruct (Hsome p eq_refl) as (i & e & _ & _ & Hname & -> & _). exact Hname.
  - exfalso. revert Hrun. vm_compute. discriminate.
Defined.

Lemma getPartitionsInfo_entry_run sets l σ :
  GPT.getPartitionsInfo_entry sets l σ =
    (match entry_at (heap σ) l with
     | Some e => Ok (info_step sets e)
     | None => Throw TypeError
     end, σ).
Proof.
  destruct sets as [partitions slots].
  unfold GPT.getPartitionsInfo_entry, bind. rewrite read_entry_run.
  destruct (entry_at (heap σ) l) as [e|]; [|reflexivity].
  unfold info_step, used. cbn [fst snd].
  destruct (js_eqb (GPTPartitionEntry.type e) TYPE_EFI_UNUSED); reflexivity.
Qed.

Lemma getPartitionsInfo_loop ls :
  forall es sets σ,
    entries_at (heap σ) ls = Some es ->
    fold_each ls GPT.getPartitionsInfo_entry sets σ = (Ok (fold_left info_step es sets), σ).
Proof.
  induction ls as [|l r IH]; intros es sets σ Hes; cbn [entries_at] in Hes.
  - inversion Hes. reflexivity.
  - destruct (entry_at (heap σ) l) as [e|] eqn:He; [|discriminate].
    destruct (entries_at (heap σ) r) as [es'|] eqn:Hr; [|discriminate].
    inversion Hes; subst es. cbn [fold_each fold_left]. unfold bind.
    rewrite getPartitionsInfo_entry_run, He. apply IH, Hr.
Qed.

Lemma elem_of_Set_add x y s : y ∈ Set_add x s <-> y = x \/ y ∈ s.
Proof.
  unfold Set_add. destruct (bool_decide (x ∈ s)) eqn:Hx.
  - apply bool_decide_eq_true in Hx. split; [auto|]. intros [-> | H]; assumption.
  - rewrite elem_of_app, list_elem_of_singleton. tauto.
Qed.

Lemma NoDup_Set_add x s : NoDup s -> NoDup (Set_add x s).
Proof.
  intros Hs. unfold Set_add. destruct (bool_decide (x ∈ s)) eqn:Hx; [exact Hs|].
  apply bool_decide_eq_false in Hx. apply NoDup_app. split; [exact Hs|].
  split; [|apply NoDup_singleton].
  intros y Hy Hy'. apply list_elem_of_singleton in Hy'. subst y. contradiction.
Qed.

(** What the loop adds to the two sets. *)
Lemma info_fold es :
  forall sets,
    NoDup (fst sets) -> NoDup (snd sets) ->
    let sets' := fold_left info_step es sets in
    NoDup (fst sets') /\ NoDup (snd sets') /\
    (forall n, n ∈ fst sets' <->
       n ∈ fst sets \/
       exists e, e ∈ es /\ used e = true /\ GPTPartitionEntry.name e = n) /\
    (forall x, x ∈ snd sets' <->
       x ∈ snd sets \/
       (x = js "a" /\
        exists e, e ∈ es /\ used e = true /\
                  endsWith (GPTPartitionEntry.name e) (js "_a") = true) \/
       (x = js "b" /\
        exists e, e ∈ es /\ used e = true /\
                  endsWith (GPTPartitionEntry.name e) (js "_b") = true)).
Proof.
  induction es as [|e es IH]; intros sets Hp Hs; cbn [fold_left].
  - cbv zeta. split; [exact Hp|]. split; [exact Hs|]. split.
    + intros n. split; [auto|]. intros [H|(e & He & _)]; [exact H|inversion He].
    + intros x. split; [auto|].
      intros [H|[(_ & e & He & _)|(_ & e & He & _)]]; [exact H|inversion He..].
  - assert (Hstep : NoDup (fst (info_step sets e)) /\ NoDup (snd (info_step sets e)) /\
              (forall n, n ∈ fst (info_step sets e) <->
                 n ∈ fst sets \/ (used e = true /\ GPTPartitionEntry.name e = n)) /\
              (forall x, x ∈ snd (info_step sets e) <->
                 x ∈ snd sets \/
                 (x = js "a" /\ used e = true /\
                  endsWith (GPTPartitionEntry.name e) (js "_a") = true) \/
                 (x = js "b" /\ used e = true /\
                  endsWith (GPTPartitionEntry.name e) (js "_b") = true))).
    { unfold info_step. destruct (used e) eqn:Hu; cbn [fst snd].
      - split; [apply NoDup_Set_add, Hp|]. split.
        { destruct (endsWith _ (js "_a")), (endsWith _ (js "_b"));
            repeat apply NoDup_Set_add; exact Hs. }
        split.
        + intros n. rewrite elem_of_Set_add. split.
          * intros [-> | H]; [right; auto|left; exact H].
          * intros [H|(_ & <-)]; [right; exact H|left; reflexivity].
        + intros x.
          destruct (endsWith _ (js "_a")) eqn:Ha, (endsWith _ (js "_b")) eqn:Hb;
            rewrite ?elem_of_Set_add; intuition congruence.
      - split; [exact Hp|]. split; [exact Hs|]. split.
        + intros n. intuition congruence.
        + intros x. intuition congruence. }
    destruct Hstep as (Hp1 & Hs1 & Hn1 & Hx1).
    destruct (IH (info_step sets e) Hp1 Hs1) as (Hp2 & Hs2 & Hn2 & Hx2).
    cbv zeta in *. split; [exact Hp2|]. split; [exact Hs2|]. split.
    + intros n. rewrite Hn2, Hn1. split.
      * intros [[H|(Hu & Hn)]|(e' & He' & Hu' & Hn')].
        -- left; exact H.
        -- right. exists e. split; [left|auto].
        -- right. exists e'. split; [right; exact He'|auto].
      * intros [H|(e' & He' & Hu' & Hn')]; [left; left; exact H|].
        apply elem_of_cons in He' as [-> | He'].
        -- left; right; auto.
        -- right. exists e'. auto.
    + intros x. rewrite Hx2, Hx1. split.
      * intros [[H|[(Hx & Hu & Ha)|(Hx & Hu & Hb)]]
               |[(Hx & e' & He' & Hu' & Ha')|(Hx & e' & He' & Hu' & Hb')]].
        -- left; exact H.
        -- right; left. split; [exact Hx|]. exists e. split; [left|auto].
        -- right; right. split; [exact Hx|]. exists e. split; [left|auto].
        -- right; left. split; [exact Hx|]. exists e'. split; [right; exact He'|auto].
        -- right; right. split; [exact Hx|]. exists e'. split; [right; exact He'|auto].
      * intros [H|[(Hx & e' & He' & Hu' & Ha')|(Hx & e' & He' & Hu' & Hb')]].
        -- left; left; exact H.
        -- apply elem_of_cons in He' as [-> | He'].
           ++ left; right; left. auto.
           ++ right; left. split; [exact Hx|]. exists e'. auto.
        -- apply elem_of_cons in He' as [-> | He'].
           ++ left; right; right. auto.
           ++ right; right. split; [exact Hx|]. exists e'. auto.
Qed.

(** [getPartitionsInfo] returns two sets without repetition: the names of
    the entries in use, and the slots, where ["a"] is a slot exactly when an
    entry in use has a name ending in ["_a"], likewise ["b"], and nothing
    else is ever a slot. *)
Theorem getPartitionsInfo_collects_names_and_slots σ this v :
  snapshot σ this = Some v ->
  exists partitions slots,
    GPT.getPartitionsInfo this σ = (Ok (partitions, slots), σ) /\
    NoDup partitions /\ NoDup slots /\
    (forall n, n ∈ partitions <->
       exists e, e ∈ value_entries v /\ used e = true /\ GPTPartitionEntry.name e = n) /\
    (forall x, x ∈ slots <->
       (x = js "a" /\
        exists e, e ∈ value_entries v /\ used e = true /\
                  endsWith (GPTPartitionEntry.name e) (js "_a") = true) \/
       (x = js "b" /\
        exists e, e ∈ value_entries v /\ used e = true /\
                  endsWith (GPTPartitionEntry.name e) (js "_b") = true)).
Proof.
  intros Hsnap. apply snapshot_Some in Hsnap.
  destruct Hsnap as (g & a & Hg & Ha & Hes & _ & _).
  unfold GPT.getPartitionsInfo, bind.
  rewrite read_gpt_run, Hg, read_array_run, Ha.
  rewrite (getPartitionsInfo_loop a _ ([], []) σ Hes).
  destruct (info_fold (value_entries v) ([], [])) as (Hp & Hs & Hn & Hx);
    [apply NoDup_nil_2..|].
  cbv zeta in *. destruct (fold_left info_step (value_entries v) ([], []))
    as [partitions slots]. cbn [fst snd] in *.
  exists partitions, slots. split; [reflexivity|].
  split; [exact Hp|]. split; [exact Hs|]. split.
  - intros n. rewrite Hn. split; [|auto]. intros [H|H]; [inversion H|exact H].
  - intros x. rewrite Hx. split; [|auto]. intros [H|H]; [inversion H|exact H].
Qed.

Lemma getPartitionsInfo_collects_names_and_slots_witness :
  exists partitions slots σ,
    GPT.getPartitionsInfo (test_gpt LUN4_PARTITIONS) (test_state LUN4_PARTITIONS) =
      (Ok (partitions, slots), σ) /\
    NoDup slots.
Proof.
  destruct (snapshot (test_state LUN4_PARTITIONS) (test_gpt LUN4_PARTITIONS))
    as [v|] eqn:Hv; [|vm_compute in Hv; discriminate].
  destruct (getPartitionsInfo_collects_names_and_slots
              (test_state LUN4_PARTITIONS) (test_gpt LUN4_PARTITIONS) v Hv)
    as (partitions & slots & Hrun & _ & Hs & _).
  exists partitions, slots, (test_state LUN4_PARTITIONS). split; [exact Hrun|exact Hs].
Defined.

(** ** [parseABFlags] *)

Lemma triesRemaining_range a : 0 <= triesRemaining (parseABFlags a) <= 7.
Proof.
  assert (H : triesRemaining (parseABFlags a) = (a / 2 ^ 51) mod 2 ^ 3).
  { apply Z.bits_inj'; intros i Hi. rewrite triesRemaining_bits by lia.
    destruct (Z.ltb_spec i 3).
    - rewrite Z.mod_pow2_bits_low, Z.div_pow2_bits, andb_true_r by lia. reflexivity.
    - rewrite Z.mod_pow2_bits_high, andb_false_r by lia. reflexivity. }
  rewrite H. pose proof (Z.mod_pos_bound (a / 2 ^ 51) (2 ^ 3) ltac:(lia)). lia.
Qed.

(** The five flags are exactly the information in bits 48 to 55 of the
    attribute word: two words give the same flags if and only if they agree
    on these eight bits, whatever else they hold; the priority is one of 0
    to 3 and the retry count one of 0 to 7. *)
Theorem parseABFlags_reads_bits_48_to_55 a b :
  (parseABFlags a = parseABFlags b <->
   forall i, 48 <= i <= 55 -> Z.testbit a i = Z.testbit b i) /\
  0 <= priority (parseABFlags a) <= 3 /\
  0 <= triesRemaining (parseABFlags a) <= 7.
Proof.
  split; [|split; [apply priority_range|apply triesRemaining_range]].
  split.
  - intros Heq i Hi.
    assert (Hp : forall j, 0 <= j -> Z.testbit a (j + 48) && (j <? 2) =
                                     Z.testbit b (j + 48) && (j <? 2))
      by (intros j Hj; rewrite <- !priority_bits, Heq by lia; reflexivity).
    assert (Ht : forall j, 0 <= j -> Z.testbit a (j + 51) && (j <? 3) =
                                     Z.testbit b (j + 51) && (j <? 3))
      by (intros j Hj; rewrite <- !triesRemaining_bits, Heq by lia; reflexivity).
    assert (Ha : Z.testbit a 50 = Z.testbit b 50)
      by (rewrite <- !active_bit, Heq; reflexivity).
    assert (Hs : Z.testbit a 54 = Z.testbit b 54)
      by (rewrite <- !successful_bit, Heq; reflexivity).
    assert (Hu : Z.testbit a 55 = Z.testbit b 55)
      by (rewrite <- !unbootable_bit, Heq; reflexivity).
    assert (Hcases : i = 48 \/ i = 49 \/ i = 50 \/ i = 51 \/ i = 52 \/ i = 53 \/
                     i = 54 \/ i = 55) by lia.
    destruct Hcases as [-> |[-> |[-> |[-> |[-> |[-> |[-> | ->]]]]]]]; try assumption.
    + specialize (Hp 0 ltac:(lia)). cbn in Hp. rewrite !andb_true_r in Hp. exact Hp.
    + specialize (Hp 1 ltac:(lia)). cbn in Hp. rewrite !andb_true_r in Hp. exact Hp.
    + specialize (Ht 0 ltac:(lia)). cbn in Ht. rewrite !andb_true_r in Ht. exact Ht.
    + specialize (Ht 1 ltac:(lia)). cbn in Ht. rewrite !andb_true_r in Ht. exact Ht.
    + specialize (Ht 2 ltac:(lia)). cbn in Ht. rewrite !andb_true_r in Ht. exact Ht.
  - intros Hbits.
    assert (Hp : priority (parseABFlags a) = priority (parseABFlags b)).
    { apply Z.bits_inj'; intros i Hi. rewrite !priority_bits by lia.
      destruct (Z.ltb_spec i 2); [|rewrite !andb_false_r; reflexivity].
      rewrite (Hbits (i + 48)) by lia. reflexivity. }
    assert (Ht : triesRemaining (parseABFlags a) = triesRemaining (parseABFlags b)).
    { apply Z.bits_inj'; intros i Hi. rewrite !triesRemaining_bits by lia.
      destruct (Z.ltb_spec i 3); [|rewrite !andb_false_r; reflexivity].
      rewrite (Hbits (i + 51)) by lia. reflexivity. }
    assert (Ha : active (parseABFlags a) = active (parseABFlags b))
      by (rewrite !active_bit; apply Hbits; lia).
    assert (Hs : successful (parseABFlags a) = successful (parseABFlags b))
      by (rewrite !successful_bit; apply Hbits; lia).
    assert (Hu : unbootable (parseABFlags a) = unbootable (parseABFlags b))
      by (rewrite !unbootable_bit; apply Hbits; lia).
    unfold parseABFlags in *. cbn [priority triesRemaining active successful unbootable] in *.
    f_equal; assumption.
Qed.

(** ** [buildPartEntries]: the layout of the entry array *)

Lemma upto_S (k : nat) : upto (Z.of_nat (S k)) = upto (Z.of_nat k) ++ [Z.of_nat k].
Proof. unfold upto. rewrite !Nat2Z.id, seq_S, map_app. reflexivity. Qed.

Lemma length_padded_entry s e :
  128 <= s -> length (padded_entry s e) = Z.to_nat s.
Proof.
  intros Hs. unfold padded_entry.
  rewrite length_app, length_entry_toBuffer, length_replicate.
  unfold GPTPartitionEntry.size. lia.
Qed.

Lemma length_padded_entries s es :
  128 <= s ->
  length (concat (map (padded_entry s) es)) = (length es * Z.to_nat s)%nat.
Proof.
  intros Hs. induction es as [|e es IH]; [reflexivity|].
  cbn [map concat length]. rewrite length_app, IH, length_padded_entry by exact Hs. lia.
Qed.

(** The array after the first [k] iterations of the loop. *)
Lemma layout_fold h es (N k : nat) :
  128 <= GPTHeader.partEntrySize h ->
  (k <= length es)%nat ->
  (k * Z.to_nat (GPTHeader.partEntrySize h) <= N)%nat ->
  fold_left (canonical_step h es) (upto (Z.of_nat k)) (Ok (replicate N x00)) =
    Ok (concat (map (padded_entry (GPTHeader.partEntrySize h)) (take k es)) ++
        replicate (N - k * Z.to_nat (GPTHeader.partEntrySize h)) x00).
Proof.
  set (s := GPTHeader.partEntrySize h). intros Hs.
  induction k as [|k IH]; intros Hk HN.
  - cbn. rewrite Nat.sub_0_r. reflexivity.
  - rewrite upto_S, fold_left_app, IH by lia. cbn [fold_left canonical_step].
    rewrite Nat2Z.id.
    destruct (lookup_lt_is_Some_2 es k ltac:(lia)) as (e & He). rewrite He.
    set (P := concat (map (padded_entry s) (take k es))).
    assert (HP : length P = (k * Z.to_nat s)%nat).
    { subst P. rewrite length_padded_entries by exact Hs.
      rewrite length_take. f_equal. lia. }
    fold s. unfold Uint8Array_set.
    rewrite length_app, length_replicate, length_entry_toBuffer, HP.
    unfold GPTPartitionEntry.size.
    destruct (Z.ltb_spec (Z.of_nat k * s) 0) as [Hneg|_]; [nia|].
    destruct (Z.ltb_spec (Z.of_nat (k * Z.to_nat s + (N - k * Z.to_nat s)))
                (Z.of_nat k * s + Z.of_nat 128)) as [Hover|_]; [nia|].
    cbn [orb]. f_equal.
    replace (Z.to_nat (Z.of_nat k * s)) with (k * Z.to_nat s)%nat by nia.
    rewrite take_app_length' by (symmetry; exact HP).
    rewrite drop_app_add' by (symmetry; exact HP). rewrite drop_replicate.
    rewrite (take_S_r _ _ _ He), map_app, concat_app. cbn [map concat].
    rewrite app_nil_r. fold P. unfold padded_entry.
    rewrite <- !app_assoc. f_equal. f_equal. rewrite <- replicate_add.
    unfold GPTPartitionEntry.size. f_equal. nia.
Qed.

Lemma canonical_fold_last h es ixs i array bytes :
  fold_left (canonical_step h es) (ixs ++ [i]) (Ok array) = Ok bytes ->
  0 <= i * GPTHeader.partEntrySize h /\
  (Z.to_nat i < length es)%nat /\
  i * GPTHeader.partEntrySize h + 128 <= Z.of_nat (length array).
Proof.
  rewrite fold_left_app. cbn [fold_left].
  destruct (fold_left (canonical_step h es) ixs (Ok array)) as [mid|e] eqn:Hmid;
    [|discriminate].
  apply canonical_fold_length in Hmid. cbn [canonical_step].
  destruct (es !! Z.to_nat i) as [e|] eqn:He; [|discriminate].
  unfold Uint8Array_set. rewrite length_entry_toBuffer, Hmid.
  unfold GPTPartitionEntry.size.
  destruct (Z.ltb_spec (i * GPTHeader.partEntrySize h) 0); [discriminate|].
  destruct (Z.ltb_spec (Z.of_nat (length array))
              (i * GPTHeader.partEntrySize h + Z.of_nat 128)); [discriminate|].
  intros _. split; [lia|]. split; [|lia].
  apply lookup_lt_Some in He. exact He.
Qed.

(** What a successful layout needs of the header and of the entries. *)
Lemma canonical_entries_Ok_inv h es bytes :
  canonical_entries h es = Ok bytes ->
  0 <= GPTHeader.numPartEntries h * GPTHeader.partEntrySize h <= MAX_SAFE_INTEGER /\
  (0 < GPTHeader.numPartEntries h ->
   128 <= GPTHeader.partEntrySize h /\
   GPTHeader.numPartEntries h <= Z.of_nat (length es)).
Proof.
  set (n := GPTHeader.numPartEntries h). set (s := GPTHeader.partEntrySize h).
  intros Hbytes.
  destruct (canonical_entries_length h es bytes Hbytes) as (Hlen & Hrange).
  fold n s in Hlen, Hrange. split; [exact Hrange|]. intros Hn.
  unfold canonical_entries, new_Uint8Array in Hbytes. fold n s in Hbytes.
  destruct ((n * s <? 0) || (MAX_SAFE_INTEGER <? n * s)); [discriminate|].
  assert (Hupto : upto n = upto (Z.of_nat (Z.to_nat n - 1)) ++ [n - 1]).
  { rewrite <- (Z2Nat.id n) at 1 by lia.
    replace (Z.to_nat n) with (S (Z.to_nat n - 1)) at 1 by lia.
    rewrite upto_S. f_equal. f_equal. lia. }
  rewrite Hupto in Hbytes.
  apply canonical_fold_last in Hbytes as (_ & Hlast & Hfit).
  rewrite length_replicate in Hfit. fold s in Hfit. split; [nia|lia].
Qed.

(** The array laid out when these conditions hold. *)
Lemma canonical_entries_layout h es :
  0 <= GPTHeader.numPartEntries h * GPTHeader.partEntrySize h <= MAX_SAFE_INTEGER ->
  (0 < GPTHeader.numPartEntries h ->
   128 <= GPTHeader.partEntrySize h /\
   GPTHeader.numPartEntries h <= Z.of_nat (length es)) ->
  canonical_entries h es =
    Ok (if 0 <=? GPTHeader.numPartEntries h
        then concat (map (padded_entry (GPTHeader.partEntrySize h))
                       (take (Z.to_nat (GPTHeader.numPartEntries h)) es))
        else replicate (Z.to_nat (GPTHeader.numPartEntries h * GPTHeader.partEntrySize h))
               x00).
Proof.
  set (n := GPTHeader.numPartEntries h). set (s := GPTHeader.partEntrySize h).
  intros Hlen Hpos. unfold canonical_entries, new_Uint8Array. fold n s.
  destruct (Z.ltb_spec (n * s) 0); [lia|].
  destruct (Z.ltb_spec MAX_SAFE_INTEGER (n * s)); [lia|]. cbn [orb].
  destruct (Z.leb_spec 0 n) as [Hn|Hn].
  - destruct (Z.eq_dec n 0) as [Hz|Hnz].
    + rewrite Hz. cbn. reflexivity.
    + destruct (Hpos ltac:(lia)) as (Hs & Hcount).
      assert (Hup : upto n = upto (Z.of_nat (Z.to_nat n)))
        by (rewrite Z2Nat.id by lia; reflexivity).
      rewrite Hup.
      assert (Hmul : Z.to_nat (n * s) = (Z.to_nat n * Z.to_nat s)%nat)
        by (apply Z2Nat.inj_mul; lia).
      rewrite (layout_fold h es (Z.to_nat (n * s)) (Z.to_nat n)) by (fold s; lia).
      fold s. replace (Z.to_nat (n * s) - Z.to_nat n * Z.to_nat s)%nat with 0%nat by lia.
      cbn [replicate]. rewrite app_nil_r. reflexivity.
  - unfold upto. replace (Z.to_nat n) with 0%nat by lia. reflexivity.
Qed.

(** [buildPartEntries] on a GPT with a header of [n] entries of size [s]
    first allocates an array of [n * s] bytes; when that throws, the call
    throws the same [RangeError]. When the allocation succeeds, the call
    returns exactly when, if there is an entry to write, [s] is at least
    the 128 bytes of an encoded entry and at least [n] entries are stored;
    it throws a [RangeError] or a [TypeError] otherwise. The array it
    returns holds, for each of the first [n] stored entries in order, its
    128 encoded bytes followed by [s - 128] zero bytes; entries stored
    beyond the first [n] are left out. The store is unchanged. *)
Theorem buildPartEntries_lays_out_entries σ this v h :
  snapshot σ this = Some v ->
  value_header v = Some h ->
  let n := GPTHeader.numPartEntries h in
  let s := GPTHeader.partEntrySize h in
  let es := value_entries v in
  exists r,
    GPT.buildPartEntries this σ = (r, σ) /\
    (forall e, new_Uint8Array (n * s) = Throw e -> r = Throw e /\ e = RangeError) /\
    (forall array,
       new_Uint8Array (n * s) = Ok array ->
       ((exists bytes, r = Ok bytes) <->
        (0 < n -> 128 <= s /\ n <= Z.of_nat (length es)))) /\
    (forall e, r = Throw e -> e = RangeError \/ e = TypeError) /\
    (forall bytes, r = Ok bytes -> 0 <= n ->
       bytes = concat (map (padded_entry s) (take (Z.to_nat n) es)) /\
       Z.of_nat (length bytes) = n * s).
Proof.
  intros Hsnap Hh n s es.
  destruct (snapshot_headed _ _ _ _ Hsnap Hh) as (g & hl & ls & Hhd & Ha & Hes & Hss).
  rewrite (buildPartEntries_run _ _ _ _ _ _ _ Hhd Ha Hes). fold es.
  exists (canonical_entries h es). split; [reflexivity|].
  split; [|split; [|split]].
  - intros e He. unfold canonical_entries. fold n s. rewrite He.
    split; [reflexivity|]. unfold new_Uint8Array in He.
    destruct ((n * s <? 0) || (MAX_SAFE_INTEGER <? n * s)); congruence.
  - intros array Harray.
    assert (Hrange : 0 <= n * s <= MAX_SAFE_INTEGER).
    { unfold new_Uint8Array in Harray.
      destruct (Z.ltb_spec (n * s) 0); [discriminate|].
      destruct (Z.ltb_spec MAX_SAFE_INTEGER (n * s)); [discriminate|]. lia. }
    split.
    + intros (bytes & Hbytes). exact (proj2 (canonical_entries_Ok_inv h es bytes Hbytes)).
    + intros Hpos. rewrite (canonical_entries_layout h es Hrange Hpos). eauto.
  - intros e He. eapply canonical_entries_error. exact He.
  - intros bytes Hbytes Hn.
    destruct (canonical_entries_length h es bytes Hbytes) as (Hlen & _).
    fold n s in Hlen. split; [|exact Hlen].
    destruct (canonical_entries_Ok_inv h es bytes Hbytes) as (Hrange & Hpos).
    rewrite (canonical_entries_layout h es Hrange Hpos) in Hbytes. fold n s in Hbytes.
    destruct (Z.leb_spec 0 n); [|lia]. congruence.
Qed.

Lemma buildPartEntries_lays_out_entries_witness :
  exists bytes,
    GPT.buildPartEntries (test_gpt LUN4_PARTITIONS) (test_state LUN4_PARTITIONS) =
      (Ok bytes, test_state LUN4_PARTITIONS) /\
    length bytes = 768%nat.
Proof.
  destruct (snapshot (test_state LUN4_PARTITIONS) (test_gpt LUN4_PARTITIONS))
    as [v|] eqn:Hv; [|vm_compute in Hv; discriminate].
  destruct (value_header v) as [h|] eqn:Hh;
    [|vm_compute in Hv; inversion Hv; subst v; discriminate].
  destruct (buildPartEntries_lays_out_entries
              (test_state LUN4_PARTITIONS) (test_gpt LUN4_PARTITIONS) v h Hv Hh)
    as (r & Hrun & _ & _ & _ & Hlayout).
  destruct r as [bytes|e].
  - exists bytes. split; [exact Hrun|].
    vm_compute in Hv. injection Hv as Hv. subst v. vm_compute in Hh.
    injection Hh as Hh. subst h.
    destruct (Hlayout bytes eq_refl ltac:(vm_compute; discriminate)) as (_ & Hlen).
    cbn [GPTHeader.numPartEntries GPTHeader.partEntrySize] in Hlen. lia.
  - exfalso. revert Hrun. vm_compute. discriminate.
Defined.

(** ** A table without entries *)

Lemma crc32_nil : crc32 [] = 0.
Proof. vm_compute. reflexivity. Qed.

Lemma canonical_entries_none h es :
  GPTHeader.numPartEntries h = 0 -> canonical_entries h es = Ok [].
Proof.
  intros Hn. unfold canonical_entries. rewrite Hn. reflexivity.
Qed.

Lemma with_entries_same v : with_entries (value_entries v) v = v.
Proof. destruct v. reflexivity. Qed.

(** When the header declares zero entries, the entry array is empty and its
    CRC-32 is 0. So [buildHeader()] can never rebuild such a table: it
    stores 0 in the entries-checksum field and throws "partEntriesCrc32 is
    zero". [parsePartEntries] reads nothing from its buffer, stores no
    entry, and reports a mismatch unless the stored entries checksum is
    0. *)
Theorem empty_table_cannot_be_rebuilt σ this v h :
  snapshot σ this = Some v ->
  value_header v = Some h ->
  GPTHeader.numPartEntries h = 0 ->
  GPT.buildPartEntries this σ = (Ok [], σ) /\
  (exists σ',
     GPT.buildHeader this None σ = (Throw Error_partEntriesCrc32IsZero, σ') /\
     snapshot σ' this =
       Some (with_header (Some (GPTHeader.set_partEntriesCrc32 0 h)) v)) /\
  (forall data,
     exists σ',
       GPT.parsePartEntries this data σ =
         (Ok {| result_partEntriesCrc32 := GPTHeader.partEntriesCrc32 h;
                entries_mismatchCrc32 := negb (GPTHeader.partEntriesCrc32 h =? 0) |},
          σ') /\
       snapshot σ' this = Some v).
Proof.
  intros Hsnap Hh Hn.
  destruct (snapshot_headed _ _ _ _ Hsnap Hh) as (g & hl & ls & Hhd & Ha & Hes & Hss).
  assert (Hbuild : GPT.buildPartEntries this σ = (Ok [], σ)).
  { rewrite (buildPartEntries_run _ _ _ _ _ _ _ Hhd Ha Hes).
    rewrite (canonical_entries_none h _ Hn). reflexivity. }
  split; [exact Hbuild|]. split.
  - rewrite buildHeader_unfold, Hbuild.
    rewrite (buildHeader_from_bytes _ _ _ _ _ [] Hhd). rewrite crc32_nil. cbn [Z.eqb].
    eexists. split; [reflexivity|].
    unfold with_entries_checksum. rewrite crc32_nil.
    apply (snapshot_set_header σ this v g hl h _ (logged σ) Hsnap Hhd).
  - intros data.
    destruct (parsePartEntries_value σ this v h data Hsnap Hh)
      as (r & σ' & des & Hrun & Hsnap' & Hres).
    unfold decode_entries in Hres. rewrite Hn in Hres. cbn in Hres.
    destruct Hres as (-> & Hr & _).
    rewrite app_nil_r in Hr, Hsnap'. rewrite with_entries_same in Hsnap'.
    unfold entries_verdict in Hr. rewrite (canonical_entries_none h _ Hn) in Hr.
    cbn [fst] in Hr. rewrite crc32_nil in Hr.
    exists σ'. rewrite Hrun, Hr. split; [reflexivity|exact Hsnap'].
Qed.

Lemma empty_table_cannot_be_rebuilt_witness :
  exists σ',
    GPT.buildHeader (test_gpt []) None (test_state []) =
      (Throw Error_partEntriesCrc32IsZero, σ').
Proof.
  destruct (snapshot (test_state []) (test_gpt [])) as [v|] eqn:Hv;
    [|vm_compute in Hv; discriminate].
  destruct (value_header v) as [h|] eqn:Hh;
    [|vm_compute in Hv; inversion Hv; subst v; discriminate].
  assert (Hn : GPTHeader.numPartEntries h = 0).
  { vm_compute in Hv. injection Hv as Hv. subst v. vm_compute in Hh.
    injection Hh as Hh. subst h. reflexivity. }
  destruct (empty_table_cannot_be_rebuilt (test_state []) (test_gpt []) v h Hv Hh Hn)
    as (_ & (σ' & Hrun & _) & _).
  exists σ'. exact Hrun.
Defined.

(** ** [asAlternate] applied twice *)

(** The alternate of the alternate of a parsed GPT has the current and
    alternate LBAs of the original again, and the original's entries and
    checksums; but its partition-entries start LBA is the low 64 bits of
    the original's current LBA minus the number [k] of sectors of the entry
    array, whatever start LBA the original had: for LBAs within 64 bits
    the difference itself when the current LBA is at least [k], and the
    difference plus [2^64] otherwise, as for a primary table at LBA 1 whose
    entries take two sectors or more. The original is unchanged. *)
Theorem asAlternate_twice σ this v h :
  snapshot σ this = Some v ->
  parsed v h ->
  exists alt σ1 alt2 σ2 h2 k,
    GPT.asAlternate this σ = (Ok alt, σ1) /\
    GPT.asAlternate alt σ1 = (Ok alt2, σ2) /\
    snapshot σ2 alt2 =
      Some {| value_sectorSize := value_sectorSize v;
              value_header := Some h2;
              value_entries := value_entries v |} /\
    GPTHeader.currentLba h2 = asUint64 (GPTHeader.currentLba h) /\
    GPTHeader.alternateLba h2 = asUint64 (GPTHeader.alternateLba h) /\
    GPTHeader.partEntriesStartLba h2 = asUint64 (GPTHeader.currentLba h - k) /\
    (k - 1) * value_sectorSize v
      < GPTHeader.numPartEntries h * GPTHeader.partEntrySize h
      <= k * value_sectorSize v /\
    (0 <= GPTHeader.currentLba h < 2 ^ 64 ->
     0 <= GPTHeader.alternateLba h < 2 ^ 64 ->
     GPTHeader.currentLba h2 = GPTHeader.currentLba h /\
     GPTHeader.alternateLba h2 = GPTHeader.alternateLba h /\
     GPTHeader.partEntriesStartLba h2 =
       if k <=? GPTHeader.currentLba h
       then GPTHeader.currentLba h - k
       else GPTHeader.currentLba h - k + 2 ^ 64) /\
    GPTHeader.headerCrc32 h2 = GPTHeader.headerCrc32 h /\
    GPTHeader.partEntriesCrc32 h2 = GPTHeader.partEntriesCrc32 h /\
    snapshot σ2 this = Some v.
Proof.
  intros Hsnap (Hh & Hsize & Hlen).
  destruct (snapshot_headed _ _ _ _ Hsnap Hh) as (g & hl & ls & Hhd & Harr & Hes & Hss).
  rewrite Hss in *.
  destruct (asAlternate_run σ this g hl h ls _ Hhd Harr Hes ltac:(lia))
    as (alt & σ1 & hl1 & arr1 & clones1 & Hrun1 & Hext1 & _ & _ & _ & _
        & Hcalt & Hchl & Hcarr & Hces).
  set (g1 := {| sectorSize := sectorSize g; header := Some hl1; partEntries := arr1 |}) in *.
  set (h1 := alternate_header (sectorSize g) h) in *.
  assert (Hhd1 : headed σ1 alt g1 hl1 h1) by (split; [exact Hcalt|split; [reflexivity|exact Hchl]]).
  destruct (asAlternate_run σ1 alt g1 hl1 h1 clones1 _ Hhd1 Hcarr Hces ltac:(cbn; lia))
    as (alt2 & σ2 & hl2 & arr2 & clones2 & Hrun2 & Hext2 & _ & _ & _ & _
        & Hcalt2 & Hchl2 & Hcarr2 & Hces2).
  cbn [sectorSize g1] in *.
  exists alt, σ1, alt2, σ2, (alternate_header (sectorSize g) h1),
    (- ((- (GPTHeader.numPartEntries h * GPTHeader.partEntrySize h)) / sectorSize g)).
  split; [exact Hrun1|]. split; [exact Hrun2|]. split.
  { apply snapshot_Some. eexists _, clones2.
    split; [apply gpt_at_Some; exact Hcalt2|]. cbn [partEntries header sectorSize].
    split; [apply array_at_Some; exact Hcarr2|]. split; [exact Hces2|].
    split; [reflexivity|].
    eexists. split; [apply header_at_Some; exact Hchl2|reflexivity]. }
  set (k := - (- (GPTHeader.numPartEntries h * GPTHeader.partEntrySize h) / sectorSize g)).
  assert (Hfields :
    GPTHeader.currentLba (alternate_header (sectorSize g) h1) =
      asUint64 (GPTHeader.currentLba h) /\
    GPTHeader.alternateLba (alternate_header (sectorSize g) h1) =
      asUint64 (GPTHeader.alternateLba h) /\
    GPTHeader.partEntriesStartLba (alternate_header (sectorSize g) h1) =
      asUint64 (GPTHeader.currentLba h - k)).
  { subst h1. unfold alternate_header.
    cbn [GPTHeader.set_partEntriesStartLba GPTHeader.set_alternateLba
         GPTHeader.set_currentLba GPTHeader.currentLba GPTHeader.alternateLba
         GPTHeader.partEntriesStartLba GPTHeader.numPartEntries GPTHeader.partEntrySize].
    fold k. unfold asUint64. rewrite !Z.mod_mod by lia.
    split; [reflexivity|]. split; [reflexivity|].
    apply Zminus_mod_idemp_l. }
  destruct Hfields as (Hf1 & Hf2 & Hf3).
  split; [exact Hf1|]. split; [exact Hf2|]. split; [exact Hf3|].
  pose proof (ceil_quotient_spec
                (GPTHeader.numPartEntries h * GPTHeader.partEntrySize h) (sectorSize g)
                ltac:(lia)) as Hk.
  fold k in Hk. split; [exact Hk|].
  split.
  { intros Hcur Halt. rewrite Hf1, Hf2, Hf3. unfold asUint64.
    rewrite (Z.mod_small _ _ Hcur), (Z.mod_small _ _ Halt).
    split; [reflexivity|]. split; [reflexivity|].
    assert (Hkn : 0 <= k <= GPTHeader.numPartEntries h * GPTHeader.partEntrySize h) by nia.
    unfold MAX_SAFE_INTEGER in Hlen.
    destruct (Z.leb_spec k (GPTHeader.currentLba h)).
    - apply Z.mod_small. lia.
    - rewrite <- (Z.mod_add _ 1) by lia. apply Z.mod_small. lia. }
  do 2 (split; [reflexivity|]).
  destruct (snapshot_extends _ _ _ _ Hsnap Hext1) as (Hs1 & _).
  destruct (snapshot_extends _ _ _ _ Hs1 Hext2) as (Hs2 & _). exact Hs2.
Qed.

Lemma asAlternate_twice_witness :
  exists gpt σ alt σ1 alt2 σ2,
    small_sector_gpt empty_state = (Ok gpt, σ) /\
    GPT.asAlternate gpt σ = (Ok alt, σ1) /\
    GPT.asAlternate alt σ1 = (Ok alt2, σ2) /\
    fst (GPT.currentLba gpt σ) = Ok 1 /\
    fst (GPT.partEntriesStartLba alt2 σ2) = Ok (2 ^ 64 - 5).
Proof.
  destruct (small_sector_gpt empty_state) as [[gpt|e] σ] eqn:Hgpt;
    [|vm_compute in Hgpt; discriminate].
  pose proof Hgpt as Hvalue. vm_compute in Hvalue. injection Hvalue as Hg Hs.
  destruct (snapshot σ gpt) as [v|] eqn:Hv;
    [|rewrite <- Hg, <- Hs in Hv; vm_compute in Hv; discriminate].
  destruct (value_header v) as [h|] eqn:Hh.
  2:{ rewrite <- Hg, <- Hs in Hv. vm_compute in Hv. injection Hv as Hv.
      rewrite <- Hv in Hh. discriminate. }
  assert (Hparsed : parsed v h).
  { split; [exact Hh|].
    pose proof Hv as Hv0. rewrite <- Hg, <- Hs in Hv0. vm_compute in Hv0.
    injection Hv0 as Hv0. rewrite <- Hv0 in Hh |- *.
    cbn [value_header] in Hh. injection Hh as Hh. rewrite <- Hh.
    vm_compute. repeat split; discriminate. }
  destruct (asAlternate_twice σ gpt v h Hv Hparsed)
    as (alt & σ1 & alt2 & σ2 & h2 & k & Hrun1 & Hrun2 & _).
  exists gpt, σ, alt, σ1, alt2, σ2.
  split; [reflexivity|]. split; [exact Hrun1|]. split; [exact Hrun2|].
  split; [rewrite <- Hg, <- Hs; vm_compute; reflexivity|].
  pose proof Hrun1 as Hv1. rewrite <- Hg, <- Hs in Hv1.
  vm_compute in Hv1. injection Hv1 as Halt Hσ1.
  pose proof Hrun2 as Hv2. rewrite <- Halt, <- Hσ1 in Hv2.
  vm_compute in Hv2. injection Hv2 as Halt2 Hσ2.
  rewrite <- Halt2, <- Hσ2. vm_compute. reflexivity.
Defined.

(** ** [getPartitions] *)

Lemma length_hex_fixed w z : length (hex_fixed w z) = w.
Proof.
  revert z. induction w as [|w IH]; intros z; [reflexivity|].
  cbn [hex_fixed]. rewrite length_app, IH. cbn. lia.
Qed.

Lemma hex_fixed_zero w : hex_fixed w 0 = replicate w 48.
Proof.
  induction w as [|w IH]; [reflexivity|].
  cbn [hex_fixed]. change (0 / 16) with 0. rewrite IH.
  change [hex_digit (0 mod 16)] with (replicate 1 48).
  rewrite <- replicate_add. f_equal. lia.
Qed.

Lemma hex_fixed_pad m d z :
  0 <= z < 16 ^ Z.of_nat d ->
  hex_fixed (m + d) z = replicate m 48 ++ hex_fixed d z.
Proof.
  revert z. induction d as [|d IH]; intros z Hz.
  - cbn in Hz. assert (z = 0) by lia. subst z.
    rewrite Nat.add_0_r, hex_fixed_zero, app_nil_r. reflexivity.
  - replace (m + S d)%nat with (S (m + d)) by lia. cbn [hex_fixed].
    rewrite IH.
    + rewrite app_assoc. reflexivity.
    + rewrite Nat2Z.inj_succ, Z.pow_succ_r in Hz by lia.
      split; [apply Z.div_pos; lia|]. apply Z.div_lt_upper_bound; lia.
Qed.

Lemma hex_digits_fixed fuel :
  forall z acc,
    0 <= z < 2 ^ Z.of_nat fuel -> (1 <= fuel)%nat ->
    exists d,
      (1 <= d)%nat /\
      hex_digits fuel z acc = hex_fixed d z ++ acc /\
      z < 16 ^ Z.of_nat d /\
      (d = 1%nat \/ 16 ^ (Z.of_nat d - 1) <= z).
Proof.
  induction fuel as [|f IH]; intros z acc Hz Hf; [lia|].
  cbn [hex_digits]. destruct (Z.eqb_spec (z / 16) 0) as [Hq|Hq].
  - exists 1%nat. split; [lia|]. split.
    + cbn [hex_fixed]. reflexivity.
    + assert (z < 16).
      { destruct (Z.lt_ge_cases z 16) as [H|H]; [exact H|].
        pose proof (Z.div_le_mono 16 z 16 ltac:(lia) H) as Hd.
        change (16 / 16) with 1 in Hd. lia. }
      split; [cbn; lia|left; reflexivity].
  - assert (Hz16 : 16 <= z).
    { destruct (Z.lt_ge_cases z 16) as [H|H]; [|exact H].
      rewrite Z.div_small in Hq by lia. contradiction. }
    assert (Hf2 : (5 <= S f)%nat).
    { destruct (Nat.le_gt_cases 5 (S f)) as [H|H]; [exact H|].
      assert (2 ^ Z.of_nat (S f) <= 2 ^ 4) by (apply Z.pow_le_mono_r; lia). lia. }
    assert (Hq1 : 0 <= z / 16 < 2 ^ Z.of_nat f).
    { split; [apply Z.div_pos; lia|]. apply Z.div_lt_upper_bound; [lia|].
      rewrite Nat2Z.inj_succ, Z.pow_succ_r in Hz by lia. lia. }
    destruct (IH (z / 16) (hex_digit (z mod 16) :: acc) Hq1 ltac:(lia))
      as (d & Hd & Hrun & Hlt & Hge).
    exists (S d). split; [lia|]. split.
    + rewrite Hrun. cbn [hex_fixed]. rewrite <- app_assoc. reflexivity.
    + rewrite Nat2Z.inj_succ, Z.pow_succ_r by lia.
      pose proof (Z.div_mod z 16 ltac:(lia)) as Hdm.
      pose proof (Z.mod_pos_bound z 16 ltac:(lia)) as Hm.
      split; [lia|]. right.
      replace (Z.succ (Z.of_nat d) - 1) with (Z.of_nat d) by lia.
      destruct Hge as [-> |Hge]; [cbn; lia|].
      replace (Z.of_nat d) with (Z.succ (Z.of_nat d - 1)) by lia.
      rewrite Z.pow_succ_r by lia. lia.
Qed.

(** [z.toString(16).padStart(16, "0")] is the sixteen digits of [z]. *)
Lemma toString16_padded z :
  0 <= z < 2 ^ 64 -> padStart0 16 (toString16 z) = hex_fixed 16 z.
Proof.
  intros Hz. unfold toString16. destruct (Z.ltb_spec z 0) as [?|_]; [lia|].
  assert (Hfuel : 0 <= z < 2 ^ Z.of_nat (S (Z.to_nat (Z.log2 z)))).
  { split; [lia|]. rewrite Nat2Z.inj_succ, Z2Nat.id by apply Z.log2_nonneg.
    destruct (Z.eq_dec z 0) as [-> |Hnz]; [cbn; lia|].
    apply Z.log2_spec. lia. }
  destruct (hex_digits_fixed _ z [] Hfuel ltac:(lia)) as (d & Hd & Hrun & Hlt & Hge).
  rewrite Hrun, app_nil_r. unfold padStart0. rewrite length_hex_fixed.
  assert (Hd16 : (d <= 16)%nat).
  { destruct Hge as [-> |Hge]; [lia|].
    destruct (Nat.le_gt_cases d 16) as [H|H]; [exact H|].
    assert (16 ^ 16 <= 16 ^ (Z.of_nat d - 1)) by (apply Z.pow_le_mono_r; lia).
    change (16 ^ 16) with (2 ^ 64) in *. lia. }
  rewrite <- hex_fixed_pad by lia. f_equal. lia.
Qed.

Lemma hex_value_digit v : 0 <= v < 16 -> hex_value (hex_digit v) = v.
Proof.
  intros Hv. unfold hex_digit, hex_value. destruct (Z.ltb_spec v 10).
  - replace ((48 <=? 48 + v) && (48 + v <=? 57)) with true; [lia|].
    symmetry. apply andb_true_iff. split; apply Z.leb_le; lia.
  - replace ((48 <=? 87 + v) && (87 + v <=? 57)) with false.
    + replace ((97 <=? 87 + v) && (87 + v <=? 102)) with true; [lia|].
      symmetry. apply andb_true_iff. split; apply Z.leb_le; lia.
    + symmetry. apply andb_false_iff. right. apply Z.leb_gt. lia.
Qed.

Lemma hex_number_fixed w z : hex_number (hex_fixed w z) = z mod 16 ^ Z.of_nat w.
Proof.
  revert z. induction w as [|w IH]; intros z.
  - cbn. rewrite Z.mod_1_r. reflexivity.
  - cbn [hex_fixed]. unfold hex_number in *. rewrite fold_left_app. cbn [fold_left].
    rewrite IH, hex_value_digit by (apply Z.mod_pos_bound; lia).
    rewrite Nat2Z.inj_succ, Z.pow_succ_r by lia.
    rewrite Z.rem_mul_r by lia. lia.
Qed.

(** [getPartitions] reports the entries in use, in stored order, and leaves
    out the unused ones. Each partition carries the type, unique GUID,
    first and last LBA and name of its entry, the number of sectors
    [end - start + 1], and the attribute word as ["0x"] followed by exactly
    sixteen lowercase hexadecimal digits, which read back as the word. *)
Theorem getPartitions_reports_entries_in_use σ this v :
  snapshot σ this = Some v ->
  exists ps,
    GPT.getPartitions this σ = (Ok ps, σ) /\
    Forall2
      (fun p e =>
         part_type p = GPTPartitionEntry.type e /\
         part_uuid p = GPTPartitionEntry.unique e /\
         part_start p = GPTPartitionEntry.startingLba e /\
         part_end p = GPTPartitionEntry.endingLba e /\
         part_sectors p =
           GPTPartitionEntry.endingLba e - GPTPartitionEntry.startingLba e + 1 /\
         part_name p = GPTPartitionEntry.name e /\
         (0 <= GPTPartitionEntry.attributes e < 2 ^ 64 ->
          part_attributes p = js "0x" ++ hex_fixed 16 (GPTPartitionEntry.attributes e) /\
          length (part_attributes p) = 18%nat /\
          hex_number (drop 2 (part_attributes p)) = GPTPartitionEntry.attributes e))
      ps (filter (fun e => used e = true) (value_entries v)).
Proof.
  intros Hsnap. rewrite (getPartitions_run σ this v Hsnap).
  eexists. split; [reflexivity|].
  unfold partitions_of.
  change (filter (fun e => negb (js_eqb (GPTPartitionEntry.type e) TYPE_EFI_UNUSED) = true)
            (value_entries v))
    with (filter (fun e => used e = true) (value_entries v)).
  generalize (filter (fun e => used e = true) (value_entries v)). intros l.
  induction l as [|e es IH]; cbn [map]; constructor; [|exact IH].
  unfold GPT.partition_of. cbn [part_type part_uuid part_start part_end part_sectors
                                part_name part_attributes].
  repeat (split; [reflexivity|]).
  intros Hrange. rewrite (toString16_padded _ Hrange).
  split; [reflexivity|]. split.
  - rewrite length_app, length_hex_fixed. reflexivity.
  - change (drop 2 (js "0x" ++ ?s)) with s. rewrite hex_number_fixed.
    apply Z.mod_small. change (16 ^ Z.of_nat 16) with (2 ^ 64). exact Hrange.
Qed.

Lemma getPartitions_reports_entries_in_use_witness :
  exists ps,
    GPT.getPartitions (test_gpt LUN4_PARTITIONS) (test_state LUN4_PARTITIONS) =
      (Ok ps, test_state LUN4_PARTITIONS) /\
    length ps = 6%nat.
Proof.
  destruct (snapshot (test_state LUN4_PARTITIONS) (test_gpt LUN4_PARTITIONS))
    as [v|] eqn:Hv; [|vm_compute in Hv; discriminate].
  destruct (getPartitions_reports_entries_in_use
              (test_state LUN4_PARTITIONS) (test_gpt LUN4_PARTITIONS) v Hv)
    as (ps & Hrun & Hall).
  exists ps. split; [exact Hrun|].
  apply Forall2_length in Hall. rewrite Hall.
  vm_compute in Hv. injection Hv as Hv. subst v. vm_compute. reflexivity.
Defined.

(** ** Switching slots *)

Lemma boot_active_after_inactive a :
  GPT.boot_active_attributes (GPT.boot_inactive_attributes a) = GPT.boot_active_attributes a.
Proof.
  apply Z.bits_inj'; intros i Hi. rewrite !boot_active_bits, boot_inactive_bits by lia.
  destruct (Z.leb_spec 48 i), (Z.ltb_spec i 56), (Z.ltb_spec i 51); cbn; try reflexivity; lia.
Qed.

Lemma other_active_after_inactive a :
  GPT.other_active_attributes (GPT.other_inactive_attributes a) =
  GPT.other_active_attributes a.
Proof.
  apply Z.bits_inj'; intros i Hi. rewrite !other_active_bits, other_inactive_bits by lia.
  destruct (i =? 50); reflexivity.
Qed.

Lemma other_inactive_after_active a :
  GPT.other_inactive_attributes (GPT.other_active_attributes a) =
  GPT.other_inactive_attributes a.
Proof.
  apply Z.bits_inj'; intros i Hi. rewrite !other_inactive_bits, other_active_bits by lia.
  destruct (i =? 50); reflexivity.
Qed.

Lemma js_eqb_a_b p : js_eqb p (js "_a") = true -> js_eqb p (js "_b") = false.
Proof.
  unfold js_eqb. intros H. apply bool_decide_eq_true in H. subst p.
  apply bool_decide_eq_false. discriminate.
Qed.

(** One entry through [setActiveSlot(s1)] and then [setActiveSlot(s2)], for
    the two different slots. *)
Lemma slot_update_switch s1 s2 e :
  (s1 = js "a" /\ s2 = js "b") \/ (s1 = js "b" /\ s2 = js "a") ->
  (activated_boot_entry s1 e = false ->
   slot_update s2 (slot_update s1 e) = slot_update s2 e) /\
  (activated_boot_entry s1 e = true ->
   parseABFlags (GPTPartitionEntry.attributes (slot_update s2 (slot_update s1 e))) =
     {| priority := 2; active := false; triesRemaining := 7;
        successful := false; unbootable := false |}).
Proof.
  intros Hslots. unfold activated_boot_entry, used, slot_update.
  rewrite set_attributes_twice, set_attributes_attributes.
  unfold slot_attributes.
  rewrite set_attributes_type, set_attributes_name, set_attributes_attributes.
  set (a := GPTPartitionEntry.attributes e).
  set (p := slice_last 2 (GPTPartitionEntry.name e)).
  destruct (js_eqb (GPTPartitionEntry.type e) TYPE_EFI_UNUSED);
    [split; [reflexivity|discriminate]|].
  cbn [negb andb].
  destruct Hslots as [(-> & ->)|(-> & ->)];
    change (js "_" ++ js "a") with (js "_a"); change (js "_" ++ js "b") with (js "_b");
    destruct (js_eqb p (js "_a")) eqn:Ha.
  - rewrite (js_eqb_a_b p Ha). cbn [negb andb].
    destruct (startsWith (GPTPartitionEntry.name e) (js "boot")); cbn [andb].
    + split; [discriminate|]. intros _.
      rewrite boot_inactive_flags. cbv zeta. rewrite boot_active_flags. reflexivity.
    + split; [|discriminate]. intros _. rewrite other_inactive_after_active. reflexivity.
  - destruct (js_eqb p (js "_b")) eqn:Hb; cbn [negb andb].
    + destruct (startsWith (GPTPartitionEntry.name e) (js "boot")); cbn [andb].
      * split; [|discriminate]. intros _. rewrite boot_active_after_inactive. reflexivity.
      * split; [|discriminate]. intros _. rewrite other_active_after_inactive. reflexivity.
    + rewrite andb_false_r. split; [reflexivity|discriminate].
  - rewrite (js_eqb_a_b p Ha). cbn [negb andb].
    destruct (startsWith (GPTPartitionEntry.name e) (js "boot")); cbn [andb].
    + split; [|discriminate]. intros _. rewrite boot_active_after_inactive. reflexivity.
    + split; [|discriminate]. intros _. rewrite other_active_after_inactive. reflexivity.
  - destruct (js_eqb p (js "_b")) eqn:Hb; cbn [negb andb].
    + destruct (startsWith (GPTPartitionEntry.name e) (js "boot")); cbn [andb].
      * split; [discriminate|]. intros _.
        rewrite boot_inactive_flags. cbv zeta. rewrite boot_active_flags. reflexivity.
      * split; [|discriminate]. intros _. rewrite other_inactive_after_active. reflexivity.
    + rewrite andb_false_r. split; [reflexivity|discriminate].
Qed.

(** [setActiveSlot(s1)] followed by [setActiveSlot(s2)] for the other slot:
    both calls return, and every entry ends as [setActiveSlot(s2)] alone
    would have left it, except the boot entries the first call activated.
    Those end with priority 2, inactive, and with retry count 7, not
    successful and not unbootable, whatever these three were before the
    first call: the second call keeps what the first one wrote. *)
Theorem setActiveSlot_switch_keeps_first_call_flags σ this v s1 s2 :
  snapshot σ this = Some v ->
  (s1 = js "a" /\ s2 = js "b") \/ (s1 = js "b" /\ s2 = js "a") ->
  exists σ1 σ2,
    GPT.setActiveSlot this s1 σ = (Ok tt, σ1) /\
    GPT.setActiveSlot this s2 σ1 = (Ok tt, σ2) /\
    snapshot σ2 this =
      Some (with_entries
              (map (fun e => slot_update s2 (slot_update s1 e)) (value_entries v)) v) /\
    forall e,
      (activated_boot_entry s1 e = false ->
       slot_update s2 (slot_update s1 e) = slot_update s2 e) /\
      (activated_boot_entry s1 e = true ->
       parseABFlags (GPTPartitionEntry.attributes (slot_update s2 (slot_update s1 e))) =
         {| priority := 2; active := false; triesRemaining := 7;
            successful := false; unbootable := false |}).
Proof.
  intros Hsnap Hslots.
  assert (Hs1 : s1 = js "a" \/ s1 = js "b") by (destruct Hslots as [(-> & _)|(-> & _)]; auto).
  assert (Hs2 : s2 = js "a" \/ s2 = js "b") by (destruct Hslots as [(_ & ->)|(_ & ->)]; auto).
  destruct (setActiveSlot_snapshot σ this v s1 Hsnap Hs1) as (σ1 & Hrun1 & Hsnap1).
  destruct (setActiveSlot_snapshot σ1 this _ s2 Hsnap1 Hs2) as (σ2 & Hrun2 & Hsnap2).
  exists σ1, σ2. split; [exact Hrun1|]. split; [exact Hrun2|]. split.
  - rewrite Hsnap2. cbn [with_entries value_entries value_sectorSize value_header].
    rewrite map_map. reflexivity.
  - intros e. apply slot_update_switch, Hslots.
Qed.

Lemma setActiveSlot_switch_keeps_first_call_flags_witness :
  exists σ1 σ2,
    GPT.setActiveSlot (test_gpt LUN4_PARTITIONS) (js "a") (test_state LUN4_PARTITIONS) =
      (Ok tt, σ1) /\
    GPT.setActiveSlot (test_gpt LUN4_PARTITIONS) (js "b") σ1 = (Ok tt, σ2).
Proof.
  destruct (snapshot (test_state LUN4_PARTITIONS) (test_gpt LUN4_PARTITIONS))
    as [v|] eqn:Hv; [|vm_compute in Hv; discriminate].
  destruct (setActiveSlot_switch_keeps_first_call_flags
              (test_state LUN4_PARTITIONS) (test_gpt LUN4_PARTITIONS) v (js "a") (js "b") Hv
              (or_introl (conj eq_refl eq_refl)))
    as (σ1 & σ2 & Hrun1 & Hrun2 & _).
  exists σ1, σ2. split; [exact Hrun1|exact Hrun2].
Defined.

(** ** The constructor *)

(** [new GPT(sectorSize)] always returns, with an instance made of two new
    objects: it has the sector size given, no header and no entry, it shares
    nothing with the store it was created in, so every instance that was
    there is as before and separated from it. On the new instance the
    listing methods answer with nothing instead of throwing, and
    [setActiveSlot] with a valid slot changes nothing. *)
Theorem new_GPT_is_empty_and_apart σ sectorSize :
  exists this σ',
    GPT.new sectorSize σ = (Ok this, σ') /\
    extends σ σ' /\
    snapshot σ' this =
      Some {| value_sectorSize := sectorSize; value_header := None; value_entries := [] |} /\
    footprint σ' this ## dom (heap σ) /\
    (forall other v, snapshot σ other = Some v ->
       snapshot σ' other = Some v /\ separated σ' other this) /\
    GPT.getPartitions this σ' = (Ok [], σ') /\
    (forall name, GPT.locatePartition this name σ' = (Ok None, σ')) /\
    GPT.getPartitionsInfo this σ' = (Ok ([], []), σ') /\
    GPT.getActiveSlot this σ' = (Ok None, σ') /\
    GPT.setActiveSlot this (js "a") σ' = (Ok tt, σ') /\
    GPT.setActiveSlot this (js "b") σ' = (Ok tt, σ').
Proof.
  set (a := fresh_loc (heap σ)).
  set (σa := set_heap (<[a := ObjArray []]> (heap σ)) σ).
  set (this := fresh_loc (heap σa)).
  set (g := {| sectorSize := sectorSize; header := None; partEntries := a |}).
  set (σ' := set_heap (<[this := ObjGPT g]> (heap σa)) σa).
  assert (Hrun : GPT.new sectorSize σ = (Ok this, σ')) by reflexivity.
  assert (Ha : heap σ !! a = None) by apply fresh_loc_fresh.
  assert (Hthis' : heap σa !! this = None) by apply fresh_loc_fresh.
  assert (Hne : this <> a).
  { intros Heq. rewrite Heq in Hthis'. unfold σa in Hthis'.
    rewrite heap_set_heap, lookup_insert_eq in Hthis'. discriminate. }
  assert (Hthis : heap σ !! this = None).
  { unfold σa in Hthis'. rewrite heap_set_heap, lookup_insert_ne in Hthis' by congruence.
    exact Hthis'. }
  assert (Hg : gpt_at (heap σ') this = Some g).
  { apply gpt_at_Some. unfold σ'. rewrite heap_set_heap. apply lookup_insert_eq. }
  assert (Harr : array_at (heap σ') a = Some []).
  { apply array_at_Some. unfold σ', σa. rewrite !heap_set_heap.
    rewrite lookup_insert_ne by exact Hne. apply lookup_insert_eq. }
  assert (Hext : extends σ σ').
  { unfold σ'. apply extends_insert_new; [|exact Hthis].
    unfold σa. apply extends_insert_new; [apply extends_refl|exact Ha]. }
  assert (Hsnap : snapshot σ' this =
            Some {| value_sectorSize := sectorSize; value_header := None;
                    value_entries := [] |}).
  { unfold snapshot. rewrite Hg. cbn [partEntries g header]. rewrite Harr. reflexivity. }
  assert (HF : footprint σ' this = {[this]} ∪ {[a]} ∪ ∅ ∪ list_to_set []).
  { rewrite (footprint_unfold σ' this g [] Hg Harr). reflexivity. }
  assert (Hapart : footprint σ' this ## dom (heap σ)).
  { rewrite HF. apply not_elem_of_dom in Ha, Hthis. set_solver. }
  exists this, σ'. split; [exact Hrun|]. split; [exact Hext|]. split; [exact Hsnap|].
  split; [exact Hapart|]. split.
  { intros other v Hother.
    destruct (snapshot_extends σ σ' other v Hother Hext) as (Hsame & Hfoot).
    split; [exact Hsame|]. split; [eexists; exact Hsame|]. split; [eexists; exact Hsnap|].
    rewrite Hfoot. pose proof (footprint_dom σ other v Hother). set_solver. }
  split; [rewrite (getPartitions_run σ' this _ Hsnap); reflexivity|].
  split.
  { intros name. unfold GPT.locatePartition, bind.
    rewrite (getPartitions_run σ' this _ Hsnap). reflexivity. }
  split.
  { unfold GPT.getPartitionsInfo, bind. rewrite read_gpt_run, Hg.
    cbn [partEntries g]. rewrite read_array_run, Harr. reflexivity. }
  split; [rewrite (getActiveSlot_run σ' this _ Hsnap); reflexivity|].
  split.
  - unfold GPT.setActiveSlot, bind.
    replace (negb (js_eqb (js "a") (js "a")) && negb (js_eqb (js "a") (js "b")))
      with false by (vm_compute; reflexivity).
    rewrite read_gpt_run, Hg. cbn [partEntries g]. rewrite read_array_run, Harr. reflexivity.
  - unfold GPT.setActiveSlot, bind.
    replace (negb (js_eqb (js "b") (js "a")) && negb (js_eqb (js "b") (js "b")))
      with false by (vm_compute; reflexivity).
    rewrite read_gpt_run, Hg. cbn [partEntries g]. rewrite read_array_run, Harr. reflexivity.
Qed.

(** ** [parsePartEntries] on a buffer that is too short *)

Lemma for_each_app {A} (xs ys : list A) (body : A -> M unit) σ :
  for_each (xs ++ ys) body σ =
  match for_each xs body σ with
  | (Ok _, σ1) => for_each ys body σ1
  | (Throw e, σ1) => (Throw e, σ1)
  end.
Proof.
  revert σ. induction xs as [|x r IH]; intros σ; [reflexivity|].
  cbn [for_each app]. unfold bind.
  destruct (body x σ) as [[[]|e] σ1]; [apply IH|reflexivity].
Qed.

Lemma decode_slices_all h data ixs :
  Forall (fun i => (GPTPartitionEntry.size <= length (entry_slice h data i))%nat) ixs ->
  decode_slices h data ixs =
    Some (map (fun i => GPTPartitionEntry.decode (entry_slice h data i)) ixs).
Proof.
  induction 1 as [|i r Hi _ IH]; [reflexivity|].
  cbn [decode_slices map]. rewrite IH.
  destruct (Nat.ltb_spec (length (entry_slice h data i)) GPTPartitionEntry.size); [lia|].
  reflexivity.
Qed.

Lemma upto_split n k :
  0 <= k < n ->
  upto n = upto k ++ k :: map Z.of_nat (seq (S (Z.to_nat k)) (Z.to_nat n - S (Z.to_nat k))).
Proof.
  intros Hk. unfold upto.
  replace (Z.to_nat n) with (Z.to_nat k + S (Z.to_nat n - S (Z.to_nat k)))%nat at 1 by lia.
  rewrite seq_app, map_app. cbn [seq map Nat.add]. rewrite Z2Nat.id by lia. reflexivity.
Qed.

Lemma elem_of_upto n i : i ∈ upto n -> 0 <= i < n.
Proof.
  unfold upto. intros H. apply list_elem_of_fmap in H as (j & -> & Hj).
  apply list_elem_of_In, in_seq in Hj. lia.
Qed.

(** [parsePartEntries] stops at the first entry whose slice of the buffer is
    shorter than an entry: it throws there, logs nothing, and the entries
    decoded up to that index stay appended to the instance. *)
Theorem parsePartEntries_truncated_keeps_decoded σ this v h data k :
  snapshot σ this = Some v ->
  value_header v = Some h ->
  0 <= k < GPTHeader.numPartEntries h ->
  (forall i, 0 <= i < k ->
     (GPTPartitionEntry.size <= length (entry_slice h data i))%nat) ->
  (length (entry_slice h data k) < GPTPartitionEntry.size)%nat ->
  exists σ',
    GPT.parsePartEntries this data σ = (Throw TruncatedBuffer, σ') /\
    logged σ' = logged σ /\
    snapshot σ' this =
      Some (with_entries
              (value_entries v ++
               map (fun i => GPTPartitionEntry.decode (entry_slice h data i)) (upto k)) v).
Proof.
  intros Hsnap Hh Hk Hfit Hshort.
  destruct (snapshot_headed _ _ _ _ Hsnap Hh) as (g & hl & ls & Hhd & Harr & Hes & Hss).
  pose proof Hhd as (Hthis & _ & _).
  destruct (parsePartEntries_loop this g h data (upto k) σ ls Hthis Harr)
    as (r0 & σ1 & news & des & Hrun & Hlog & Hfresh & Ha1 & Hdes & Hframe & Hres).
  cbv zeta in Hrun.
  rewrite decode_slices_all in Hres.
  2:{ apply Forall_forall. intros i Hi. apply Hfit, elem_of_upto, Hi. }
  destruct Hres as (-> & ->).
  exists σ1. split.
  - unfold GPT.parsePartEntries.
    unfold bind at 1. rewrite (header_field_run _ _ _ _ _ _ Hhd).
    unfold bind at 1. rewrite (header_field_run _ _ _ _ _ _ Hhd).
    unfold bind at 1. rewrite (upto_split _ _ Hk), for_each_app, Hrun.
    cbn [for_each]. unfold bind at 1. unfold bind at 1.
    unfold GPTPartitionEntry_from. fold (entry_slice h data k).
    destruct (Nat.ltb_spec (length (entry_slice h data k)) GPTPartitionEntry.size); [|lia].
    reflexivity.
  - split; [exact Hlog|]. eapply snapshot_pushed; eassumption.
Qed.

Lemma parsePartEntries_truncated_keeps_decoded_witness :
  exists σ' v',
    GPT.parsePartEntries (header_only_gpt FOUR_PARTITIONS)
      (take 300 (snd (buildGPTData FOUR_PARTITIONS)))
      (header_only_state FOUR_PARTITIONS) = (Throw TruncatedBuffer, σ') /\
    snapshot σ' (header_only_gpt FOUR_PARTITIONS) = Some v' /\
    length (value_entries v') = 2%nat.
Proof.
  destruct (snapshot (header_only_state FOUR_PARTITIONS) (header_only_gpt FOUR_PARTITIONS))
    as [v|] eqn:Hv; [|vm_compute in Hv; discriminate].
  destruct (value_header v) as [h|] eqn:Hh;
    [|vm_compute in Hv; inversion Hv; subst v; discriminate].
  assert (Hn : GPTHeader.numPartEntries h = 4 /\ GPTHeader.partEntrySize h = 128 /\
               value_entries v = []).
  { vm_compute in Hv. inversion Hv; subst v. vm_compute in Hh. inversion Hh; subst h.
    repeat split; reflexivity. }
  destruct Hn as (Hn & Hs & Hes).
  destruct (parsePartEntries_truncated_keeps_decoded
              (header_only_state FOUR_PARTITIONS) (header_only_gpt FOUR_PARTITIONS) v h
              (take 300 (snd (buildGPTData FOUR_PARTITIONS))) 2 Hv Hh)
    as (σ' & Hrun & _ & Hsnap).
  - rewrite Hn. lia.
  - intros i Hi. unfold entry_slice. rewrite Hs.
    assert (Hcases : i = 0 \/ i = 1) by lia.
    destruct Hcases as [->| ->]; vm_compute; lia.
  - unfold entry_slice. rewrite Hs. vm_compute. lia.
  - eexists σ', _. split; [exact Hrun|]. split; [exact Hsnap|].
    cbn [with_entries value_entries]. rewrite Hes. reflexivity.
Defined.

Lemma parsing_leaves_parsed_witness :
  exists σ2 v h,
    snapshot σ2 (header_only_gpt FOUR_PARTITIONS) = Some v /\ parsed v h /\
    length (value_entries v) = 4%nat.
Proof.
  set (σ := snd (GPT.new SECTOR_SIZE empty_state)).
  set (this := header_only_gpt FOUR_PARTITIONS).
  destruct (snapshot σ this) as [v0|] eqn:Hv0; [|vm_compute in Hv0; discriminate].
  destruct (GPT.parseHeader this (fst (buildGPTData FOUR_PARTITIONS)) 1 σ)
    as [[[r0|]|e] σ1] eqn:Hhdr; [|vm_compute in Hhdr; discriminate..].
  destruct (GPT.parsePartEntries this (snd (buildGPTData FOUR_PARTITIONS)) σ1)
    as [[r|e] σ2] eqn:Hent.
  2:{ exfalso. pose proof Hhdr as Hvalue. vm_compute in Hvalue.
      injection Hvalue as _ Hs. rewrite <- Hs in Hent. vm_compute in Hent. discriminate. }
  destruct (parsing_leaves_parsed σ this v0 _ 1 r0 σ1 _ r σ2 Hv0 Hhdr Hent)
    as (v & h & Hsnap & Hparsed).
  exists σ2, v, h. split; [exact Hsnap|]. split; [exact Hparsed|].
  pose proof Hhdr as Hvalue. vm_compute in Hvalue. injection Hvalue as _ Hs.
  rewrite <- Hs in Hent. vm_compute in Hent. injection Hent as _ Hs2.
  rewrite <- Hs2 in Hsnap. vm_compute in Hsnap. injection Hsnap as <-. reflexivity.
Defined.

(** The header of a GPT that has parsed a table is a decoded one: it holds
    values within the ranges of its fields, its LBAs below [2^64] among
    them. *)
Lemma parsed_header_in_range σ this v0 header_data actualLba r0 σ1 data r σ2 :
  snapshot σ this = Some v0 ->
  GPT.parseHeader this header_data actualLba σ = (Ok (Some r0), σ1) ->
  GPT.parsePartEntries this data σ1 = (Ok r, σ2) ->
  exists v h, snapshot σ2 this = Some v /\ value_header v = Some h /\ header_in_range h.
Proof.
  intros Hsnap Hhdr Hent.
  pose proof Hsnap as Hsnap'. apply snapshot_Some in Hsnap'.
  destruct Hsnap' as (g & a & Hg & _ & _ & Hss & _). apply gpt_at_Some in Hg.
  destruct (Nat.ltb_spec (length header_data) GPTHeader.size) as [Hshort|Hlen].
  { exfalso. revert Hhdr. unfold GPT.parseHeader, GPTHeader_from, bind.
    destruct (Nat.ltb_spec (length header_data) GPTHeader.size) as [_|?]; [|lia].
    discriminate. }
  rewrite (parseHeader_run σ this g header_data actualLba Hg Hlen) in Hhdr.
  cbv zeta in Hhdr. set (h := GPTHeader.decode header_data) in *.
  injection Hhdr as _ Hσ1.
  assert (Hsnap1 : snapshot σ1 this = Some (with_header (Some h) v0)).
  { rewrite <- Hσ1. rewrite <- (snapshot_header_installed σ this v0 g h Hsnap Hg).
    reflexivity. }
  destruct (parsePartEntries_value σ1 this _ h data Hsnap1 eq_refl)
    as (r' & σ' & des & Hrun & Hsnap2 & _).
  rewrite Hent in Hrun. injection Hrun as <- <-.
  eexists _, h. split; [exact Hsnap2|]. split; [reflexivity|].
  apply decode_in_range. exact Hlen.
Qed.

(** ** Entries written and read back *)

Lemma hex_byte_value b :
  byte_of_Z (16 * hex_value (hex_digit (byte_to_Z b / 16)) +
             hex_value (hex_digit (byte_to_Z b mod 16))) = b.
Proof. destruct b; vm_compute; reflexivity. Qed.

Lemma hex_byte_not_dash b :
  hex_digit (byte_to_Z b / 16) <> dash /\ hex_digit (byte_to_Z b mod 16) <> dash.
Proof. destruct b; split; vm_compute; discriminate. Qed.

Lemma filter_hex_bytes bs r :
  filter (fun c => c <> dash) (hex_bytes bs ++ r) =
  hex_bytes bs ++ filter (fun c => c <> dash) r.
Proof.
  unfold hex_bytes. induction bs as [|b bs IH]; [reflexivity|].
  cbn [map concat]. unfold hex_byte at 1 3. cbn [app].
  destruct (hex_byte_not_dash b) as (Hhi & Hlo).
  rewrite !filter_cons_True by assumption. rewrite IH. reflexivity.
Qed.

Lemma unhex_hex_bytes bs r : unhex (hex_bytes bs ++ r) = bs ++ unhex r.
Proof.
  unfold hex_bytes. induction bs as [|b bs IH]; [reflexivity|].
  cbn [map concat]. unfold hex_byte at 1. cbn [app unhex].
  rewrite hex_byte_value, IH. reflexivity.
Qed.

Lemma filter_dash r :
  filter (fun c => c <> dash) ([dash] ++ r) = filter (fun c => c <> dash) r.
Proof. cbn [app]. apply filter_cons_False. intros H. apply H. reflexivity. Qed.

Lemma guid_encode_decode bs : length bs = 16%nat -> guid_encode (guid_decode bs) = bs.
Proof.
  intros Hlen. unfold guid_encode, guid_decode.
  rewrite <- (app_nil_r (hex_bytes (slice bs 10 16))).
  repeat (rewrite filter_hex_bytes || rewrite filter_dash).
  rewrite !unhex_hex_bytes. cbn [filter unhex].
  do 17 (destruct bs as [|? bs]; try discriminate Hlen). reflexivity.
Qed.

Lemma until_nul_prefix cs : until_nul cs = take (length (until_nul cs)) cs.
Proof.
  induction cs as [|c r IH]; [reflexivity|]. cbn [until_nul].
  destruct (c =? 0); [reflexivity|]. cbn [length take]. f_equal. exact IH.
Qed.

(** The string and the code units kept with it are the code units of the
    field. *)
Lemma utf16cstring_units n bs :
  utf16cstring_decode n bs ++ utf16cstring_rest n bs = utf16_units n bs.
Proof.
  unfold utf16cstring_rest, utf16cstring_decode.
  rewrite (until_nul_prefix (utf16_units n bs)) at 1. apply take_drop.
Qed.

Lemma utf16_units_bytes n bs :
  length bs = (2 * n)%nat -> concat (map (le_bytes 2) (utf16_units n bs)) = bs.
Proof.
  revert bs. induction n as [|n IH]; intros bs Hlen.
  - destruct bs; [reflexivity|discriminate].
  - destruct bs as [|b0 [|b1 r]]; try (cbn in Hlen; lia).
    cbn [utf16_units take drop map concat].
    rewrite take_0, drop_0.
    rewrite (le_bytes_le_value [b0; b1] : le_bytes 2 (le_value [b0; b1]) = [b0; b1]).
    cbn [app]. f_equal. f_equal.
    apply IH. cbn [length] in Hlen. lia.
Qed.

(** A decoded name field encodes to the bytes it was decoded from. *)
Lemma utf16cstring_encode_decode n bs :
  length bs = (2 * n)%nat ->
  utf16cstring_encode n (utf16cstring_decode n bs ++ utf16cstring_rest n bs) = bs.
Proof.
  intros Hlen. unfold utf16cstring_encode.
  rewrite utf16cstring_units, (utf16_units_bytes n bs Hlen).
  apply take_app_length'. symmetry. exact Hlen.
Qed.

Lemma slice_head (x y : list byte) n : length x = n -> slice (x ++ y) 0 n = x.
Proof.
  intros Hn. unfold slice. rewrite drop_0, Nat.sub_0_r.
  apply take_app_length'. symmetry. exact Hn.
Qed.

Lemma slice_whole (x : list byte) n : length x = n -> slice x 0 n = x.
Proof. intros Hn. rewrite <- (app_nil_r x) at 1. apply slice_head, Hn. Qed.

Lemma slice_past (x y : list byte) (a b n : nat) :
  length x = n -> (n <= a)%nat -> slice (x ++ y) a b = slice y (a - n) (b - n).
Proof.
  intros Hn Ha. unfold slice. rewrite drop_app, Hn.
  rewrite drop_ge by lia. cbn [app]. f_equal. lia.
Qed.

Lemma length_guid_encode s : length (guid_encode s) = 16%nat.
Proof. unfold guid_encode. apply length_bytes_encode. Qed.

(** What reading back gives, field by field. *)
Lemma written_back_fields e :
  written_back e =
    {| GPTPartitionEntry.type := guid_decode (guid_encode (GPTPartitionEntry.type e));
       GPTPartitionEntry.unique := guid_decode (guid_encode (GPTPartitionEntry.unique e));
       GPTPartitionEntry.startingLba := GPTPartitionEntry.startingLba e mod 2 ^ 64;
       GPTPartitionEntry.endingLba := GPTPartitionEntry.endingLba e mod 2 ^ 64;
       GPTPartitionEntry.attributes := GPTPartitionEntry.attributes e mod 2 ^ 64;
       GPTPartitionEntry.name :=
         utf16cstring_decode 36
           (utf16cstring_encode 36
              (GPTPartitionEntry.name e ++ GPTPartitionEntry.name_rest e));
       GPTPartitionEntry.name_rest :=
         utf16cstring_rest 36
           (utf16cstring_encode 36
              (GPTPartitionEntry.name e ++ GPTPartitionEntry.name_rest e)) |}.
Proof.
  unfold written_back, GPTPartitionEntry.decode, GPTPartitionEntry.toBuffer, getBigUint64.
  pose proof (length_guid_encode (GPTPartitionEntry.type e)) as Ht.
  pose proof (length_guid_encode (GPTPartitionEntry.unique e)) as Hu.
  pose proof (length_le_bytes 8 (GPTPartitionEntry.startingLba e)) as Hs.
  pose proof (length_le_bytes 8 (GPTPartitionEntry.endingLba e)) as He.
  pose proof (length_le_bytes 8 (GPTPartitionEntry.attributes e)) as Ha.
  pose proof (length_utf16cstring_encode 36
                (GPTPartitionEntry.name e ++ GPTPartitionEntry.name_rest e)) as Hn.
  cbn [Nat.add].
  assert (Hname :
    slice (guid_encode (GPTPartitionEntry.type e) ++
           guid_encode (GPTPartitionEntry.unique e) ++
           le_bytes 8 (GPTPartitionEntry.startingLba e) ++
           le_bytes 8 (GPTPartitionEntry.endingLba e) ++
           le_bytes 8 (GPTPartitionEntry.attributes e) ++
           utf16cstring_encode 36
             (GPTPartitionEntry.name e ++ GPTPartitionEntry.name_rest e)) 56 128 =
    utf16cstring_encode 36 (GPTPartitionEntry.name e ++ GPTPartitionEntry.name_rest e)).
  { rewrite (slice_past _ _ _ _ 16 Ht) by lia. cbn [Nat.sub].
    rewrite (slice_past _ _ _ _ 16 Hu) by lia. cbn [Nat.sub].
    rewrite (slice_past _ _ _ _ 8 Hs) by lia. cbn [Nat.sub].
    rewrite (slice_past _ _ _ _ 8 He) by lia. cbn [Nat.sub].
    rewrite (slice_past _ _ _ _ 8 Ha) by lia. cbn [Nat.sub].
    apply slice_whole. exact Hn. }
  rewrite Hname.
  f_equal.
  - rewrite (slice_head _ _ 16 Ht). reflexivity.
  - rewrite (slice_past _ _ _ _ 16 Ht) by lia. cbn [Nat.sub].
    rewrite (slice_head _ _ 16 Hu). reflexivity.
  - rewrite (slice_past _ _ _ _ 16 Ht) by lia. cbn [Nat.sub].
    rewrite (slice_past _ _ _ _ 16 Hu) by lia. cbn [Nat.sub].
    rewrite (slice_head _ _ 8 Hs). apply le_value_le_bytes.
  - rewrite (slice_past _ _ _ _ 16 Ht) by lia. cbn [Nat.sub].
    rewrite (slice_past _ _ _ _ 16 Hu) by lia. cbn [Nat.sub].
    rewrite (slice_past _ _ _ _ 8 Hs) by lia. cbn [Nat.sub].
    rewrite (slice_head _ _ 8 He). apply le_value_le_bytes.
  - rewrite (slice_past _ _ _ _ 16 Ht) by lia. cbn [Nat.sub].
    rewrite (slice_past _ _ _ _ 16 Hu) by lia. cbn [Nat.sub].
    rewrite (slice_past _ _ _ _ 8 Hs) by lia. cbn [Nat.sub].
    rewrite (slice_past _ _ _ _ 8 He) by lia. cbn [Nat.sub].
    rewrite (slice_head _ _ 8 Ha). apply le_value_le_bytes.
Qed.

(** The entry schema gives back the bytes it decoded: encoding the entry
    decoded from a buffer gives the first 128 bytes of the buffer. *)
Lemma entry_toBuffer_decode data :
  (GPTPartitionEntry.size <= length data)%nat ->
  GPTPartitionEntry.toBuffer (GPTPartitionEntry.decode data) =
    take GPTPartitionEntry.size data.
Proof.
  unfold GPTPartitionEntry.size. intros Hlen.
  unfold GPTPartitionEntry.toBuffer, GPTPartitionEntry.decode, getBigUint64.
  cbn [GPTPartitionEntry.type GPTPartitionEntry.unique GPTPartitionEntry.startingLba
       GPTPartitionEntry.endingLba GPTPartitionEntry.attributes GPTPartitionEntry.name
       GPTPartitionEntry.name_rest Nat.add].
  rewrite !guid_encode_decode by (rewrite slice_full_length; lia).
  rewrite !le_bytes_slice by lia.
  rewrite utf16cstring_encode_decode by (rewrite slice_full_length; lia).
  rewrite !slice_app_slice by lia.
  unfold slice. rewrite drop_0. reflexivity.
Qed.

Lemma entry_decode_take data :
  GPTPartitionEntry.decode (take GPTPartitionEntry.size data) = GPTPartitionEntry.decode data.
Proof.
  unfold GPTPartitionEntry.decode, GPTPartitionEntry.size, getBigUint64.
  rewrite !slice_take by lia. reflexivity.
Qed.

Lemma written_back_decode data :
  (GPTPartitionEntry.size <= length data)%nat ->
  written_back (GPTPartitionEntry.decode data) = GPTPartitionEntry.decode data.
Proof.
  intros Hlen. unfold written_back.
  rewrite (entry_toBuffer_decode data Hlen). apply entry_decode_take.
Qed.

Lemma written_back_set_attributes a e :
  written_back e = e -> a mod 2 ^ 64 = a ->
  written_back (GPTPartitionEntry.set_attributes a e) = GPTPartitionEntry.set_attributes a e.
Proof.
  intros He Ha. rewrite written_back_fields in *. destruct e as [t u s f a0 nm rest].
  cbn [GPTPartitionEntry.set_attributes GPTPartitionEntry.type GPTPartitionEntry.unique
       GPTPartitionEntry.startingLba GPTPartitionEntry.endingLba
       GPTPartitionEntry.attributes GPTPartitionEntry.name GPTPartitionEntry.name_rest] in *.
  injection He as Ht Hu Hs Hf _ Hn Hr. rewrite Ht, Hu, Hs, Hf, Ha, Hn, Hr. reflexivity.
Qed.

Lemma slot_attributes_word slot e :
  GPTPartitionEntry.attributes e mod 2 ^ 64 = GPTPartitionEntry.attributes e ->
  slot_attributes slot e mod 2 ^ 64 = slot_attributes slot e.
Proof.
  intros Ha. apply Z.bits_inj'; intros i Hi.
  destruct (Z.ltb_spec i 64) as [Hlow|Hhigh].
  - apply Z.mod_pow2_bits_low. lia.
  - rewrite Z.mod_pow2_bits_high by lia.
    rewrite slot_attributes_opaque by lia. rewrite <- Ha.
    rewrite Z.mod_pow2_bits_high by lia. reflexivity.
Qed.

Lemma written_back_slot_update slot e :
  written_back e = e -> written_back (slot_update slot e) = slot_update slot e.
Proof.
  intros He. unfold slot_update. apply written_back_set_attributes; [exact He|].
  apply slot_attributes_word. rewrite written_back_fields in He.
  apply (f_equal GPTPartitionEntry.attributes) in He.
  cbn [GPTPartitionEntry.attributes] in He. exact He.
Qed.

Lemma slice_app_l (x y : list byte) (a b : nat) :
  (b <= length x)%nat -> slice (x ++ y) a b = slice x a b.
Proof.
  intros Hb. unfold slice. rewrite drop_app, take_app.
  replace (b - a - length (drop a x))%nat with 0%nat by (rewrite length_drop; lia).
  rewrite take_0, app_nil_r. reflexivity.
Qed.

(** The decoder reads the first 128 bytes of its buffer. *)
Lemma decode_padded_entry s e :
  GPTPartitionEntry.decode (padded_entry s e) = written_back e.
Proof.
  unfold written_back, padded_entry, GPTPartitionEntry.decode, getBigUint64.
  pose proof (length_entry_toBuffer e) as Hlen. unfold GPTPartitionEntry.size in Hlen.
  rewrite !slice_app_l by (rewrite Hlen; cbn; lia). reflexivity.
Qed.

Lemma slice_chunk {A} (P : A -> list byte) (m : nat) (l : list A) (i : nat) (e : A) :
  (forall x, length (P x) = m) ->
  l !! i = Some e ->
  slice (concat (map P l)) (i * m) (i * m + m) = P e.
Proof.
  intros Hm. revert i. induction l as [|x l IH]; intros i Hi; [discriminate|].
  cbn [map concat]. destruct i as [|j].
  - injection Hi as ->. cbn [Nat.mul Nat.add].
    rewrite slice_app_l by (rewrite Hm; lia). apply slice_whole, Hm.
  - rewrite (slice_past _ _ _ _ m (Hm x)) by lia.
    replace (S j * m - m)%nat with (j * m)%nat by lia.
    replace (S j * m + m - m)%nat with (j * m + m)%nat by lia.
    apply IH. exact Hi.
Qed.

Lemma entry_slice_laid_out h es (i : nat) e :
  128 <= GPTHeader.partEntrySize h ->
  es !! i = Some e ->
  entry_slice h (concat (map (padded_entry (GPTHeader.partEntrySize h)) es)) (Z.of_nat i) =
    padded_entry (GPTHeader.partEntrySize h) e.
Proof.
  intros Hs Hi. unfold entry_slice. set (s := GPTHeader.partEntrySize h) in *.
  replace (Z.to_nat (Z.of_nat i * s)) with (i * Z.to_nat s)%nat by nia.
  replace (Z.to_nat (Z.of_nat i * s + s)) with (i * Z.to_nat s + Z.to_nat s)%nat by nia.
  apply slice_chunk; [|exact Hi]. intros x. apply length_padded_entry, Hs.
Qed.

Lemma map_upto_length {A B} (F : Z -> B) (G : A -> B) (l : list A) :
  (forall (i : nat) e, l !! i = Some e -> F (Z.of_nat i) = G e) ->
  map F (upto (Z.of_nat (length l))) = map G l.
Proof.
  intros H. unfold upto. rewrite Nat2Z.id, map_map.
  apply list_eq. intros i. rewrite !list_lookup_fmap.
  destruct (l !! i) as [e|] eqn:He.
  - rewrite lookup_seq_lt by (apply lookup_lt_Some in He; exact He).
    cbn. f_equal. apply H, He.
  - rewrite lookup_seq_ge by (apply lookup_ge_None in He; exact He). reflexivity.
Qed.

(** Decoding a laid-out array gives the entries as they read back. *)
Lemma decode_slices_laid_out h es :
  128 <= GPTHeader.partEntrySize h ->
  decode_slices h (concat (map (padded_entry (GPTHeader.partEntrySize h)) es))
    (upto (Z.of_nat (length es))) = Some (map written_back es).
Proof.
  intros Hs. rewrite decode_slices_all.
  - f_equal. apply map_upto_length. intros i e Hi.
    rewrite (entry_slice_laid_out h es i e Hs Hi). apply decode_padded_entry.
  - apply Forall_forall. intros z Hz. apply elem_of_upto in Hz.
    destruct (lookup_lt_is_Some_2 es (Z.to_nat z) ltac:(lia)) as (e & He).
    rewrite <- (Z2Nat.id z) by lia.
    rewrite (entry_slice_laid_out h es _ e Hs He), length_padded_entry by exact Hs.
    unfold GPTPartitionEntry.size. lia.
Qed.

Lemma decode_slices_read_back h data ixs all :
  decode_slices h data ixs = Some all -> Forall (fun e => written_back e = e) all.
Proof.
  revert all. induction ixs as [|i r IH]; intros all Hall; cbn [decode_slices] in Hall.
  - injection Hall as <-. constructor.
  - destruct (Nat.ltb_spec (length (entry_slice h data i)) GPTPartitionEntry.size);
      [discriminate|].
    destruct (decode_slices h data r) as [es|]; [|discriminate].
    injection Hall as <-. constructor; [|apply IH; reflexivity].
    apply written_back_decode. assumption.
Qed.

Lemma map_read_back es :
  Forall (fun e => written_back e = e) es -> map written_back es = es.
Proof.
  induction 1 as [|e r He _ IH]; [reflexivity|]. cbn [map]. rewrite He, IH. reflexivity.
Qed.

(** The entries [buildPartEntries] writes, decoded with a header of the
    same entry count and entry size. *)
Lemma decode_entries_written h h' es bytes :
  canonical_entries h es = Ok bytes ->
  GPTHeader.numPartEntries h' = GPTHeader.numPartEntries h ->
  GPTHeader.partEntrySize h' = GPTHeader.partEntrySize h ->
  decode_entries h' bytes =
    Some (map written_back (take (Z.to_nat (GPTHeader.numPartEntries h)) es)).
Proof.
  intros Hbytes Hn Hs.
  destruct (canonical_entries_Ok_inv h es bytes Hbytes) as (Hrange & Hpos).
  rewrite (canonical_entries_layout h es Hrange Hpos) in Hbytes.
  injection Hbytes as <-. unfold decode_entries. rewrite Hn.
  set (n := GPTHeader.numPartEntries h) in *.
  destruct (Z.leb_spec 0 n) as [Hnn|Hneg].
  - destruct (Z.eq_dec n 0) as [Hz|Hnz].
    + rewrite Hz. reflexivity.
    + destruct (Hpos ltac:(lia)) as (Hsize & Hcount).
      assert (Hlen : length (take (Z.to_nat n) es) = Z.to_nat n)
        by (rewrite length_take; lia).
      replace (upto n) with (upto (Z.of_nat (length (take (Z.to_nat n) es))))
        by (rewrite Hlen, Z2Nat.id by lia; reflexivity).
      rewrite <- Hs. apply decode_slices_laid_out. rewrite Hs. exact Hsize.
  - unfold upto. replace (Z.to_nat n) with 0%nat by lia. reflexivity.
Qed.

(** The entries of an instance keep reading back unchanged: entries decoded
    by [parsePartEntries] are written by [buildPartEntries] and read again
    as the same entries, and so are entries [setActiveSlot] has updated. *)
Theorem stored_entries_read_back_unchanged σ this v :
  snapshot σ this = Some v ->
  Forall (fun e => written_back e = e) (value_entries v) ->
  (forall data r σ',
     GPT.parsePartEntries this data σ = (Ok r, σ') ->
     exists v', snapshot σ' this = Some v' /\
                Forall (fun e => written_back e = e) (value_entries v')) /\
  (forall slot σ',
     GPT.setActiveSlot this slot σ = (Ok tt, σ') ->
     exists v', snapshot σ' this = Some v' /\
                Forall (fun e => written_back e = e) (value_entries v')).
Proof.
  intros Hsnap Hstable. split.
  - intros data r σ' Hrun.
    destruct (value_header v) as [h|] eqn:Hh.
    + destruct (parsePartEntries_value σ this v h data Hsnap Hh)
        as (r' & σ'' & des & Hrun' & Hsnap' & Hres).
      rewrite Hrun in Hrun'. injection Hrun' as <- <-.
      eexists. split; [exact Hsnap'|]. cbn [with_entries value_entries].
      apply Forall_app. split; [exact Hstable|].
      destruct (decode_entries h data) as [all|] eqn:Hall; [|destruct Hres; discriminate].
      destruct Hres as (-> & _). eapply decode_slices_read_back. exact Hall.
    + exfalso. destruct (snapshot_no_header σ this v Hsnap Hh) as (g & Hg & Hnone).
      unfold GPT.parsePartEntries in Hrun.
      rewrite (bind_throw _ _ σ TypeError σ
                 (header_field_unset σ this g GPTHeader.partEntrySize Hg Hnone)) in Hrun.
      discriminate.
  - intros slot σ' Hrun.
    assert (Hslot : slot = js "a" \/ slot = js "b").
    { unfold GPT.setActiveSlot in Hrun. unfold js_eqb in Hrun.
      destruct (decide (slot = js "a")) as [?|Ha]; [left; assumption|].
      destruct (decide (slot = js "b")) as [?|Hb]; [right; assumption|].
      rewrite !bool_decide_eq_false_2 in Hrun by assumption. discriminate. }
    destruct (setActiveSlot_snapshot σ this v slot Hsnap Hslot) as (σ'' & Hrun' & Hsnap').
    rewrite Hrun in Hrun'. injection Hrun' as <-.
    eexists. split; [exact Hsnap'|]. cbn [with_entries value_entries].
    apply Forall_fmap. eapply Forall_impl; [exact Hstable|].
    intros e He. apply written_back_slot_update, He.
Qed.

(** What [buildPartEntries] writes, [parsePartEntries] reads: on any
    instance whose header has the same entry count and entry size, parsing
    the bytes never fails for want of bytes and appends the written entries
    as they read back. When these read back unchanged and the instance
    stored no entry, it then stores exactly the entries written, and the
    checksum it validates is the CRC-32 of the bytes parsed. *)
Theorem buildPartEntries_output_parses_back σ this v h bytes σ2 that w h' :
  snapshot σ this = Some v ->
  value_header v = Some h ->
  GPT.buildPartEntries this σ = (Ok bytes, σ) ->
  snapshot σ2 that = Some w ->
  value_header w = Some h' ->
  GPTHeader.numPartEntries h' = GPTHeader.numPartEntries h ->
  GPTHeader.partEntrySize h' = GPTHeader.partEntrySize h ->
  let written := take (Z.to_nat (GPTHeader.numPartEntries h)) (value_entries v) in
  exists r σ3,
    GPT.parsePartEntries that bytes σ2 = (r, σ3) /\
    r <> Throw TruncatedBuffer /\
    snapshot σ3 that = Some (with_entries (value_entries w ++ map written_back written) w) /\
    (value_entries w = [] ->
     Forall (fun e => written_back e = e) written ->
     snapshot σ3 that = Some (with_entries written w) /\
     r = Ok {| result_partEntriesCrc32 := GPTHeader.partEntriesCrc32 h';
               entries_mismatchCrc32 :=
                 negb (GPTHeader.partEntriesCrc32 h' =? crc32 bytes) |}).
Proof.
  intros Hsnap Hh Hbuild Hsnap2 Hh' Hn Hs written.
  destruct (snapshot_headed _ _ _ _ Hsnap Hh) as (g & hl & ls & Hhd & Ha & Hes & _).
  rewrite (buildPartEntries_run _ _ _ _ _ _ _ Hhd Ha Hes) in Hbuild.
  injection Hbuild as Hbytes.
  pose proof (decode_entries_written h h' _ bytes Hbytes Hn Hs) as Hdec. fold written in Hdec.
  destruct (parsePartEntries_value σ2 that w h' bytes Hsnap2 Hh')
    as (r & σ3 & des & Hrun & Hsnap3 & Hres).
  rewrite Hdec in Hres. destruct Hres as (-> & Hr & _).
  exists r, σ3. split; [exact Hrun|]. split.
  { rewrite Hr. unfold entries_verdict.
    destruct (canonical_entries h' _) as [b|e] eqn:Hcanon; cbn [fst]; [discriminate|].
    destruct (canonical_entries_error _ _ _ Hcanon) as [-> | ->]; discriminate. }
  split; [exact Hsnap3|].
  intros Hempty Hstable. rewrite Hempty, (map_read_back _ Hstable) in Hsnap3, Hr.
  cbn [app] in Hsnap3, Hr. split; [exact Hsnap3|].
  assert (Hcanon : canonical_entries h' written = Ok bytes).
  { destruct (canonical_entries_Ok_inv h _ bytes Hbytes) as (Hrange & Hpos).
    assert (Hpos' : 0 < GPTHeader.numPartEntries h' ->
              128 <= GPTHeader.partEntrySize h' /\
              GPTHeader.numPartEntries h' <= Z.of_nat (length written)).
    { rewrite Hn, Hs. intros Hp. destruct (Hpos Hp) as (Hsize & Hcount).
      split; [exact Hsize|]. unfold written. rewrite length_take. lia. }
    assert (Hrange' : 0 <= GPTHeader.numPartEntries h' * GPTHeader.partEntrySize h' <=
                      MAX_SAFE_INTEGER) by (rewrite Hn, Hs; exact Hrange).
    rewrite (canonical_entries_layout h' written Hrange' Hpos').
    rewrite (canonical_entries_layout h _ Hrange Hpos) in Hbytes.
    rewrite Hn, Hs. unfold written at 1. rewrite take_take, Nat.min_id. exact Hbytes. }
  rewrite Hr. unfold entries_verdict. rewrite Hcanon. reflexivity.
Qed.

Lemma stored_entries_read_back_unchanged_witness :
  exists σ' v',
    GPT.setActiveSlot (test_gpt FOUR_PARTITIONS) (js "a") (test_state FOUR_PARTITIONS) =
      (Ok tt, σ') /\
    snapshot σ' (test_gpt FOUR_PARTITIONS) = Some v' /\
    Forall (fun e => written_back e = e) (value_entries v').
Proof.
  destruct (snapshot (test_state FOUR_PARTITIONS) (test_gpt FOUR_PARTITIONS))
    as [v|] eqn:Hv; [|vm_compute in Hv; discriminate].
  assert (Hstable : Forall (fun e => written_back e = e) (value_entries v)).
  { vm_compute in Hv. injection Hv as <-. cbn [value_entries].
    repeat constructor; vm_compute; reflexivity. }
  destruct (GPT.setActiveSlot (test_gpt FOUR_PARTITIONS) (js "a")
              (test_state FOUR_PARTITIONS)) as [[[]|e] σ'] eqn:Hrun;
    [|vm_compute in Hrun; discriminate].
  destruct (stored_entries_read_back_unchanged
              (test_state FOUR_PARTITIONS) (test_gpt FOUR_PARTITIONS) v Hv Hstable)
    as (_ & Hset).
  destruct (Hset (js "a") σ' Hrun) as (v' & Hsnap' & Hstable').
  exists σ', v'. split; [reflexivity|]. split; assumption.
Defined.

Lemma buildPartEntries_output_parses_back_witness :
  exists bytes r σ3,
    GPT.buildPartEntries (test_gpt FOUR_PARTITIONS) (test_state FOUR_PARTITIONS) =
      (Ok bytes, test_state FOUR_PARTITIONS) /\
    GPT.parsePartEntries (header_only_gpt FOUR_PARTITIONS) bytes
      (header_only_state FOUR_PARTITIONS) = (r, σ3) /\
    r <> Throw TruncatedBuffer.
Proof.
  destruct (snapshot (test_state FOUR_PARTITIONS) (test_gpt FOUR_PARTITIONS))
    as [v|] eqn:Hv; [|vm_compute in Hv; discriminate].
  destruct (value_header v) as [h|] eqn:Hh;
    [|vm_compute in Hv; inversion Hv; subst v; discriminate].
  destruct (snapshot (header_only_state FOUR_PARTITIONS) (header_only_gpt FOUR_PARTITIONS))
    as [w|] eqn:Hw; [|vm_compute in Hw; discriminate].
  destruct (value_header w) as [h'|] eqn:Hh';
    [|vm_compute in Hw; inversion Hw; subst w; discriminate].
  assert (Hsame : h' = h).
  { vm_compute in Hv. injection Hv as Hv. subst v. vm_compute in Hh.
    vm_compute in Hw. injection Hw as Hw. subst w. vm_compute in Hh'.
    rewrite Hh in Hh'. injection Hh' as <-. reflexivity. }
  destruct (GPT.buildPartEntries (test_gpt FOUR_PARTITIONS) (test_state FOUR_PARTITIONS))
    as [[bytes|e] σ'] eqn:Hbuild; [|vm_compute in Hbuild; discriminate].
  pose proof (reads_only_buildPartEntries (test_gpt FOUR_PARTITIONS)
                (test_state FOUR_PARTITIONS)) as Hsame_store.
  rewrite Hbuild in Hsame_store. cbn [snd] in Hsame_store. rewrite Hsame_store in Hbuild.
  destruct (buildPartEntries_output_parses_back
              (test_state FOUR_PARTITIONS) (test_gpt FOUR_PARTITIONS) v h bytes
              (header_only_state FOUR_PARTITIONS) (header_only_gpt FOUR_PARTITIONS) w h'
              Hv Hh Hbuild Hw Hh' (f_equal GPTHeader.numPartEntries Hsame)
              (f_equal GPTHeader.partEntrySize Hsame))
    as (r & σ3 & Hrun & Hnot & _).
  exists bytes, r, σ3. rewrite Hsame_store. split; [reflexivity|]. split; assumption.
Defined.

(** ** [parsePartEntries]: the checksum verdict *)

(** The canonical array of decoded entries, from the bytes they were decoded
    from: for each entry the first 128 bytes of its slice, then zeros up to
    the entry size. *)
Lemma decoded_entries_padded h data ixs all :
  decode_slices h data ixs = Some all ->
  map (padded_entry (GPTHeader.partEntrySize h)) all =
  map (fun i => take GPTPartitionEntry.size (entry_slice h data i) ++
                replicate (Z.to_nat (GPTHeader.partEntrySize h) - GPTPartitionEntry.size) x00)
    ixs.
Proof.
  revert all. induction ixs as [|i r IH]; intros all Hall; cbn [decode_slices] in Hall.
  - injection Hall as <-. reflexivity.
  - destruct (Nat.ltb_spec (length (entry_slice h data i)) GPTPartitionEntry.size);
      [discriminate|].
    destruct (decode_slices h data r) as [es|]; [|discriminate].
    injection Hall as <-. cbn [map]. rewrite (IH es eq_refl). f_equal.
    unfold padded_entry. rewrite entry_toBuffer_decode by assumption. reflexivity.
Qed.

(** C7, as the code has it. For every GPT with a header and no entries
    stored yet, [parsePartEntries] returns whenever the entry size is at
    least 128, the buffer holds [numPartEntries * partEntrySize] bytes and
    the array of that many bytes is allocated. When it returns, it has
    decoded entry [i] from the [partEntrySize] bytes at offset
    [i * partEntrySize] for each [i < numPartEntries], the GPT stores
    exactly those entries, and the verdict compares the stored entries
    checksum with the CRC-32 of their re-encoding, an array of
    [numPartEntries * partEntrySize] bytes that holds, for each entry, the
    first 128 bytes of its slice of the buffer followed by zeros. The
    outcome depends on the buffer only through the decoded entries: buffers
    that decode alike, in particular buffers that agree on their first
    [numPartEntries * partEntrySize] bytes, give the same result. *)
Theorem parsePartEntries_checksums_canonical_entries σ this v h data :
  snapshot σ this = Some v ->
  value_header v = Some h ->
  value_entries v = [] ->
  let n := GPTHeader.numPartEntries h in
  let s := GPTHeader.partEntrySize h in
  (0 <= n -> 128 <= s -> n * s <= Z.of_nat (length data) ->
   forall array, new_Uint8Array (n * s) = Ok array ->
   exists r σ', GPT.parsePartEntries this data σ = (Ok r, σ')) /\
  (forall r σ',
     GPT.parsePartEntries this data σ = (Ok r, σ') ->
     exists decoded bytes,
       decode_entries h data = Some decoded /\
       length decoded = Z.to_nat n /\
       (forall i, 0 <= i < n ->
          decoded !! Z.to_nat i = Some (GPTPartitionEntry.decode (entry_slice h data i))) /\
       snapshot σ' this = Some (with_entries decoded v) /\
       canonical_entries h decoded = Ok bytes /\
       Z.of_nat (length bytes) = n * s /\
       (0 <= n ->
        bytes =
          concat
            (map (fun i => take GPTPartitionEntry.size (entry_slice h data i) ++
                           replicate (Z.to_nat s - GPTPartitionEntry.size) x00)
               (upto n))) /\
       r = {| result_partEntriesCrc32 := GPTHeader.partEntriesCrc32 h;
              entries_mismatchCrc32 :=
                negb (GPTHeader.partEntriesCrc32 h =? crc32 bytes) |}) /\
  (forall data2,
     decode_entries h data2 = decode_entries h data ->
     fst (GPT.parsePartEntries this data2 σ) = fst (GPT.parsePartEntries this data σ)) /\
  (forall data2,
     take (Z.to_nat (n * s)) data2 = take (Z.to_nat (n * s)) data ->
     fst (GPT.parsePartEntries this data2 σ) = fst (GPT.parsePartEntries this data σ)).
Proof.
  intros Hsnap Hh Hempty n s.
  destruct (parsePartEntries_value σ this v h data Hsnap Hh)
    as (r1 & σ1 & des & Hrun1 & Hsnap1 & Hres).
  rewrite Hempty in *. cbn [app] in *.
  split; [|split; [|split]].
  - intros Hn Hs Hlen array Harray.
    assert (Hmax : n * s <= MAX_SAFE_INTEGER).
    { unfold new_Uint8Array in Harray.
      destruct (Z.ltb_spec (n * s) 0); [discriminate|].
      destruct (Z.ltb_spec MAX_SAFE_INTEGER (n * s)); [discriminate|]. lia. }
    destruct (decode_entries_ok h data Hs Hlen) as (all & Hdec).
    rewrite Hdec in Hres. destruct Hres as (-> & Hr & _).
    destruct (canonical_entries_ok h all Hn Hs Hmax) as (bytes & Hbytes).
    { rewrite (decode_entries_length _ _ _ Hdec). fold n. lia. }
    unfold entries_verdict in Hr. rewrite Hbytes in Hr. cbn [fst] in Hr.
    eexists _, σ1. rewrite Hrun1, Hr. reflexivity.
  - intros r σ' Hrun. rewrite Hrun in Hrun1. inversion Hrun1; subst r1 σ1.
    destruct (decode_entries h data) as [decoded|] eqn:Hdec;
      [|destruct Hres; discriminate].
    destruct Hres as (-> & Hr & _). symmetry in Hr.
    apply entries_verdict_Ok in Hr as (bytes & Hbytes & ->).
    exists decoded, bytes. split; [reflexivity|].
    split; [apply (decode_entries_length _ _ _ Hdec)|].
    split; [intros i Hi; apply (decode_entries_lookup _ _ _ _ Hdec Hi)|].
    split; [exact Hsnap1|]. split; [exact Hbytes|].
    split; [apply (canonical_entries_length _ _ _ Hbytes)|].
    split; [|reflexivity].
    intros Hn.
    destruct (canonical_entries_Ok_inv h decoded bytes Hbytes) as (Hrange & Hpos).
    pose proof Hbytes as Hlayout.
    rewrite (canonical_entries_layout h decoded Hrange Hpos) in Hlayout.
    fold n s in Hlayout. destruct (Z.leb_spec 0 n); [|lia].
    injection Hlayout as <-.
    rewrite firstn_all2 by (rewrite (decode_entries_length _ _ _ Hdec); fold n; lia).
    f_equal. apply (decoded_entries_padded h data). exact Hdec.
  - intros data2 Hdec.
    eapply parsePartEntries_reads_decoded_entries; eauto.
  - intros data2 Htake.
    eapply parsePartEntries_reads_decoded_entries; eauto.
    rewrite <- (decode_entries_take h data2), <- (decode_entries_take h data).
    fold n s. rewrite Htake. reflexivity.
Qed.

Lemma parsePartEntries_checksums_canonical_entries_witness :
  exists r σ',
    GPT.parsePartEntries (header_only_gpt LUN4_PARTITIONS)
      (snd (buildGPTData LUN4_PARTITIONS)) (header_only_state LUN4_PARTITIONS) = (Ok r, σ') /\
    entries_mismatchCrc32 r = false.
Proof.
  destruct (snapshot (header_only_state LUN4_PARTITIONS) (header_only_gpt LUN4_PARTITIONS))
    as [v|] eqn:Hv; [|vm_compute in Hv; discriminate].
  destruct (value_header v) as [h|] eqn:Hh;
    [|vm_compute in Hv; inversion Hv; subst v; discriminate].
  assert (He : value_entries v = []).
  { vm_compute in Hv. inversion Hv; subst v. reflexivity. }
  destruct (parsePartEntries_checksums_canonical_entries
              (header_only_state LUN4_PARTITIONS) (header_only_gpt LUN4_PARTITIONS) v h
              (snd (buildGPTData LUN4_PARTITIONS)) Hv Hh He) as (Hret & _).
  vm_compute in Hv. inversion Hv; subst v. vm_compute in Hh. inversion Hh; subst h.
  cbv zeta in Hret.
  specialize (Hret ltac:(vm_compute; discriminate)).
  specialize (Hret ltac:(vm_compute; discriminate)).
  specialize (Hret ltac:(vm_compute; discriminate)).
  specialize (Hret (replicate 768 x00) ltac:(vm_compute; reflexivity)).
  destruct Hret as (r & σ' & Hrun).
  exists r, σ'. split; [exact Hrun|].
  revert Hrun. vm_compute. intros H; inversion H. reflexivity.
Defined.

(** Against the claim as stated, for a GPT that already stores entries: a
    GPT whose header belongs to the table [boot_b] has first parsed the
    table [boot_a]; it then parses the buffer of [boot_b], whose entries
    re-encode to the checksum the header stores, and still reports a
    mismatch, the verdict being computed from the entry stored first. *)
Lemma parsePartEntries_checksums_stale_entries : ~ checksum_is_over_decoded_entries.
Proof.
  intros Hclaim.
  destruct (snapshot stale_state (header_only_gpt STALE_SECOND)) as [v|] eqn:Hv;
    [|vm_compute in Hv; discriminate].
  destruct (value_header v) as [h|] eqn:Hh;
    [|vm_compute in Hv; inversion Hv; subst v; discriminate].
  destruct (GPT.parsePartEntries (header_only_gpt STALE_SECOND)
              (snd (buildGPTData STALE_SECOND)) stale_state)
    as [[r|e] σ'] eqn:Hrun; [|vm_compute in Hrun; discriminate].
  destruct (Hclaim _ _ _ _ _ _ _ Hv Hh Hrun) as (decoded & bytes & H1 & H2 & H3).
  vm_compute in Hv. inversion Hv; subst v. vm_compute in Hh. inversion Hh; subst h.
  vm_compute in H1. inversion H1; subst decoded.
  vm_compute in H2. inversion H2; subst bytes.
  vm_compute in Hrun. inversion Hrun; subst r.
  vm_compute in H3. discriminate.
Qed.
